(** * vol2mesh: a shallow embedding of the mesh engine

    The development follows [vol2mesh/mesh.py] and [vol2mesh/normals.py].
    Numpy arrays of shape (N,3) are lists of triples; Python exceptions are
    an explicit error type; the attributes of a [Mesh] object are threaded
    through a small state-and-error monad; floating-point arithmetic is an
    interface with an IEEE-754 instance (Rocq's [SpecFloat]). *)

From Stdlib Require Import ZArith QArith Lia Lqa Bool.
From Stdlib Require Import Floats.SpecFloat.
From Stdlib Require OrderedTypeEx.
From stdpp Require Import base tactics option list sorting strings.

Local Open Scope Z_scope.

(** ** Part I: definitions *)

(** *** Triples: one row of an (N,3) array *)

Abbreviation vec3 A := (A * A * A)%type (only parsing).

(** [row[k]] for a row of length three; [None] is Python's IndexError. *)
Definition vget {A} (v : vec3 A) (k : nat) : option A :=
  match v, k with
  | (a, _, _), O => Some a
  | (_, b, _), S O => Some b
  | (_, _, c), S (S O) => Some c
  | _, _ => None
  end.

(** Total indexing for the constant indices 0, 1, 2 used by the code. *)
Definition vnth {A} (v : vec3 A) (k : nat) : A :=
  match v, k with
  | (a, _, _), O => a
  | (_, b, _), S O => b
  | (_, _, c), _ => c
  end.

(** [row[::-1]]: the zyx <-> xyz column reversal. *)
Definition vrev {A} (v : vec3 A) : vec3 A :=
  let '(a, b, c) := v in (c, b, a).

Definition vmap {A B} (f : A → B) (v : vec3 A) : vec3 B :=
  let '(a, b, c) := v in (f a, f b, f c).

Definition vzip {A B C} (f : A → B → C) (u : vec3 A) (v : vec3 B) : vec3 C :=
  let '(a, b, c) := u in let '(x, y, z) := v in (f a x, f b y, f c z).

Definition vlist {A} (v : vec3 A) : list A :=
  let '(a, b, c) := v in [a; b; c].

(** *** Z-order comparison of brick coordinates ([_cmp_zorder]) *)

(** [less_msb(x, y) = x < y and x < (x ^ y)] *)
Definition less_msb (x y : Z) : bool :=
  (x <? y) && (x <? Z.lxor x y).

(** One pass of the loop body: [if less_msb(lhs[msd]^rhs[msd],
    lhs[dim]^rhs[dim]): msd = dim]. *)
Definition zorder_step (lhs rhs : vec3 Z) (msd dim : nat) : nat :=
  if less_msb (Z.lxor (vnth lhs msd) (vnth rhs msd))
              (Z.lxor (vnth lhs dim) (vnth rhs dim))
  then dim else msd.

(** The most significant dimension: [msd = 2], then the loop over [1, 0]. *)
Definition zorder_msd (lhs rhs : vec3 Z) : nat :=
  fold_left (zorder_step lhs rhs) [1; 0]%nat 2%nat.

(** [_cmp_zorder(lhs, rhs)] returns [lhs[msd] - rhs[msd]]. *)
Definition _cmp_zorder (lhs rhs : vec3 Z) : Z :=
  let msd := zorder_msd lhs rhs in
  vnth lhs msd - vnth rhs msd.

(** Python's [sorted]: the sort is stable and only asks whether [a < b] for
    the sort keys; for the short lists sorted here CPython runs a stable
    insertion sort, which is what this is. *)
Section Sorted.
Context {A : Type} (lt : A → A → bool).

Fixpoint sorted_insert (x : A) (l : list A) : list A :=
  match l with
  | [] => [x]
  | y :: l' => if lt x y then x :: y :: l' else y :: sorted_insert x l'
  end.

Definition sorted_lt (l : list A) : list A :=
  fold_left (fun acc x => sorted_insert x acc) l [].
End Sorted.

(** [sorted(xs, key=cmp_to_key(cmp))]: [K(a) < K(b)] is [cmp(a, b) < 0]. *)
Definition sorted_cmp {A} (cmp : A → A → Z) : list A → list A :=
  sorted_lt (fun a b => cmp a b <? 0).

(** The order the comparator induces: [a] sorts before [b]. *)
Definition zorder_lt (a b : vec3 Z) : Prop := _cmp_zorder a b < 0.

(** Number of significant bits of a non-negative integer (0 for 0). *)
Definition bit_size (x : Z) : Z :=
  if x <=? 0 then 0 else Z.log2 x + 1.

(** The loop of [zorder_msd] as a function of the three XOR values. *)
Definition msd_of_xor (d : vec3 Z) : nat :=
  let m1 := if less_msb (vnth d 2) (vnth d 1) then 1%nat else 2%nat in
  if less_msb (vnth d m1) (vnth d 0) then 0%nat else m1.

Definition nonneg_coord (c : vec3 Z) : Prop :=
  0 ≤ vnth c 0 ∧ 0 ≤ vnth c 1 ∧ 0 ≤ vnth c 2.

Definition bounded_coord (n : nat) (c : vec3 Z) : Prop :=
  (0 ≤ vnth c 0 < 2 ^ Z.of_nat n) ∧ (0 ≤ vnth c 1 < 2 ^ Z.of_nat n)
  ∧ (0 ≤ vnth c 2 < 2 ^ Z.of_nat n).

Definition half_coord (c : vec3 Z) : vec3 Z := vmap (fun x => x / 2) c.
Definition low_coord (c : vec3 Z) : vec3 Z := vmap (fun x => x mod 2) c.

(** Every non-negative coordinate fits in some number of bits. *)
Definition coord_bits (c : vec3 Z) : nat :=
  Z.to_nat (Z.max (bit_size (vnth c 0)) (Z.max (bit_size (vnth c 1)) (bit_size (vnth c 2)))).

(** Reference Morton code of a coordinate whose components have at most [n]
    bits: the bits of the three components interleaved, component 0 in the
    least significant place of every group of three. *)
Fixpoint morton (n : nat) (c : vec3 Z) : Z :=
  match n with
  | O => 0
  | S n' =>
      let '(c0, c1, c2) := c in
      8 * morton n' (c0 / 2, c1 / 2, c2 / 2)
      + (c0 mod 2 + 2 * (c1 mod 2) + 4 * (c2 mod 2))
  end.

(** The eight octants of the unit cube, in reference Morton order. *)
Definition octants_morton : list (vec3 Z) :=
  [ (0,0,0); (1,0,0); (0,1,0); (1,1,0); (0,0,1); (1,0,1); (0,1,1); (1,1,1) ].

(** *** Python exceptions and the error monad *)

Inductive runtime_error : Type :=
  | UnknownFileType
  | UnknownCompressionMethod
  | InconsistentNormals.

Inductive exn : Type :=
  | AssertionError
  | IndexError
  | ValueError
  | TypeError
  | AttributeError
  | OSError
  | OverflowError
  | RuntimeError (kind : runtime_error).

Inductive Result (A : Type) : Type :=
  | Ok (a : A)
  | Raise (e : exn).
Arguments Ok {A} a.
Arguments Raise {A} e.

Global Instance result_ret : MRet Result := fun A a => Ok a.
Global Instance result_bind : MBind Result := fun A B f m =>
  match m with Ok a => f a | Raise e => Raise e end.
Global Instance result_fmap : FMap Result := fun A B f m =>
  match m with Ok a => Ok (f a) | Raise e => Raise e end.

(** [assert cond] *)
Definition py_assert (cond : bool) : Result unit :=
  if cond then Ok tt else Raise AssertionError.

(** Apply a fallible function to every element, left to right. *)
Fixpoint result_mapM {A B} (f : A → Result B) (l : list A) : Result (list B) :=
  match l with
  | [] => Ok []
  | x :: l' => y ← f x; ys ← result_mapM f l'; Ok (y :: ys)
  end.

(** *** Numpy indexing *)

(** [a[i]] for an integer index: negative indices count from the end, an
    index outside [-n, n) raises IndexError. *)
Definition np_index {A} (a : list A) (i : Z) : Result A :=
  let n := Z.of_nat (length a) in
  let j := if i <? 0 then n + i else i in
  if (0 <=? j) && (j <? n)
  then match a !! Z.to_nat j with Some x => Ok x | None => Raise IndexError end
  else Raise IndexError.

(** [a[start:start+size]] for non-negative bounds. *)
Definition np_slice {A} (a : list A) (start size : nat) : list A :=
  take size (drop start a).

(** [range(0, stop, step)] for a positive step. *)
Definition py_range_step (stop step : nat) : list nat :=
  map (fun k => k * step)%nat (seq 0 ((stop + step - 1) / step)%nat).

(** [np.concatenate(arrays)]: raises ValueError on an empty sequence. *)
Definition np_concatenate {A} (arrays : list (list A)) : Result (list A) :=
  match arrays with
  | [] => Raise ValueError
  | _ => Ok (concat arrays)
  end.

(** [np.array([n, n, n]).astype(int)] for a Python int [n]: the array is
    int64 when [n] fits, uint64 when [n] fits that, and then the cast to
    int64 wraps around; a larger [n] makes an object array, whose cast
    raises OverflowError. *)
Definition np_array_astype_int (n : Z) : Result Z :=
  if (- 2 ^ 63 <=? n) && (n <? 2 ^ 63) then Ok n
  else if (2 ^ 63 <=? n) && (n <? 2 ^ 64) then Ok (n - 2 ^ 64)
  else Raise OverflowError.

(** *** Floating-point scalars

    The code computes with float32 arrays and, in two places, with float64
    intermediates.  The operations it uses are collected in two interfaces,
    so that results that do not depend on rounding are proved once for
    every arithmetic. *)

Class Float32Ops (F : Type) := {
  f32_eq_dec :: EqDecision F;          (* bit-identical values *)
  f32_zero : F;                        (* np.zeros(...) *)
  f32_add : F → F → F;
  f32_sub : F → F → F;
  f32_mul : F → F → F;
  f32_div : F → F → F;
  f32_sqrt : F → F;
  f32_nonzero : F → bool;              (* x != 0, and the truth value of x *)
  f32_min : F → F → F;                 (* one step of ndarray.min *)
  f32_max : F → F → F;                 (* one step of ndarray.max *)
  f32_ceil : F → F;                    (* np.ceil *)
  f32_to_int32 : F → Z;                (* astype(np.int32) *)
}.

Class Float64Ops (F : Type) := {
  f64_of_int : Z → F;                  (* int64 -> float64 *)
  f64_of_f32 : F → F;                  (* float32 -> float64, exact *)
  f32_of_f64 : F → F;                  (* astype('float32') *)
  f64_add : F → F → F;
  f64_sub : F → F → F;
  f64_mul : F → F → F;
  f64_div : F → F → F;
  f64_half : F;                        (* the literal 0.5 *)
  np_maximum : F → F → F;
  np_minimum : F → F → F;
}.

(** IEEE-754 binary32 and binary64, round to nearest even. *)
Module IEEE.
Definition prec32 : Z := 24.
Definition emax32 : Z := 128.
Definition prec64 : Z := 53.
Definition emax64 : Z := 1024.

Definition is_nan (x : spec_float) : bool :=
  match x with S754_nan => true | _ => false end.

Definition is_zero (x : spec_float) : bool :=
  match x with S754_zero _ => true | _ => false end.

(** Integer to float. *)
Definition of_Z (prec emax : Z) (z : Z) : spec_float :=
  binary_normalize prec emax z 0 false.

(** Conversion between formats (exact when widening). *)
Definition convert (prec emax : Z) (x : spec_float) : spec_float :=
  match x with
  | S754_finite s m e => binary_normalize prec emax (cond_Zopp s (Zpos m)) e s
  | _ => x
  end.

(** [np.maximum(a, b)] is [a if (a >= b or isnan(a)) else b]. *)
Definition maximum (a b : spec_float) : spec_float :=
  if is_nan a || SFleb b a then a else b.

(** [np.minimum(a, b)] is [a if (a <= b or isnan(a)) else b]. *)
Definition minimum (a b : spec_float) : spec_float :=
  if is_nan a || SFleb a b then a else b.

(** [x != 0]: true for NaN. *)
Definition nonzero (x : spec_float) : bool := negb (SFeqb x (S754_zero false)).

(** The integer part of a finite float, rounded towards plus infinity. *)
Definition ceil_Z (s : bool) (m : positive) (e : Z) : Z :=
  match e with
  | Z0 => cond_Zopp s (Zpos m)
  | Zpos p => cond_Zopp s (Zpos m * 2 ^ Zpos p)
  | Zneg p =>
      let q := Zpos m / 2 ^ Zpos p in
      let r := Zpos m mod 2 ^ Zpos p in
      if s then - q else if r =? 0 then q else q + 1
  end.

Definition ceil (prec emax : Z) (x : spec_float) : spec_float :=
  match x with
  | S754_finite s m e => binary_normalize prec emax (ceil_Z s m e) 0 s
  | _ => x
  end.

(** [astype(np.int32)]: truncation towards zero; values that do not fit
    (and NaN) give the "integer indefinite" value of the x86 conversion. *)
Definition to_int32 (x : spec_float) : Z :=
  match x with
  | S754_zero _ => 0
  | S754_finite s m e =>
      let t := match e with
               | Z0 => Zpos m
               | Zpos p => Zpos m * 2 ^ Zpos p
               | Zneg p => Zpos m / 2 ^ Zpos p
               end in
      let z := cond_Zopp s t in
      if (- 2 ^ 31 <=? z) && (z <? 2 ^ 31) then z else - 2 ^ 31
  | _ => - 2 ^ 31
  end.

Global Instance spec_float_eq_dec : EqDecision spec_float.
Proof. solve_decision. Defined.

Definition float32 : Float32Ops spec_float := {|
  f32_zero := S754_zero false;
  f32_add := SFadd prec32 emax32;
  f32_sub := SFsub prec32 emax32;
  f32_mul := SFmul prec32 emax32;
  f32_div := SFdiv prec32 emax32;
  f32_sqrt := SFsqrt prec32 emax32;
  f32_nonzero := nonzero;
  f32_min := minimum;
  f32_max := maximum;
  f32_ceil := ceil prec32 emax32;
  f32_to_int32 := to_int32;
|}.

Definition float64 : Float64Ops spec_float := {|
  f64_of_int := of_Z prec64 emax64;
  f64_of_f32 := convert prec64 emax64;
  f32_of_f64 := convert prec32 emax32;
  f64_add := SFadd prec64 emax64;
  f64_sub := SFsub prec64 emax64;
  f64_mul := SFmul prec64 emax64;
  f64_div := SFdiv prec64 emax64;
  f64_half := S754_finite false 4503599627370496 (-53);
  np_maximum := maximum;
  np_minimum := minimum;
|}.

(** float32 literals used in the examples: an integer, and an integer
    plus one half. *)
Definition lit (z : Z) : spec_float := of_Z prec32 emax32 z.
Definition lit_half (z : Z) : spec_float :=
  binary_normalize prec32 emax32 (2 * z + 1) (-1) false.
End IEEE.

(** *** Face and vertex normals ([normals.py]) *)

Section Normals.
Context {F : Type} {f32 : Float32Ops F}.

(** [vertices_zyx[face]]: the three corners of one face. *)
Definition face_corners (vertices_zyx : list (vec3 F)) (face : vec3 Z)
  : Result (vec3 (vec3 F)) :=
  let '(i0, i1, i2) := face in
  c0 ← np_index vertices_zyx i0;
  c1 ← np_index vertices_zyx i1;
  c2 ← np_index vertices_zyx i2;
  Ok (c0, c1, c2).

(** [np.cross(a, b)] for rows of length three. *)
Definition np_cross (a b : vec3 F) : vec3 F :=
  let '(a0, a1, a2) := a in
  let '(b0, b1, b2) := b in
  (f32_sub (f32_mul a1 b2) (f32_mul a2 b1),
   f32_sub (f32_mul a2 b0) (f32_mul a0 b2),
   f32_sub (f32_mul a0 b1) (f32_mul a1 b0)).

(** [np.linalg.norm(v, axis=-1)] for one row: [sqrt(add.reduce(v * v))]. *)
Definition np_linalg_norm (v : vec3 F) : F :=
  let '(x, y, z) := v in
  f32_sqrt (f32_add (f32_add (f32_mul x x) (f32_mul y y)) (f32_mul z z)).

(** [v1, v2 = np.diff(corners, axis=0)] and [np.cross(v2, v1)] for one face. *)
Definition face_cross (vertices_zyx : list (vec3 F)) (face : vec3 Z)
  : Result (vec3 F) :=
  '(c0, c1, c2) ← face_corners vertices_zyx face;
  let v1 := vzip f32_sub c1 c0 in
  let v2 := vzip f32_sub c2 c1 in
  Ok (np_cross v2 v1).

(** [nz = magnitudes != 0; v[nz, :] /= magnitudes[nz, None]] for one row. *)
Definition normalize_row (v : vec3 F) : vec3 F :=
  let magnitude := np_linalg_norm v in
  if f32_nonzero magnitude then vmap (fun x => f32_div x magnitude) v else v.

Definition compute_face_normals_numpy
    (vertices_zyx : list (vec3 F)) (faces : list (vec3 Z)) (normalize : bool)
  : Result (list (vec3 F)) :=
  v_normal ← result_mapM (face_cross vertices_zyx) faces;
  Ok (if normalize then map normalize_row v_normal else v_normal).

Definition compute_face_normals_numpy_chunked
    (vertices_zyx : list (vec3 F)) (faces : list (vec3 Z)) (normalize : bool)
    (chunksize : nat)
  : Result (list (vec3 F)) :=
  if (chunksize =? 0)%nat then Raise ValueError   (* range() arg 3 is zero *)
  else
    normals ← result_mapM
      (fun i => compute_face_normals_numpy vertices_zyx
                  (np_slice faces i chunksize) normalize)
      (py_range_step (length faces) chunksize);
    np_concatenate normals.

Definition default_chunksize : nat := Z.to_nat 50000.

(** [compute_face_normals]: always the chunked numpy implementation. *)
Definition compute_face_normals
    (vertices_zyx : list (vec3 F)) (faces : list (vec3 Z)) (normalize : bool)
  : Result (list (vec3 F)) :=
  compute_face_normals_numpy_chunked vertices_zyx faces normalize default_chunksize.

(** [a[i] += v] for one row index; the index wraps like [np_index]. *)
Definition row_add_at (a : list (vec3 F)) (i : Z) (v : vec3 F)
  : Result (list (vec3 F)) :=
  old ← np_index a i;
  let n := Z.of_nat (length a) in
  let j := Z.to_nat (if i <? 0 then n + i else i) in
  Ok (<[j := vzip f32_add old v]> a).

(** [np.add.at(a, indices, values)]: unbuffered, one index after the other. *)
Fixpoint np_add_at (a : list (vec3 F)) (indices : list Z) (values : list (vec3 F))
  : Result (list (vec3 F)) :=
  match indices, values with
  | [], [] => Ok a
  | i :: indices', v :: values' =>
      a' ← row_add_at a i v; np_add_at a' indices' values'
  | _, _ => Raise ValueError                      (* shapes do not broadcast *)
  end.

(** Normalise every row whose magnitude is not zero. *)
Definition normalize_rows (rows : list (vec3 F)) : list (vec3 F) :=
  map normalize_row rows.

Definition compute_vertex_normals_numpy
    (vertices_zyx : list (vec3 F)) (faces : list (vec3 Z))
    (weight_by_face_area : bool) (face_normals : option (list (vec3 F)))
  : Result (list (vec3 F)) :=
  face_normals ← match face_normals with
                 | Some fn => Ok fn
                 | None => compute_face_normals_numpy vertices_zyx faces
                             (negb weight_by_face_area)
                 end;
  let vertex_normals := replicate (length vertices_zyx) (f32_zero, f32_zero, f32_zero) in
  vn ← np_add_at vertex_normals (map (fun f => vnth f 0) faces) face_normals;
  vn ← np_add_at vn (map (fun f => vnth f 1) faces) face_normals;
  vn ← np_add_at vn (map (fun f => vnth f 2) faces) face_normals;
  Ok (normalize_rows vn).

(** The numba loops of [compute_face_normals_numba]: both edges start at
    corner 0. *)
Definition face_normal_numba (vertices_zyx : list (vec3 F)) (normalize : bool)
    (face : vec3 Z) : Result (vec3 F) :=
  '(c0, c1, c2) ← face_corners vertices_zyx face;
  let v1 := vzip f32_sub c1 c0 in
  let v2 := vzip f32_sub c2 c0 in
  let v_normal := np_cross v2 v1 in
  Ok (if normalize then normalize_row v_normal else v_normal).

Definition compute_face_normals_numba
    (vertices_zyx : list (vec3 F)) (faces : list (vec3 Z)) (normalize : bool)
  : Result (list (vec3 F)) :=
  result_mapM (face_normal_numba vertices_zyx normalize) faces.

(** The accumulation loop of [compute_vertex_normals_numba]: face by face,
    corner by corner.  (Indexing is modelled with bounds checks.) *)
Fixpoint vertex_normals_numba_loop (vn : list (vec3 F)) (faces : list (vec3 Z))
    (face_normals : list (vec3 F)) : Result (list (vec3 F)) :=
  match faces with
  | [] => Ok vn
  | face :: faces' =>
      match face_normals with
      | [] => Raise IndexError
      | fn :: face_normals' =>
          vn ← row_add_at vn (vnth face 0) fn;
          vn ← row_add_at vn (vnth face 1) fn;
          vn ← row_add_at vn (vnth face 2) fn;
          vertex_normals_numba_loop vn faces' face_normals'
      end
  end.

Definition compute_vertex_normals_numba
    (vertices_zyx : list (vec3 F)) (faces : list (vec3 Z))
    (weight_by_face_area : bool) (face_normals : option (list (vec3 F)))
  : Result (list (vec3 F)) :=
  face_normals ← match face_normals with
                 | Some fn => Ok fn
                 | None => compute_face_normals_numba vertices_zyx faces
                             (negb weight_by_face_area)
                 end;
  let vertex_normals := replicate (length vertices_zyx) (f32_zero, f32_zero, f32_zero) in
  vn ← vertex_normals_numba_loop vertex_normals faces face_normals;
  Ok (normalize_rows vn).

(** [compute_vertex_normals]; [_numba_available] is a fact about the
    installation and is a parameter here. *)
Definition compute_vertex_normals (_numba_available : bool)
    (vertices_zyx : list (vec3 F)) (faces : list (vec3 Z))
    (weight_by_face_area : bool) (face_normals : option (list (vec3 F)))
  : Result (list (vec3 F)) :=
  face_normals ← match face_normals with
                 | Some fn => Ok fn
                 | None => compute_face_normals_numpy_chunked vertices_zyx faces
                             (negb weight_by_face_area) default_chunksize
                 end;
  if _numba_available
  then compute_vertex_normals_numba vertices_zyx faces weight_by_face_area
         (Some face_normals)
  else compute_vertex_normals_numpy vertices_zyx faces weight_by_face_area
         (Some face_normals).

(** A row with no component different from zero. *)
Definition zero_row (v : vec3 F) : Prop :=
  let '(x, y, z) := v in
  f32_nonzero x = false ∧ f32_nonzero y = false ∧ f32_nonzero z = false.

(** [row.any()] *)
Definition row_any (v : vec3 F) : bool :=
  let '(x, y, z) := v in f32_nonzero x || f32_nonzero y || f32_nonzero z.

(** The cross product of the two edge vectors of the face, as the code
    computes it in float32, has no component different from zero.  This is
    narrower than zero area: rounding or overflow can make the computed
    cross product of a triangle of zero area different from zero. *)
Definition degenerate_face (vertices_zyx : list (vec3 F)) (face : vec3 Z) : Prop :=
  ∃ n, face_cross vertices_zyx face = Ok n ∧ zero_row n.

End Normals.

(** Every index of the face addresses a row of an array with [n] rows. *)
Definition face_in_range (n : nat) (face : vec3 Z) : Prop :=
  let '(i0, i1, i2) := face in
  (- Z.of_nat n ≤ i0 < Z.of_nat n) ∧ (- Z.of_nat n ≤ i1 < Z.of_nat n)
  ∧ (- Z.of_nat n ≤ i2 < Z.of_nat n).

(** An IEEE row whose three components are zeros (of either sign): it
    compares equal to (0,0,0) and has no NaN component. *)
Definition ieee_zero_vector (v : vec3 spec_float) : Prop :=
  let '(x, y, z) := v in
  IEEE.is_zero x = true ∧ IEEE.is_zero y = true ∧ IEEE.is_zero z = true.

(** A float that is a number: a zero or a finite value. *)
Definition ieee_finite (x : spec_float) : bool :=
  match x with
  | S754_zero _ | S754_finite _ _ _ => true
  | _ => false
  end.

Definition ieee_finite_row (v : vec3 spec_float) : bool :=
  let '(x, y, z) := v in ieee_finite x && ieee_finite y && ieee_finite z.

(** The number a float stands for; none for an infinity or a NaN. *)
Definition float_value (x : spec_float) : option Q :=
  match x with
  | S754_zero _ => Some 0%Q
  | S754_finite s m e => Some (inject_Z (cond_Zopp s (Zpos m)) * 2 ^ e)%Q
  | _ => None
  end.

Definition exact_position (c : vec3 spec_float) : option (vec3 Q) :=
  let '(x, y, z) := c in
  x ← float_value x; y ← float_value y; z ← float_value z; Some (x, y, z).

(** The cross product of two rows of numbers is zero. *)
Definition exact_cross_is_zero (a b : vec3 Q) : Prop :=
  let '(a0, a1, a2) := a in
  let '(b0, b1, b2) := b in
  (a1 * b2 - a2 * b1 == 0 ∧ a2 * b0 - a0 * b2 == 0 ∧ a0 * b1 - a1 * b0 == 0)%Q.

(** A triangle of zero area, given by its three corners: in exact
    arithmetic, the cross product of its two edge vectors is zero. *)
Definition zero_area (corners : vec3 (vec3 spec_float)) : Prop :=
  let '(c0, c1, c2) := corners in
  ∃ p0 p1 p2,
    exact_position c0 = Some p0 ∧ exact_position c1 = Some p1
    ∧ exact_position c2 = Some p2
    ∧ exact_cross_is_zero (vzip Qminus p2 p1) (vzip Qminus p1 p0).

(** Two rows are the same position: the components compare equal ([==],
    so a zero equals the zero of the other sign). *)
Definition same_position (c c' : vec3 spec_float) : Prop :=
  let '(x, y, z) := c in
  let '(x', y', z') := c' in
  SFeqb x x' = true ∧ SFeqb y y' = true ∧ SFeqb z z' = true.

(** Two of the three corners of a triangle are the same position. *)
Definition repeated_corner (corners : vec3 (vec3 spec_float)) : Prop :=
  let '(c0, c1, c2) := corners in
  same_position c0 c1 ∨ same_position c1 c2 ∨ same_position c0 c2.

(** The products that [np.cross(a, b)] subtracts from one another. *)
Definition cross_products (a b : vec3 spec_float) : list spec_float :=
  let '(a0, a1, a2) := a in
  let '(b0, b1, b2) := b in
  let mul := f32_mul (Float32Ops := IEEE.float32) in
  [mul a1 b2; mul a2 b1; mul a2 b0; mul a0 b2; mul a0 b1; mul a1 b0].

(** Nothing overflows in the cross product of a triangle, and no coordinate
    is infinite or NaN: the two edge vectors and the six products, as the
    code computes them in float32, are numbers. *)
Definition cross_in_range (corners : vec3 (vec3 spec_float)) : bool :=
  let '(c0, c1, c2) := corners in
  let v1 := vzip (f32_sub (Float32Ops := IEEE.float32)) c1 c0 in
  let v2 := vzip (f32_sub (Float32Ops := IEEE.float32)) c2 c1 in
  ieee_finite_row v1 && ieee_finite_row v2
  && forallb ieee_finite (cross_products v2 v1).

(** Swapping the operands of a float subtraction negates the result, or
    both results are zeros. *)
Definition swapped (u w : spec_float) : Prop :=
  w = SFopp u ∨ (IEEE.is_zero u = true ∧ IEEE.is_zero w = true).

(** *** The mesh entity ([class Mesh]) *)

Definition bytes : Type := list Byte.byte.

(** The collaborators the mesh engine calls but does not define: the Draco
    codec of [dvidutils], the LZ4 frame codec, the [.obj] and [.ngmesh]
    readers, the raw memory of numpy arrays, [os.path.splitext], and two
    facts about the installation. *)
Class External (F : Type) := {
  _dvidutils_available : bool;
  _numba_available : bool;
  encode_faces_to_drc_bytes :
    list (vec3 F) → list (vec3 F) → list (vec3 Z) → Result bytes;
  encode_faces_to_custom_drc_bytes :
    list (vec3 F) → list (vec3 F) → list (vec3 Z) →
    option (vec3 Z) → option (vec3 Z) → Z → Result bytes;
  decode_drc_bytes_to_faces :
    bytes → Result (list (vec3 F) * list (vec3 F) * list (vec3 Z));
  lz4_frame_compress : bytes → bytes;
  lz4_frame_decompress : bytes → Result bytes;
  (** the buffer of [a.reshape(-1)] and [np.frombuffer(b, dtype).reshape((-1,3))] *)
  float32_buffer : list (vec3 F) → bytes;
  float32_frombuffer : bytes → Result (list (vec3 F));
  uint32_buffer : list (vec3 Z) → bytes;
  uint32_frombuffer : bytes → Result (list (vec3 Z));
  read_obj : bytes → Result (list (vec3 F) * list (vec3 Z) * list (vec3 F));
  read_ngmesh : bytes → Result (list (vec3 F) * list (vec3 Z));
  (** [os.path.splitext(path)[1]] *)
  splitext_ext : string → string;
}.

(** The attributes of a [Mesh] object; [None] is Python's [None].
    ([composite_fragments] is always [None] and is left out.) *)
Record Mesh (F : Type) : Type := mkMesh {
  pickle_compression_method : option string;
  _destroyed : bool;
  _vertices_zyx : option (list (vec3 F));
  _faces : option (list (vec3 Z));
  _normals_zyx : option (list (vec3 F));
  _draco_bytes : option bytes;
  _lz4_items : option (list bytes);
  fullscale_fragment_shape : option (vec3 Z);
  fullscale_fragment_origin : option (vec3 Z);
  _fragment_shape : option (vec3 Z);
  _fragment_origin : option (vec3 Z);
  box : vec3 Z * vec3 Z;
}.
Arguments mkMesh {F}.
Arguments pickle_compression_method {F}.
Arguments _destroyed {F}.
Arguments _vertices_zyx {F}.
Arguments _faces {F}.
Arguments _normals_zyx {F}.
Arguments _draco_bytes {F}.
Arguments _lz4_items {F}.
Arguments fullscale_fragment_shape {F}.
Arguments fullscale_fragment_origin {F}.
Arguments _fragment_shape {F}.
Arguments _fragment_origin {F}.
Arguments box {F}.

(** A method of a mesh object: it reads and updates [self] and may raise. *)
Definition Method (F A : Type) : Type := Mesh F → Result (A * Mesh F).

Section MeshState.
Context {F : Type}.

(** Attribute assignment. *)
Definition set__destroyed (b : bool) (m : Mesh F) : Mesh F :=
  mkMesh (pickle_compression_method m) b (_vertices_zyx m) (_faces m)
    (_normals_zyx m) (_draco_bytes m) (_lz4_items m)
    (fullscale_fragment_shape m) (fullscale_fragment_origin m)
    (_fragment_shape m) (_fragment_origin m) (box m).
Definition set__vertices_zyx (v : option (list (vec3 F))) (m : Mesh F) : Mesh F :=
  mkMesh (pickle_compression_method m) (_destroyed m) v (_faces m)
    (_normals_zyx m) (_draco_bytes m) (_lz4_items m)
    (fullscale_fragment_shape m) (fullscale_fragment_origin m)
    (_fragment_shape m) (_fragment_origin m) (box m).
Definition set__faces (f : option (list (vec3 Z))) (m : Mesh F) : Mesh F :=
  mkMesh (pickle_compression_method m) (_destroyed m) (_vertices_zyx m) f
    (_normals_zyx m) (_draco_bytes m) (_lz4_items m)
    (fullscale_fragment_shape m) (fullscale_fragment_origin m)
    (_fragment_shape m) (_fragment_origin m) (box m).
Definition set__normals_zyx (n : option (list (vec3 F))) (m : Mesh F) : Mesh F :=
  mkMesh (pickle_compression_method m) (_destroyed m) (_vertices_zyx m) (_faces m)
    n (_draco_bytes m) (_lz4_items m)
    (fullscale_fragment_shape m) (fullscale_fragment_origin m)
    (_fragment_shape m) (_fragment_origin m) (box m).
Definition set__draco_bytes (b : option bytes) (m : Mesh F) : Mesh F :=
  mkMesh (pickle_compression_method m) (_destroyed m) (_vertices_zyx m) (_faces m)
    (_normals_zyx m) b (_lz4_items m)
    (fullscale_fragment_shape m) (fullscale_fragment_origin m)
    (_fragment_shape m) (_fragment_origin m) (box m).
Definition set__lz4_items (l : option (list bytes)) (m : Mesh F) : Mesh F :=
  mkMesh (pickle_compression_method m) (_destroyed m) (_vertices_zyx m) (_faces m)
    (_normals_zyx m) (_draco_bytes m) l
    (fullscale_fragment_shape m) (fullscale_fragment_origin m)
    (_fragment_shape m) (_fragment_origin m) (box m).
Definition set_fullscale_fragment_shape (s : option (vec3 Z)) (m : Mesh F) : Mesh F :=
  mkMesh (pickle_compression_method m) (_destroyed m) (_vertices_zyx m) (_faces m)
    (_normals_zyx m) (_draco_bytes m) (_lz4_items m)
    s (fullscale_fragment_origin m)
    (_fragment_shape m) (_fragment_origin m) (box m).
Definition set_fullscale_fragment_origin (o : option (vec3 Z)) (m : Mesh F) : Mesh F :=
  mkMesh (pickle_compression_method m) (_destroyed m) (_vertices_zyx m) (_faces m)
    (_normals_zyx m) (_draco_bytes m) (_lz4_items m)
    (fullscale_fragment_shape m) o
    (_fragment_shape m) (_fragment_origin m) (box m).
Definition set__fragment_shape (s : option (vec3 Z)) (m : Mesh F) : Mesh F :=
  mkMesh (pickle_compression_method m) (_destroyed m) (_vertices_zyx m) (_faces m)
    (_normals_zyx m) (_draco_bytes m) (_lz4_items m)
    (fullscale_fragment_shape m) (fullscale_fragment_origin m)
    s (_fragment_origin m) (box m).
Definition set__fragment_origin (o : option (vec3 Z)) (m : Mesh F) : Mesh F :=
  mkMesh (pickle_compression_method m) (_destroyed m) (_vertices_zyx m) (_faces m)
    (_normals_zyx m) (_draco_bytes m) (_lz4_items m)
    (fullscale_fragment_shape m) (fullscale_fragment_origin m)
    (_fragment_shape m) o (box m).
Definition set_box (b : vec3 Z * vec3 Z) (m : Mesh F) : Mesh F :=
  mkMesh (pickle_compression_method m) (_destroyed m) (_vertices_zyx m) (_faces m)
    (_normals_zyx m) (_draco_bytes m) (_lz4_items m)
    (fullscale_fragment_shape m) (fullscale_fragment_origin m)
    (_fragment_shape m) (_fragment_origin m) b.

Definition method_ret {A} (a : A) : Method F A := fun self => Ok (a, self).
Definition method_bind {A B} (c : Method F A) (k : A → Method F B) : Method F B :=
  fun self => match c self with
              | Ok (a, self') => k a self'
              | Raise e => Raise e
              end.
Definition method_lift {A} (r : Result A) : Method F A :=
  fun self => match r with Ok a => Ok (a, self) | Raise e => Raise e end.
Definition method_get {A} (field : Mesh F → A) : Method F A :=
  fun self => Ok (field self, self).
Definition method_set (update : Mesh F → Mesh F) : Method F unit :=
  fun self => Ok (tt, update self).
Definition method_raise {A} (e : exn) : Method F A := fun _ => Raise e.

(** Reading an attribute that must not be [None]. *)
Definition not_None {A} (o : option A) : Method F A :=
  match o with Some a => method_ret a | None => method_raise TypeError end.

End MeshState.

Global Instance method_mret {F} : MRet (Method F) := @method_ret F.
Global Instance method_mbind {F} : MBind (Method F) :=
  fun A B k c => method_bind c k.

(** *** The compression state machine *)

Section Compression.
Context {F : Type} {ext : External F}.

Definition _uncompress_from_draco : Method F unit :=
  method_lift (py_assert _dvidutils_available);;
  draco_bytes ← method_get _draco_bytes;
  draco_bytes ← not_None draco_bytes;
  '(vertices_xyz, normals_xyz, faces) ←
    method_lift (decode_drc_bytes_to_faces draco_bytes);
  method_set (set__faces (Some faces));;
  method_set (set__vertices_zyx (Some (map vrev vertices_xyz)));;
  method_set (set__normals_zyx (Some (map vrev normals_xyz)));;
  method_set (set__draco_bytes None).

(** The items were compressed twice, so each is decompressed twice. *)
Definition _uncompress_from_lz4 : Method F unit :=
  items ← method_get _lz4_items;
  items ← not_None items;
  uncompressed ← method_lift (result_mapM lz4_frame_decompress items);
  method_set (set__lz4_items None);;
  uncompressed ← method_lift (result_mapM lz4_frame_decompress uncompressed);
  match uncompressed with
  | [vertices_buf; normals_buf; faces_buf] =>
      vertices ← method_lift (float32_frombuffer vertices_buf);
      method_set (set__vertices_zyx (Some vertices));;
      normals ← method_lift (float32_frombuffer normals_buf);
      method_set (set__normals_zyx (Some normals));;
      faces ← method_lift (uint32_frombuffer faces_buf);
      method_set (set__faces (Some faces))
  | _ => method_raise ValueError
  end.

Definition is_Some_b {A} (o : option A) : bool :=
  match o with Some _ => true | None => false end.

Definition _uncompress : Method F unit :=
  draco_bytes ← method_get _draco_bytes;
  lz4_items ← method_get _lz4_items;
  (if is_Some_b draco_bytes then _uncompress_from_draco
   else if is_Some_b lz4_items then _uncompress_from_lz4
   else mret tt);;
  v ← method_get _vertices_zyx; method_lift (py_assert (is_Some_b v));;
  n ← method_get _normals_zyx; method_lift (py_assert (is_Some_b n));;
  f ← method_get _faces; method_lift (py_assert (is_Some_b f)).

(** The decorator [auto_uncompress]. *)
Definition auto_uncompress {A} (f : Method F A) : Method F A :=
  destroyed ← method_get _destroyed;
  method_lift (py_assert (negb destroyed));;
  v ← method_get _vertices_zyx;
  (if is_Some_b v then mret tt else _uncompress);;
  f.

(** The properties [vertices_zyx], [faces], [normals_zyx] and their setters. *)
Definition vertices_zyx : Method F (list (vec3 F)) :=
  auto_uncompress (v ← method_get _vertices_zyx; not_None v).
Definition set_vertices_zyx (new_vertices_zyx : list (vec3 F)) : Method F unit :=
  auto_uncompress (method_set (set__vertices_zyx (Some new_vertices_zyx))).
Definition faces : Method F (list (vec3 Z)) :=
  auto_uncompress (f ← method_get _faces; not_None f).
Definition set_faces (new_faces : list (vec3 Z)) : Method F unit :=
  auto_uncompress (method_set (set__faces (Some new_faces))).
Definition normals_zyx : Method F (list (vec3 F)) :=
  auto_uncompress (n ← method_get _normals_zyx; not_None n).
Definition set_normals_zyx (new_normals_zyx : list (vec3 F)) : Method F unit :=
  auto_uncompress (method_set (set__normals_zyx (Some new_normals_zyx))).

(** [a.nbytes] of an (N,3) array of 4-byte items. *)
Definition nbytes {A} (a : list A) : nat := (12 * length a)%nat.

Definition _compress_as_draco : Method F nat :=
  method_lift (py_assert _dvidutils_available);;
  draco_bytes ← method_get _draco_bytes;
  (if is_Some_b draco_bytes then mret tt
   else
     _uncompress;;
     v ← method_get _vertices_zyx; v ← not_None v;
     n ← method_get _normals_zyx; n ← not_None n;
     f ← method_get _faces; f ← not_None f;
     b ← method_lift (encode_faces_to_drc_bytes (map vrev v) (map vrev n) f);
     method_set (set__draco_bytes (Some b));;
     method_set (set__vertices_zyx None);;
     method_set (set__normals_zyx None);;
     method_set (set__faces None));;
  draco_bytes ← method_get _draco_bytes;
  draco_bytes ← not_None draco_bytes;
  mret (length draco_bytes).

Definition _compress_as_custom_draco : Method F nat :=
  method_lift (py_assert _dvidutils_available);;
  draco_bytes ← method_get _draco_bytes;
  (if is_Some_b draco_bytes then mret tt
   else
     _uncompress;;
     v ← method_get _vertices_zyx; v ← not_None v;
     n ← method_get _normals_zyx; n ← not_None n;
     f ← method_get _faces; f ← not_None f;
     shape ← method_get _fragment_shape;
     origin ← method_get _fragment_origin;
     b ← method_lift (encode_faces_to_custom_drc_bytes (map vrev v) (map vrev n) f
                        shape origin 10);
     method_set (set__draco_bytes (Some b));;
     method_set (set__vertices_zyx None);;
     method_set (set__normals_zyx None);;
     method_set (set__faces None));;
  draco_bytes ← method_get _draco_bytes;
  draco_bytes ← not_None draco_bytes;
  mret (length draco_bytes).

Definition _compress_as_lz4 : Method F nat :=
  lz4_items ← method_get _lz4_items;
  (if is_Some_b lz4_items then mret tt
   else
     _uncompress;;
     v ← method_get _vertices_zyx; v ← not_None v;
     let c1 := lz4_frame_compress (float32_buffer v) in
     method_set (set__vertices_zyx None);;
     n ← method_get _normals_zyx; n ← not_None n;
     let c2 := lz4_frame_compress (float32_buffer n) in
     method_set (set__normals_zyx None);;
     f ← method_get _faces; f ← not_None f;
     let c3 := lz4_frame_compress (uint32_buffer f) in
     method_set (set__faces None);;
     method_set (set__lz4_items (Some (map lz4_frame_compress [c1; c2; c3]))));;
  lz4_items ← method_get _lz4_items;
  lz4_items ← not_None lz4_items;
  mret (sum_list (map length lz4_items)).

(** [compress(method)]; [None] is Python's [None]. *)
Definition compress (method : option string) : Method F nat :=
  match method with
  | None =>
      v ← vertices_zyx; f ← faces; n ← normals_zyx;
      mret (nbytes v + nbytes f + nbytes n)%nat
  | Some method =>
      if String.eqb method "draco" then _compress_as_draco
      else if String.eqb method "custom_draco" then _compress_as_custom_draco
      else if String.eqb method "lz4" then _compress_as_lz4
      else method_raise (RuntimeError UnknownCompressionMethod)
  end.

Definition destroy : Method F unit :=
  method_set (set__draco_bytes None);;
  method_set (set__vertices_zyx None);;
  method_set (set__faces None);;
  method_set (set__normals_zyx None);;
  method_set (set__destroyed true).

Definition drop_normals : Method F unit := set_normals_zyx [].

(** The mesh holds no uncompressed arrays, and holds an encoded form. *)
Definition compressed (m : Mesh F) : Prop :=
  _vertices_zyx m = None ∧ _faces m = None ∧ _normals_zyx m = None
  ∧ (is_Some (_draco_bytes m) ∨ is_Some (_lz4_items m)).

(** The size the encoded form reports. *)
Definition cached_size (m : Mesh F) : option nat :=
  match _draco_bytes m, _lz4_items m with
  | Some b, _ => Some (length b)
  | None, Some items => Some (sum_list (map length items))
  | None, None => None
  end.

End Compression.

(** *** Construction, normals and stitching *)

Definition MESH_FORMATS : list string := ["obj"; "drc"; "custom_drc"; "ngmesh"].

Definition MAX_INT : Z := 2 ^ 31 - 1.
Definition MIN_INT : Z := - 2 ^ 31.

(** The box of a mesh without vertices: it has no effect in a union. *)
Definition empty_box : vec3 Z * vec3 Z :=
  ((MAX_INT, MAX_INT, MAX_INT), (MIN_INT, MIN_INT, MIN_INT)).

(** Storing an integer in a uint32 array. *)
Definition as_uint32 (z : Z) : Z := z mod 2 ^ 32.

(** [rows[mask]] for a boolean mask of the same length. *)
Fixpoint mask_rows {A} (mask : list bool) (rows : list A) : list A :=
  match mask, rows with
  | b :: mask', r :: rows' =>
      if b then r :: mask_rows mask' rows' else mask_rows mask' rows'
  | _, _ => []
  end.

Section MeshMethods.
Context {F : Type} {f32 : Float32Ops F} {ext : External F}.

(** [a.min(axis=0)] and [a.max(axis=0)] of a non-empty array. *)
Definition column_reduce (op : F → F → F) (first : vec3 F) (rest : list (vec3 F))
  : vec3 F :=
  fold_left (vzip op) rest first.

(** [Mesh.__init__]; arguments that default to [None] are options. *)
Definition Mesh_init
    (vertices_zyx : list (vec3 F)) (faces : list (vec3 Z))
    (normals_zyx : option (list (vec3 F))) (box : option (vec3 Z * vec3 Z))
    (fragment_shape fragment_origin : option (vec3 Z))
    (pickle_compression_method : option string)
  : Result (Mesh F) :=
  py_assert (match pickle_compression_method with
             | None => true
             | Some s => bool_decide (s ∈ ["lz4"; "draco"; "custom_draco"])
             end);;
  let faces := map (vmap as_uint32) faces in
  normals ← match normals_zyx with
            | None => Ok []
            | Some n =>
                py_assert ((length n =? length vertices_zyx)%nat
                           || (length n =? 0)%nat);;
                Ok n
            end;
  let box :=
    match box with
    | Some b => b
    | None =>
        match vertices_zyx with
        | [] => empty_box
        | v :: vs =>
            (vmap f32_to_int32 (column_reduce f32_min v vs),
             vmap f32_to_int32 (vmap f32_ceil (column_reduce f32_max v vs)))
        end
    end in
  Ok (mkMesh pickle_compression_method false (Some vertices_zyx) (Some faces)
        (Some normals) None None fragment_shape fragment_origin
        fragment_shape fragment_origin box).

(** The mesh [Mesh(np.zeros((0,3)), np.zeros((0,3)))]. *)
Definition empty_mesh : Mesh F :=
  mkMesh (Some "lz4") false (Some []) (Some []) (Some []) None None
    None None None None empty_box.

Definition recompute_normals (remove_degenerate_faces : bool) : Method F unit :=
  v ← vertices_zyx;
  f ← faces;
  face_normals ← method_lift (compute_face_normals v f false);
  face_normals ←
    (if remove_degenerate_faces then
       let good_faces := map row_any face_normals in
       if forallb id good_faces then mret face_normals
       else
         f ← faces;
         set_faces (mask_rows good_faces f);;
         mret (mask_rows good_faces face_normals)
     else mret face_normals);
  f ← faces;
  if (length f =? 0)%nat then
    set_vertices_zyx [];;
    set_normals_zyx []
  else
    v ← vertices_zyx;
    f ← faces;
    n ← method_lift (compute_vertex_normals _numba_available v f false
                       (Some face_normals));
    set_normals_zyx n.

(** Modelled from the spec: [vol2mesh.util.first_occurrences] is imported by
    [mesh.py] but its source is not available.  The spec says that for each
    group of bit-identical vertex positions all members map to the index of
    the first occurrence in list order; the function returns one row
    [(dup_index, orig_index)] for every vertex that repeats an earlier one. *)
Fixpoint first_occurrences_from (seen : list (vec3 F)) (rest : list (vec3 F))
  : list (Z * Z) :=
  match rest with
  | [] => []
  | v :: rest' =>
      match list_find (fun u => u = v) seen with
      | Some (j, _) =>
          (Z.of_nat (length seen), Z.of_nat j)
            :: first_occurrences_from (seen ++ [v]) rest'
      | None => first_occurrences_from (seen ++ [v]) rest'
      end
  end.

Definition first_occurrences (vertices_zyx : list (vec3 F)) : list (Z * Z) :=
  first_occurrences_from [] vertices_zyx.

(** No two rows are bit-identical. *)
Definition no_duplicate_vertices (vertices_zyx : list (vec3 F)) : Prop :=
  NoDup vertices_zyx.

(** [LabelMapper(dup, orig).apply_inplace(faces, allow_unmapped=True)] for
    one index. *)
Definition label_map (pairs : list (Z * Z)) (i : Z) : Z :=
  match list_find (fun p => fst p = i) pairs with
  | Some (_, (_, orig)) => orig
  | None => i
  end.

(** [mapping = np.arange(n); mapping[dup_indices] = orig_indices] *)
Definition remap_table (n : nat) (pairs : list (Z * Z)) : list Z :=
  fold_left (fun mapping p => <[Z.to_nat (fst p) := snd p]> mapping)
    pairs (map Z.of_nat (seq 0 n)).

(** [table[faces]] *)
Definition index_faces (table : list Z) (faces : list (vec3 Z))
  : Result (list (vec3 Z)) :=
  result_mapM (fun '(i0, i1, i2) =>
      j0 ← np_index table i0; j1 ← np_index table i1; j2 ← np_index table i2;
      Ok (j0, j1, j2)) faces.

(** [np.delete(rows, indices, axis=0)] *)
Definition np_delete {A} (rows : list A) (indices : list nat) : Result (list A) :=
  if forallb (fun i => i <? length rows)%nat indices
  then Ok (omap (fun '(i, r) => if bool_decide (i ∈ indices) then None else Some r)
             (imap pair rows))
  else Raise IndexError.

Definition drop_unused_vertices : Method F unit :=
  f ← faces;
  let _used_vertices := concat (map vlist f) in
  v ← vertices_zyx;
  let unused_vertices :=
    filter (fun i => Z.of_nat i ∉ _used_vertices) (seq 0 (length v)) in
  (* shiftmap[i] = i - (number of unused vertices below i) *)
  let shiftmap :=
    map (fun i => Z.of_nat i
                  - Z.of_nat (length (filter (fun j => (j < i)%nat) unused_vertices)))
        (seq 0 (length v)) in
  f ← faces;
  f' ← method_lift (index_faces shiftmap f);
  set_faces f';;
  v ← vertices_zyx;
  v' ← method_lift (np_delete v unused_vertices);
  set_vertices_zyx v';;
  n ← normals_zyx;
  if (0 <? length n)%nat then
    n ← normals_zyx;
    n' ← method_lift (np_delete n unused_vertices);
    set_normals_zyx n'
  else mret tt.

(** [np.sort(face)] for one row. *)
Definition sort_row (face : vec3 Z) : vec3 Z :=
  match sorted_lt Z.ltb (vlist face) with
  | [a; b; c] => (a, b, c)
  | _ => face
  end.

(** Keep the rows whose key did not occur before ([duplicated()] is false). *)
Fixpoint drop_duplicated {A K} `{EqDecision K} (key : A → K) (seen : list K)
    (rows : list A) : list A :=
  match rows with
  | [] => []
  | r :: rows' =>
      if bool_decide (key r ∈ seen) then drop_duplicated key seen rows'
      else r :: drop_duplicated key (key r :: seen) rows'
  end.

Definition _drop_duplicate_faces : Method F unit :=
  f ← faces;
  set_faces (drop_duplicated sort_row [] f).

Definition stitch_adjacent_faces (drop_unused : bool) (drop_duplicate_faces : bool)
  : Method F bool :=
  n ← normals_zyx;
  let need_normals := (0 <? length n)%nat in
  v ← vertices_zyx;
  let mapping_pairs := first_occurrences v in
  if (length mapping_pairs =? 0)%nat then
    (if need_normals then recompute_normals true else mret tt);;
    mret false
  else
    drop_normals;;
    (if _dvidutils_available then
       f ← faces;
       set_faces (map (vmap (label_map mapping_pairs)) f)
     else
       v ← vertices_zyx;
       let mapping := remap_table (length v) mapping_pairs in
       f ← faces;
       f' ← method_lift (index_faces mapping f);
       set_faces (map (vmap as_uint32) f'));;
    (if drop_unused then drop_unused_vertices else mret tt);;
    (if drop_duplicate_faces then _drop_duplicate_faces else mret tt);;
    (if need_normals then recompute_normals true else mret tt);;
    mret true.

End MeshMethods.

(** *** Laplacian smoothing *)

Section Smoothing.
Context {F : Type} {f32 : Float32Ops F} {f64 : Float64Ops F} {ext : External F}.

(** [all_edges] with every pair sorted, duplicates dropped (first kept),
    then ordered by [(v1_id, v2_id)]. *)
Definition sort_pair (e : Z * Z) : Z * Z :=
  let '(a, b) := e in if b <? a then (b, a) else (a, b).

Definition pair_ltb (e1 e2 : Z * Z) : bool :=
  (fst e1 <? fst e2) || ((fst e1 =? fst e2) && (snd e1 <? snd e2)).

Definition unique_edges (faces : list (vec3 Z)) : list (Z * Z) :=
  let all_edges :=
    map (fun f => (vnth f 0, vnth f 1)) faces
    ++ map (fun f => (vnth f 1, vnth f 2)) faces
    ++ map (fun f => (vnth f 2, vnth f 0)) faces in
  let all_edges := map sort_pair all_edges in
  let edges := drop_duplicated (fun e => e) [] all_edges in
  sorted_lt pair_ltb edges.

(** [np.bincount(ids, minlength=n)]: negative ids raise ValueError. *)
Definition np_bincount (ids : list Z) (minlength : nat) : Result (list Z) :=
  if forallb (fun i => 0 <=? i) ids then
    let n := Nat.max minlength (Z.to_nat (foldr Z.max (-1) ids + 1)) in
    Ok (map (fun k => Z.of_nat (length (filter (fun i => i = Z.of_nat k) ids)))
          (seq 0 n))
  else Raise ValueError.

(** [rows[ids, :]] *)
Definition np_take {A} (rows : list A) (ids : list Z) : Result (list A) :=
  result_mapM (np_index rows) ids.

(** [new[:] /= (neighbor_counts[:, None] + 1)]: the quotient is formed in
    float64 and stored as float32; the two arrays must have as many rows. *)
Definition divide_rows (rows : list (vec3 F)) (neighbor_counts : list Z)
  : Result (list (vec3 F)) :=
  if (length rows =? length neighbor_counts)%nat then
    Ok (zip_with (fun r c =>
          vmap (fun x => f32_of_f64 (f64_div (f64_of_f32 x) (f64_of_int (c + 1)))) r)
        rows neighbor_counts)
  else Raise ValueError.

(** One pass of the loop: every vertex becomes the mean of itself and its
    neighbours, all read from the positions before the pass. *)
Definition smooth_pass (edges : list (Z * Z)) (neighbor_counts : list Z)
    (vertices : list (vec3 F)) : Result (list (vec3 F)) :=
  let new_vertices := vertices in
  right ← np_take vertices (map snd edges);
  new_vertices ← np_add_at new_vertices (map fst edges) right;
  left ← np_take vertices (map fst edges);
  new_vertices ← np_add_at new_vertices (map snd edges) left;
  divide_rows new_vertices neighbor_counts.

Fixpoint smooth_loop (n : nat) (edges : list (Z * Z)) (neighbor_counts : list Z)
  : Method F unit :=
  match n with
  | O => mret tt
  | S n' =>
      v ← vertices_zyx;
      new_vertices ← method_lift (smooth_pass edges neighbor_counts v);
      set_vertices_zyx new_vertices;;
      smooth_loop n' edges neighbor_counts
  end.

Definition laplacian_smooth (iterations : Z) : Method F unit :=
  if iterations =? 0 then
    n ← normals_zyx;
    if (length n =? 0)%nat then recompute_normals true else mret tt
  else
    set_normals_zyx [];;
    f ← faces;
    let edges := unique_edges f in
    v ← vertices_zyx;
    neighbor_counts ←
      method_lift (np_bincount (concat (map (fun e => [fst e; snd e]) edges))
                     (length v));
    smooth_loop (Z.to_nat iterations) edges neighbor_counts;;
    recompute_normals true;;
    n ← normals_zyx;
    v ← vertices_zyx;
    method_lift (py_assert (length n =? length v)%nat).

End Smoothing.

(** *** Quantization *)

Section Quantize.
Context {F : Type} {f64 : Float64Ops F} {ext : External F}.

(** One coordinate of
    [np.minimum(upper_bound, np.maximum(zero_array,
       (vertex - offset) * upper_bound / fragment_shape + 0.5))],
    stored as float32. *)
Definition quantize_coord (upper_bound offset fragment_shape : Z) (x : F) : F :=
  f32_of_f64
    (np_minimum (f64_of_int upper_bound)
       (np_maximum (f64_of_int 0)
          (f64_add
             (f64_div
                (f64_mul (f64_sub (f64_of_f32 x) (f64_of_int offset))
                         (f64_of_int upper_bound))
                (f64_of_int fragment_shape))
             f64_half))).

(** One row, in xyz order like [fragment_origin] and [fragment_shape]. *)
Definition quantize_vertex (upper_bound : Z) (offset fragment_shape : vec3 Z)
    (vertex : vec3 F) : vec3 F :=
  vzip (fun f x => f x)
    (vzip (quantize_coord upper_bound) offset fragment_shape) vertex.

Definition quantize (position_quantization_bits : nat) : Method F unit :=
  let upper_bound := 2 ^ Z.of_nat position_quantization_bits - 1 in
  upper_bound ← method_lift (np_array_astype_int upper_bound);
  let upper_bound3 := (upper_bound, upper_bound, upper_bound) in
  fragment_shape ← method_get _fragment_shape;
  fragment_shape ← match fragment_shape with
                   | Some s => mret s
                   | None => method_raise AttributeError
                   end;
  offset ← method_get _fragment_origin;
  offset ← match offset with
           | Some o => mret o
           | None => method_raise AttributeError
           end;
  v ← vertices_zyx;
  let vertices := map vrev v in
  let vertices := map (quantize_vertex upper_bound offset fragment_shape) vertices in
  (* an empty list makes a 1-d array, which [vertices[:,::-1]] cannot index *)
  match vertices with
  | [] => method_raise IndexError
  | _ =>
      set_vertices_zyx (map vrev vertices);;
      method_set (set__fragment_origin (Some (0, 0, 0)));;
      method_set (set__fragment_shape (Some upper_bound3))
  end.

End Quantize.

(** *** Concatenation *)

Section Concatenate.
Context {F : Type} {f32 : Float32Ops F} {ext : External F}.

(** Reading a property of another mesh object. *)
Definition read {A} (property : Method F A) (mesh : Mesh F) : Result A :=
  fst <$> property mesh.

(** [_verify_concatenate_inputs]; the diagnostic dumps that are written to
    a scratch directory before the error is raised are left out. *)
Definition _verify_concatenate_inputs (meshes : list (Mesh F))
    (vertex_counts : list nat) : Result unit :=
  normals_counts ← result_mapM (fun mesh => length <$> read normals_zyx mesh) meshes;
  if negb (existsb (fun c => negb (c =? 0)%nat) normals_counts)
     || forallb (fun '(v, n) => (v =? n)%nat) (zip vertex_counts normals_counts)
  then Ok tt
  else Raise (RuntimeError InconsistentNormals).

(** [np.add.accumulate(counts[:-1])] with a leading 0: the offset of every
    mesh is the number of rows before it. *)
Fixpoint running_offsets (start : nat) (counts : list nat) : list nat :=
  match counts with
  | [] => []
  | c :: counts' => start :: running_offsets (start + c) counts'
  end.

(** Componentwise [min] and [max] over the boxes. *)
Definition union_box (first : vec3 Z * vec3 Z) (rest : list (vec3 Z * vec3 Z))
  : vec3 Z * vec3 Z :=
  (fold_left (vzip Z.min) (map fst rest) (fst first),
   fold_left (vzip Z.max) (map snd rest) (snd first)).

Definition concatenate_meshes (meshes : list (Mesh F)) (keep_normals : bool)
  : Result (Mesh F) :=
  vertex_counts ← result_mapM (fun mesh => length <$> read vertices_zyx mesh) meshes;
  face_counts ← result_mapM (fun mesh => length <$> read faces mesh) meshes;
  concatenated_normals ←
    (if keep_normals then
       _verify_concatenate_inputs meshes vertex_counts;;
       ns ← result_mapM (read normals_zyx) meshes;
       Some <$> np_concatenate ns
     else Ok None);
  vs ← result_mapM (read vertices_zyx) meshes;
  concatenated_vertices ← np_concatenate vs;
  let vertex_offsets := running_offsets 0 vertex_counts in
  fs ← result_mapM (read faces) meshes;
  let concatenated_faces :=
    concat (zip_with (fun faces vertex_offset =>
                        map (vmap (fun i => as_uint32 (i + Z.of_nat vertex_offset))) faces)
              fs vertex_offsets) in
  total_box ← match map box meshes with
              | [] => Raise ValueError             (* np.stack of nothing *)
              | b :: bs => Ok (union_box b bs)
              end;
  Mesh_init concatenated_vertices concatenated_faces concatenated_normals
    (Some total_box) None None (Some "lz4").

(** *** Loading *)

(** [Mesh.from_buffer]; the result is [None] when no branch returns. *)
Definition from_buffer (serialized_bytes : bytes) (fmt : string)
  : Result (option (Mesh F)) :=
  py_assert (bool_decide (fmt ∈ MESH_FORMATS));;
  if (length serialized_bytes =? 0)%nat then
    Some <$> Mesh_init [] [] None None None None (Some "lz4")
  else if String.eqb fmt "obj" then
    '(vertices_xyz, faces, normals_xyz) ← read_obj serialized_bytes;
    Some <$> Mesh_init (map vrev vertices_xyz) faces (Some (map vrev normals_xyz))
               None None None (Some "lz4")
  else if String.eqb fmt "drc" then
    py_assert _dvidutils_available;;
    '(vertices_xyz, normals_xyz, faces) ← decode_drc_bytes_to_faces serialized_bytes;
    Some <$> Mesh_init (map vrev vertices_xyz) faces (Some (map vrev normals_xyz))
               None None None (Some "lz4")
  else if String.eqb fmt "ngmesh" then
    '(vertices_xyz, faces) ← read_ngmesh serialized_bytes;
    Some <$> Mesh_init (map vrev vertices_xyz) faces None None None None (Some "lz4")
  else Ok None.

(** [Mesh.from_file]; the file system maps a path to the file's contents. *)
Definition from_file (fs : string → option bytes) (path : string)
  : Result (option (Mesh F)) :=
  let ext := splitext_ext path in
  match fs path with
  | None => Raise OSError
  | Some contents =>
      if (length contents =? 0)%nat then
        Some <$> Mesh_init [] [] None None None None (Some "lz4")
      else if String.eqb ext ".drc" then from_buffer contents "drc"
      else if String.eqb ext ".obj" then
        '(vertices_xyz, faces, normals_xyz) ← read_obj contents;
        Some <$> Mesh_init (map vrev vertices_xyz) faces (Some (map vrev normals_xyz))
                   None None None (Some "lz4")
      else if String.eqb ext ".ngmesh" then
        '(vertices_xyz, faces) ← read_ngmesh contents;
        Some <$> Mesh_init (map vrev vertices_xyz) faces None None None None
                   (Some "lz4")
      else Raise (RuntimeError UnknownFileType)
  end.

(** A regular file in a tar archive. *)
Record TarMember : Type := mkTarMember {
  member_name : string;
  member_contents : bytes;
}.

Definition member_size (member : TarMember) : nat := length (member_contents member).

(** [d[key] = value] on an insertion-ordered dict. *)
Fixpoint dict_set {V} (key : string) (value : V) (d : list (string * V))
  : list (string * V) :=
  match d with
  | [] => [(key, value)]
  | (k, v) :: d' =>
      if String.eqb k key then (k, value) :: d' else (k, v) :: dict_set key value d'
  end.

(** The loop that fills [meshes]: a member that fails to decode is skipped. *)
Definition load_member (meshes : list (string * option (Mesh F))) (member : TarMember)
  : list (string * option (Mesh F)) :=
  let ext := String.substring 1 (String.length (splitext_ext (member_name member)))
               (splitext_ext (member_name member)) in
  if bool_decide (ext ∈ MESH_FORMATS) && (0 <? member_size member)%nat then
    match from_buffer (member_contents member) ext with
    | Ok mesh => dict_set (member_name member) mesh meshes
    | Raise _ => meshes
    end
  else meshes.

(** [Mesh.from_tarfile], given the members of the archive in storage order. *)
Definition from_tarfile (tf_members : list TarMember) (keep_normals concatenate : bool)
  : Result (Mesh F + list (string * option (Mesh F))) :=
  let members := sorted_lt (fun a b => String.ltb (member_name a) (member_name b))
                   tf_members in
  let meshes := fold_left load_member members [] in
  if concatenate then
    values ← result_mapM (fun kv => match snd kv with
                                    | Some mesh => Ok mesh
                                    | None => Raise AttributeError
                                    end) meshes;
    inl <$> concatenate_meshes values keep_normals
  else Ok (inr meshes).

End Concatenate.

(** *** Grouping fragments into bricks and ordering the bricks *)

Section Bricks.
Context {F : Type} {f32 : Float32Ops F} {ext : External F}.

(** [d[key].append(mesh)], or [d[key] = [mesh]] for a new key, on an
    insertion-ordered dict keyed by a coordinate. *)
Fixpoint dict_append (key : vec3 Z) (mesh : Mesh F)
    (d : list (vec3 Z * list (Mesh F))) : list (vec3 Z * list (Mesh F)) :=
  match d with
  | [] => [(key, [mesh])]
  | (k, ms) :: d' =>
      if bool_decide (k = key) then (k, ms ++ [mesh]) :: d'
      else (k, ms) :: dict_append key mesh d'
  end.

(** [group_meshes_into_larger_bricks], for [current_lod >= highest_res_lod]. *)
Definition group_meshes_into_larger_bricks (meshes : list (Mesh F))
    (current_lod highest_res_lod : Z) : Result (list (Mesh F)) :=
  match meshes with
  | [] => Raise IndexError
  | first :: _ =>
      brick_shape ← match _fragment_shape first with
                    | Some s => Ok s
                    | None => Raise TypeError
                    end;
      let bricks_to_combine := 2 ^ (current_lod - highest_res_lod) in
      let current_lod_brick_shape := vmap (Z.mul bricks_to_combine) brick_shape in
      combined_mesh_dictionary ←
        foldl (fun acc mesh =>
                 d ← acc;
                 fragment_origin ← match _fragment_origin mesh with
                                   | Some o => Ok o
                                   | None => Raise TypeError
                                   end;
                 let combined_fragment_origin :=
                   vzip (fun s o => s * (o / s)) current_lod_brick_shape fragment_origin in
                 Ok (dict_append combined_fragment_origin mesh d))
              (Ok []) meshes;
      result_mapM (fun '(fragment_origin, meshes_to_combine) =>
          combined_mesh ← concatenate_meshes meshes_to_combine false;
          Ok (set__fragment_shape (Some current_lod_brick_shape)
               (set__fragment_origin (Some fragment_origin)
                 (set_fullscale_fragment_shape (Some current_lod_brick_shape)
                   (set_fullscale_fragment_origin (Some fragment_origin)
                      combined_mesh)))))
        combined_mesh_dictionary
  end.

(** [concatenate_mesh_bytes]: drop the meshes without vertices, group the
    rest into bricks, and sort the bricks in Z-curve order of their origins
    in units of the brick shape. *)
Definition concatenate_mesh_bytes (meshes : list (Mesh F)) (vertex_count : list Z)
    (current_lod highest_res_lod : Z) : Result (list (list (Mesh F))) :=
  kept ← result_mapM (fun '(idx, mesh) =>
            c ← np_index vertex_count (Z.of_nat idx);
            Ok (if 0 <? c then [mesh] else []))
          (imap pair meshes);
  meshes ← group_meshes_into_larger_bricks (concat kept) current_lod highest_res_lod;
  match meshes with
  | [] => Raise ValueError
  | first :: _ =>
      keyed ← result_mapM (fun mesh =>
                 match _fragment_origin mesh, _fragment_shape first with
                 | Some o, Some s => Ok (mesh, vzip Z.div o s)
                 | _, _ => Raise TypeError
                 end) meshes;
      let ordered := sorted_cmp (fun x y => _cmp_zorder (snd x) (snd y)) keyed in
      Ok [map fst ordered]
  end.

End Bricks.

(** *** A concrete installation for the examples

    IEEE float32 arrays with their little-endian memory image, the
    [.ngmesh] reader, and stand-ins for the two codecs. *)

Module Demo.

(** Four little-endian bytes of a 32-bit word, and back. *)
Definition le32 (z : Z) : bytes :=
  map (fun k => default Byte.x00 (Byte.of_N (Z.to_N ((z / 2 ^ (8 * k)) mod 256))))
      [0; 1; 2; 3].

Definition of_le32 (b0 b1 b2 b3 : Byte.byte) : Z :=
  Z.of_N (Byte.to_N b0) + 2 ^ 8 * Z.of_N (Byte.to_N b1)
  + 2 ^ 16 * Z.of_N (Byte.to_N b2) + 2 ^ 24 * Z.of_N (Byte.to_N b3).

(** The words of a buffer; [None] when the length is not a multiple of 4. *)
Fixpoint words (fuel : nat) (b : bytes) : option (list Z) :=
  match b, fuel with
  | [], _ => Some []
  | b0 :: b1 :: b2 :: b3 :: rest, S fuel' =>
      ws ← words fuel' rest; Some (of_le32 b0 b1 b2 b3 :: ws)
  | _, _ => None
  end.

(** [reshape((-1, 3))] *)
Fixpoint rows3 {A} (fuel : nat) (l : list A) : option (list (vec3 A)) :=
  match l, fuel with
  | [], _ => Some []
  | a :: b :: c :: rest, S fuel' => rs ← rows3 fuel' rest; Some ((a, b, c) :: rs)
  | _, _ => None
  end.

(** The binary32 bit pattern of a float, and back. *)
Definition bits32 (x : spec_float) : Z :=
  let sign (s : bool) := if s then 2 ^ 31 else 0 in
  match x with
  | S754_zero s => sign s
  | S754_infinity s => sign s + 255 * 2 ^ 23
  | S754_nan => 255 * 2 ^ 23 + 2 ^ 22
  | S754_finite s m e =>
      sign s + (if Zpos (digits2_pos m) =? 24
                then (e + 150) * 2 ^ 23 + (Zpos m - 2 ^ 23)
                else Zpos m)
  end.

Definition of_bits32 (w : Z) : spec_float :=
  let s := Z.testbit w 31 in
  let ex := (w / 2 ^ 23) mod 256 in
  let mant := w mod 2 ^ 23 in
  if ex =? 255 then (if mant =? 0 then S754_infinity s else S754_nan)
  else if ex =? 0 then
    match mant with Zpos p => S754_finite s p (-149) | _ => S754_zero s end
  else
    match mant + 2 ^ 23 with Zpos p => S754_finite s p (ex - 150) | _ => S754_nan end.

Definition f32_image (a : list (vec3 spec_float)) : bytes :=
  concat (map (fun r => concat (map (fun x => le32 (bits32 x)) (vlist r))) a).

Definition f32_of_image (b : bytes) : Result (list (vec3 spec_float)) :=
  match ws ← words (length b) b; rows3 (length ws) (map of_bits32 ws) with
  | Some rows => Ok rows
  | None => Raise ValueError
  end.

Definition u32_image (a : list (vec3 Z)) : bytes :=
  concat (map (fun r => concat (map le32 (vlist r))) a).

Definition u32_of_image (b : bytes) : Result (list (vec3 Z)) :=
  match ws ← words (length b) b; rows3 (length ws) ws with
  | Some rows => Ok rows
  | None => Raise ValueError
  end.

(** Modelled from the spec: [vol2mesh.ngmesh.read_ngmesh] is not among the
    sources.  The spec gives the format as flat binary: the vertex count,
    the flat float vertex array, then the flat uint face-index array. *)
Definition ngmesh_reader (b : bytes)
  : Result (list (vec3 spec_float) * list (vec3 Z)) :=
  match b with
  | b0 :: b1 :: b2 :: b3 :: rest =>
      let n := (12 * Z.to_nat (of_le32 b0 b1 b2 b3))%nat in
      if (n <=? length rest)%nat then
        vertices ← f32_of_image (take n rest);
        faces ← u32_of_image (drop n rest);
        Ok (vertices, faces)
      else Raise ValueError
  | _ => Raise ValueError
  end.

(** A stand-in for the Draco codec: the three arrays behind their sizes. *)
Definition encode_drc (v n : list (vec3 spec_float)) (f : list (vec3 Z)) : bytes :=
  le32 (Z.of_nat (length v)) ++ le32 (Z.of_nat (length n))
  ++ f32_image v ++ f32_image n ++ u32_image f.

Definition decode_drc (b : bytes)
  : Result (list (vec3 spec_float) * list (vec3 spec_float) * list (vec3 Z)) :=
  match b with
  | a0 :: a1 :: a2 :: a3 :: c0 :: c1 :: c2 :: c3 :: rest =>
      let nv := (12 * Z.to_nat (of_le32 a0 a1 a2 a3))%nat in
      let nn := (12 * Z.to_nat (of_le32 c0 c1 c2 c3))%nat in
      if (nv + nn <=? length rest)%nat then
        v ← f32_of_image (take nv rest);
        n ← f32_of_image (take nn (drop nv rest));
        f ← u32_of_image (drop (nv + nn) rest);
        Ok (v, n, f)
      else Raise ValueError
  | _ => Raise ValueError
  end.

(** [os.path.splitext(path)[1]] for a flat name: from the last dot, unless
    nothing but dots comes before it. *)
Fixpoint last_dot_suffix (s : string) : option string :=
  match s with
  | EmptyString => None
  | String c s' =>
      match last_dot_suffix s' with
      | Some suffix => Some suffix
      | None => if Ascii.eqb c (Ascii.ascii_of_nat 46) then Some s else None
      end
  end.

Fixpoint all_dots (s : string) : bool :=
  match s with
  | EmptyString => true
  | String c s' => Ascii.eqb c (Ascii.ascii_of_nat 46) && all_dots s'
  end.

Definition ext_of_path (path : string) : string :=
  match last_dot_suffix path with
  | Some suffix =>
      if all_dots (String.substring 0 (String.length path - String.length suffix) path)
      then EmptyString else suffix
  | None => EmptyString
  end.

(** Stand-ins: LZ4 frames that store their payload, no [.obj] parser. *)
Definition external : External spec_float := {|
  _dvidutils_available := true;
  _numba_available := false;
  encode_faces_to_drc_bytes := fun v n f => Ok (encode_drc v n f);
  encode_faces_to_custom_drc_bytes := fun v n f _ _ _ => Ok (encode_drc v n f);
  decode_drc_bytes_to_faces := decode_drc;
  lz4_frame_compress := fun b => b;
  lz4_frame_decompress := fun b => Ok b;
  float32_buffer := f32_image;
  float32_frombuffer := f32_of_image;
  uint32_buffer := u32_image;
  uint32_frombuffer := u32_of_image;
  read_obj := fun _ => Raise ValueError;
  read_ngmesh := ngmesh_reader;
  splitext_ext := ext_of_path;
|}.

End Demo.

(** The arrays a mesh gives when its three properties are read. *)
Definition mesh_arrays {F} `{External F} (mesh : Mesh F)
    (a : list (vec3 F) * list (vec3 Z) * list (vec3 F)) : Prop :=
  read vertices_zyx mesh = Ok a.1.1 ∧ read faces mesh = Ok a.1.2
  ∧ read normals_zyx mesh = Ok a.2.

(** The test of [_verify_concatenate_inputs] on the arrays. *)
Definition normals_consistent {F}
    (arrs : list (list (vec3 F) * list (vec3 Z) * list (vec3 F))) : bool :=
  negb (existsb (fun c => negb (c =? 0)%nat) (map (fun a => length a.2) arrs))
  || forallb (fun '(v, n) => (v =? n)%nat)
       (zip (map (fun a => length a.1.1) arrs) (map (fun a => length a.2) arrs)).

(** Python's order on strings, as [String.ltb] decides it. *)
Definition str_lt (s t : string) : Prop := String.ltb s t = true.

(** The mesh is usable and holds its three arrays uncompressed. *)
Definition uncompressed {F} (m : Mesh F) (vs : list (vec3 F)) (fs : list (vec3 Z))
    (ns : list (vec3 F)) : Prop :=
  _destroyed m = false ∧ _vertices_zyx m = Some vs ∧ _faces m = Some fs
  ∧ _normals_zyx m = Some ns.

(** Every index of the face is the index of one of [n] vertices. *)
Definition face_valid (n : nat) (face : vec3 Z) : Prop :=
  let '(i0, i1, i2) := face in
  (0 ≤ i0 < Z.of_nat n) ∧ (0 ≤ i1 < Z.of_nat n) ∧ (0 ≤ i2 < Z.of_nat n).

(** The face normal the code computes for the face has a component that is
    not zero. *)
Definition face_has_normal {F} `{Float32Ops F} (vertices_zyx : list (vec3 F))
    (face : vec3 Z) : Prop :=
  ∃ n, face_cross vertices_zyx face = Ok n ∧ row_any n = true.

(** The mask [good_faces = face_normals.any(axis=1)] of [recompute_normals]
    for one face. *)
Definition good_face {F} `{Float32Ops F} (vertices_zyx : list (vec3 F))
    (face : vec3 Z) : bool :=
  match face_cross vertices_zyx face with
  | Ok n => row_any n
  | Raise _ => false
  end.

(** The arrays [recompute_normals(True)] leaves: the faces with a non-zero
    normal, and the vertices unless no face is left. *)
Definition faces_kept {F} `{Float32Ops F} (vertices_zyx : list (vec3 F))
    (faces : list (vec3 Z)) : list (vec3 Z) :=
  List.filter (good_face vertices_zyx) faces.

Definition vertices_kept {F} `{Float32Ops F} (vertices_zyx : list (vec3 F))
    (faces : list (vec3 Z)) : list (vec3 F) :=
  match faces_kept vertices_zyx faces with
  | [] => []
  | _ => vertices_zyx
  end.

(** Two meshes agree on every attribute except the three arrays. *)
Definition same_metadata {F} (m m' : Mesh F) : Prop :=
  pickle_compression_method m' = pickle_compression_method m
  ∧ _destroyed m' = _destroyed m
  ∧ _draco_bytes m' = _draco_bytes m ∧ _lz4_items m' = _lz4_items m
  ∧ fullscale_fragment_shape m' = fullscale_fragment_shape m
  ∧ fullscale_fragment_origin m' = fullscale_fragment_origin m
  ∧ _fragment_shape m' = _fragment_shape m
  ∧ _fragment_origin m' = _fragment_origin m
  ∧ box m' = box m.

(** Both ends of an edge are indices of vertices. *)
Definition edge_valid (n : nat) (e : Z * Z) : Prop :=
  (0 ≤ fst e < Z.of_nat n) ∧ (0 ≤ snd e < Z.of_nat n).

(** [clamp(t, lo, hi)] on floats: a NaN stays a NaN, a value not above
    [lo] gives [lo], a value not below [hi] gives [hi], and any other value
    is kept as it is. *)
Definition ieee_clamp (t lo hi : spec_float) : spec_float :=
  if IEEE.is_nan t then t
  else if SFleb t lo then lo
  else if SFleb hi t then hi
  else t.

(** [(pos - origin) * upper_bound / shape + 0.5] for a float32 [pos], every
    operation rounded to float64, and nothing rounded to an integer. *)
Definition scaled_position (upper_bound o s : Z) (x : spec_float) : spec_float :=
  let int := IEEE.of_Z IEEE.prec64 IEEE.emax64 in
  let pos := IEEE.convert IEEE.prec64 IEEE.emax64 x in
  SFadd IEEE.prec64 IEEE.emax64
    (SFdiv IEEE.prec64 IEEE.emax64
       (SFmul IEEE.prec64 IEEE.emax64
          (SFsub IEEE.prec64 IEEE.emax64 pos (int o)) (int upper_bound))
       (int s))
    (S754_finite false 4503599627370496 (-53)).

(** The float32 coordinate [x] is at the origin [o] of its axis: the two
    compare equal as float64 values, and the origin is finite. *)
Definition at_origin (o : Z) (x : spec_float) : Prop :=
  SFeqb (IEEE.convert IEEE.prec64 IEEE.emax64 x)
        (IEEE.of_Z IEEE.prec64 IEEE.emax64 o) = true
  ∧ ieee_finite (IEEE.of_Z IEEE.prec64 IEEE.emax64 o) = true.

(** The float64 upper bound [2^bits - 1] is a number, it is the zero of
    the clamp when it is not above it, and it is above 0.5 when it is at
    least 1. *)
Definition upper_bound_ok (bits : nat) : bool :=
  let ub := IEEE.of_Z IEEE.prec64 IEEE.emax64 (2 ^ Z.of_nat bits - 1) in
  let half := S754_finite false 4503599627370496 (-53) in
  ieee_finite ub
  && implb (SFleb ub (S754_zero false)) (bool_decide (ub = S754_zero false))
  && implb (1 <=? 2 ^ Z.of_nat bits - 1) (negb (SFleb ub half)).

(** The float32 value 0.5. *)
Definition one_half : spec_float := S754_finite false 8388608 (-24).

(** What the quantizer does to one coordinate [x] of a vertex, for the
    fragment origin [o] and shape [s] of that axis: the scaled position is
    clamped to [0, upper_bound] and stored as float32, and is not rounded to
    an integer; a NaN stays a NaN; a coordinate at the origin goes to 0.5. *)
Definition quantized_coordinate (upper_bound o s : Z) (x x' : spec_float) : Prop :=
  let int := IEEE.of_Z IEEE.prec64 IEEE.emax64 in
  x' = IEEE.convert IEEE.prec32 IEEE.emax32
         (ieee_clamp (scaled_position upper_bound o s x) (int 0) (int upper_bound))
  ∧ (IEEE.is_nan (scaled_position upper_bound o s x) = true →
     IEEE.is_nan x' = true)
  ∧ (at_origin o x → s ≠ 0 → 1 ≤ upper_bound → x' = one_half).

(** The same for a row stored in zyx order, with origin and shape in xyz
    order. *)
Definition quantized_vertex (upper_bound : Z) (o s : vec3 Z)
    (v v' : vec3 spec_float) : Prop :=
  let '(z, y, x) := v in
  let '(z', y', x') := v' in
  let '(ox, oy, oz) := o in
  let '(sx, sy, sz) := s in
  quantized_coordinate upper_bound ox sx x x'
  ∧ quantized_coordinate upper_bound oy sy y y'
  ∧ quantized_coordinate upper_bound oz sz z z'.

(** *** Example data *)

Module Examples.

(** A float32 row with integer components. *)
Definition row (a b c : Z) : vec3 spec_float := (IEEE.lit a, IEEE.lit b, IEEE.lit c).

(** An uncompressed mesh with the given arrays and fragment
    [origin = (0,0,0)], [shape = (8,8,8)]. *)
Definition mesh_of {F} (vs : list (vec3 F)) (fs : list (vec3 Z)) (ns : list (vec3 F))
  : Mesh F :=
  mkMesh (Some "lz4") false (Some vs) (Some fs) (Some ns) None None
    (Some (8, 8, 8)) (Some (0, 0, 0)) (Some (8, 8, 8)) (Some (0, 0, 0))
    ((0, 0, 0), (8, 8, 8)).

(** The two corners of the fragment and one point inside, as a triangle. *)
Definition corner_mesh : Mesh spec_float :=
  mesh_of [row 0 0 0; row 8 8 8; row 4 2 1] [(0, 1, 2)] [].

(** Three distinct collinear vertices: one face of zero area; the mesh
    carries normals. *)
Definition sliver_mesh : Mesh spec_float :=
  mesh_of [row 0 0 0; row 1 0 0; row 2 0 0] [(0, 1, 2)]
          [row 0 0 1; row 0 0 1; row 0 0 1].

(** Three distinct vertices on one line, the rows (-2^-24, -3 * 2^-24, 0),
    (1, 3, 0) and (2, 6, 0): a triangle of zero area whose first edge is not
    a row of float32 numbers. *)
Definition collinear_vertices : list (vec3 spec_float) :=
  [(S754_finite true 8388608 (-47), S754_finite true 12582912 (-46), IEEE.lit 0);
   row 1 3 0; row 2 6 0].

(** Three vertices on a line, far from the origin: a triangle of zero area
    whose cross product overflows in float32. *)
Definition far_vertices : list (vec3 spec_float) :=
  [row 0 0 0; row (2 ^ 70) (2 ^ 70) 0; row (2 ^ 71) (2 ^ 71) 0].

(** A right triangle with normals. *)
Definition triangle_mesh : Mesh spec_float :=
  mesh_of [row 0 0 0; row 1 0 0; row 0 1 0] [(0, 1, 2)]
          [row 0 0 1; row 0 0 1; row 0 0 1].

(** Four triangles around a centre vertex, without normals: a fan that one
    pass of smoothing shrinks but does not flatten. *)
Definition fan_mesh : Mesh spec_float :=
  mesh_of [row 0 0 0; row 0 2 0; row 0 0 2; row 0 (-2) 0; row 0 0 (-2)]
          [(0, 1, 2); (0, 2, 3); (0, 3, 4); (0, 4, 1)] [].

(** The same mesh held as LZ4 items. *)
Definition lz4_mesh : Mesh spec_float :=
  mkMesh (Some "lz4") false None None None None
    (Some [Demo.f32_image [row 0 0 0; row 1 0 0; row 0 1 0];
           Demo.f32_image [];
           Demo.u32_image [(0, 1, 2)]])
    None None None None ((0, 0, 0), (1, 1, 0)).

(** Two [.ngmesh] files of one vertex each, and two archives that store
    them under one name in opposite orders. *)
Definition ngmesh_point (a b c : Z) : bytes :=
  Demo.le32 1 ++ Demo.f32_image [row a b c].

Definition archive_ab : list TarMember :=
  [mkTarMember "a.ngmesh" (ngmesh_point 1 2 3);
   mkTarMember "a.ngmesh" (ngmesh_point 4 5 6)].

Definition archive_ba : list TarMember :=
  [mkTarMember "a.ngmesh" (ngmesh_point 4 5 6);
   mkTarMember "a.ngmesh" (ngmesh_point 1 2 3)].

(** Two archives with distinct names in opposite orders. *)
Definition archive_xy : list TarMember :=
  [mkTarMember "x.ngmesh" (ngmesh_point 1 2 3);
   mkTarMember "y.ngmesh" (ngmesh_point 4 5 6)].

Definition archive_yx : list TarMember :=
  [mkTarMember "y.ngmesh" (ngmesh_point 4 5 6);
   mkTarMember "x.ngmesh" (ngmesh_point 1 2 3)].

End Examples.

(** *** Predicates and helpers for the further properties *)

(** The three states of the compression state machine of a usable mesh:
    the arrays and no encoding, or no array and exactly one encoding. *)
Definition representation_ok {F} (m : Mesh F) : Prop :=
  _destroyed m = false
  ∧ ((is_Some (_vertices_zyx m) ∧ is_Some (_faces m) ∧ is_Some (_normals_zyx m)
      ∧ _draco_bytes m = None ∧ _lz4_items m = None)
     ∨ (_vertices_zyx m = None ∧ _faces m = None ∧ _normals_zyx m = None
        ∧ is_Some (_draco_bytes m) ∧ _lz4_items m = None)
     ∨ (_vertices_zyx m = None ∧ _faces m = None ∧ _normals_zyx m = None
        ∧ _draco_bytes m = None ∧ is_Some (_lz4_items m))).

(** The items [_compress_as_lz4] stores: each flat array compressed, and
    the results compressed again. *)
Definition lz4_items_of {F} `{External F} (vs : list (vec3 F)) (fs : list (vec3 Z))
    (ns : list (vec3 F)) : list bytes :=
  map lz4_frame_compress
    [lz4_frame_compress (float32_buffer vs);
     lz4_frame_compress (float32_buffer ns);
     lz4_frame_compress (uint32_buffer fs)].


(** The box [outer] contains the box [inner], coordinate by coordinate. *)
Definition box_contains (outer inner : vec3 Z * vec3 Z) : Prop :=
  let '(o0, o1, o2) := outer.1 in let '(p0, p1, p2) := outer.2 in
  let '(i0, i1, i2) := inner.1 in let '(j0, j1, j2) := inner.2 in
  (o0 ≤ i0 ∧ o1 ≤ i1 ∧ o2 ≤ i2) ∧ (j0 ≤ p0 ∧ j1 ≤ p1 ∧ j2 ≤ p2).

(** Vertex [i] is referenced by one of the faces. *)
Definition vertex_used (faces : list (vec3 Z)) (i : nat) : Prop :=
  Z.of_nat i ∈ concat (map vlist faces).

#[global] Instance vertex_used_dec (faces : list (vec3 Z)) (i : nat) :
  Decision (vertex_used faces i).
Proof. unfold vertex_used. apply _. Defined.

(** The rows of a per-vertex array whose vertex is referenced by a face,
    in their order. *)
Definition used_rows {A} (faces : list (vec3 Z)) (rows : list A) : list A :=
  map snd (filter (fun p => vertex_used faces p.1) (imap pair rows)).

(** The position of vertex [i] once the unreferenced vertices are dropped:
    the number of referenced vertices before it. *)
Definition vertex_rank (faces : list (vec3 Z)) (i : nat) : nat :=
  length (filter (vertex_used faces) (seq 0 i)).

(** The indices below [n] that no face references. *)
Definition unused_indices (faces : list (vec3 Z)) (n : nat) : list nat :=
  filter (fun i => Z.of_nat i ∉ concat (map vlist faces)) (seq 0 n).

(** The extension of a member's name without its dot. *)
Definition member_format {F} `{External F} (member : TarMember) : string :=
  String.substring 1 (String.length (splitext_ext (member_name member)))
    (splitext_ext (member_name member)).

(** A member that [from_tarfile] does not load: its extension names no
    mesh format, or it is empty, or decoding it raises. *)
Definition member_skipped {F} `{Float32Ops F} `{External F} (member : TarMember)
  : Prop :=
  member_format member ∉ MESH_FORMATS
  ∨ member_size member = 0%nat
  ∨ ∃ e, from_buffer (member_contents member) (member_format member) = Raise e.

(** The index of the first vertex that is bit-identical to vertex [i]. *)
Definition first_index {F} `{Float32Ops F} (vertices_zyx : list (vec3 F)) (i : nat)
  : nat :=
  match vertices_zyx !! i with
  | Some v =>
      match list_find (fun u => u = v) vertices_zyx with
      | Some (j, _) => j
      | None => i
      end
  | None => i
  end.

(** A face with every index replaced by the index of the first vertex
    that is bit-identical to the one it names. *)
Definition canonical_face {F} `{Float32Ops F} (vertices_zyx : list (vec3 F))
    (face : vec3 Z) : vec3 Z :=
  vmap (fun i => Z.of_nat (first_index vertices_zyx (Z.to_nat i))) face.

(** *** Serialization *)

(** The writers of [obj_utils] and [ngmesh], which the mesh engine calls
    but does not define, and the value [dvidutils] gives
    [position_quantization_bits] when the caller passes none. *)
Class Writers (F : Type) := {
  write_obj : list (vec3 F) → list (vec3 Z) → list (vec3 F) → Result bytes;
  write_ngmesh : list (vec3 F) → list (vec3 Z) → Result bytes;
  default_position_quantization_bits : Z;
}.

(** What [serialize] hands back: the bytes it returns, or the file it
    writes (it then returns [None]). *)
Inductive Serialized : Type :=
  | Returned (data : bytes)
  | Written (path : string) (contents : bytes).

Section Serialize.
Context {F : Type} {f32 : Float32Ops F} {ext : External F} {wr : Writers F}.

(** The bytes of the Draco branches of [serialize]: the stored bytes if the
    mesh still holds some, else a fresh encoding, after the normals are
    recomputed when there are none. *)
Definition serialize_draco_bytes
    (encode : list (vec3 F) → list (vec3 F) → list (vec3 Z) → Method F bytes)
  : Method F bytes :=
  method_lift (py_assert _dvidutils_available);;
  draco_bytes ← method_get _draco_bytes;
  match draco_bytes with
  | Some b => mret b
  | None =>
      n ← normals_zyx;
      (if (length n =? 0)%nat then recompute_normals true else mret tt);;
      v ← vertices_zyx;
      n ← normals_zyx;
      f ← faces;
      encode (map vrev v) (map vrev n) f
  end.

(** [Mesh.serialize(path, fmt)]. *)
Definition serialize (path fmt : option string) : Method F Serialized :=
  let fmt :=
    match path, fmt with
    | Some p, _ =>
        String.substring 1 (String.length (splitext_ext p)) (splitext_ext p)
    | None, None => "obj"
    | None, Some fmt => fmt
    end in
  let output (data : bytes) : Serialized :=
    match path with
    | Some p => Written p data
    | None => Returned data
    end in
  method_lift (py_assert (bool_decide (fmt ∈ MESH_FORMATS)));;
  draco_bytes ← method_get _draco_bytes;
  (* [empty_mesh = (draco_bytes is not None and draco_bytes == b'')
                   or len(self.vertices_zyx)], then [empty_mesh == 0] *)
  shortcut ← match draco_bytes with
             | Some [] => mret false
             | _ => v ← vertices_zyx; mret (length v =? 0)%nat
             end;
  if (shortcut : bool) then mret (output [])
  else if String.eqb fmt "obj" then
    v ← vertices_zyx;
    f ← faces;
    n ← normals_zyx;
    data ← method_lift (write_obj (map vrev v) f (map vrev n));
    mret (output data)
  else if String.eqb fmt "drc" then
    data ← serialize_draco_bytes
              (fun v n f => method_lift (encode_faces_to_drc_bytes v n f));
    mret (output data)
  else if String.eqb fmt "custom_drc" then
    data ← serialize_draco_bytes
              (fun v n f =>
                 shape ← method_get _fragment_shape;
                 origin ← method_get _fragment_origin;
                 method_lift (encode_faces_to_custom_drc_bytes v n f shape origin
                                default_position_quantization_bits));
    mret (output data)
  else
    v ← vertices_zyx;
    f ← faces;
    data ← method_lift (write_ngmesh (map vrev v) f);
    mret (output data).

End Serialize.

(** Writers for the examples: [.ngmesh] as a vertex count and the vertex
    buffer, [.obj] not available. *)
Definition demo_writers : Writers spec_float := {|
  write_obj := fun _ _ _ => Raise ValueError;
  write_ngmesh := fun v _ => Ok (Demo.le32 (Z.of_nat (length v)) ++ Demo.f32_image v);
  default_position_quantization_bits := 10;
|}.

(** *** Grouping into bricks *)

(** The meshes [concatenate_mesh_bytes] keeps: those whose entry in
    [vertex_count] is positive. *)
Definition kept_meshes {F} (vertex_count : list Z) (meshes : list (Mesh F))
  : list (Mesh F) :=
  concat (zip_with (fun c mesh => if 0 <? c then [mesh] else []) vertex_count meshes).

(** The origin of the brick of shape [shape] that holds the fragment of a
    mesh. *)
Definition brick_origin {F} (shape : vec3 Z) (mesh : Mesh F) : vec3 Z :=
  match _fragment_origin mesh with
  | Some o => vzip (fun s o => s * (o / s)) shape o
  | None => (0, 0, 0)
  end.

(** The vertex array an uncompressed mesh holds. *)
Definition mesh_vertices {F} (mesh : Mesh F) : list (vec3 F) :=
  default [] (_vertices_zyx mesh).

(** The position of a brick on the grid of bricks of shape [shape]. *)
Definition brick_coordinate {F} (shape : vec3 Z) (mesh : Mesh F) : vec3 Z :=
  match _fragment_origin mesh with
  | Some o => vzip Z.div o shape
  | None => (0, 0, 0)
  end.

(** ** Part II: theorems *)

Example octants_sorted_from_lexicographic :
  sorted_cmp _cmp_zorder
    [ (0,0,0); (0,0,1); (0,1,0); (0,1,1); (1,0,0); (1,0,1); (1,1,0); (1,1,1) ]
  = octants_morton.
Proof. reflexivity. Qed.

Example octants_codes : map (morton 1) octants_morton = [0;1;2;3;4;5;6;7].
Proof. reflexivity. Qed.

Example cmp_negative_coordinate : _cmp_zorder (-1, 0, 0) (0, 0, 0) = 0.
Proof. reflexivity. Qed.

(** *** The Z-order comparator *)

Lemma nonneg_testbit_pow2 z k :
  0 ≤ z → 0 ≤ k → Z.testbit z k = true → 2 ^ k ≤ z.
Proof.
  intros Hz Hk Hb. destruct (Z_lt_le_dec z (2 ^ k)) as [Hlt|]; [|done].
  destruct (Z.eq_dec z 0) as [->|Hne].
  - by rewrite Z.bits_0 in Hb.
  - rewrite Z.bits_above_log2 in Hb; [done|lia|].
    apply Z.log2_lt_pow2; lia.
Qed.

Lemma nonneg_no_high_bits z k :
  0 ≤ z → 0 ≤ k → (∀ n, k ≤ n → Z.testbit z n = false) → z < 2 ^ k.
Proof.
  intros Hz Hk Hb. destruct (Z.eq_dec z 0) as [->|Hne].
  - apply Z.pow_pos_nonneg; lia.
  - assert (Hpos : 0 < z) by lia.
    pose proof (Z.bit_log2 z Hpos) as Hl.
    pose proof (Z.log2_nonneg z).
    destruct (Z_lt_le_dec (Z.log2 z) k) as [Hlt|Hge].
    + apply Z.log2_lt_pow2; lia.
    + rewrite Hb in Hl; [done|lia].
Qed.

Lemma bit_size_nonneg x : 0 ≤ bit_size x.
Proof.
  unfold bit_size. destruct (Z.leb_spec x 0); [lia|].
  pose proof (Z.log2_nonneg x). lia.
Qed.

Lemma bit_size_0_iff x : 0 ≤ x → bit_size x = 0 ↔ x = 0.
Proof.
  intros Hx. unfold bit_size. destruct (Z.leb_spec x 0); [lia|].
  pose proof (Z.log2_nonneg x). lia.
Qed.

(** [less_msb] compares the positions of the most significant set bits. *)
Lemma less_msb_bit_size x y :
  0 ≤ x → 0 ≤ y → less_msb x y = (bit_size x <? bit_size y).
Proof.
  intros Hx Hy. unfold less_msb, bit_size.
  destruct (Z.leb_spec y 0) as [Hy0|Hy0].
  { assert (y = 0) as -> by lia.
    destruct (Z.ltb_spec x 0); [lia|]. simpl.
    destruct (Z.leb_spec x 0); [done|].
    pose proof (Z.log2_nonneg x).
    symmetry. apply Z.ltb_ge. lia. }
  destruct (Z.leb_spec x 0) as [Hx0|Hx0].
  { assert (x = 0) as -> by lia. rewrite Z.lxor_0_l.
    pose proof (Z.log2_nonneg y).
    destruct (Z.ltb_spec 0 y); [|lia]. simpl.
    symmetry. apply Z.ltb_lt. lia. }
  pose proof (Z.log2_spec x Hx0) as [Hxl Hxu].
  pose proof (Z.log2_spec y Hy0) as [Hyl Hyu].
  pose proof (Z.log2_nonneg x) as Hkx. pose proof (Z.log2_nonneg y) as Hky.
  assert (Hxor : 0 ≤ Z.lxor x y) by (apply Z.lxor_nonneg; lia).
  destruct (Z.ltb_spec (Z.log2 x + 1) (Z.log2 y + 1)) as [Hlt|Hge].
  - assert (2 ^ Z.succ (Z.log2 x) ≤ 2 ^ Z.log2 y)
      by (apply Z.pow_le_mono_r; lia).
    assert (2 ^ Z.log2 y ≤ Z.lxor x y).
    { apply nonneg_testbit_pow2; [done..|].
      rewrite Z.lxor_spec, (Z.bit_log2 y Hy0).
      rewrite (Z.bits_above_log2 x); [done|lia|lia]. }
    apply andb_true_iff. split; apply Z.ltb_lt; lia.
  - apply andb_false_iff.
    destruct (Z.eq_dec (Z.log2 x) (Z.log2 y)) as [Heq|Hne].
    + right. apply Z.ltb_ge.
      assert (Z.lxor x y < 2 ^ Z.log2 x); [|lia].
      apply nonneg_no_high_bits; [done..|].
      intros n Hn. rewrite Z.lxor_spec.
      destruct (Z.eq_dec n (Z.log2 x)) as [->|].
      * rewrite (Z.bit_log2 x Hx0). rewrite Heq, (Z.bit_log2 y Hy0). done.
      * rewrite !Z.bits_above_log2; [done|lia..].
    + left. apply Z.ltb_ge.
      assert (2 ^ Z.succ (Z.log2 y) ≤ 2 ^ Z.log2 x)
        by (apply Z.pow_le_mono_r; lia).
      lia.
Qed.

Lemma zorder_msd_xor a b : zorder_msd a b = msd_of_xor (vzip Z.lxor a b).
Proof.
  destruct a as [[a0 a1] a2], b as [[b0 b1] b2].
  unfold zorder_msd, msd_of_xor, zorder_step; simpl.
  destruct (less_msb (Z.lxor a2 b2) (Z.lxor a1 b1)); reflexivity.
Qed.

Lemma vnth_vzip_lxor a b k :
  vnth (vzip Z.lxor a b) k = Z.lxor (vnth a k) (vnth b k).
Proof.
  destruct a as [[a0 a1] a2], b as [[b0 b1] b2].
  destruct k as [|[|k]]; reflexivity.
Qed.

Lemma msd_of_xor_cases d : msd_of_xor d = 0%nat ∨ msd_of_xor d = 1%nat ∨ msd_of_xor d = 2%nat.
Proof. unfold msd_of_xor. repeat case_match; auto. Qed.

(** The chosen dimension has the longest XOR; among equally long ones the
    highest index wins. *)
Lemma msd_of_xor_max d :
  0 ≤ vnth d 0 → 0 ≤ vnth d 1 → 0 ≤ vnth d 2 →
  ∀ k, (k < 3)%nat →
    bit_size (vnth d k) ≤ bit_size (vnth d (msd_of_xor d))
    ∧ ((msd_of_xor d < k)%nat → bit_size (vnth d k) < bit_size (vnth d (msd_of_xor d))).
Proof.
  intros H0 H1 H2 k Hk. unfold msd_of_xor.
  rewrite (less_msb_bit_size (vnth d 2) (vnth d 1)) by done.
  destruct (Z.ltb_spec (bit_size (vnth d 2)) (bit_size (vnth d 1))).
  - rewrite less_msb_bit_size by done.
    destruct (Z.ltb_spec (bit_size (vnth d 1)) (bit_size (vnth d 0)));
      destruct k as [|[|[|k]]]; simpl; lia.
  - rewrite less_msb_bit_size by done.
    destruct (Z.ltb_spec (bit_size (vnth d 2)) (bit_size (vnth d 0)));
      destruct k as [|[|[|k]]]; simpl; lia.
Qed.

Lemma bit_size_half x : 0 ≤ x → bit_size (x / 2) = Z.max 0 (bit_size x - 1).
Proof.
  intros Hx. unfold bit_size.
  destruct (Z.leb_spec x 0) as [|Hpos].
  { assert (x = 0) as -> by lia. reflexivity. }
  destruct (Z.leb_spec (x / 2) 0) as [Hh|Hh].
  - assert (x = 1) as -> by (Z.div_mod_to_equations; lia). reflexivity.
  - replace (x / 2) with (Z.shiftr x 1)
      by (rewrite Z.shiftr_div_pow2 by lia; reflexivity).
    rewrite Z.log2_shiftr by lia.
    assert (1 ≤ Z.log2 x).
    { change 1 with (Z.log2 2). apply Z.log2_le_mono.
      Z.div_mod_to_equations; lia. }
    lia.
Qed.

Lemma lxor_half a b : Z.lxor (a / 2) (b / 2) = Z.lxor a b / 2.
Proof.
  rewrite <- !(Z.shiftr_div_pow2 _ 1) by lia. symmetry. apply Z.shiftr_lxor.
Qed.

Lemma lxor_same_half a b :
  a / 2 = b / 2 → Z.lxor a b = Z.lxor (a mod 2) (b mod 2).
Proof.
  intros Hh. apply Z.bits_inj'. intros n Hn. rewrite !Z.lxor_spec.
  destruct (Z.eq_dec n 0) as [->|Hne].
  - change 2 with (2 ^ 1). rewrite !Z.mod_pow2_bits_low by lia. reflexivity.
  - change 2 with (2 ^ 1). rewrite !Z.mod_pow2_bits_high by lia.
    replace n with (n - 1 + 1) by lia.
    rewrite <- !Z.div_pow2_bits by lia.
    change (2 ^ 1) with 2. rewrite Hh. apply xorb_nilpotent.
Qed.

Lemma nonneg_coord_xor a b :
  nonneg_coord a → nonneg_coord b → nonneg_coord (vzip Z.lxor a b).
Proof.
  intros (?&?&?) (?&?&?). unfold nonneg_coord.
  rewrite !vnth_vzip_lxor. repeat split; apply Z.lxor_nonneg; lia.
Qed.

Lemma nonneg_coord_half a : nonneg_coord a → nonneg_coord (half_coord a).
Proof.
  destruct a as [[a0 a1] a2]. unfold nonneg_coord; simpl.
  intros (?&?&?). repeat split; apply Z.div_pos; lia.
Qed.

Lemma vnth_half a k : vnth (half_coord a) k = vnth a k / 2.
Proof. destruct a as [[a0 a1] a2], k as [|[|k]]; reflexivity. Qed.

Lemma vnth_low a k : vnth (low_coord a) k = vnth a k mod 2.
Proof. destruct a as [[a0 a1] a2], k as [|[|k]]; reflexivity. Qed.

Lemma vec3_ext {A} (a b : vec3 A) :
  vnth a 0 = vnth b 0 → vnth a 1 = vnth b 1 → vnth a 2 = vnth b 2 → a = b.
Proof. destruct a as [[a0 a1] a2], b as [[b0 b1] b2]; simpl; congruence. Qed.

(** Two coordinates compare equal exactly when they are equal. *)
Lemma cmp_zorder_eq_0 a b :
  nonneg_coord a → nonneg_coord b → _cmp_zorder a b = 0 ↔ a = b.
Proof.
  intros Ha Hb. split.
  - unfold _cmp_zorder. rewrite zorder_msd_xor. intros Hm.
    pose proof (nonneg_coord_xor a b Ha Hb) as (Hd0&Hd1&Hd2).
    pose proof (msd_of_xor_max _ Hd0 Hd1 Hd2) as Hmax.
    set (m := msd_of_xor (vzip Z.lxor a b)) in *.
    assert (Hz : bit_size (vnth (vzip Z.lxor a b) m) = 0).
    { rewrite vnth_vzip_lxor. replace (vnth a m) with (vnth b m) by lia.
      rewrite Z.lxor_nilpotent. reflexivity. }
    assert (Hall : ∀ k, (k < 3)%nat → vnth a k = vnth b k).
    { intros k Hk. destruct (Hmax k Hk) as [Hle _]. rewrite Hz in Hle.
      pose proof (bit_size_nonneg (vnth (vzip Z.lxor a b) k)).
      apply Z.lxor_eq. rewrite <- vnth_vzip_lxor.
      apply bit_size_0_iff; [|lia].
      destruct k as [|[|[|k]]]; [done..|lia]. }
    apply vec3_ext; apply Hall; lia.
  - intros ->. unfold _cmp_zorder. lia.
Qed.

Lemma cmp_zorder_antisym a b : _cmp_zorder b a = - _cmp_zorder a b.
Proof.
  unfold _cmp_zorder. rewrite !zorder_msd_xor.
  replace (vzip Z.lxor b a) with (vzip Z.lxor a b); [lia|].
  destruct a as [[a0 a1] a2], b as [[b0 b1] b2]; simpl.
  by rewrite (Z.lxor_comm a0), (Z.lxor_comm a1), (Z.lxor_comm a2).
Qed.

Lemma half_coord_neq a b :
  half_coord a ≠ half_coord b → ∃ k, (k < 3)%nat ∧ vnth a k / 2 ≠ vnth b k / 2.
Proof.
  intros Hne.
  destruct (Z.eq_dec (vnth a 0 / 2) (vnth b 0 / 2)) as [E0|]; [|exists 0%nat; split; [lia|done]].
  destruct (Z.eq_dec (vnth a 1 / 2) (vnth b 1 / 2)) as [E1|]; [|exists 1%nat; split; [lia|done]].
  destruct (Z.eq_dec (vnth a 2 / 2) (vnth b 2 / 2)) as [E2|]; [|exists 2%nat; split; [lia|done]].
  destruct Hne. apply vec3_ext; rewrite !vnth_half; done.
Qed.

(** When the halves differ, halving both coordinates keeps the most
    significant dimension, and the halves differ in that dimension. *)
Lemma zorder_msd_half a b :
  nonneg_coord a → nonneg_coord b → half_coord a ≠ half_coord b →
  zorder_msd (half_coord a) (half_coord b) = zorder_msd a b
  ∧ vnth a (zorder_msd a b) / 2 ≠ vnth b (zorder_msd a b) / 2.
Proof.
  intros Ha Hb Hne.
  pose proof (nonneg_coord_xor a b Ha Hb) as (Hd0&Hd1&Hd2).
  pose proof (nonneg_coord_xor _ _ (nonneg_coord_half a Ha) (nonneg_coord_half b Hb))
    as (He0&He1&He2).
  set (d := vzip Z.lxor a b) in *.
  set (e := vzip Z.lxor (half_coord a) (half_coord b)) in *.
  assert (Hde : ∀ k, vnth e k = vnth d k / 2).
  { intros k. unfold e, d. rewrite !vnth_vzip_lxor, !vnth_half. apply lxor_half. }
  assert (Hs : ∀ k, (k < 3)%nat →
             bit_size (vnth e k) = Z.max 0 (bit_size (vnth d k) - 1)).
  { intros k Hk. rewrite Hde. apply bit_size_half.
    destruct k as [|[|[|k]]]; [done..|lia]. }
  destruct (half_coord_neq a b Hne) as (k & Hk & Hak).
  assert (Hpos : 0 < bit_size (vnth e k)).
  { pose proof (bit_size_nonneg (vnth e k)).
    assert (bit_size (vnth e k) ≠ 0); [|lia].
    rewrite bit_size_0_iff by (destruct k as [|[|[|k]]]; [done..|lia]).
    unfold e. rewrite vnth_vzip_lxor, !vnth_half. by rewrite Z.lxor_eq_0_iff. }
  assert (Hm : msd_of_xor e = msd_of_xor d).
  { pose proof (Hs 0%nat) as S0. pose proof (Hs 1%nat) as S1. pose proof (Hs 2%nat) as S2.
    assert (0 < bit_size (vnth e 0) ∨ 0 < bit_size (vnth e 1) ∨ 0 < bit_size (vnth e 2))
      as Hsome by (destruct k as [|[|[|k]]]; [auto..|lia]).
    clear Hpos Hak Hk.
    unfold msd_of_xor.
    rewrite (less_msb_bit_size (vnth e 2) (vnth e 1)) by done.
    rewrite (less_msb_bit_size (vnth d 2) (vnth d 1)) by done.
    destruct (Z.ltb_spec (bit_size (vnth e 2)) (bit_size (vnth e 1)));
      destruct (Z.ltb_spec (bit_size (vnth d 2)) (bit_size (vnth d 1)));
      rewrite !less_msb_bit_size by done;
      repeat match goal with
             | |- context [Z.ltb ?x ?y] => destruct (Z.ltb_spec x y)
             end; first [reflexivity | lia]. }
  rewrite !zorder_msd_xor. fold d e. split; [done|].
  pose proof (msd_of_xor_max e He0 He1 He2 k Hk) as [Hle _].
  rewrite Hm in Hle.
  assert (Hnz : bit_size (vnth e (msd_of_xor d)) ≠ 0) by lia.
  rewrite bit_size_0_iff in Hnz
    by (destruct (msd_of_xor_cases d) as [->|[->| ->]]; done).
  unfold e in Hnz. rewrite vnth_vzip_lxor, !vnth_half in Hnz.
  by rewrite Z.lxor_eq_0_iff in Hnz.
Qed.

Lemma cmp_zorder_half a b :
  nonneg_coord a → nonneg_coord b → half_coord a ≠ half_coord b →
  _cmp_zorder a b < 0 ↔ _cmp_zorder (half_coord a) (half_coord b) < 0.
Proof.
  intros Ha Hb Hne. destruct (zorder_msd_half a b Ha Hb Hne) as [Hm Hd].
  unfold _cmp_zorder. rewrite Hm, !vnth_half.
  revert Hd. generalize (vnth a (zorder_msd a b)) (vnth b (zorder_msd a b)).
  intros x y Hxy. Z.div_mod_to_equations. lia.
Qed.

Lemma cmp_zorder_low a b :
  half_coord a = half_coord b →
  _cmp_zorder a b = _cmp_zorder (low_coord a) (low_coord b).
Proof.
  intros Hh.
  assert (Hk : ∀ k, vnth a k / 2 = vnth b k / 2)
    by (intros k; rewrite <- !vnth_half; by rewrite Hh).
  assert (Hx : vzip Z.lxor a b = vzip Z.lxor (low_coord a) (low_coord b)).
  { apply vec3_ext; rewrite !vnth_vzip_lxor, !vnth_low; apply lxor_same_half, Hk. }
  unfold _cmp_zorder. rewrite !zorder_msd_xor, <- Hx, !vnth_low.
  specialize (Hk (msd_of_xor (vzip Z.lxor a b))). revert Hk.
  generalize (vnth a (msd_of_xor (vzip Z.lxor a b)))
             (vnth b (msd_of_xor (vzip Z.lxor a b))).
  intros x y Hxy. Z.div_mod_to_equations. lia.
Qed.

(** On single bits the comparator is the order of the octant numbers. *)
Lemma cmp_zorder_bits p0 p1 p2 q0 q1 q2 :
  (p0 = 0 ∨ p0 = 1) → (p1 = 0 ∨ p1 = 1) → (p2 = 0 ∨ p2 = 1) →
  (q0 = 0 ∨ q0 = 1) → (q1 = 0 ∨ q1 = 1) → (q2 = 0 ∨ q2 = 1) →
  _cmp_zorder (p0, p1, p2) (q0, q1, q2) < 0
  ↔ p0 + 2 * p1 + 4 * p2 < q0 + 2 * q1 + 4 * q2.
Proof.
  intros [-> | ->] [-> | ->] [-> | ->] [-> | ->] [-> | ->] [-> | ->];
    vm_compute; split; congruence.
Qed.

Lemma bounded_nonneg n a : bounded_coord n a → nonneg_coord a.
Proof. unfold bounded_coord, nonneg_coord. lia. Qed.

Lemma bounded_half n a : bounded_coord (S n) a → bounded_coord n (half_coord a).
Proof.
  unfold bounded_coord. rewrite !vnth_half, Nat2Z.inj_succ, Z.pow_succ_r by lia.
  intros (?&?&?). repeat split; Z.div_mod_to_equations; lia.
Qed.

Lemma morton_succ n c :
  morton (S n) c
  = 8 * morton n (half_coord c)
    + (vnth c 0 mod 2 + 2 * (vnth c 1 mod 2) + 4 * (vnth c 2 mod 2)).
Proof. destruct c as [[c0 c1] c2]. reflexivity. Qed.

Lemma low_bit_cases x : x mod 2 = 0 ∨ x mod 2 = 1.
Proof. Z.div_mod_to_equations. lia. Qed.

Lemma morton_inj n a b :
  bounded_coord n a → bounded_coord n b → morton n a = morton n b → a = b.
Proof.
  revert a b. induction n as [|n IH]; intros a b Ha Hb Hm.
  - unfold bounded_coord in *. simpl in *. apply vec3_ext; lia.
  - rewrite !morton_succ in Hm.
    pose proof (low_bit_cases (vnth a 0)). pose proof (low_bit_cases (vnth a 1)).
    pose proof (low_bit_cases (vnth a 2)). pose proof (low_bit_cases (vnth b 0)).
    pose proof (low_bit_cases (vnth b 1)). pose proof (low_bit_cases (vnth b 2)).
    assert (Hh : half_coord a = half_coord b).
    { apply IH; [by apply bounded_half..|lia]. }
    assert (Hk : ∀ k, vnth a k / 2 = vnth b k / 2)
      by (intros k; rewrite <- !vnth_half; by rewrite Hh).
    rewrite Hh in Hm.
    pose proof (Hk 0%nat). pose proof (Hk 1%nat). pose proof (Hk 2%nat).
    apply vec3_ext; Z.div_mod_to_equations; lia.
Qed.

(** The comparator orders coordinates by their Morton codes. *)
Lemma cmp_zorder_morton n a b :
  bounded_coord n a → bounded_coord n b →
  _cmp_zorder a b < 0 ↔ morton n a < morton n b.
Proof.
  revert a b. induction n as [|n IH]; intros a b Ha Hb.
  - assert (a = b) as ->.
    { unfold bounded_coord in *. simpl in *. apply vec3_ext; lia. }
    unfold _cmp_zorder. lia.
  - pose proof (bounded_half _ _ Ha) as Ha'. pose proof (bounded_half _ _ Hb) as Hb'.
    rewrite !morton_succ.
    pose proof (low_bit_cases (vnth a 0)) as A0. pose proof (low_bit_cases (vnth a 1)) as A1.
    pose proof (low_bit_cases (vnth a 2)) as A2. pose proof (low_bit_cases (vnth b 0)) as B0.
    pose proof (low_bit_cases (vnth b 1)) as B1. pose proof (low_bit_cases (vnth b 2)) as B2.
    destruct (decide (half_coord a = half_coord b)) as [Hh|Hh].
    + rewrite (cmp_zorder_low a b Hh), Hh.
      pose proof (cmp_zorder_bits _ _ _ _ _ _ A0 A1 A2 B0 B1 B2) as Hbits.
      replace (low_coord a) with (vnth a 0 mod 2, vnth a 1 mod 2, vnth a 2 mod 2)
        by (by destruct a as [[??]?]).
      replace (low_coord b) with (vnth b 0 mod 2, vnth b 1 mod 2, vnth b 2 mod 2)
        by (by destruct b as [[??]?]).
      rewrite Hbits. lia.
    + rewrite (cmp_zorder_half a b) by eauto using bounded_nonneg.
      rewrite (IH _ _ Ha' Hb').
      assert (morton n (half_coord a) ≠ morton n (half_coord b))
        by (intros E; apply Hh; eauto using morton_inj).
      lia.
Qed.

Lemma pow2_bit_size x : 0 ≤ x → x < 2 ^ bit_size x.
Proof.
  intros Hx. unfold bit_size. destruct (Z.leb_spec x 0).
  - assert (x = 0) as -> by lia. reflexivity.
  - apply Z.log2_spec. lia.
Qed.

Lemma bounded_coord_bits c n :
  nonneg_coord c → (coord_bits c ≤ n)%nat → bounded_coord n c.
Proof.
  intros (H0&H1&H2) Hn. unfold coord_bits in Hn.
  pose proof (bit_size_nonneg (vnth c 0)). pose proof (bit_size_nonneg (vnth c 1)).
  pose proof (bit_size_nonneg (vnth c 2)).
  assert (∀ x, 0 ≤ x → bit_size x ≤ Z.of_nat n → 0 ≤ x < 2 ^ Z.of_nat n) as Hb.
  { intros x Hx Hle. split; [done|].
    eapply Z.lt_le_trans; [by apply pow2_bit_size|].
    apply Z.pow_le_mono_r; lia. }
  repeat split; try done; apply Hb; lia.
Qed.

(** *** Python's [sorted] *)

Section SortedFacts.
Context {A : Type} (lt : A → A → bool).

Lemma sorted_insert_Permutation x l : sorted_insert lt x l ≡ₚ x :: l.
Proof.
  induction l as [|y l IH]; simpl; [done|].
  destruct (lt x y); [done|]. rewrite IH. apply perm_swap.
Qed.

Lemma sorted_lt_fold_Permutation l acc :
  fold_left (fun acc x => sorted_insert lt x acc) l acc ≡ₚ l ++ acc.
Proof.
  revert acc. induction l as [|x l IH]; intros acc; simpl; [done|].
  rewrite IH, sorted_insert_Permutation. by rewrite Permutation_middle.
Qed.

Lemma sorted_lt_Permutation l : sorted_lt lt l ≡ₚ l.
Proof.
  unfold sorted_lt. rewrite sorted_lt_fold_Permutation. by rewrite app_nil_r.
Qed.

(** When [lt] is a strict total order of a key on the elements that
    satisfy [P], the output is sorted by that key. *)
Context {K : Type} (key : A → K) (ltK : K → K → Prop) (P : A → Prop).
Hypothesis ltK_irrefl : ∀ k, ¬ ltK k k.
Hypothesis ltK_trans : ∀ k1 k2 k3, ltK k1 k2 → ltK k2 k3 → ltK k1 k3.
Hypothesis ltK_total : ∀ k1 k2, ltK k1 k2 ∨ k1 = k2 ∨ ltK k2 k1.
Hypothesis lt_key : ∀ x y, P x → P y → lt x y = true ↔ ltK (key x) (key y).

Let R (x y : A) : Prop := ¬ ltK (key y) (key x).

Lemma sorted_insert_Sorted x l :
  P x → Forall P l → Sorted R l → Sorted R (sorted_insert lt x l).
Proof.
  intros Hx Hl Hs. induction l as [|y l IH]; simpl.
  - repeat constructor.
  - inv Hl. inv Hs.
    destruct (lt x y) eqn:E.
    + apply lt_key in E; [|done..]. repeat constructor; try done.
      intros Hyx. by eapply ltK_irrefl, ltK_trans.
    + assert (R y x).
      { intros Hlt. apply lt_key in Hlt; [congruence|done..]. }
      constructor; [by apply IH|].
      destruct l as [|z l]; simpl; [by constructor|].
      destruct (lt x z); constructor; try done.
      match goal with H : HdRel _ _ _ |- _ => by inv H end.
Qed.

Lemma sorted_lt_Sorted l : Forall P l → Sorted R (sorted_lt lt l).
Proof.
  unfold sorted_lt. intros Hl.
  assert (Hgen : ∀ acc, Forall P acc → Sorted R acc →
            Sorted R (fold_left (fun acc x => sorted_insert lt x acc) l acc)).
  { induction Hl as [|x l Hx Hl IH]; intros acc Hacc Hs; simpl; [done|].
    apply IH.
    - rewrite sorted_insert_Permutation. by constructor.
    - by apply sorted_insert_Sorted. }
  apply Hgen; constructor.
Qed.

(** With a key that is injective on [P], the sorted output depends only on
    the multiset of inputs. *)
Hypothesis key_inj : ∀ x y, P x → P y → key x = key y → x = y.

Lemma sorted_lt_unique l ref :
  Forall P l → Sorted R ref → l ≡ₚ ref → sorted_lt lt l = ref.
Proof.
  intros Hl Href Hperm.
  assert (Transitive R).
  { intros x y z Hxy Hyz Hzx. unfold R in *.
    destruct (ltK_total (key y) (key x)) as [?|[E|?]]; [done| |].
    - rewrite E in Hyz. done.
    - apply Hyz. by eapply ltK_trans. }
  apply (Sorted_unique_strong R); [| by apply sorted_lt_Sorted | done |].
  - intros x y Hx Hy Hxy Hyx.
    rewrite sorted_lt_Permutation in Hx. rewrite <- Hperm in Hy.
    rewrite Forall_forall in Hl.
    apply key_inj; [by apply Hl..|]. unfold R in *.
    by destruct (ltK_total (key x) (key y)) as [?|[?|?]].
  - by rewrite sorted_lt_Permutation.
Qed.

(** In particular two arrangements of the same elements sort alike. *)
Lemma sorted_lt_Permutation_eq l1 l2 :
  Forall P l1 → l1 ≡ₚ l2 → sorted_lt lt l1 = sorted_lt lt l2.
Proof.
  intros Hl Hperm. apply sorted_lt_unique; [done| |].
  - apply sorted_lt_Sorted. by rewrite <- Hperm.
  - by rewrite sorted_lt_Permutation.
Qed.
End SortedFacts.

Lemma octants_bounded : Forall (bounded_coord 1) octants_morton.
Proof. unfold octants_morton, bounded_coord. repeat constructor; simpl; lia. Qed.

Lemma octants_Sorted :
  Sorted (fun x y => ¬ morton 1 y < morton 1 x) octants_morton.
Proof.
  unfold octants_morton.
  repeat first [ apply Sorted_nil | apply Sorted_cons
               | apply HdRel_nil | apply HdRel_cons ]; by vm_compute.
Qed.

Lemma sorted_cmp_octants l :
  l ≡ₚ octants_morton → sorted_cmp _cmp_zorder l = octants_morton.
Proof.
  intros Hl. unfold sorted_cmp.
  apply (sorted_lt_unique _ (morton 1) Z.lt (bounded_coord 1)).
  - intros k. lia.
  - intros k1 k2 k3. lia.
  - intros k1 k2. lia.
  - intros x y Hx Hy. rewrite Z.ltb_lt. by apply cmp_zorder_morton.
  - intros x y. apply morton_inj.
  - rewrite Hl. apply octants_bounded.
  - apply octants_Sorted.
  - done.
Qed.

Lemma zorder_lt_trans a b c :
  nonneg_coord a → nonneg_coord b → nonneg_coord c →
  zorder_lt a b → zorder_lt b c → zorder_lt a c.
Proof.
  intros Ha Hb Hc. unfold zorder_lt.
  set (n := (coord_bits a `max` (coord_bits b `max` coord_bits c))%nat).
  assert (bounded_coord n a) by (apply bounded_coord_bits; [done|lia]).
  assert (bounded_coord n b) by (apply bounded_coord_bits; [done|lia]).
  assert (bounded_coord n c) by (apply bounded_coord_bits; [done|lia]).
  rewrite !(cmp_zorder_morton n) by done. lia.
Qed.

(** C5 (amended to non-negative coordinates).  On brick coordinates with
    non-negative integer components [_cmp_zorder] is a strict total order
    (irreflexive, asymmetric, transitive, and any two distinct coordinates
    are ordered); the dimension that decides a comparison is one whose XOR
    has the highest most-significant set bit, and among dimensions that tie
    the one with the highest index is taken; the order is the order of the
    Morton codes; and sorting any arrangement of the eight octants
    (0,0,0)..(1,1,1) with the comparator gives the reference Morton order. *)
Theorem cmp_zorder_total_order (a b c : vec3 Z) (l : list (vec3 Z)) :
  nonneg_coord a → nonneg_coord b → nonneg_coord c →
  l ≡ₚ octants_morton →
  ¬ zorder_lt a a
  ∧ (zorder_lt a b → ¬ zorder_lt b a)
  ∧ (zorder_lt a b → zorder_lt b c → zorder_lt a c)
  ∧ (a ≠ b → zorder_lt a b ∨ zorder_lt b a)
  ∧ (∀ k, (k < 3)%nat →
       let size k := bit_size (Z.lxor (vnth a k) (vnth b k)) in
       size k ≤ size (zorder_msd a b)
       ∧ ((zorder_msd a b < k)%nat → size k < size (zorder_msd a b)))
  ∧ _cmp_zorder a b = vnth a (zorder_msd a b) - vnth b (zorder_msd a b)
  ∧ (∀ n, bounded_coord n a → bounded_coord n b →
       zorder_lt a b ↔ morton n a < morton n b)
  ∧ sorted_cmp _cmp_zorder l = octants_morton.
Proof.
  intros Ha Hb Hc Hl. repeat split.
  - unfold zorder_lt, _cmp_zorder. lia.
  - unfold zorder_lt. rewrite (cmp_zorder_antisym a b). lia.
  - by apply zorder_lt_trans.
  - intros Hne. unfold zorder_lt. rewrite (cmp_zorder_antisym a b).
    assert (_cmp_zorder a b ≠ 0) by (by rewrite cmp_zorder_eq_0).
    lia.
  - rewrite zorder_msd_xor, <- !vnth_vzip_lxor.
    pose proof (nonneg_coord_xor a b Ha Hb) as (?&?&?).
    by apply msd_of_xor_max.
  - rewrite zorder_msd_xor, <- !vnth_vzip_lxor.
    pose proof (nonneg_coord_xor a b Ha Hb) as (?&?&?).
    by apply msd_of_xor_max.
  - by apply cmp_zorder_morton.
  - by apply cmp_zorder_morton.
  - by apply sorted_cmp_octants.
Qed.

Lemma cmp_zorder_total_order_witness :
  nonneg_coord (1, 0, 2) ∧ zorder_lt (0, 3, 1) (1, 0, 2)
  ∧ sorted_cmp _cmp_zorder octants_morton = octants_morton.
Proof.
  assert (nonneg_coord (1, 0, 2)) as Ha by (unfold nonneg_coord; simpl; lia).
  assert (nonneg_coord (0, 3, 1)) as Hb by (unfold nonneg_coord; simpl; lia).
  assert (nonneg_coord (2, 2, 2)) as Hc by (unfold nonneg_coord; simpl; lia).
  destruct (cmp_zorder_total_order _ _ _ octants_morton Ha Hb Hc
              (Permutation_refl _)) as (_&_&_&_&_&_&_&Hs).
  split; [exact Ha|]. split; [reflexivity|exact Hs].
Defined.

(** The claim as written, over all integer coordinates, fails: the distinct
    coordinates (-1,0,0) and (0,0,0) are not ordered either way. *)
Lemma cmp_zorder_not_total_on_negatives :
  less_msb 0 (Z.lxor (-1) 0) = false
  ∧ _cmp_zorder (-1, 0, 0) (0, 0, 0) = 0
  ∧ _cmp_zorder (0, 0, 0) (-1, 0, 0) = 0
  ∧ ¬ (∀ a b : vec3 Z, a ≠ b → zorder_lt a b ∨ zorder_lt b a).
Proof.
  split; [reflexivity|]. split; [reflexivity|]. split; [reflexivity|].
  intros H. destruct (H (-1, 0, 0) (0, 0, 0)) as [Hlt|Hlt]; [congruence|..];
    vm_compute in Hlt; congruence.
Qed.

(** *** The error monad on lists *)

Lemma result_mapM_app {A B} (f : A → Result B) l1 l2 :
  result_mapM f (l1 ++ l2)
  = (y1 ← result_mapM f l1; y2 ← result_mapM f l2; Ok (y1 ++ y2)).
Proof.
  induction l1 as [|x l1 IH]; simpl.
  - by destruct (result_mapM f l2).
  - destruct (f x) as [y|e]; simpl; [|done].
    rewrite IH. destruct (result_mapM f l1) as [y1|e]; simpl; [|done].
    by destruct (result_mapM f l2).
Qed.

Lemma result_mapM_map {A B C} (g : A → B) (f : B → Result C) l :
  result_mapM f (map g l) = result_mapM (fun x => f (g x)) l.
Proof. induction l as [|x l IH]; simpl; [done|]. by rewrite IH. Qed.

Lemma result_mapM_length {A B} (f : A → Result B) l ys :
  result_mapM f l = Ok ys → length ys = length l.
Proof.
  revert ys. induction l as [|x l IH]; intros ys; simpl.
  - by intros [= <-].
  - destruct (f x) as [y|e]; simpl; [|done].
    destruct (result_mapM f l) as [ys'|e]; simpl; [|done].
    intros [= <-]. simpl. f_equal. by apply IH.
Qed.

Lemma result_mapM_lookup {A B} (f : A → Result B) l ys i x :
  result_mapM f l = Ok ys → l !! i = Some x →
  ∃ y, f x = Ok y ∧ ys !! i = Some y.
Proof.
  revert ys i. induction l as [|x' l IH]; intros ys i; simpl; [done|].
  destruct (f x') as [y'|e] eqn:Ef; simpl; [|done].
  destruct (result_mapM f l) as [ys'|e]; simpl; [|done].
  intros [= <-]. destruct i as [|i]; simpl.
  - intros [= ->]. eauto.
  - intros Hi. by apply IH.
Qed.

Lemma result_mapM_Ok {A B} (f : A → Result B) l :
  Forall (fun x => ∃ y, f x = Ok y) l → ∃ ys, result_mapM f l = Ok ys.
Proof.
  induction 1 as [|x l [y Hy] _ [ys IH]]; simpl; [by eexists|].
  rewrite Hy, IH. simpl. by eexists.
Qed.

(** Mapping chunk by chunk and concatenating is mapping the whole list. *)
Lemma result_mapM_chunks {A B C} (f : A → Result B) (h : list B → list C)
    (Hh : ∀ l1 l2, h (l1 ++ l2) = h l1 ++ h l2) (chunks : list (list A)) :
  (ns ← result_mapM (fun ch => ys ← result_mapM f ch; Ok (h ys)) chunks;
   Ok (concat ns))
  = (ys ← result_mapM f (concat chunks); Ok (h ys)).
Proof.
  induction chunks as [|ch chunks IH]; simpl.
  - f_equal. symmetry. assert (h [] ++ h [] = h []) as E by (by rewrite <- Hh).
    by apply (f_equal length) in E; rewrite length_app in E;
      destruct (h []); [|simpl in E; lia].
  - rewrite result_mapM_app.
    destruct (result_mapM f ch) as [y1|e]; simpl; [|done].
    destruct (result_mapM (fun ch0 => ys ← result_mapM f ch0; Ok (h ys)) chunks)
      as [ns|e]; simpl in *.
    + destruct (result_mapM f (concat chunks)) as [y2|e]; simpl in *; [|done].
      injection IH as ->. by rewrite Hh.
    + by destruct (result_mapM f (concat chunks)).
Qed.

(** *** Chunking *)

Lemma concat_slices {A} (l : list A) (c a n : nat) :
  concat (map (fun i => np_slice l i c) (map (fun k => k * c)%nat (seq a n)))
  = take (n * c) (drop (a * c) l).
Proof.
  revert a. induction n as [|n IH]; intros a; simpl; [done|].
  rewrite IH. unfold np_slice.
  rewrite <- take_take_drop. f_equal. f_equal.
  rewrite drop_drop. f_equal. lia.
Qed.

Lemma concat_range_slices {A} (l : list A) (c : nat) :
  (0 < c)%nat →
  concat (map (fun i => np_slice l i c) (py_range_step (length l) c)) = l.
Proof.
  intros Hc. unfold py_range_step. rewrite concat_slices. simpl. rewrite drop_0.
  apply take_ge.
  pose proof (Nat.div_mod (length l + c - 1) c ltac:(lia)).
  pose proof (Nat.mod_upper_bound (length l + c - 1) c ltac:(lia)).
  nia.
Qed.

Lemma py_range_step_nil stop c :
  (0 < c)%nat → py_range_step stop c = [] ↔ stop = 0%nat.
Proof.
  intros Hc. unfold py_range_step. split.
  - intros H. apply (f_equal length) in H. rewrite length_map, length_seq in H.
    simpl in H. apply Nat.div_small_iff in H; lia.
  - intros ->. replace (0 + c - 1)%nat with (c - 1)%nat by lia.
    rewrite Nat.div_small by lia. done.
Qed.

Section NormalsFacts.
Context {F : Type} {f32 : Float32Ops F}.

(** On a non-empty face array the chunked computation is the one-pass
    computation, for every positive chunk size. *)
Lemma chunked_nonempty (vertices_zyx : list (vec3 F)) faces normalize chunksize :
  (0 < chunksize)%nat → faces ≠ [] →
  compute_face_normals_numpy_chunked vertices_zyx faces normalize chunksize
  = compute_face_normals_numpy vertices_zyx faces normalize.
Proof.
  intros Hc Hne. unfold compute_face_normals_numpy_chunked.
  destruct (Nat.eqb_spec chunksize 0); [lia|].
  unfold compute_face_normals_numpy.
  set (h := fun v : list (vec3 F) => if normalize then map normalize_row v else v).
  assert (Hh : ∀ l1 l2, h (l1 ++ l2) = h l1 ++ h l2).
  { intros l1 l2. unfold h. destruct normalize; [apply map_app|done]. }
  pose proof (result_mapM_chunks (face_cross vertices_zyx) h Hh
    (map (fun i => np_slice faces i chunksize) (py_range_step (length faces) chunksize)))
    as Hch.
  rewrite concat_range_slices in Hch by done.
  rewrite result_mapM_map in Hch.
  etrans; [|exact Hch]. clear Hch.
  destruct (result_mapM _ (py_range_step (length faces) chunksize))
    as [ns|e] eqn:E; simpl; [|done].
  destruct ns as [|n0 ns]; [|done].
  apply result_mapM_length in E. simpl in E. symmetry in E.
  apply length_zero_iff_nil, py_range_step_nil in E; [|done].
  by destruct faces.
Qed.

Lemma default_chunksize_pos : (0 < default_chunksize)%nat.
Proof. unfold default_chunksize. lia. Qed.

Lemma compute_face_normals_nonempty (vertices_zyx : list (vec3 F)) faces normalize :
  faces ≠ [] →
  compute_face_normals vertices_zyx faces normalize
  = compute_face_normals_numpy vertices_zyx faces normalize.
Proof. apply chunked_nonempty, default_chunksize_pos. Qed.

(** C8 (the code departs from the claim on an empty face array).  For every
    vertex array, every normalize flag and every chunk size >= 1, the
    chunked computation on an empty face array raises ValueError (there is
    nothing for [np.concatenate] to join), while the one-pass computation
    returns an empty array; on every non-empty face array the two agree. *)
Theorem chunked_empty_faces_raises (vertices_zyx : list (vec3 F))
    (normalize : bool) (chunksize : nat) :
  compute_face_normals_numpy_chunked vertices_zyx [] normalize (S chunksize)
    = Raise ValueError
  ∧ compute_face_normals_numpy vertices_zyx [] normalize = Ok []
  ∧ (∀ faces, faces ≠ [] →
       compute_face_normals_numpy_chunked vertices_zyx faces normalize (S chunksize)
       = compute_face_normals_numpy vertices_zyx faces normalize).
Proof.
  split; [|split].
  - unfold compute_face_normals_numpy_chunked. simpl.
    rewrite (proj2 (py_range_step_nil 0 (S chunksize) ltac:(lia))) by done.
    reflexivity.
  - unfold compute_face_normals_numpy. simpl. by destruct normalize.
  - intros faces Hne. apply chunked_nonempty; [lia|done].
Qed.

End NormalsFacts.

Section NormalsTotal.
Context {F : Type} {f32 : Float32Ops F}.

Lemma np_index_in_range {A} (a : list A) (i : Z) :
  - Z.of_nat (length a) ≤ i < Z.of_nat (length a) → ∃ x, np_index a i = Ok x.
Proof.
  intros Hi. unfold np_index.
  set (j := if i <? 0 then Z.of_nat (length a) + i else i).
  assert (0 ≤ j < Z.of_nat (length a)) as Hj
    by (unfold j; destruct (Z.ltb_spec i 0); lia).
  destruct (Z.leb_spec 0 j); [|lia]. destruct (Z.ltb_spec j (Z.of_nat (length a))); [|lia].
  simpl. destruct (a !! Z.to_nat j) as [x|] eqn:E; [by eexists|].
  apply lookup_ge_None in E. lia.
Qed.

Lemma face_cross_in_range (vertices_zyx : list (vec3 F)) face :
  face_in_range (length vertices_zyx) face → ∃ n, face_cross vertices_zyx face = Ok n.
Proof.
  destruct face as [[i0 i1] i2]. intros (H0 & H1 & H2).
  destruct (np_index_in_range vertices_zyx i0 H0) as [c0 E0].
  destruct (np_index_in_range vertices_zyx i1 H1) as [c1 E1].
  destruct (np_index_in_range vertices_zyx i2 H2) as [c2 E2].
  unfold face_cross, face_corners. rewrite E0, E1, E2. simpl. by eexists.
Qed.

Lemma compute_face_normals_numpy_total (vertices_zyx : list (vec3 F)) faces normalize :
  Forall (face_in_range (length vertices_zyx)) faces →
  ∃ normals, compute_face_normals_numpy vertices_zyx faces normalize = Ok normals.
Proof.
  intros Hf. unfold compute_face_normals_numpy.
  destruct (result_mapM_Ok (face_cross vertices_zyx) faces) as [ns Hns].
  { eapply Forall_impl; [exact Hf|]. intros face. apply face_cross_in_range. }
  rewrite Hns. simpl. by eexists.
Qed.

Lemma compute_face_normals_numpy_length (vertices_zyx : list (vec3 F)) faces normalize normals :
  compute_face_normals_numpy vertices_zyx faces normalize = Ok normals →
  length normals = length faces.
Proof.
  unfold compute_face_normals_numpy.
  destruct (result_mapM _ faces) as [ns|e] eqn:E; simpl; [|done].
  intros [= <-]. apply result_mapM_length in E.
  destruct normalize; [by rewrite length_map|done].
Qed.

Lemma compute_face_normals_numpy_lookup (vertices_zyx : list (vec3 F)) faces normalize normals i face :
  compute_face_normals_numpy vertices_zyx faces normalize = Ok normals →
  faces !! i = Some face →
  ∃ n, face_cross vertices_zyx face = Ok n
       ∧ normals !! i = Some (if normalize then normalize_row n else n).
Proof.
  unfold compute_face_normals_numpy.
  destruct (result_mapM _ faces) as [ns|e] eqn:E; simpl; [|done].
  intros [= <-] Hi.
  destruct (result_mapM_lookup _ _ _ _ _ E Hi) as (n & Hn & Hl).
  exists n. split; [done|].
  destruct normalize; [by rewrite list_lookup_fmap, Hl|done].
Qed.

Lemma compute_face_normals_Ok_nonempty (vertices_zyx : list (vec3 F)) faces normalize normals :
  compute_face_normals vertices_zyx faces normalize = Ok normals → faces ≠ [].
Proof.
  intros H ->. unfold compute_face_normals, compute_face_normals_numpy_chunked in H.
  destruct (Nat.eqb_spec default_chunksize 0); [done|].
  change (length (@nil (vec3 Z))) with 0%nat in H.
  rewrite (proj2 (py_range_step_nil 0 default_chunksize default_chunksize_pos)) in H by done.
  done.
Qed.

End NormalsTotal.

(** *** Degenerate faces in IEEE arithmetic *)

Lemma ieee_nonzero_false x : IEEE.nonzero x = false ↔ IEEE.is_zero x = true.
Proof.
  destruct x as [[]|[]| |[] m e];
    cbv [IEEE.nonzero IEEE.is_zero SFeqb SFcompare negb]; split; congruence.
Qed.

Lemma ieee_zero_row_iff v :
  zero_row (f32 := IEEE.float32) v ↔ ieee_zero_vector v.
Proof.
  destruct v as [[x y] z]. unfold zero_row, ieee_zero_vector. simpl.
  by rewrite !ieee_nonzero_false.
Qed.

(** The guard [magnitudes != 0] leaves a zero row alone. *)
Lemma ieee_normalize_zero_row v :
  ieee_zero_vector v → normalize_row (f32 := IEEE.float32) v = v.
Proof.
  destruct v as [[x y] z]. intros (Hx & Hy & Hz).
  destruct x as [sx| | |]; try done. destruct y as [sy| | |]; try done.
  destruct z as [sz| | |]; try done.
  by destruct sx, sy, sz.
Qed.

(** **** Float arithmetic on zeros and negations *)

Section IEEEFacts.
Variables prec emax : Z.

Lemma SFsub_diag x :
  ieee_finite x = true → SFsub prec emax x x = S754_zero false.
Proof.
  destruct x as [[]|[]| |s m e]; try done.
  intros _. unfold SFsub. cbv zeta. by rewrite Z.sub_diag.
Qed.

(** [x - x] is a number only when [x] is, and then it is zero. *)
Lemma SFsub_diag_finite x :
  ieee_finite (SFsub prec emax x x) = true →
  SFsub prec emax x x = S754_zero false.
Proof. intros H. apply SFsub_diag. by destruct x as [[]|[]| |s m e]. Qed.

Lemma SFmul_zero_r a b :
  ieee_finite a = true → IEEE.is_zero b = true →
  IEEE.is_zero (SFmul prec emax a b) = true.
Proof. by destruct a, b. Qed.

Lemma SFmul_zero_l a b :
  IEEE.is_zero a = true → ieee_finite b = true →
  IEEE.is_zero (SFmul prec emax a b) = true.
Proof. by destruct a, b. Qed.

Lemma SFsub_zeros a b :
  IEEE.is_zero a = true → IEEE.is_zero b = true →
  IEEE.is_zero (SFsub prec emax a b) = true.
Proof. by destruct a as [[]| | |], b as [[]| | |]. Qed.

Lemma binary_round_aux_opp s m e l :
  binary_round_aux prec emax (negb s) m e l
  = SFopp (binary_round_aux prec emax s m e l).
Proof.
  unfold binary_round_aux.
  destruct (shr_fexp prec emax m e l) as [mrs' e'].
  destruct (shr_fexp prec emax _ e' loc_Exact) as [mrs'' e''].
  destruct (shr_m mrs''); [done| |done].
  by destruct (e'' <=? emax - prec)%Z.
Qed.

Lemma binary_round_opp s m e :
  binary_round prec emax (negb s) m e = SFopp (binary_round prec emax s m e).
Proof.
  unfold binary_round. destruct (shl_align _ _ _). apply binary_round_aux_opp.
Qed.

Lemma binary_normalize_opp m e :
  m ≠ 0 →
  binary_normalize prec emax (- m) e false
  = SFopp (binary_normalize prec emax m e false).
Proof.
  destruct m as [|p|p]; [done| |]; intros _; simpl.
  - apply (binary_round_opp false).
  - change (binary_round prec emax true p e)
      with (binary_round prec emax (negb false) p e).
    rewrite binary_round_opp. by destruct (binary_round prec emax false p e) as [[]|[]| |[] ? ?].
Qed.

Lemma SFsub_swapped x y :
  ieee_finite x = true → ieee_finite y = true →
  swapped (SFsub prec emax x y) (SFsub prec emax y x).
Proof.
  destruct x as [sx| | |sx mx ex], y as [sy| | |sy my ey]; try done; intros _ _.
  - right. by destruct sx, sy.
  - left. simpl. by destruct sy.
  - left. simpl. by destruct sx.
  - unfold SFsub. cbv zeta. rewrite (Z.min_comm ey ex).
    set (a := cond_Zopp sx _). set (b := cond_Zopp sy _).
    destruct (decide (a - b = 0)) as [E|E].
    + right. replace (b - a) with 0 by lia. by rewrite E.
    + left. replace (b - a) with (- (a - b)) by lia. by apply binary_normalize_opp.
Qed.

Lemma SFmul_opp_l a b :
  SFmul prec emax (SFopp a) b = SFopp (SFmul prec emax a b).
Proof.
  destruct a as [sa|sa| |sa ma ea], b as [sb|sb| |sb mb eb]; simpl; try done.
  all: try by destruct sa, sb.
  rewrite <- binary_round_aux_opp. by destruct sa, sb.
Qed.

Lemma SFmul_comm a b : SFmul prec emax a b = SFmul prec emax b a.
Proof.
  destruct a as [sa|sa| |sa ma ea], b as [sb|sb| |sb mb eb]; simpl; try done.
  all: try by destruct sa, sb.
  by rewrite Pos.mul_comm, Z.add_comm, xorb_comm.
Qed.

(** One component of the cross product of an edge vector with its own
    negation. *)
Lemma cross_component_swapped a1 a2 b1 b2 :
  swapped a1 b1 → swapped a2 b2 →
  ieee_finite a1 = true → ieee_finite a2 = true →
  ieee_finite b1 = true → ieee_finite b2 = true →
  ieee_finite (SFmul prec emax b1 a2) = true →
  IEEE.is_zero (SFsub prec emax (SFmul prec emax b1 a2) (SFmul prec emax b2 a1)) = true.
Proof.
  intros [E1|[Z1 Z1']] [E2|[Z2 Z2']] Ha1 Ha2 Hb1 Hb2 Hfin.
  - subst b1 b2. rewrite !SFmul_opp_l, (SFmul_comm a2 a1).
    rewrite SFmul_opp_l in Hfin.
    by rewrite SFsub_diag.
  - apply SFsub_zeros; [by apply SFmul_zero_r|by apply SFmul_zero_l].
  - apply SFsub_zeros; [by apply SFmul_zero_l|by apply SFmul_zero_r].
  - apply SFsub_zeros; [by apply SFmul_zero_l|by apply SFmul_zero_l].
Qed.

End IEEEFacts.

Section IEEERepeated.
Variables prec emax : Z.

Lemma SFeqb_cases a b :
  SFeqb a b = true →
  (IEEE.is_zero a = true ∧ IEEE.is_zero b = true) ∨ a = b.
Proof.
  destruct a as [[]|[]| |[] ma ea], b as [[]|[]| |[] mb eb];
    try done; try (by left); try (by right).
  all: unfold SFeqb, SFcompare; intros H; right.
  all: destruct (Z.compare_spec ea eb) as [->| |]; try done.
  all: destruct (Pos.compare_cont Eq ma mb) eqn:E; try done.
  all: by apply Pos.compare_eq in E as ->.
Qed.

Lemma SFsub_finite_inv a b :
  ieee_finite (SFsub prec emax a b) = true →
  ieee_finite a = true ∧ ieee_finite b = true.
Proof. by destruct a as [[]|[]| |[] ? ?], b as [[]|[]| |[] ? ?]. Qed.

(** The difference of two equal numbers is zero. *)
Lemma SFsub_equal a b :
  SFeqb a b = true → ieee_finite b = true →
  IEEE.is_zero (SFsub prec emax a b) = true.
Proof.
  intros [[Ha Hb]| ->]%SFeqb_cases Hfin; [by apply SFsub_zeros|].
  by rewrite SFsub_diag.
Qed.

(** An edge between two corners at the same position is zero. *)
Lemma SFsub_same a b :
  SFeqb b a = true → ieee_finite (SFsub prec emax a b) = true →
  IEEE.is_zero (SFsub prec emax a b) = true.
Proof.
  intros [[Hb Ha]| ->]%SFeqb_cases Hfin; [by apply SFsub_zeros|].
  by rewrite SFsub_diag_finite.
Qed.

(** The edges into and out of a corner, when the two other corners are the
    same position, are each other's negation. *)
Lemma SFsub_around a a' b :
  SFeqb a a' = true →
  ieee_finite (SFsub prec emax b a) = true →
  ieee_finite (SFsub prec emax a' b) = true →
  swapped (SFsub prec emax b a) (SFsub prec emax a' b).
Proof.
  intros [[Ha Ha']| <-]%SFeqb_cases Hf1 Hf2.
  - destruct a as [sa| | |]; try done. destruct a' as [sa'| | |]; try done.
    destruct b as [sb| | |sb mb eb]; try done.
    + right. by destruct sa, sa', sb.
    + left. simpl. by destruct sb.
  - apply SFsub_finite_inv in Hf1 as [Hb Ha]. by apply SFsub_swapped.
Qed.

End IEEERepeated.

Lemma ieee_finite_row_spec v :
  ieee_finite_row v = true ↔
  ieee_finite (vnth v 0) = true ∧ ieee_finite (vnth v 1) = true
  ∧ ieee_finite (vnth v 2) = true.
Proof.
  destruct v as [[x y] z]. unfold ieee_finite_row. simpl.
  rewrite !andb_true_iff. tauto.
Qed.

(** The cross product the code computes for a triangle with a repeated
    corner is a row of zeros, as long as nothing overflows. *)
Lemma repeated_corner_cross (c0 c1 c2 : vec3 spec_float) :
  repeated_corner (c0, c1, c2) → cross_in_range (c0, c1, c2) = true →
  ieee_zero_vector
    (np_cross (f32 := IEEE.float32)
       (vzip (f32_sub (Float32Ops := IEEE.float32)) c2 c1)
       (vzip (f32_sub (Float32Ops := IEEE.float32)) c1 c0)).
Proof.
  destruct c0 as [[x0 y0] z0], c1 as [[x1 y1] z1], c2 as [[x2 y2] z2].
  unfold repeated_corner, same_position, cross_in_range, cross_products.
  cbn [vzip np_cross ieee_finite_row ieee_zero_vector forallb
       f32_sub f32_mul IEEE.float32].
  intros Hrep Hfin.
  repeat match goal with
         | H : _ && _ = true |- _ => apply andb_prop in H as [? ?]
         end.
  set (sub := SFsub IEEE.prec32 IEEE.emax32) in *.
  destruct Hrep as [(Hx & Hy & Hz)|[(Hx & Hy & Hz)|(Hx & Hy & Hz)]].
  - assert (IEEE.is_zero (sub x1 x0) = true) by (by apply SFsub_same).
    assert (IEEE.is_zero (sub y1 y0) = true) by (by apply SFsub_same).
    assert (IEEE.is_zero (sub z1 z0) = true) by (by apply SFsub_same).
    repeat split; apply SFsub_zeros; by apply SFmul_zero_r.
  - assert (IEEE.is_zero (sub x2 x1) = true) by (by apply SFsub_same).
    assert (IEEE.is_zero (sub y2 y1) = true) by (by apply SFsub_same).
    assert (IEEE.is_zero (sub z2 z1) = true) by (by apply SFsub_same).
    repeat split; apply SFsub_zeros; by apply SFmul_zero_l.
  - assert (swapped (sub x1 x0) (sub x2 x1)) by (by apply SFsub_around).
    assert (swapped (sub y1 y0) (sub y2 y1)) by (by apply SFsub_around).
    assert (swapped (sub z1 z0) (sub z2 z1)) by (by apply SFsub_around).
    repeat split; by apply cross_component_swapped.
Qed.

(** **** Triangles of zero area *)

Lemma float_value_finite x :
  ieee_finite x = true → ∃ q, float_value x = Some q.
Proof. destruct x; try done; by eexists. Qed.

Lemma float_value_same x x' q q' :
  SFeqb x x' = true → float_value x = Some q → float_value x' = Some q' →
  (q == q')%Q.
Proof.
  intros [[Hz Hz']| <-]%SFeqb_cases.
  - destruct x, x'; try done. by intros [= <-] [= <-].
  - intros -> [= <-]. reflexivity.
Qed.

Lemma exact_position_finite c :
  ieee_finite_row c = true → ∃ p, exact_position c = Some p.
Proof.
  destruct c as [[x y] z]. intros (Hx & Hy & Hz)%ieee_finite_row_spec.
  destruct (float_value_finite _ Hx) as [qx Ex].
  destruct (float_value_finite _ Hy) as [qy Ey].
  destruct (float_value_finite _ Hz) as [qz Ez].
  exists (qx, qy, qz). simpl in *. by rewrite Ex, Ey, Ez.
Qed.

Lemma exact_position_same c c' p p' :
  same_position c c' → exact_position c = Some p → exact_position c' = Some p' →
  (vnth p 0 == vnth p' 0 ∧ vnth p 1 == vnth p' 1 ∧ vnth p 2 == vnth p' 2)%Q.
Proof.
  destruct c as [[x y] z], c' as [[x' y'] z']. intros (Hx & Hy & Hz).
  simpl.
  destruct (float_value x) as [qx|] eqn:Ex; [|done].
  destruct (float_value y) as [qy|] eqn:Ey; [|done].
  destruct (float_value z) as [qz|] eqn:Ez; [|done].
  destruct (float_value x') as [qx'|] eqn:Ex'; [|done].
  destruct (float_value y') as [qy'|] eqn:Ey'; [|done].
  destruct (float_value z') as [qz'|] eqn:Ez'; [|done].
  simpl. intros [= <-] [= <-]. simpl.
  split; [exact (float_value_same _ _ _ _ Hx Ex Ex')|].
  split; [exact (float_value_same _ _ _ _ Hy Ey Ey')|].
  exact (float_value_same _ _ _ _ Hz Ez Ez').
Qed.

(** The coordinates of a triangle whose edges are numbers are numbers. *)
Lemma cross_in_range_finite c0 c1 c2 :
  cross_in_range (c0, c1, c2) = true →
  ieee_finite_row c0 = true ∧ ieee_finite_row c1 = true ∧ ieee_finite_row c2 = true.
Proof.
  destruct c0 as [[x0 y0] z0], c1 as [[x1 y1] z1], c2 as [[x2 y2] z2].
  unfold cross_in_range.
  cbn [vzip ieee_finite_row f32_sub IEEE.float32].
  intros H.
  repeat match goal with
         | H : _ && _ = true |- _ => apply andb_prop in H as [? ?]
         end.
  repeat match goal with
         | H : ieee_finite (SFsub _ _ _ _) = true |- _ =>
             apply SFsub_finite_inv in H as [? ?]
         end.
  repeat split; by repeat (apply andb_true_intro; split).
Qed.

(** A triangle with a repeated corner has zero area. *)
Lemma repeated_corner_zero_area c0 c1 c2 :
  repeated_corner (c0, c1, c2) → cross_in_range (c0, c1, c2) = true →
  zero_area (c0, c1, c2).
Proof.
  intros Hrep (H0 & H1 & H2)%cross_in_range_finite.
  destruct (exact_position_finite _ H0) as [p0 E0].
  destruct (exact_position_finite _ H1) as [p1 E1].
  destruct (exact_position_finite _ H2) as [p2 E2].
  exists p0, p1, p2. split; [done|]. split; [done|]. split; [done|].
  assert (∀ c c' p p', same_position c c' → exact_position c = Some p →
            exact_position c' = Some p' →
            ∀ q, exact_cross_is_zero (vzip Qminus p' p) q
                 ∧ exact_cross_is_zero q (vzip Qminus p' p)
                 ∧ exact_cross_is_zero (vzip Qminus p' q) (vzip Qminus q p))
    as Hsame.
  { clear. intros c c' p p' Hs E E' q.
    pose proof (exact_position_same _ _ _ _ Hs E E') as (Hx & Hy & Hz).
    destruct p as [[x y] z], p' as [[x' y'] z'], q as [[a b] d].
    simpl in *. repeat split; nra. }
  destruct Hrep as [Hs|[Hs|Hs]].
  - apply (Hsame _ _ _ _ Hs E0 E1 (vzip Qminus p2 p1)).
  - apply (Hsame _ _ _ _ Hs E1 E2 (vzip Qminus p1 p0)).
  - apply (Hsame _ _ _ _ Hs E0 E2 p1).
Qed.


(** *** The compression state machine *)

(** Unfold the plumbing of the method monad. *)
Ltac method_unfold :=
  unfold mbind, method_mbind, method_bind, method_get, method_set, method_lift,
    method_raise, mret, method_mret, method_ret in *.

Section CompressionFacts.
Context {F : Type} {ext : External F}.

Lemma compress_as_lz4_cached (m : Mesh F) items :
  _lz4_items m = Some items →
  _compress_as_lz4 m = Ok (sum_list (map length items), m).
Proof.
  intros H. unfold _compress_as_lz4. method_unfold.
  rewrite H. simpl. rewrite H. reflexivity.
Qed.

Lemma compress_as_draco_cached (m : Mesh F) b :
  _dvidutils_available = true → _draco_bytes m = Some b →
  _compress_as_draco m = Ok (length b, m)
  ∧ _compress_as_custom_draco m = Ok (length b, m).
Proof.
  intros Ha H.
  unfold _compress_as_draco, _compress_as_custom_draco. method_unfold.
  rewrite Ha. simpl. rewrite H. simpl. rewrite H. split; reflexivity.
Qed.

(** A method that ends by reading an attribute returns what the final
    state holds. *)
Lemma method_final_read {A B C} (c : Method F A) (field : Mesh F → option B)
    (g : B → C) (m m' : Mesh F) r :
  (c;; x ← method_get field; y ← not_None x; mret (g y)) m = Ok (r, m') →
  ∃ y, field m' = Some y ∧ r = g y.
Proof.
  unfold mbind, method_mbind, method_bind, method_get, mret, method_mret, method_ret.
  destruct (c m) as [[a m1]|e]; [|done].
  destruct (field m1) as [y|] eqn:E; simpl; [|done].
  intros [= <- <-]. eauto.
Qed.

Lemma compress_as_lz4_result (m m' : Mesh F) n :
  _compress_as_lz4 m = Ok (n, m') →
  ∃ items, _lz4_items m' = Some items ∧ n = sum_list (map length items).
Proof.
  unfold _compress_as_lz4. intros H.
  unfold mbind at 1, method_mbind at 1, method_bind at 1 in H.
  unfold method_get at 1 in H.
  by apply (method_final_read _ _lz4_items (fun l => sum_list (map length l))) in H.
Qed.

Lemma compress_as_draco_result (m m' : Mesh F) n :
  _compress_as_draco m = Ok (n, m') ∨ _compress_as_custom_draco m = Ok (n, m') →
  _dvidutils_available = true ∧ ∃ b, _draco_bytes m' = Some b ∧ n = length b.
Proof.
  unfold _compress_as_draco, _compress_as_custom_draco.
  intros [H|H];
    unfold mbind at 1, method_mbind at 1, method_bind at 1 in H;
    unfold method_lift at 1, py_assert at 1 in H;
    destruct _dvidutils_available; try done; (split; [done|]);
    unfold mbind at 1, method_mbind at 1, method_bind at 1 in H;
    unfold method_get at 1 in H;
    by apply (method_final_read _ _draco_bytes length) in H.
Qed.

(** C4 (amended to the method the mesh is encoded with).  A call of
    [compress("lz4")] on a mesh that holds LZ4 items, and a call of
    [compress("draco")] or [compress("custom_draco")] on a mesh that holds
    Draco bytes, returns the size of the stored encoding and leaves every
    attribute of the mesh as it was: nothing is encoded again.  Hence for
    each of the three methods a successful [compress(method)] followed by
    the same call returns the same size and the same state. *)
Theorem compress_idempotent_same_method (m m' : Mesh F) (method : string) (n : nat) :
  method ∈ ["lz4"; "draco"; "custom_draco"] →
  compress (Some method) m = Ok (n, m') →
  compress (Some method) m' = Ok (n, m')
  ∧ (∀ items, _lz4_items m = Some items →
       compress (Some "lz4") m = Ok (sum_list (map length items), m))
  ∧ (∀ b, _dvidutils_available = true → _draco_bytes m = Some b →
       compress (Some "draco") m = Ok (length b, m)
       ∧ compress (Some "custom_draco") m = Ok (length b, m)).
Proof.
  intros Hm Hc. split; [|split].
  - apply list_elem_of_In in Hm. simpl in Hm.
    destruct Hm as [<-|[<-|[<-|[]]]]; simpl in *.
    + destruct (compress_as_lz4_result _ _ _ Hc) as (items & Hi & ->).
      by apply compress_as_lz4_cached.
    + destruct (compress_as_draco_result m m' n (or_introl Hc)) as (Ha & b & Hb & ->).
      by apply compress_as_draco_cached.
    + destruct (compress_as_draco_result m m' n (or_intror Hc)) as (Ha & b & Hb & ->).
      by apply compress_as_draco_cached.
  - intros items Hi. simpl. by apply compress_as_lz4_cached.
  - intros b Ha Hb. simpl. by apply compress_as_draco_cached.
Qed.

End CompressionFacts.

(** *** Loading zero bytes *)

Section LoadingFacts.
Context {F : Type} {f32 : Float32Ops F} {ext : External F}.

Lemma Mesh_init_empty :
  Mesh_init (F := F) [] [] None None None None (Some "lz4") = Ok empty_mesh.
Proof. reflexivity. Qed.

(** C9.  Decoding zero bytes gives the empty mesh and no error: [from_file]
    on a file of size zero, whatever its extension, and [from_buffer] on an
    empty bytes object for each of the four formats.  The empty mesh is not
    compressed or destroyed, and its vertex, face and normal arrays read as
    arrays with zero rows. *)
Theorem zero_byte_input_is_empty_mesh
    (fs : string → option bytes) (path : string) (fmt : string) :
  (fs path = Some [] → from_file fs path = Ok (Some empty_mesh))
  ∧ (fmt ∈ MESH_FORMATS → from_buffer [] fmt = Ok (Some empty_mesh))
  ∧ read vertices_zyx (empty_mesh (F := F)) = Ok []
  ∧ read faces (empty_mesh (F := F)) = Ok []
  ∧ read normals_zyx (empty_mesh (F := F)) = Ok [].
Proof.
  split; [|split; [|by repeat split]].
  - intros Hfs. unfold from_file. rewrite Hfs.
    change (length (@nil Byte.byte) =? 0)%nat with true. cbv iota.
    by rewrite Mesh_init_empty.
  - intros Hfmt. unfold from_buffer.
    rewrite bool_decide_eq_true_2 by done.
    change (length (@nil Byte.byte) =? 0)%nat with true.
    change (py_assert true) with (Ok tt). cbv beta iota delta [mbind result_bind].
    by rewrite Mesh_init_empty.
Qed.

End LoadingFacts.

(** *** Concatenation *)

Lemma result_mapM_fmap {A B C} (f : A → Result B) (g : B → C) l :
  result_mapM (fun x => g <$> f x) l = map g <$> result_mapM f l.
Proof.
  induction l as [|x l IH]; simpl; [done|].
  destruct (f x) as [y|e]; simpl; [|done].
  rewrite IH. by destruct (result_mapM f l).
Qed.

Lemma result_mapM_Forall2 {A B} (f : A → Result B) l ys :
  Forall2 (fun x y => f x = Ok y) l ys → result_mapM f l = Ok ys.
Proof.
  induction 1 as [|x y l ys Hxy _ IH]; simpl; [done|]. by rewrite Hxy, IH.
Qed.

Section ConcatenateFacts.
Context {F : Type} {f32 : Float32Ops F} {ext : External F}.

Implicit Types arrs : list (list (vec3 F) * list (vec3 Z) * list (vec3 F)).

Lemma read_arrays (meshes : list (Mesh F)) arrs :
  Forall2 mesh_arrays meshes arrs →
  result_mapM (read vertices_zyx) meshes = Ok (map (fun a => a.1.1) arrs)
  ∧ result_mapM (read faces) meshes = Ok (map (fun a => a.1.2) arrs)
  ∧ result_mapM (read normals_zyx) meshes = Ok (map (fun a => a.2) arrs).
Proof.
  intros H. repeat split; apply result_mapM_Forall2, Forall2_fmap_r;
    (eapply Forall2_impl; [exact H|]); by intros m a (?&?&?).
Qed.

Lemma normals_consistent_false arrs :
  normals_consistent arrs = false
  ↔ Exists (fun a => a.2 ≠ []) arrs
    ∧ Exists (fun a => length a.2 ≠ length a.1.1) arrs.
Proof.
  unfold normals_consistent. rewrite orb_false_iff, negb_false_iff.
  assert (H1 : existsb (fun c => negb (c =? 0)%nat) (map (fun a => length a.2) arrs) = true
               ↔ Exists (fun a => a.2 ≠ []) arrs).
  { rewrite existsb_exists, Exists_exists. split.
    + intros (c & Hc & Hnz). apply in_map_iff in Hc as (a & <- & Ha).
      exists a. split; [by apply list_elem_of_In|].
      intros E. rewrite E in Hnz. done.
    + intros (a & Ha & Hne). exists (length a.2). split.
      * apply in_map_iff. exists a. split; [done|by apply list_elem_of_In].
      * destruct (a.2); [done|reflexivity]. }
  assert (H2 : forallb (fun '(v, n) => (v =? n)%nat)
                 (zip (map (fun a => length a.1.1) arrs) (map (fun a => length a.2) arrs))
               = false
               ↔ Exists (fun a => length a.2 ≠ length a.1.1) arrs).
  { clear H1. induction arrs as [|a arrs IH]; simpl.
    + split; [done|]. by intros ?%Exists_nil.
    + rewrite andb_false_iff, Exists_cons, IH.
      destruct (Nat.eqb_spec (length a.1.1) (length a.2)); split;
        intros [?|?]; auto; try done; lia. }
  by rewrite H1, H2.
Qed.

Lemma verify_concatenate_inputs_arrays (meshes : list (Mesh F)) arrs :
  Forall2 mesh_arrays meshes arrs →
  _verify_concatenate_inputs meshes (map length (map (fun a => a.1.1) arrs))
  = if normals_consistent arrs then Ok tt
    else Raise (RuntimeError InconsistentNormals).
Proof.
  intros H. destruct (read_arrays _ _ H) as (_ & _ & Hn).
  unfold _verify_concatenate_inputs.
  rewrite result_mapM_fmap, Hn. simpl. rewrite !map_map. reflexivity.
Qed.

Lemma length_concat_map {A B} (f : A → list B) g (l : list A) :
  (∀ a, a ∈ l → length (f a) = length (g a : list B)) →
  length (concat (map f l)) = length (concat (map g l)).
Proof.
  induction l as [|a l IH]; intros H; simpl; [done|].
  rewrite !length_app, H, IH; [done| |by left].
  intros a' Ha'. apply H. by right.
Qed.

Lemma np_concatenate_cons {A} (x : list A) xs :
  np_concatenate (x :: xs) = Ok (concat (x :: xs)).
Proof. reflexivity. Qed.

Lemma Mesh_init_with_normals (vs : list (vec3 F)) fs ns b :
  ((length ns =? length vs)%nat || (length ns =? 0)%nat) = true →
  Mesh_init vs fs (Some ns) (Some b) None None (Some "lz4")
  = Ok (mkMesh (Some "lz4") false (Some vs) (Some (map (vmap as_uint32) fs))
          (Some ns) None None None None None None b).
Proof. intros H. unfold Mesh_init. rewrite H. reflexivity. Qed.

(** What [concatenate_meshes(meshes, keep_normals=True)] does on a
    non-empty list of meshes whose arrays can be read. *)
Lemma concatenate_meshes_keep_normals (meshes : list (Mesh F)) arrs :
  meshes ≠ [] → Forall2 mesh_arrays meshes arrs →
  if normals_consistent arrs
  then ∃ result, concatenate_meshes meshes true = Ok result
         ∧ _vertices_zyx result = Some (concat (map (fun a => a.1.1) arrs))
         ∧ _normals_zyx result = Some (concat (map (fun a => a.2) arrs))
  else concatenate_meshes meshes true = Raise (RuntimeError InconsistentNormals).
Proof.
  intros Hne H. destruct (read_arrays _ _ H) as (Hv & Hf & Hn).
  unfold concatenate_meshes.
  rewrite !result_mapM_fmap, Hv, Hf. simpl.
  rewrite (verify_concatenate_inputs_arrays _ _ H).
  destruct (normals_consistent arrs) eqn:Hc; simpl; [|done].
  rewrite Hn. simpl.
  destruct H as [|m a meshes arrs Hma H]; [done|].
  rewrite !fmap_cons, !np_concatenate_cons. simpl.
  set (vs := a.1.1 ++ concat (map (fun a => a.1.1) arrs)).
  set (ns := a.2 ++ concat (map (fun a => a.2) arrs)).
  assert (Hlen : ((length ns =? length vs)%nat || (length ns =? 0)%nat) = true).
  { apply orb_true_iff.
    destruct (decide (Exists (fun a => a.2 ≠ []) (a :: arrs))) as [Hex|Hno].
    - left. apply Nat.eqb_eq.
      assert (¬ Exists (fun a => length a.2 ≠ length a.1.1) (a :: arrs)) as Hall.
      { intros Hmis.
        assert (normals_consistent (a :: arrs) = false)
          by (by apply normals_consistent_false).
        congruence. }
      apply (length_concat_map (fun a => a.2) (fun a => a.1.1) (a :: arrs)).
      intros a' Ha'. destruct (decide (length a'.2 = length a'.1.1)); [done|].
      destruct Hall. apply Exists_exists. eauto.
    - right. apply Nat.eqb_eq.
      assert (∀ a', a' ∈ a :: arrs → a'.2 = []) as Hnil.
      { intros a' Ha'. destruct (a'.2) eqn:E; [done|].
        destruct Hno. apply Exists_exists. exists a'. split; [done|]. by rewrite E. }
      change ns with (concat (map (fun a => a.2) (a :: arrs))).
      rewrite (length_concat_map (fun a => a.2) (fun _ => []) (a :: arrs)).
      + clear. induction (a :: arrs); [done|]. done.
      + intros a' Ha'. by rewrite Hnil. }
  rewrite (Mesh_init_with_normals _ _ _ _ Hlen). eexists. split; [done|]. by split.
Qed.

(** C6 (the code departs from the claim on an empty list).  With
    [keep_normals=True]: on a non-empty list of meshes whose arrays can be
    read, [concatenate_meshes] raises the inconsistent-normals error exactly
    when some mesh has normals and some mesh has a normals count different
    from its vertex count, and otherwise returns the mesh of the
    concatenated vertices and normals; on the empty list the validation
    passes and then [np.concatenate] raises ValueError. *)
Theorem concatenate_meshes_normals_check (meshes : list (Mesh F)) arrs :
  concatenate_meshes (F := F) [] true = Raise ValueError
  ∧ _verify_concatenate_inputs (F := F) [] [] = Ok tt
  ∧ (meshes ≠ [] → Forall2 mesh_arrays meshes arrs →
     (concatenate_meshes meshes true = Raise (RuntimeError InconsistentNormals)
      ↔ Exists (fun a => a.2 ≠ []) arrs
        ∧ Exists (fun a => length a.2 ≠ length a.1.1) arrs)
     ∧ (¬ (Exists (fun a => a.2 ≠ []) arrs
           ∧ Exists (fun a => length a.2 ≠ length a.1.1) arrs) →
        ∃ result, concatenate_meshes meshes true = Ok result
          ∧ _vertices_zyx result = Some (concat (map (fun a => a.1.1) arrs))
          ∧ _normals_zyx result = Some (concat (map (fun a => a.2) arrs)))).
Proof.
  split; [reflexivity|]. split; [reflexivity|].
  intros Hne H.
  pose proof (concatenate_meshes_keep_normals meshes arrs Hne H) as Hc.
  rewrite <- normals_consistent_false.
  destruct (normals_consistent arrs); split.
  - destruct Hc as (r & Hr & _). rewrite Hr. split; [done|done].
  - intros _. exact Hc.
  - done.
  - intros Hn. by destruct Hn.
Qed.

End ConcatenateFacts.

(** *** Loading a tar archive *)

Lemma str_lt_compare s t : str_lt s t ↔ String.compare s t = Lt.
Proof. unfold str_lt, String.ltb. destruct (String.compare s t); split; congruence. Qed.

Lemma str_lt_irrefl s : ¬ str_lt s s.
Proof.
  rewrite str_lt_compare. intros H.
  pose proof (String.compare_antisym s s) as Ha. rewrite H in Ha. done.
Qed.

Lemma str_lt_trans s t u : str_lt s t → str_lt t u → str_lt s u.
Proof.
  rewrite !str_lt_compare. intros H1 H2.
  apply OrderedTypeEx.String_as_OT.cmp_lt.
  eapply OrderedTypeEx.String_as_OT.lt_trans;
    by apply OrderedTypeEx.String_as_OT.cmp_lt.
Qed.

Lemma str_lt_total s t : str_lt s t ∨ s = t ∨ str_lt t s.
Proof.
  rewrite !str_lt_compare.
  destruct (String.compare s t) eqn:E.
  - right; left. by apply String.compare_eq_iff.
  - by left.
  - right; right. rewrite String.compare_antisym, E. done.
Qed.

Lemma NoDup_fmap_inj_on {A B} (f : A → B) (l : list A) x y :
  NoDup (f <$> l) → x ∈ l → y ∈ l → f x = f y → x = y.
Proof.
  induction l as [|a l IH]; simpl; [by intros _ ?%elem_of_nil|].
  rewrite NoDup_cons. intros [Hnin Hnd] Hx Hy Hf.
  apply elem_of_cons in Hx as [->|Hx]; apply elem_of_cons in Hy as [->|Hy].
  - done.
  - destruct Hnin. rewrite Hf. by apply list_elem_of_fmap_2.
  - destruct Hnin. rewrite <- Hf. by apply list_elem_of_fmap_2.
  - by apply IH.
Qed.

Section TarfileFacts.
Context {F : Type} {f32 : Float32Ops F} {ext : External F}.

(** C10 (amended to archives without repeated member names).  Two archives
    with the same members, stored in different orders, in which no member
    name occurs twice, give the same result from [from_tarfile], both when
    the meshes are concatenated and when the name-to-mesh dict is returned:
    sorting by name puts the members in one order before any is loaded. *)
Theorem from_tarfile_storage_order (members1 members2 : list TarMember)
    (keep_normals concatenate : bool) :
  members1 ≡ₚ members2 →
  NoDup (member_name <$> members1) →
  from_tarfile (F := F) members1 keep_normals concatenate
  = from_tarfile members2 keep_normals concatenate.
Proof.
  intros Hperm Hnd. unfold from_tarfile.
  replace (sorted_lt (fun a b => String.ltb (member_name a) (member_name b)) members2)
    with (sorted_lt (fun a b => String.ltb (member_name a) (member_name b)) members1);
    [done|].
  apply (sorted_lt_Permutation_eq _ member_name str_lt (fun m => m ∈ members1)).
  - apply str_lt_irrefl.
  - apply str_lt_trans.
  - apply str_lt_total.
  - done.
  - intros x y Hx Hy. by apply (NoDup_fmap_inj_on member_name members1).
  - by apply Forall_forall.
  - done.
Qed.

End TarfileFacts.

(** *** Reading and writing the arrays of an uncompressed mesh *)

Section AccessorFacts.
Context {F : Type} {ext : External F}.

Lemma method_bind_Ok {A B} (c : Method F A) (k : A → Method F B) m a m' :
  c m = Ok (a, m') → (c ≫= k) m = k a m'.
Proof. intros H. unfold mbind, method_mbind, method_bind. by rewrite H. Qed.

Lemma method_bind_Raise {A B} (c : Method F A) (k : A → Method F B) m e :
  c m = Raise e → (c ≫= k) m = Raise e.
Proof. intros H. unfold mbind, method_mbind, method_bind. by rewrite H. Qed.

Lemma auto_uncompress_uncompressed {A} (f : Method F A) (m : Mesh F) vs :
  _destroyed m = false → _vertices_zyx m = Some vs → auto_uncompress f m = f m.
Proof.
  intros Hd Hv. unfold auto_uncompress. method_unfold. rewrite Hd. simpl.
  rewrite Hv. simpl. by destruct (f m) as [[??]|].
Qed.

Lemma vertices_zyx_uncompressed (m : Mesh F) vs fs ns :
  uncompressed m vs fs ns → vertices_zyx m = Ok (vs, m).
Proof.
  intros (Hd & Hv & Hf & Hn). unfold vertices_zyx.
  rewrite (auto_uncompress_uncompressed _ m vs) by done.
  method_unfold. by rewrite Hv.
Qed.

Lemma faces_uncompressed (m : Mesh F) vs fs ns :
  uncompressed m vs fs ns → faces m = Ok (fs, m).
Proof.
  intros (Hd & Hv & Hf & Hn). unfold faces.
  rewrite (auto_uncompress_uncompressed _ m vs) by done.
  method_unfold. by rewrite Hf.
Qed.

Lemma normals_zyx_uncompressed (m : Mesh F) vs fs ns :
  uncompressed m vs fs ns → normals_zyx m = Ok (ns, m).
Proof.
  intros (Hd & Hv & Hf & Hn). unfold normals_zyx.
  rewrite (auto_uncompress_uncompressed _ m vs) by done.
  method_unfold. by rewrite Hn.
Qed.

Lemma set_vertices_zyx_uncompressed (m : Mesh F) vs fs ns vs' :
  uncompressed m vs fs ns →
  set_vertices_zyx vs' m = Ok (tt, set__vertices_zyx (Some vs') m)
  ∧ uncompressed (set__vertices_zyx (Some vs') m) vs' fs ns
  ∧ same_metadata m (set__vertices_zyx (Some vs') m).
Proof.
  intros (Hd & Hv & Hf & Hn). unfold set_vertices_zyx.
  rewrite (auto_uncompress_uncompressed _ m vs) by done.
  by repeat split.
Qed.

Lemma set_faces_uncompressed (m : Mesh F) vs fs ns fs' :
  uncompressed m vs fs ns →
  set_faces fs' m = Ok (tt, set__faces (Some fs') m)
  ∧ uncompressed (set__faces (Some fs') m) vs fs' ns
  ∧ same_metadata m (set__faces (Some fs') m).
Proof.
  intros (Hd & Hv & Hf & Hn). unfold set_faces.
  rewrite (auto_uncompress_uncompressed _ m vs) by done.
  by repeat split.
Qed.

Lemma set_normals_zyx_uncompressed (m : Mesh F) vs fs ns ns' :
  uncompressed m vs fs ns →
  set_normals_zyx ns' m = Ok (tt, set__normals_zyx (Some ns') m)
  ∧ uncompressed (set__normals_zyx (Some ns') m) vs fs ns'
  ∧ same_metadata m (set__normals_zyx (Some ns') m).
Proof.
  intros (Hd & Hv & Hf & Hn). unfold set_normals_zyx.
  rewrite (auto_uncompress_uncompressed _ m vs) by done.
  by repeat split.
Qed.

Lemma same_metadata_refl (m : Mesh F) : same_metadata m m.
Proof. by repeat split. Qed.

Lemma same_metadata_trans (m1 m2 m3 : Mesh F) :
  same_metadata m1 m2 → same_metadata m2 m3 → same_metadata m1 m3.
Proof.
  unfold same_metadata. intros (?&?&?&?&?&?&?&?&?) (?&?&?&?&?&?&?&?&?).
  repeat split; congruence.
Qed.

(** A mesh is determined by its arrays and its other attributes. *)
Lemma uncompressed_same_metadata_eq (m m' : Mesh F) vs fs ns :
  uncompressed m vs fs ns → uncompressed m' vs fs ns → same_metadata m m' → m' = m.
Proof.
  destruct m, m'. unfold uncompressed, same_metadata. simpl.
  intros (?&?&?&?) (?&?&?&?) (?&?&?&?&?&?&?&?&?). congruence.
Qed.

End AccessorFacts.

(** *** Recomputing normals *)

Lemma result_mapM_Ok_Forall2 {A B} (f : A → Result B) l ys :
  result_mapM f l = Ok ys → Forall2 (fun x y => f x = Ok y) l ys.
Proof.
  revert ys. induction l as [|x l IH]; intros ys; simpl.
  - intros [= <-]. constructor.
  - destruct (f x) as [y|e] eqn:E; simpl; [|done].
    destruct (result_mapM f l) as [ys'|e]; simpl; [|done].
    intros [= <-]. constructor; [done|by apply IH].
Qed.

Lemma mask_rows_Forall2 {A B} (P : A → Prop) (g : B → bool) (rows : list A) (vals : list B)
    (R : A → B → Prop) :
  Forall2 R rows vals →
  (∀ r v, R r v → g v = true → P r) →
  Forall P (mask_rows (map g vals) rows)
  ∧ length (mask_rows (map g vals) vals) = length (mask_rows (map g vals) rows).
Proof.
  intros H HP. induction H as [|r v rows vals Hrv _ [IH1 IH2]]; simpl; [done|].
  destruct (g v) eqn:E; simpl; [|done].
  split; [constructor; eauto|by f_equal].
Qed.

Lemma mask_rows_all {A} (mask : list bool) (rows : list A) :
  forallb id mask = true → length mask = length rows → mask_rows mask rows = rows.
Proof.
  revert rows. induction mask as [|b mask IH]; intros [|r rows]; simpl; try done.
  intros [-> ?]%andb_true_iff [= ?]. f_equal. by apply IH.
Qed.

Lemma mask_rows_sublist {A} (P : A → Prop) (mask : list bool) (rows : list A) :
  Forall P rows → Forall P (mask_rows mask rows).
Proof.
  intros H. revert mask. induction H as [|r rows Hr _ IH]; intros [|b mask]; simpl;
    try done.
  destruct b; [constructor|]; eauto.
Qed.

Section RecomputeFacts.
Context {F : Type} {f32 : Float32Ops F} {ext : External F}.

Lemma np_index_valid {A} (a : list A) (i : Z) :
  0 ≤ i < Z.of_nat (length a) →
  ∃ x, np_index a i = Ok x ∧ a !! Z.to_nat i = Some x.
Proof.
  intros Hi. unfold np_index.
  destruct (Z.ltb_spec i 0); [lia|].
  destruct (Z.leb_spec 0 i); [|lia].
  destruct (Z.ltb_spec i (Z.of_nat (length a))); [|lia]. simpl.
  destruct (a !! Z.to_nat i) as [x|] eqn:E; [by eexists|].
  apply lookup_ge_None in E. lia.
Qed.

Lemma row_add_at_valid (a : list (vec3 F)) i v :
  0 ≤ i < Z.of_nat (length a) →
  ∃ a', row_add_at a i v = Ok a' ∧ length a' = length a.
Proof.
  intros Hi. unfold row_add_at.
  destruct (np_index_valid a i Hi) as (x & -> & _). simpl.
  eexists. split; [done|]. by rewrite length_insert.
Qed.

Lemma np_add_at_valid (a : list (vec3 F)) indices values :
  Forall (fun i => 0 ≤ i < Z.of_nat (length a)) indices →
  length indices = length values →
  ∃ a', np_add_at a indices values = Ok a' ∧ length a' = length a.
Proof.
  intros Hi. revert a values Hi.
  induction indices as [|i indices IH]; intros a [|v values] Hi Hlen; simpl in *;
    try done; [by eexists|].
  inv Hi.
  destruct (row_add_at_valid a i v) as (a1 & -> & Hl1); [done|]. simpl.
  destruct (IH a1 values) as (a2 & -> & Hl2); [by rewrite Hl1|lia|].
  eexists. split; [done|]. congruence.
Qed.

Lemma vertex_normals_numba_loop_valid (vn : list (vec3 F)) fs fns :
  Forall (face_valid (length vn)) fs → length fns = length fs →
  ∃ vn', vertex_normals_numba_loop vn fs fns = Ok vn' ∧ length vn' = length vn.
Proof.
  intros Hf. revert vn fns Hf.
  induction fs as [|[[i0 i1] i2] fs IH]; intros vn [|fn fns] Hf Hlen; simpl in *;
    try done; [by eexists|].
  apply Forall_cons in Hf as [(H0 & H1 & H2) Hf].
  destruct (row_add_at_valid vn i0 fn) as (a1 & -> & Hl1); [done|]. simpl.
  destruct (row_add_at_valid a1 i1 fn) as (a2 & -> & Hl2); [by rewrite Hl1|]. simpl.
  destruct (row_add_at_valid a2 i2 fn) as (a3 & -> & Hl3); [by rewrite Hl2, Hl1|]. simpl.
  destruct (IH a3 fns) as (a4 & -> & Hl4); [by rewrite Hl3, Hl2, Hl1|lia|].
  eexists. split; [done|]. congruence.
Qed.

Lemma face_valid_index (n : nat) (fs : list (vec3 Z)) k :
  Forall (face_valid n) fs →
  Forall (fun i => 0 ≤ i < Z.of_nat n) (map (fun f => vnth f k) fs).
Proof.
  intros H. apply Forall_fmap. eapply Forall_impl; [exact H|].
  intros [[i0 i1] i2] (?&?&?). by destruct k as [|[|k]].
Qed.

(** With valid faces and one face normal per face, the vertex normals are
    computed, one per vertex, by either implementation. *)
Lemma compute_vertex_normals_valid (numba : bool) (vs : list (vec3 F)) fs fns :
  Forall (face_valid (length vs)) fs → length fns = length fs →
  ∃ n, compute_vertex_normals numba vs fs false (Some fns) = Ok n
       ∧ length n = length vs.
Proof.
  intros Hf Hlen. unfold compute_vertex_normals. simpl. destruct numba.
  - unfold compute_vertex_normals_numba. simpl.
    destruct (vertex_normals_numba_loop_valid
                (replicate (length vs) (f32_zero, f32_zero, f32_zero)) fs fns)
      as (vn & -> & Hl); [by rewrite length_replicate|done|]. simpl.
    eexists. split; [done|].
    unfold normalize_rows. by rewrite length_map, Hl, length_replicate.
  - unfold compute_vertex_normals_numpy. simpl.
    set (z := replicate (length vs) (f32_zero, f32_zero, f32_zero)).
    assert (Hz : length z = length vs) by apply length_replicate.
    clearbody z.
    destruct (np_add_at_valid z (map (fun f => vnth f 0) fs) fns) as (a1 & -> & Hl1);
      [rewrite Hz; by apply face_valid_index|by rewrite length_map|]. simpl.
    destruct (np_add_at_valid a1 (map (fun f => vnth f 1) fs) fns) as (a2 & -> & Hl2);
      [rewrite Hl1, Hz; by apply face_valid_index|by rewrite length_map|]. simpl.
    destruct (np_add_at_valid a2 (map (fun f => vnth f 2) fs) fns) as (a3 & -> & Hl3);
      [rewrite Hl2, Hl1, Hz; by apply face_valid_index|by rewrite length_map|]. simpl.
    eexists. split; [done|].
    unfold normalize_rows. rewrite length_map. congruence.
Qed.

Lemma face_valid_in_range n face : face_valid n face → face_in_range n face.
Proof. destruct face as [[i0 i1] i2]. unfold face_valid, face_in_range. lia. Qed.

End RecomputeFacts.

Section RecomputeSpec.
Context {F : Type} {f32 : Float32Ops F} {ext : External F}.

Lemma method_lift_Ok {A} (r : Result A) (a : A) (m : Mesh F) :
  r = Ok a → method_lift r m = Ok (a, m).
Proof. by intros ->. Qed.

Lemma compute_face_normals_cross (vs : list (vec3 F)) fs :
  fs ≠ [] → Forall (face_valid (length vs)) fs →
  ∃ fns, compute_face_normals vs fs false = Ok fns
         ∧ Forall2 (fun face n => face_cross vs face = Ok n) fs fns.
Proof.
  intros Hne Hv. rewrite compute_face_normals_nonempty by done.
  destruct (compute_face_normals_numpy_total vs fs false) as [fns Hfns].
  { eapply Forall_impl; [exact Hv|]. apply face_valid_in_range. }
  exists fns. split; [done|].
  unfold compute_face_normals_numpy in Hfns.
  destruct (result_mapM (face_cross vs) fs) as [ns|e] eqn:E; simpl in Hfns; [|done].
  injection Hfns as <-. by apply result_mapM_Ok_Forall2.
Qed.

Lemma mask_rows_faces_kept (vs : list (vec3 F)) fs fns :
  Forall2 (fun face n => face_cross vs face = Ok n) fs fns →
  mask_rows (map row_any fns) fs = faces_kept vs fs.
Proof.
  unfold faces_kept. induction 1 as [|face n fs fns Hc _ IH]; simpl; [done|].
  unfold good_face at 1. rewrite Hc. destruct (row_any n); by rewrite IH.
Qed.

Lemma faces_kept_all (vs : list (vec3 F)) fs :
  Forall (face_has_normal vs) fs → faces_kept vs fs = fs.
Proof.
  unfold faces_kept. induction 1 as [|face fs (n & Hc & Hany) _ IH]; simpl; [done|].
  unfold good_face at 1. by rewrite Hc, Hany, IH.
Qed.

Lemma vertices_kept_all (vs : list (vec3 F)) fs :
  fs ≠ [] → Forall (face_has_normal vs) fs → vertices_kept vs fs = vs.
Proof.
  intros Hne Hgood. unfold vertices_kept. rewrite (faces_kept_all vs fs Hgood).
  destruct fs; [exfalso; exact (Hne eq_refl)|reflexivity].
Qed.

(** [recompute_normals(True)] on an uncompressed mesh with at least one
    face and valid face indices. *)
Lemma recompute_normals_true_spec (m : Mesh F) vs fs ns :
  uncompressed m vs fs ns → fs ≠ [] → Forall (face_valid (length vs)) fs →
  ∃ m' vs' fs' ns',
    recompute_normals true m = Ok (tt, m')
    ∧ uncompressed m' vs' fs' ns'
    ∧ same_metadata m m'
    ∧ length ns' = length vs'
    ∧ Forall (face_has_normal vs') fs'
    ∧ (Forall (face_has_normal vs) fs → vs' = vs ∧ fs' = fs)
    ∧ fs' = faces_kept vs fs ∧ vs' = vertices_kept vs fs.
Proof.
  intros Hu Hne Hv.
  destruct (compute_face_normals_cross vs fs Hne Hv) as (fns & Hfns & H2).
  assert (Hlen : length fns = length fs) by (symmetry; by eapply Forall2_length).
  unfold recompute_normals.
  rewrite (method_bind_Ok _ _ _ _ _ (vertices_zyx_uncompressed _ _ _ _ Hu)).
  rewrite (method_bind_Ok _ _ _ _ _ (faces_uncompressed _ _ _ _ Hu)).
  rewrite (method_bind_Ok _ _ _ _ _ (method_lift_Ok _ _ _ Hfns)).
  destruct (forallb id (map row_any fns)) eqn:Hall.
  - (* no degenerate face *)
    assert (Hgood : Forall (face_has_normal vs) fs).
    { rewrite forallb_forall in Hall.
      apply Forall_forall. intros face Hface.
      apply list_elem_of_lookup in Hface as [i Hi].
      destruct (Forall2_lookup_l _ _ _ _ _ H2 Hi) as (n & Hn & Hc).
      exists n. split; [done|]. apply (Hall (row_any n)).
      apply in_map, list_elem_of_In. by eapply list_elem_of_lookup_2. }
    rewrite (method_bind_Ok _ _ m fns m) by done.
    rewrite (method_bind_Ok _ _ _ _ _ (faces_uncompressed _ _ _ _ Hu)).
    destruct (Nat.eqb_spec (length fs) 0) as [Hz|_];
      [by apply length_zero_iff_nil in Hz|].
    rewrite (method_bind_Ok _ _ _ _ _ (vertices_zyx_uncompressed _ _ _ _ Hu)).
    rewrite (method_bind_Ok _ _ _ _ _ (faces_uncompressed _ _ _ _ Hu)).
    destruct (compute_vertex_normals_valid _numba_available vs fs fns Hv Hlen)
      as (n & Hn & Hnl).
    rewrite (method_bind_Ok _ _ _ _ _ (method_lift_Ok _ _ _ Hn)).
    destruct (set_normals_zyx_uncompressed m vs fs ns n Hu) as (Hs & Hu' & Hm').
    rewrite Hs. eexists _, vs, fs, n.
    split; [done|]. split; [done|]. split; [done|]. split; [done|].
    split; [done|]. split; [done|].
    split; [symmetry; exact (faces_kept_all vs fs Hgood)|].
    symmetry; exact (vertices_kept_all vs fs Hne Hgood).
  - (* some face is degenerate: the faces are filtered *)
    rewrite (method_bind_Ok _ _ m (mask_rows (map row_any fns) fns)
               (set__faces (Some (mask_rows (map row_any fns) fs)) m)).
    2:{ rewrite (method_bind_Ok _ _ _ _ _ (faces_uncompressed _ _ _ _ Hu)).
        destruct (set_faces_uncompressed m vs fs ns (mask_rows (map row_any fns) fs) Hu)
          as (Hs & _ & _).
        by rewrite (method_bind_Ok _ _ _ _ _ Hs). }
    destruct (set_faces_uncompressed m vs fs ns (mask_rows (map row_any fns) fs) Hu)
      as (_ & Hu1 & Hm1).
    set (m1 := set__faces (Some (mask_rows (map row_any fns) fs)) m) in *.
    set (fs1 := mask_rows (map row_any fns) fs) in *.
    set (fns1 := mask_rows (map row_any fns) fns) in *.
    assert (Hkept : fs1 = faces_kept vs fs) by (by apply mask_rows_faces_kept).
    destruct (mask_rows_Forall2 (face_has_normal vs) row_any fs fns
                (fun face n => face_cross vs face = Ok n) H2) as [Hgood1 Hlen1].
    { intros face n Hc Hany. by exists n. }
    fold fs1 in Hgood1. fold fs1 fns1 in Hlen1.
    assert (Hbad : ¬ Forall (face_has_normal vs) fs).
    { intros Hgood. assert (forallb id (map row_any fns) = true); [|congruence].
      apply forallb_forall. intros b Hb.
      apply in_map_iff in Hb as (n & <- & Hn).
      apply list_elem_of_In, list_elem_of_lookup in Hn as [i Hi].
      destruct (Forall2_lookup_r _ _ _ _ _ H2 Hi) as (face & Hface & Hc).
      rewrite Forall_forall in Hgood.
      destruct (Hgood face) as (n' & Hc' & Hany); [by eapply list_elem_of_lookup_2|].
      rewrite Hc in Hc'. by injection Hc' as <-. }
    rewrite (method_bind_Ok _ _ _ _ _ (faces_uncompressed _ _ _ _ Hu1)).
    destruct (Nat.eqb_spec (length fs1) 0) as [Hz|Hnz].
    + destruct (set_vertices_zyx_uncompressed m1 vs fs1 ns [] Hu1) as (Hs2 & Hu2 & Hm2).
      rewrite (method_bind_Ok _ _ _ _ _ Hs2).
      destruct (set_normals_zyx_uncompressed _ _ _ _ [] Hu2) as (Hs3 & Hu3 & Hm3).
      rewrite Hs3. eexists _, [], fs1, [].
      split; [done|]. split; [done|].
      split; [eauto using same_metadata_trans|].
      split; [done|].
      apply length_zero_iff_nil in Hz.
      split; [rewrite Hz; constructor|]. split; [done|]. split; [done|].
      unfold vertices_kept. by rewrite <- Hkept, Hz.
    + rewrite (method_bind_Ok _ _ _ _ _ (vertices_zyx_uncompressed _ _ _ _ Hu1)).
      rewrite (method_bind_Ok _ _ _ _ _ (faces_uncompressed _ _ _ _ Hu1)).
      destruct (compute_vertex_normals_valid _numba_available vs fs1 fns1)
        as (n & Hn & Hnl); [by apply mask_rows_sublist|done|].
      rewrite (method_bind_Ok _ _ _ _ _ (method_lift_Ok _ _ _ Hn)).
      destruct (set_normals_zyx_uncompressed m1 vs fs1 ns n Hu1) as (Hs & Hu' & Hm').
      rewrite Hs. eexists _, vs, fs1, n.
      split; [done|]. split; [done|].
      split; [eauto using same_metadata_trans|].
      split; [done|]. split; [done|]. split; [done|]. split; [done|].
      unfold vertices_kept. rewrite <- Hkept. by destruct fs1.
Qed.

End RecomputeSpec.

(** *** Stitching *)

Section StitchFacts.
Context {F : Type} {f32 : Float32Ops F} {ext : External F}.

Lemma list_find_eq_None (seen : list (vec3 F)) v :
  v ∉ seen → list_find (fun u => u = v) seen = None.
Proof.
  intros Hv. apply list_find_None, Forall_forall. intros u Hu ->. done.
Qed.

Lemma first_occurrences_from_NoDup (seen rest : list (vec3 F)) :
  NoDup (seen ++ rest) → first_occurrences_from seen rest = [].
Proof.
  revert seen. induction rest as [|v rest IH]; intros seen Hnd; simpl; [done|].
  rewrite list_find_eq_None.
  - apply IH. by rewrite <- app_assoc.
  - apply NoDup_app in Hnd as (_ & Hdis & _). intros Hv.
    apply (Hdis v Hv). by left.
Qed.

(** Without bit-identical vertices there are no mapping pairs. *)
Lemma first_occurrences_NoDup (vs : list (vec3 F)) :
  no_duplicate_vertices vs → first_occurrences vs = [].
Proof. intros H. by apply first_occurrences_from_NoDup. Qed.


End StitchFacts.

(** *** Smoothing *)

Lemma drop_duplicated_Forall {A K} `{EqDecision K} (key : A → K) (P : A → Prop)
    seen rows :
  Forall P rows → Forall P (drop_duplicated key seen rows).
Proof.
  intros H. revert seen. induction H as [|r rows Hr _ IH]; intros seen; simpl; [done|].
  case_bool_decide; [apply IH|constructor; [done|apply IH]].
Qed.

Lemma foldr_max_bound (ids : list Z) (n : Z) :
  0 ≤ n → Forall (fun i => 0 ≤ i < n) ids → foldr Z.max (-1) ids + 1 ≤ n.
Proof. intros Hn. induction 1 as [|i ids Hi _ IH]; simpl; lia. Qed.

Section SmoothingFacts.
Context {F : Type} {f32 : Float32Ops F} {f64 : Float64Ops F} {ext : External F}.

Lemma unique_edges_valid (n : nat) (fs : list (vec3 Z)) :
  Forall (face_valid n) fs → Forall (edge_valid n) (unique_edges fs).
Proof.
  intros H. unfold unique_edges.
  rewrite sorted_lt_Permutation.
  apply drop_duplicated_Forall, Forall_fmap.
  rewrite !Forall_app. repeat split; apply Forall_fmap;
    (eapply Forall_impl; [exact H|]);
    intros [[i0 i1] i2] (?&?&?); unfold edge_valid, sort_pair; simpl;
    repeat case_match; simpl; lia.
Qed.

Lemma np_take_valid {A} (rows : list A) (ids : list Z) :
  Forall (fun i => 0 ≤ i < Z.of_nat (length rows)) ids →
  ∃ taken, np_take rows ids = Ok taken ∧ length taken = length ids.
Proof.
  intros H. unfold np_take.
  destruct (result_mapM_Ok (np_index rows) ids) as [taken Ht].
  { eapply Forall_impl; [exact H|]. intros i Hi.
    destruct (np_index_valid rows i Hi) as (x & Hx & _). eauto. }
  exists taken. split; [done|]. by eapply result_mapM_length.
Qed.

Lemma np_bincount_valid (ids : list Z) (n : nat) :
  Forall (fun i => 0 ≤ i < Z.of_nat n) ids →
  ∃ counts, np_bincount ids n = Ok counts ∧ length counts = n.
Proof.
  intros H. unfold np_bincount.
  assert (forallb (fun i => 0 <=? i) ids = true) as ->.
  { apply forallb_forall. intros i Hi%list_elem_of_In.
    rewrite Forall_forall in H. apply Z.leb_le. by apply H. }
  eexists. split; [done|].
  rewrite length_map, length_seq.
  pose proof (foldr_max_bound ids (Z.of_nat n) ltac:(lia) H). lia.
Qed.

Lemma smooth_pass_valid (edges : list (Z * Z)) counts (vs : list (vec3 F)) :
  Forall (edge_valid (length vs)) edges → length counts = length vs →
  ∃ vs', smooth_pass edges counts vs = Ok vs' ∧ length vs' = length vs.
Proof.
  intros He Hc. unfold smooth_pass.
  assert (H1 : Forall (fun i => 0 ≤ i < Z.of_nat (length vs)) (map fst edges)).
  { apply Forall_fmap. eapply Forall_impl; [exact He|]. by intros e [??]. }
  assert (H2 : Forall (fun i => 0 ≤ i < Z.of_nat (length vs)) (map snd edges)).
  { apply Forall_fmap. eapply Forall_impl; [exact He|]. by intros e [??]. }
  destruct (np_take_valid vs (map snd edges) H2) as (right & -> & Hr). simpl.
  destruct (np_add_at_valid vs (map fst edges) right H1) as (a1 & -> & Hl1);
    [by rewrite Hr, !length_map|]. simpl.
  destruct (np_take_valid vs (map fst edges) H1) as (left & -> & Hl). simpl.
  destruct (np_add_at_valid a1 (map snd edges) left) as (a2 & -> & Hl2);
    [by rewrite Hl1|by rewrite Hl, !length_map|]. simpl.
  unfold divide_rows.
  destruct (Nat.eqb_spec (length a2) (length counts)) as [_|Hne]; [|congruence].
  eexists. split; [done|]. rewrite length_zip_with. lia.
Qed.

Lemma smooth_loop_valid (n : nat) edges counts (m : Mesh F) vs fs ns :
  uncompressed m vs fs ns →
  Forall (edge_valid (length vs)) edges → length counts = length vs →
  ∃ m' vs', smooth_loop n edges counts m = Ok (tt, m')
            ∧ uncompressed m' vs' fs ns ∧ same_metadata m m'
            ∧ length vs' = length vs.
Proof.
  revert m vs. induction n as [|n IH]; intros m vs Hu He Hc; simpl.
  - exists m, vs. split; [done|]. split; [done|]. split; [apply same_metadata_refl|done].
  - rewrite (method_bind_Ok _ _ _ _ _ (vertices_zyx_uncompressed _ _ _ _ Hu)).
    destruct (smooth_pass_valid edges counts vs He Hc) as (vs1 & Hp & Hl1).
    rewrite (method_bind_Ok _ _ _ _ _ (method_lift_Ok _ _ _ Hp)).
    destruct (set_vertices_zyx_uncompressed m vs fs ns vs1 Hu) as (Hs & Hu1 & Hm1).
    rewrite (method_bind_Ok _ _ _ _ _ Hs).
    destruct (IH _ vs1 Hu1) as (m' & vs' & Hloop & Hu' & Hm' & Hl');
      [by rewrite Hl1|by rewrite Hl1|].
    exists m', vs'. split; [done|]. split; [done|].
    split; [eauto using same_metadata_trans|congruence].
Qed.

(** C3 (amended for zero iterations on a mesh that has normals).  On an
    uncompressed mesh with at least one face and valid face indices,
    [laplacian_smooth(N)] with N different from 0, or with N = 0 when the
    mesh has no normals, ends by recomputing the normals with
    degenerate-face removal: it returns, and afterwards there is one normal
    per vertex and every remaining face has a face normal with a non-zero
    component.  With N = 0 on a mesh that has normals nothing is
    recomputed: the mesh is returned as it is. *)
Theorem laplacian_smooth_recomputes_normals (m : Mesh F) vs fs ns (iterations : Z) :
  uncompressed m vs fs ns → fs ≠ [] → Forall (face_valid (length vs)) fs →
  (iterations ≠ 0 ∨ ns = [] →
     ∃ m' vs' fs' ns',
       laplacian_smooth iterations m = Ok (tt, m')
       ∧ uncompressed m' vs' fs' ns' ∧ same_metadata m m'
       ∧ length ns' = length vs'
       ∧ Forall (face_has_normal vs') fs')
  ∧ (iterations = 0 → ns ≠ [] → laplacian_smooth iterations m = Ok (tt, m)).
Proof.
  intros Hu Hfs Hv. unfold laplacian_smooth. split.
  - intros Hcase. destruct (Z.eqb_spec iterations 0) as [->|Hit].
    + destruct Hcase as [Hc| ->]; [done|].
      rewrite (method_bind_Ok _ _ _ _ _ (normals_zyx_uncompressed _ _ _ _ Hu)).
      change (length (@nil (vec3 F)) =? 0)%nat with true. cbv iota.
      destruct (recompute_normals_true_spec m vs fs [] Hu Hfs Hv)
        as (m' & vs' & fs' & ns' & Hr & Hu' & Hm' & Hl & Hgood & _).
      by exists m', vs', fs', ns'.
    + destruct (set_normals_zyx_uncompressed m vs fs ns [] Hu) as (Hs & Hu0 & Hm0).
      rewrite (method_bind_Ok _ _ _ _ _ Hs).
      rewrite (method_bind_Ok _ _ _ _ _ (faces_uncompressed _ _ _ _ Hu0)).
      rewrite (method_bind_Ok _ _ _ _ _ (vertices_zyx_uncompressed _ _ _ _ Hu0)).
      pose proof (unique_edges_valid (length vs) fs Hv) as He.
      destruct (np_bincount_valid
                  (concat (map (fun e => [fst e; snd e]) (unique_edges fs))) (length vs))
        as (counts & Hb & Hlc).
      { apply Forall_concat, Forall_fmap. eapply Forall_impl; [exact He|].
        intros e [??]. constructor; [done|]. constructor; [done|]. constructor. }
      rewrite (method_bind_Ok _ _ _ _ _ (method_lift_Ok _ _ _ Hb)).
      destruct (smooth_loop_valid (Z.to_nat iterations) (unique_edges fs) counts
                  _ vs fs [] Hu0 He Hlc) as (m1 & vs1 & Hloop & Hu1 & Hm1 & Hl1).
      rewrite (method_bind_Ok _ _ _ _ _ Hloop).
      destruct (recompute_normals_true_spec m1 vs1 fs [] Hu1 Hfs)
        as (m' & vs' & fs' & ns' & Hr & Hu' & Hm' & Hl & Hgood & _);
        [by rewrite Hl1|].
      rewrite (method_bind_Ok _ _ _ _ _ Hr).
      rewrite (method_bind_Ok _ _ _ _ _ (normals_zyx_uncompressed _ _ _ _ Hu')).
      rewrite (method_bind_Ok _ _ _ _ _ (vertices_zyx_uncompressed _ _ _ _ Hu')).
      exists m', vs', fs', ns'.
      split; [by rewrite Hl, Nat.eqb_refl|].
      split; [done|]. split; [eauto using same_metadata_trans|done].
  - intros -> Hns. simpl.
    rewrite (method_bind_Ok _ _ _ _ _ (normals_zyx_uncompressed _ _ _ _ Hu)).
    destruct ns; [done|reflexivity].
Qed.

End SmoothingFacts.

(** *** Quantization *)

Section QuantizeFacts.
Context {F : Type} {f64 : Float64Ops F} {ext : External F}.

Lemma np_array_astype_int_bits (bits : nat) :
  (bits ≤ 63)%nat →
  np_array_astype_int (2 ^ Z.of_nat bits - 1) = Ok (2 ^ Z.of_nat bits - 1).
Proof.
  intros Hb. unfold np_array_astype_int.
  pose proof (Z.pow_pos_nonneg 2 (Z.of_nat bits)).
  pose proof (Z.pow_le_mono_r 2 (Z.of_nat bits) 63).
  destruct (Z.leb_spec (- 2 ^ 63) (2 ^ Z.of_nat bits - 1)); [|lia].
  destruct (Z.ltb_spec (2 ^ Z.of_nat bits - 1) (2 ^ 63)); [done|lia].
Qed.

(** With 64 bits the upper bound wraps around to -1; with more than 64 the
    conversion of the upper bound raises, whatever the mesh. *)
Lemma quantize_upper_bound_int64 (bits : nat) :
  np_array_astype_int (2 ^ 64 - 1) = Ok (-1)
  ∧ ((64 < bits)%nat → ∀ m : Mesh F, quantize bits m = Raise OverflowError).
Proof.
  split; [reflexivity|]. intros Hb m. unfold quantize.
  assert (np_array_astype_int (2 ^ Z.of_nat bits - 1) = Raise OverflowError) as ->; [|done].
  unfold np_array_astype_int.
  pose proof (Z.pow_le_mono_r 2 65 (Z.of_nat bits)).
  destruct (Z.leb_spec (- 2 ^ 63) (2 ^ Z.of_nat bits - 1)); [|lia].
  destruct (Z.ltb_spec (2 ^ Z.of_nat bits - 1) (2 ^ 63)); [lia|].
  destruct (Z.leb_spec (2 ^ 63) (2 ^ Z.of_nat bits - 1)); [|lia].
  destruct (Z.ltb_spec (2 ^ Z.of_nat bits - 1) (2 ^ 64)); [lia|done].
Qed.

(** What [quantize] does to an uncompressed mesh with at least one vertex
    and with fragment origin and shape set, in any arithmetic. *)
Lemma quantize_uncompressed (m : Mesh F) vs fs ns o s (bits : nat) :
  uncompressed m vs fs ns → vs ≠ [] →
  _fragment_origin m = Some o → _fragment_shape m = Some s →
  (bits ≤ 63)%nat →
  let ub := 2 ^ Z.of_nat bits - 1 in
  let vs' := map vrev (map (quantize_vertex ub o s) (map vrev vs)) in
  quantize bits m
  = Ok (tt, set__fragment_shape (Some (ub, ub, ub))
              (set__fragment_origin (Some (0, 0, 0))
                 (set__vertices_zyx (Some vs') m))).
Proof.
  intros Hu Hne Ho Hs Hb ub vs'. unfold quantize.
  rewrite (method_bind_Ok _ _ m ub m)
    by (apply method_lift_Ok, np_array_astype_int_bits, Hb).
  rewrite (method_bind_Ok _ _ m (Some s) m) by (by unfold method_get; rewrite Hs).
  rewrite (method_bind_Ok _ _ m s m) by done.
  rewrite (method_bind_Ok _ _ m (Some o) m) by (by unfold method_get; rewrite Ho).
  rewrite (method_bind_Ok _ _ m o m) by done.
  rewrite (method_bind_Ok _ _ _ _ _ (vertices_zyx_uncompressed _ _ _ _ Hu)).
  destruct vs as [|v vs]; [done|].
  change (map (quantize_vertex ub o s) (map vrev (v :: vs)))
    with (quantize_vertex ub o s (vrev v)
            :: map (quantize_vertex ub o s) (map vrev vs)).
  cbv iota.
  destruct (set_vertices_zyx_uncompressed m (v :: vs) fs ns vs' Hu) as (Hset & _ & _).
  by rewrite (method_bind_Ok _ _ _ _ _ Hset).
Qed.

End QuantizeFacts.

(** **** Rounding an integer to a float *)

Section Rounding.
Variables prec emax : Z.

Lemma shr_1_m mrs : 0 ≤ shr_m mrs → shr_m (shr_1 mrs) = shr_m mrs / 2.
Proof.
  destruct mrs as [m r s]. simpl. intros Hm.
  destruct m as [|[p|p|]|p]; try lia; simpl shr_m.
  - reflexivity.
  - rewrite Pos2Z.inj_xI. apply Z.div_unique with 1; lia.
  - rewrite Pos2Z.inj_xO. apply Z.div_unique with 0; lia.
  - reflexivity.
Qed.

Lemma iter_shr_1_m p : ∀ mrs,
  0 ≤ shr_m mrs → shr_m (SpecFloat.iter_pos shr_1 p mrs) = shr_m mrs / 2 ^ Zpos p.
Proof.
  assert (Hpw : ∀ q, 0 < 2 ^ Zpos q) by (intros q; apply Z.pow_pos_nonneg; lia).
  assert (Hsq : ∀ q, 2 ^ Zpos q~0 = 2 ^ Zpos q * 2 ^ Zpos q).
  { intros q. rewrite Pos2Z.inj_xO, <- Z.pow_add_r by lia. f_equal. lia. }
  induction p as [p IH|p IH|]; intros mrs Hm; simpl SpecFloat.iter_pos.
  - assert (0 ≤ shr_m (shr_1 mrs)) as H1.
    { rewrite shr_1_m by lia. apply Z.div_pos; lia. }
    assert (0 ≤ shr_m (SpecFloat.iter_pos shr_1 p (shr_1 mrs))) as H2.
    { rewrite IH by lia. apply Z.div_pos; [lia|apply Hpw]. }
    rewrite IH, IH, shr_1_m by lia.
    rewrite !Z.div_div; try (pose proof (Hpw p); lia).
    f_equal. rewrite Pos2Z.inj_xI, Z.pow_add_r by lia.
    change (2 * Zpos p) with (Zpos p~0). rewrite Hsq. change (2 ^ 1) with 2. lia.
  - assert (0 ≤ shr_m (SpecFloat.iter_pos shr_1 p mrs)) as H2.
    { rewrite IH by lia. apply Z.div_pos; [lia|apply Hpw]. }
    rewrite IH, IH by lia.
    rewrite !Z.div_div; try (pose proof (Hpw p); lia).
    f_equal. rewrite Hsq. lia.
  - rewrite shr_1_m by lia. reflexivity.
Qed.

Lemma digits2_pos_bounds p :
  2 ^ (Zpos (digits2_pos p) - 1) ≤ Zpos p < 2 ^ Zpos (digits2_pos p).
Proof.
  induction p as [p IH|p IH|]; simpl digits2_pos.
  - rewrite Pos2Z.inj_succ. replace (Z.succ (Zpos (digits2_pos p)) - 1)
      with (Z.succ (Zpos (digits2_pos p) - 1)) by lia.
    rewrite !Z.pow_succ_r by lia. lia.
  - rewrite Pos2Z.inj_succ. replace (Z.succ (Zpos (digits2_pos p)) - 1)
      with (Z.succ (Zpos (digits2_pos p) - 1)) by lia.
    rewrite !Z.pow_succ_r by lia. lia.
  - simpl. lia.
Qed.

Lemma shr_record_of_loc_m m l : shr_m (shr_record_of_loc m l) = m.
Proof. destruct l as [|[]]; reflexivity. Qed.

Lemma shr_fexp_pos m e l :
  0 < prec → 0 < m → emin prec emax < Zdigits2 m + e →
  0 < shr_m (fst (shr_fexp prec emax m e l))
  ∧ emin prec emax ≤ snd (shr_fexp prec emax m e l).
Proof.
  intros Hprec Hm Hd. unfold shr_fexp, shr.
  destruct m as [|p|p]; try lia. simpl Zdigits2 in *.
  pose proof (digits2_pos_bounds p) as [Hlo _].
  set (d := Zpos (digits2_pos p)) in *.
  assert (fexp prec emax (d + e) = Z.max (d + e - prec) (emin prec emax)) as Hf
    by reflexivity.
  destruct (fexp prec emax (d + e) - e) as [|q|q] eqn:En; simpl fst; simpl snd.
  - rewrite shr_record_of_loc_m. lia.
  - rewrite iter_shr_1_m by (rewrite shr_record_of_loc_m; lia).
    rewrite shr_record_of_loc_m. split; [|lia].
    apply Z.div_str_pos. split; [apply Z.pow_pos_nonneg; lia|].
    etrans; [|exact Hlo]. apply Z.pow_le_mono_r; lia.
  - rewrite shr_record_of_loc_m. lia.
Qed.

Lemma round_nearest_even_ge m l : m ≤ round_nearest_even m l.
Proof. destruct l as [|[]]; simpl; try lia. destruct (Z.even m); lia. Qed.

Lemma Zdigits2_pos m : 0 < m → 0 < Zdigits2 m.
Proof. destruct m; simpl; lia. Qed.

(** Rounding a positive mantissa that does not underflow gives a finite
    value different from zero, or an infinity. *)
Lemma binary_round_aux_pos s m e l :
  0 < prec → 0 < m → emin prec emax < Zdigits2 m + e →
  match binary_round_aux prec emax s m e l with
  | S754_finite _ _ _ | S754_infinity _ => True
  | _ => False
  end.
Proof.
  intros Hprec Hm Hd. unfold binary_round_aux.
  pose proof (shr_fexp_pos m e l Hprec Hm Hd) as [H1 H2].
  destruct (shr_fexp prec emax m e l) as [mrs' e']. simpl in H1, H2.
  set (m' := round_nearest_even (shr_m mrs') (loc_of_shr_record mrs')).
  assert (0 < m') as Hm'.
  { pose proof (round_nearest_even_ge (shr_m mrs') (loc_of_shr_record mrs')).
    unfold m'. lia. }
  pose proof (shr_fexp_pos m' e' loc_Exact Hprec Hm'
                ltac:(pose proof (Zdigits2_pos m' Hm'); lia)) as [H3 _].
  destruct (shr_fexp prec emax m' e' loc_Exact) as [mrs'' e'']. simpl in H3.
  destruct (shr_m mrs''); try lia.
  destruct (e'' <=? emax - prec); exact I.
Qed.

Lemma digits2_pos_iter_xO p d :
  Zpos (digits2_pos (Pos.iter xO p d)) = Zpos (digits2_pos p) + Zpos d.
Proof.
  induction d as [|d IH] using Pos.peano_ind.
  - simpl. lia.
  - rewrite Pos.iter_succ. simpl digits2_pos. lia.
Qed.

Lemma binary_round_pos s p e :
  0 < prec → emin prec emax < Zpos (digits2_pos p) + e →
  match binary_round prec emax s p e with
  | S754_finite _ _ _ | S754_infinity _ => True
  | _ => False
  end.
Proof.
  intros Hprec Hd. unfold binary_round, shl_align.
  destruct (fexp prec emax (Zpos (digits2_pos p) + e) - e) as [|q|q] eqn:En.
  - apply binary_round_aux_pos; [lia|lia|simpl Zdigits2; lia].
  - apply binary_round_aux_pos; [lia|lia|simpl Zdigits2; lia].
  - apply binary_round_aux_pos; [lia|lia|]. simpl Zdigits2.
    rewrite digits2_pos_iter_xO. lia.
Qed.

End Rounding.

(** The float64 of an integer different from zero is a finite value
    different from zero, or an infinity. *)
Lemma of_Z_nonzero (z : Z) :
  z ≠ 0 →
  match IEEE.of_Z IEEE.prec64 IEEE.emax64 z with
  | S754_finite _ _ _ | S754_infinity _ => True
  | _ => False
  end.
Proof.
  unfold IEEE.of_Z.
  destruct z as [|p|p]; [lia| |]; intros _; simpl binary_normalize.
  - apply binary_round_pos; unfold emin, IEEE.prec64, IEEE.emax64; lia.
  - apply binary_round_pos; unfold emin, IEEE.prec64, IEEE.emax64; lia.
Qed.

(** **** The quantizer in IEEE arithmetic *)

Lemma upper_bound_float (bits : nat) :
  (bits ≤ 63)%nat → upper_bound_ok bits = true.
Proof.
  intros Hb.
  assert (forallb upper_bound_ok (seq 0 64) = true) as H by (by vm_compute).
  rewrite forallb_forall in H. apply H, in_seq. lia.
Qed.

(** [np.minimum(upper_bound, np.maximum(0, t))] is the clamp of [t]. *)
Lemma ieee_clamp_code (ub t : spec_float) :
  ieee_finite ub = true →
  (SFleb ub (S754_zero false) = true → ub = S754_zero false) →
  IEEE.minimum ub (IEEE.maximum (S754_zero false) t)
  = ieee_clamp t (S754_zero false) ub.
Proof.
  intros Hfin Hz. unfold IEEE.minimum, IEEE.maximum, ieee_clamp.
  assert (IEEE.is_nan ub = false) as -> by (by destruct ub).
  simpl.
  destruct (IEEE.is_nan t) eqn:Hn.
  - destruct t; try done. simpl. by destruct ub as [[]|[]| |[] ? ?].
  - destruct (SFleb t (S754_zero false)) eqn:E; [|reflexivity].
    destruct (SFleb ub (S754_zero false)) eqn:E'; [by rewrite Hz|reflexivity].
Qed.

Lemma quantize_coord_ieee (bits : nat) (o s : Z) (x : spec_float) :
  (bits ≤ 63)%nat →
  let ub := 2 ^ Z.of_nat bits - 1 in
  quantized_coordinate ub o s x (quantize_coord (f64 := IEEE.float64) ub o s x).
Proof.
  intros Hb ub.
  pose proof (upper_bound_float bits Hb) as Hub. unfold upper_bound_ok in Hub.
  fold ub in Hub.
  set (U := IEEE.of_Z IEEE.prec64 IEEE.emax64 ub) in *.
  apply andb_prop in Hub as [Hub Hhalf]. apply andb_prop in Hub as [Hfin Hzero].
  assert (quantize_coord (f64 := IEEE.float64) ub o s x
          = IEEE.convert IEEE.prec32 IEEE.emax32
              (ieee_clamp (scaled_position ub o s x) (S754_zero false) U)) as Hq.
  { unfold quantize_coord, scaled_position.
    cbn [f32_of_f64 np_minimum np_maximum f64_of_int f64_add f64_div f64_mul
         f64_sub f64_of_f32 f64_half IEEE.float64].
    fold U. change (IEEE.of_Z IEEE.prec64 IEEE.emax64 0) with (S754_zero false).
    rewrite ieee_clamp_code; [reflexivity|exact Hfin|].
    intros E. rewrite E in Hzero. by apply bool_decide_eq_true_1 in Hzero. }
  unfold quantized_coordinate.
  change (IEEE.of_Z IEEE.prec64 IEEE.emax64 0) with (S754_zero false). fold U.
  split; [exact Hq|]. split.
  - rewrite Hq. unfold ieee_clamp. intros Hn. rewrite Hn.
    by destruct (scaled_position ub o s x).
  - intros [Heq Hof] Hs Hone. rewrite Hq.
    assert (scaled_position ub o s x = S754_finite false 4503599627370496 (-53))
      as ->.
    { unfold scaled_position. fold U.
      pose proof (of_Z_nonzero s Hs) as HS.
      set (S := IEEE.of_Z IEEE.prec64 IEEE.emax64 s) in *.
      set (O := IEEE.of_Z IEEE.prec64 IEEE.emax64 o) in *.
      set (X := IEEE.convert IEEE.prec64 IEEE.emax64 x) in *.
      clearbody S O X U. clear -Heq Hof HS Hfin.
      assert (IEEE.is_zero (SFsub IEEE.prec64 IEEE.emax64 X O) = true) as Hd.
      { apply SFsub_equal; [exact Heq|exact Hof]. }
      destruct (SFsub IEEE.prec64 IEEE.emax64 X O) as [sd| | |]; try done.
      destruct U as [su| | |su mu eu]; try done.
      - destruct S as [|ss| |ss ms es]; try done.
      - destruct S as [|ss| |ss ms es]; try done. }
    unfold ieee_clamp. simpl IEEE.is_nan. cbv iota.
    change (SFleb (S754_finite false 4503599627370496 (-53)) (S754_zero false))
      with false. cbv iota.
    assert (SFleb U (S754_finite false 4503599627370496 (-53)) = false) as ->.
    { destruct (Z.leb_spec 1 ub); [|lia]. simpl in Hhalf.
      by apply negb_true_iff in Hhalf. }
    reflexivity.
Qed.

Lemma quantize_vertex_ieee (bits : nat) (o s : vec3 Z) (v : vec3 spec_float) :
  (bits ≤ 63)%nat →
  let ub := 2 ^ Z.of_nat bits - 1 in
  quantized_vertex ub o s v
    (vrev (quantize_vertex (f64 := IEEE.float64) ub o s (vrev v))).
Proof.
  intros Hb ub. destruct v as [[z y] x], o as [[ox oy] oz], s as [[sx sy] sz].
  unfold quantized_vertex. simpl. split; [|split]; by apply quantize_coord_ieee.
Qed.

Section QuantizeTheorem.
Context {ext : External spec_float}.


End QuantizeTheorem.

(** *** Examples, witnesses and counterexamples *)

Section Examples.
Import Examples.
Existing Instance IEEE.float32.
Existing Instance IEEE.float64.
Existing Instance Demo.external.

(** Stitching the two triangles of the spec's scenario: six vertices and two
    faces become four vertices and two faces. *)
Example stitch_two_triangles :
  ∃ m', stitch_adjacent_faces true true
          (mesh_of [row 0 0 0; row 1 0 0; row 0 1 0; row 1 0 0; row 0 1 0; row 1 1 0]
                   [(0, 1, 2); (3, 5, 4)] []) = Ok (true, m')
        ∧ _vertices_zyx m' = Some [row 0 0 0; row 1 0 0; row 0 1 0; row 1 1 0]
        ∧ _faces m' = Some [(0, 1, 2); (1, 3, 2)].
Proof. eexists. vm_compute. by repeat split. Qed.



(** With 25 bits or more the float32 store can round a clamped value past
    the upper bound: the max corner of the fragment 0..8 goes to 2^25. *)
Example quantize_store_rounds_past_upper_bound :
  quantize_coord (2 ^ 25 - 1) 0 8 (IEEE.lit 8) = IEEE.lit (2 ^ 25)
  ∧ SFltb (IEEE.of_Z IEEE.prec64 IEEE.emax64 (2 ^ 25 - 1))
          (IEEE.convert IEEE.prec64 IEEE.emax64 (IEEE.lit (2 ^ 25))) = true.
Proof. by vm_compute. Qed.



(** The claim C3 as written fails for zero iterations: [sliver_mesh] has
    normals, so [laplacian_smooth(0)] returns it untouched, and it still
    holds a face whose normal is exactly zero. *)
Lemma laplacian_smooth_zero_keeps_degenerate_face :
  laplacian_smooth 0 sliver_mesh = Ok (tt, sliver_mesh)
  ∧ _faces sliver_mesh = Some [(0, 1, 2)]
  ∧ degenerate_face [row 0 0 0; row 1 0 0; row 2 0 0] (0, 1, 2).
Proof.
  split; [by vm_compute|]. split; [done|].
  eexists. split; [by vm_compute|]. by vm_compute.
Qed.

Lemma laplacian_smooth_recomputes_normals_witness :
  ∃ m' vs' fs' ns',
    laplacian_smooth 1 fan_mesh = Ok (tt, m')
    ∧ uncompressed m' vs' fs' ns'
    ∧ length ns' = length vs'
    ∧ Forall (face_has_normal vs') fs'
    ∧ fs' = [(0, 1, 2); (0, 2, 3); (0, 3, 4); (0, 4, 1)].
Proof.
  set (vs := [row 0 0 0; row 0 2 0; row 0 0 2; row 0 (-2) 0; row 0 0 (-2)]).
  set (fs := [(0, 1, 2); (0, 2, 3); (0, 3, 4); (0, 4, 1)]).
  assert (uncompressed fan_mesh vs fs []) as Hu0 by (by repeat split).
  assert (Forall (face_valid (length vs)) fs) as Hv0.
  { repeat (apply Forall_cons; split; [by vm_compute|]). by apply Forall_nil. }
  assert (fs ≠ @nil (vec3 Z)) as Hne0 by discriminate.
  assert (1 ≠ 0 ∨ @nil (vec3 spec_float) = []) as Hit by (left; discriminate).
  pose proof (laplacian_smooth_recomputes_normals fan_mesh _ _ _ 1 Hu0 Hne0 Hv0)
    as [H _].
  destruct (H Hit) as (m' & vs' & fs' & ns' & Hs & Hu & _ & Hl & Hg).
  exists m', vs', fs', ns'.
  split; [exact Hs|]. split; [exact Hu|]. split; [exact Hl|]. split; [exact Hg|].
  assert (∃ m'', laplacian_smooth 1 fan_mesh = Ok (tt, m'') ∧ _faces m'' = Some fs)
    as (m'' & Hs' & Hf').
  { eexists. vm_compute. split; reflexivity. }
  rewrite Hs in Hs'. injection Hs' as <-.
  destruct Hu as (_ & _ & Hf & _). rewrite Hf in Hf'. by injection Hf'.
Defined.

(** The claim C4 as written fails when the method differs from the stored
    encoding: [compress("draco")] on a mesh that holds LZ4 items decodes
    them and encodes again, so the LZ4 items are gone afterwards. *)
Lemma compress_other_method_reencodes :
  compressed lz4_mesh
  ∧ ∃ n m', compress (Some "draco") lz4_mesh = Ok (n, m')
            ∧ _lz4_items m' = None
            ∧ m' ≠ lz4_mesh
            ∧ cached_size lz4_mesh = Some 48%nat
            ∧ n = 56%nat.
Proof.
  split; [by repeat split; eauto|].
  eexists _, _. split; [by vm_compute|].
  split; [done|]. split; [|by vm_compute].
  intros H. apply (f_equal _lz4_items) in H. vm_compute in H. done.
Qed.

Lemma compress_idempotent_same_method_witness :
  ∃ n m', compress (Some "lz4") triangle_mesh = Ok (n, m')
          ∧ compress (Some "lz4") m' = Ok (n, m').
Proof.
  destruct (compress (Some "lz4") triangle_mesh) as [[n m']|e] eqn:E;
    [|by vm_compute in E].
  exists n, m'. split; [done|].
  destruct (compress_idempotent_same_method triangle_mesh m' "lz4" n) as [H _].
  - apply list_elem_of_In. by left.
  - exact E.
  - exact H.
Defined.

Lemma concatenate_meshes_normals_check_witness :
  concatenate_meshes [triangle_mesh; corner_mesh] true
  = Raise (RuntimeError InconsistentNormals).
Proof.
  destruct (concatenate_meshes_normals_check [triangle_mesh; corner_mesh]
              [([row 0 0 0; row 1 0 0; row 0 1 0], [(0, 1, 2)],
                [row 0 0 1; row 0 0 1; row 0 0 1]);
               ([row 0 0 0; row 8 8 8; row 4 2 1], [(0, 1, 2)], [])])
    as (_ & _ & H).
  destruct H as [H _].
  - done.
  - repeat constructor.
  - apply H. split.
    + apply Exists_cons. by left.
    + apply Exists_cons. right. apply Exists_cons. left. simpl. lia.
Defined.



Lemma chunked_empty_faces_raises_witness :
  compute_face_normals_numpy_chunked [row 0 0 0; row 1 0 0; row 0 1 0]
    [(0, 1, 2); (0, 2, 1); (1, 0, 2)] false 2
  = compute_face_normals_numpy [row 0 0 0; row 1 0 0; row 0 1 0]
      [(0, 1, 2); (0, 2, 1); (1, 0, 2)] false.
Proof.
  destruct (chunked_empty_faces_raises [row 0 0 0; row 1 0 0; row 0 1 0] false 1)
    as (_ & _ & H).
  by apply H.
Defined.

Lemma zero_byte_input_is_empty_mesh_witness :
  from_file (fun _ => Some []) "empty.drc" = Ok (Some empty_mesh)
  ∧ from_buffer [] "ngmesh" = Ok (Some empty_mesh).
Proof.
  destruct (zero_byte_input_is_empty_mesh (fun _ => Some []) "empty.drc" "ngmesh")
    as (H1 & H2 & _).
  split; [by apply H1|]. apply H2. apply (bool_decide_unpack _). by vm_compute.
Defined.

(** The claim C10 as written fails when a name occurs twice: the two
    archives hold the same (name, contents) pairs in opposite orders, and
    the member stored last wins, so the meshes differ. *)
Lemma from_tarfile_duplicate_names_depend_on_order :
  archive_ab ≡ₚ archive_ba
  ∧ (∃ m, from_tarfile archive_ab true true = Ok (inl m)
          ∧ _vertices_zyx m = Some [row 6 5 4])
  ∧ (∃ m, from_tarfile archive_ba true true = Ok (inl m)
          ∧ _vertices_zyx m = Some [row 3 2 1])
  ∧ from_tarfile archive_ab true true ≠ from_tarfile archive_ba true true
  ∧ from_tarfile archive_ab true false ≠ from_tarfile archive_ba true false.
Proof.
  split; [apply perm_swap|].
  split; [eexists; split; vm_compute; reflexivity|].
  split; [eexists; split; vm_compute; reflexivity|].
  split; vm_compute; intros H; discriminate H.
Qed.

Lemma from_tarfile_storage_order_witness :
  from_tarfile archive_xy true true = from_tarfile archive_yx true true.
Proof.
  apply from_tarfile_storage_order.
  - apply perm_swap.
  - apply (bool_decide_unpack _). by vm_compute.
Defined.

End Examples.

(** *** Further properties of the mesh engine *)

Section DestroyFacts.
Context {F : Type} {ext : External F}.

Lemma auto_uncompress_destroyed {A} (f : Method F A) (m : Mesh F) :
  _destroyed m = true → auto_uncompress f m = Raise AssertionError.
Proof.
  intros Hd. unfold auto_uncompress. method_unfold. by rewrite Hd.
Qed.

(** After [destroy()] every array property, read or written, and
    [compress(None)] fail the assertion of [auto_uncompress], whatever the
    mesh held before; the LZ4 items are not among the attributes that
    [destroy] clears. *)
Theorem destroy_then_access_fails (m : Mesh F) :
  ∃ m', destroy m = Ok (tt, m')
    ∧ _destroyed m' = true
    ∧ _vertices_zyx m' = None ∧ _faces m' = None ∧ _normals_zyx m' = None
    ∧ _draco_bytes m' = None
    ∧ _lz4_items m' = _lz4_items m
    ∧ vertices_zyx m' = Raise AssertionError
    ∧ faces m' = Raise AssertionError
    ∧ normals_zyx m' = Raise AssertionError
    ∧ (∀ v, set_vertices_zyx v m' = Raise AssertionError)
    ∧ (∀ f, set_faces f m' = Raise AssertionError)
    ∧ (∀ n, set_normals_zyx n m' = Raise AssertionError)
    ∧ drop_normals m' = Raise AssertionError
    ∧ compress None m' = Raise AssertionError.
Proof.
  eexists. split; [reflexivity|]. simpl.
  repeat split; try (intros ?); try (by apply auto_uncompress_destroyed).
Qed.

(** [destroy()] on a mesh held as LZ4 items keeps the items:
    [compress('lz4')] on the destroyed mesh still answers with their size. *)
Theorem destroy_keeps_lz4_items (m : Mesh F) items :
  _lz4_items m = Some items →
  ∃ m', destroy m = Ok (tt, m')
    ∧ _destroyed m' = true
    ∧ _lz4_items m' = Some items
    ∧ compress (Some "lz4") m' = Ok (sum_list (map length items), m').
Proof.
  intros H. eexists. split; [reflexivity|]. simpl.
  split; [done|]. split; [done|].
  by apply compress_as_lz4_cached.
Qed.

End DestroyFacts.

Section RoundTripFacts.
Context {F : Type} {ext : External F}.

Lemma vrev_involutive {A} (v : vec3 A) : vrev (vrev v) = v.
Proof. by destruct v as [[??]?]. Qed.

Lemma map_vrev_involutive {A} (l : list (vec3 A)) : map vrev (map vrev l) = l.
Proof.
  induction l as [|v l IH]; simpl; [done|]. by rewrite vrev_involutive, IH.
Qed.

Lemma auto_uncompress_compressed {A} (f : Method F A) (m m' : Mesh F) :
  _destroyed m = false → _vertices_zyx m = None → _uncompress m = Ok (tt, m') →
  auto_uncompress f m = f m'.
Proof.
  intros Hd Hv Hu. unfold auto_uncompress. method_unfold.
  rewrite Hd. simpl. rewrite Hv. simpl. rewrite Hu. reflexivity.
Qed.

Lemma compress_lz4_explicit pcm vs fs ns a b c d bx :
  _compress_as_lz4 (mkMesh pcm false (Some vs) (Some fs) (Some ns) None None a b c d bx)
  = Ok (sum_list (map length (lz4_items_of vs fs ns)),
        mkMesh pcm false None None None None (Some (lz4_items_of vs fs ns)) a b c d bx).
Proof. reflexivity. Qed.

Lemma uncompress_lz4_explicit pcm vs fs ns a b c d bx :
  (∀ b, lz4_frame_decompress (lz4_frame_compress b) = Ok b) →
  float32_frombuffer (float32_buffer vs) = Ok vs →
  float32_frombuffer (float32_buffer ns) = Ok ns →
  uint32_frombuffer (uint32_buffer fs) = Ok fs →
  _uncompress (mkMesh pcm false None None None None (Some (lz4_items_of vs fs ns))
                 a b c d bx)
  = Ok (tt, mkMesh pcm false (Some vs) (Some fs) (Some ns) None None a b c d bx).
Proof.
  intros Hlz Hvs Hns Hfs.
  unfold _uncompress, _uncompress_from_lz4, lz4_items_of. method_unfold.
  simpl. rewrite !Hlz. simpl. rewrite !Hlz. simpl.
  rewrite Hvs, Hns, Hfs. reflexivity.
Qed.

Lemma compress_draco_explicit pcm vs fs ns a b c d bx bs :
  _dvidutils_available = true →
  encode_faces_to_drc_bytes (map vrev vs) (map vrev ns) fs = Ok bs →
  _compress_as_draco
    (mkMesh pcm false (Some vs) (Some fs) (Some ns) None None a b c d bx)
  = Ok (length bs, mkMesh pcm false None None None (Some bs) None a b c d bx).
Proof.
  intros Ha Henc. unfold _compress_as_draco, _uncompress. method_unfold.
  rewrite Ha. simpl. rewrite Henc. reflexivity.
Qed.

Lemma uncompress_draco_explicit pcm vs fs ns a b c d bx bs :
  _dvidutils_available = true →
  decode_drc_bytes_to_faces bs = Ok (map vrev vs, map vrev ns, fs) →
  _uncompress (mkMesh pcm false None None None (Some bs) None a b c d bx)
  = Ok (tt, mkMesh pcm false (Some vs) (Some fs) (Some ns) None None a b c d bx).
Proof.
  intros Ha Hdec. unfold _uncompress, _uncompress_from_draco. method_unfold.
  simpl. rewrite Ha. simpl. rewrite Hdec. simpl.
  rewrite !map_vrev_involutive. reflexivity.
Qed.

(** LZ4 round trip.  With an LZ4 codec that decodes what it encoded and
    array buffers that read back, [compress('lz4')] on an uncompressed mesh
    leaves only the LZ4 items, and the first access to any array restores
    the three arrays: the mesh is again the mesh it was. *)
Theorem lz4_round_trip (m : Mesh F) vs fs ns :
  (∀ b, lz4_frame_decompress (lz4_frame_compress b) = Ok b) →
  float32_frombuffer (float32_buffer vs) = Ok vs →
  float32_frombuffer (float32_buffer ns) = Ok ns →
  uint32_frombuffer (uint32_buffer fs) = Ok fs →
  uncompressed m vs fs ns → _draco_bytes m = None → _lz4_items m = None →
  ∃ n m1,
    compress (Some "lz4") m = Ok (n, m1)
    ∧ compressed m1 ∧ _draco_bytes m1 = None
    ∧ _lz4_items m1 = Some (lz4_items_of vs fs ns)
    ∧ vertices_zyx m1 = Ok (vs, m)
    ∧ faces m1 = Ok (fs, m)
    ∧ normals_zyx m1 = Ok (ns, m)
    ∧ compress None m1 = Ok ((nbytes vs + nbytes fs + nbytes ns)%nat, m).
Proof.
  intros Hlz Hvs Hns Hfs (Hd & Hv & Hf & Hn) Hdb Hl.
  destruct m as [pcm d v f n db lz fss fso fsh fo bx]. simpl in *. subst.
  pose proof (uncompress_lz4_explicit pcm vs fs ns fss fso fsh fo bx Hlz Hvs Hns Hfs)
    as Hu.
  set (m0 := mkMesh pcm false (Some vs) (Some fs) (Some ns) None None fss fso fsh fo bx)
    in *.
  assert (uncompressed m0 vs fs ns) as Hu0 by (repeat split).
  eexists _, _. split; [exact (compress_lz4_explicit pcm vs fs ns fss fso fsh fo bx)|].
  split; [repeat split; right; eexists; reflexivity|].
  split; [reflexivity|]. split; [reflexivity|].
  split; [|split; [|split]].
  - unfold vertices_zyx. erewrite auto_uncompress_compressed; [|reflexivity|reflexivity|exact Hu].
    reflexivity.
  - unfold faces. erewrite auto_uncompress_compressed; [|reflexivity|reflexivity|exact Hu].
    reflexivity.
  - unfold normals_zyx. erewrite auto_uncompress_compressed; [|reflexivity|reflexivity|exact Hu].
    reflexivity.
  - unfold compress.
    assert (vertices_zyx
              (mkMesh pcm false None None None None (Some (lz4_items_of vs fs ns))
                 fss fso fsh fo bx) = Ok (vs, m0)) as Hv1.
    { unfold vertices_zyx.
      erewrite auto_uncompress_compressed; [|reflexivity|reflexivity|exact Hu]. reflexivity. }
    rewrite (method_bind_Ok _ _ _ _ _ Hv1).
    rewrite (method_bind_Ok _ _ _ _ _ (faces_uncompressed _ _ _ _ Hu0)).
    rewrite (method_bind_Ok _ _ _ _ _ (normals_zyx_uncompressed _ _ _ _ Hu0)).
    reflexivity.
Qed.

(** Draco round trip.  With a Draco codec that returns the arrays it was
    given, [compress('draco')] leaves only the encoded bytes, and the first
    access restores the arrays in zyx order: the two column reversals on the
    way to the codec and back cancel. *)
Theorem draco_round_trip (m : Mesh F) vs fs ns b :
  _dvidutils_available = true →
  encode_faces_to_drc_bytes (map vrev vs) (map vrev ns) fs = Ok b →
  decode_drc_bytes_to_faces b = Ok (map vrev vs, map vrev ns, fs) →
  uncompressed m vs fs ns → _draco_bytes m = None → _lz4_items m = None →
  ∃ m1,
    compress (Some "draco") m = Ok (length b, m1)
    ∧ compressed m1 ∧ _draco_bytes m1 = Some b ∧ _lz4_items m1 = None
    ∧ vertices_zyx m1 = Ok (vs, m)
    ∧ faces m1 = Ok (fs, m)
    ∧ normals_zyx m1 = Ok (ns, m).
Proof.
  intros Ha Henc Hdec (Hd & Hv & Hf & Hn) Hdb Hl.
  destruct m as [pcm d v f n db lz fss fso fsh fo bx]. simpl in *. subst.
  pose proof (uncompress_draco_explicit pcm vs fs ns fss fso fsh fo bx b Ha Hdec) as Hu.
  eexists. split;
    [exact (compress_draco_explicit pcm vs fs ns fss fso fsh fo bx b Ha Henc)|].
  split; [repeat split; left; eexists; reflexivity|].
  split; [reflexivity|]. split; [reflexivity|].
  split; [|split].
  - unfold vertices_zyx. erewrite auto_uncompress_compressed; [|reflexivity|reflexivity|exact Hu].
    reflexivity.
  - unfold faces. erewrite auto_uncompress_compressed; [|reflexivity|reflexivity|exact Hu].
    reflexivity.
  - unfold normals_zyx. erewrite auto_uncompress_compressed; [|reflexivity|reflexivity|exact Hu].
    reflexivity.
Qed.

End RoundTripFacts.

Section InvariantFacts.
Context {F : Type} {f32 : Float32Ops F} {ext : External F}.

Ltac case_step :=
  match goal with
  | H : context [match ?x with _ => _ end] |- _ => destruct x eqn:?; simpl in *; try done
  end.

Ltac is_Some_solve := first [reflexivity | eexists; reflexivity].

Ltac representation_solve :=
  split; [reflexivity|];
  first [ left; repeat split; is_Some_solve
        | right; left; repeat split; is_Some_solve
        | right; right; repeat split; is_Some_solve ].

(** After [_uncompress] the arrays are present and no encoding is left. *)
Lemma uncompress_holds_arrays (m m' : Mesh F) :
  representation_ok m → _uncompress m = Ok (tt, m') →
  representation_ok m'
  ∧ is_Some (_vertices_zyx m') ∧ _draco_bytes m' = None ∧ _lz4_items m' = None.
Proof.
  intros (Hd & H) Hu.
  destruct m as [pcm d v f n db lz fss fso fsh fo bx]. simpl in *. subst d.
  unfold _uncompress, _uncompress_from_draco, _uncompress_from_lz4 in Hu.
  unfold not_None, py_assert in Hu. method_unfold. simpl in Hu.
  destruct H as [(Hv & Hf & Hn & -> & ->)|[(-> & -> & -> & Hb & ->)|(-> & -> & -> & -> & Hl)]].
  - destruct Hv as [v' ->], Hf as [f' ->], Hn as [n' ->]. simpl in Hu.
    simplify_eq. split; [representation_solve|repeat split; is_Some_solve].
  - destruct Hb as [b' ->]. simpl in Hu.
    repeat case_step.
    all: simplify_eq; (split; [representation_solve|repeat split; is_Some_solve]).
  - destruct Hl as [l' ->]. simpl in Hu.
    repeat case_step.
    all: simplify_eq; (split; [representation_solve|repeat split; is_Some_solve]).
Qed.

Lemma auto_uncompress_representation {A} (f : Method F A) (m m' : Mesh F) r :
  representation_ok m → auto_uncompress f m = Ok (r, m') →
  ∃ m1, representation_ok m1 ∧ is_Some (_vertices_zyx m1) ∧ is_Some (_faces m1)
        ∧ is_Some (_normals_zyx m1)
        ∧ _draco_bytes m1 = None ∧ _lz4_items m1 = None ∧ f m1 = Ok (r, m').
Proof.
  intros Hok H. pose proof Hok as (Hd & Hs).
  unfold auto_uncompress in H. method_unfold. rewrite Hd in H. simpl in H.
  destruct (_vertices_zyx m) as [v|] eqn:Hv; simpl in H.
  - exists m. destruct Hs as [(_ & Hf & Hn & Hb & Hl)|[(Hx & _)|(Hx & _)]]; try congruence.
    split; [done|]. split; [by eexists|]. split; [done|]. split; [done|].
    split; [done|]. split; [done|]. by destruct (f m) as [[??]|].
  - destruct (_uncompress m) as [[[] m1]|e] eqn:Hu; [|done].
    destruct (uncompress_holds_arrays m m1 Hok Hu) as (Hok1 & Hv1 & Hb1 & Hl1).
    exists m1. pose proof Hok1 as (_ & [(_ & Hf & Hn & _)|[(Hx & _)|(Hx & _)]]);
      try (rewrite Hx in Hv1; by destruct Hv1).
    split; [done|]. split; [done|]. split; [done|]. split; [done|].
    split; [done|]. split; [done|]. by destruct (f m1) as [[??]|].
Qed.

Lemma compress_as_lz4_representation (m m' : Mesh F) n :
  representation_ok m → _compress_as_lz4 m = Ok (n, m') →
  representation_ok m' ∧ _vertices_zyx m' = None ∧ is_Some (_lz4_items m').
Proof.
  intros Hok H. destruct (_lz4_items m) as [items|] eqn:Hl.
  - rewrite (compress_as_lz4_cached m items Hl) in H. simplify_eq.
    split; [done|]. destruct Hok as (_ & [(_&_&_&_&Hx)|[(_&_&_&_&Hx)|(Hv&_)]]);
      try congruence.
    split; [done|]. rewrite Hl. by eexists.
  - unfold _compress_as_lz4, not_None in H. method_unfold. rewrite Hl in H. simpl in H.
    destruct (_uncompress m) as [[[] m1]|e] eqn:Hu; [|done].
    destruct (uncompress_holds_arrays m m1 Hok Hu) as (Hok1 & Hv1 & Hb1 & Hl1).
    destruct Hok1 as (Hd1 & [(_ & Hf1 & Hn1 & _)|[(Hx & _)|(Hx & _)]]);
      try (rewrite Hx in Hv1; by destruct Hv1).
    destruct m1 as [pcm d v f nn db lz fss fso fsh fo bx]. simpl in *. subst.
    destruct Hv1 as [v' ->], Hf1 as [f' ->], Hn1 as [n' ->]. simpl in H.
    simplify_eq. split; [representation_solve|]. split; [done|]. by eexists.
Qed.

Lemma compress_as_draco_representation (m m' : Mesh F) n :
  representation_ok m →
  _compress_as_draco m = Ok (n, m') ∨ _compress_as_custom_draco m = Ok (n, m') →
  representation_ok m' ∧ _vertices_zyx m' = None ∧ is_Some (_draco_bytes m').
Proof.
  intros Hok H.
  destruct (compress_as_draco_result m m' n H) as (Ha & _).
  destruct (_draco_bytes m) as [b|] eqn:Hb.
  - destruct (compress_as_draco_cached m b Ha Hb) as [H1 H2].
    assert (m' = m) as -> by (destruct H as [H|H]; congruence).
    split; [done|]. destruct Hok as (_ & [(_&_&_&Hx&_)|[(Hv&_)|(_&_&_&Hx&_)]]);
      try congruence.
    split; [done|]. rewrite Hb. by eexists.
  - unfold _compress_as_draco, _compress_as_custom_draco, not_None in H. method_unfold.
    rewrite Ha in H. simpl in H. rewrite Hb in H. simpl in H.
    destruct (_uncompress m) as [[[] m1]|e] eqn:Hu; [|by destruct H].
    destruct (uncompress_holds_arrays m m1 Hok Hu) as (Hok1 & Hv1 & Hb1 & Hl1).
    destruct Hok1 as (Hd1 & [(_ & Hf1 & Hn1 & _)|[(Hx & _)|(Hx & _)]]);
      try (rewrite Hx in Hv1; by destruct Hv1).
    destruct m1 as [pcm d v f nn db lz fss fso fsh fo bx]. simpl in *. subst.
    destruct Hv1 as [v' ->], Hf1 as [f' ->], Hn1 as [n' ->]. simpl in H.
    destruct H as [H|H]; repeat case_step; simplify_eq;
      (split; [representation_solve|]; split; [done|]; by eexists).
Qed.

Lemma method_bind_inv {A B} (c : Method F A) (k : A → Method F B) m r :
  (c ≫= k) m = Ok r → ∃ a m1, c m = Ok (a, m1) ∧ k a m1 = Ok r.
Proof.
  unfold mbind, method_mbind, method_bind.
  destruct (c m) as [[a m1]|e]; [|done]. intros H. by exists a, m1.
Qed.

Lemma getter_representation {A} (field : Mesh F → option A) (m m' : Mesh F) r :
  representation_ok m →
  auto_uncompress (x ← method_get field; not_None x) m = Ok (r, m') →
  representation_ok m' ∧ field m' = Some r
  ∧ is_Some (_vertices_zyx m') ∧ _draco_bytes m' = None ∧ _lz4_items m' = None.
Proof.
  intros Hok H.
  destruct (auto_uncompress_representation _ m m' r Hok H)
    as (m1 & Hok1 & Hv & _ & _ & Hb & Hl & Hf).
  unfold not_None in Hf. method_unfold.
  destruct (field m1) as [x|] eqn:Hx; [|done]. by simplify_eq.
Qed.

Lemma setter_representation (update : Mesh F → Mesh F) (m m' : Mesh F) :
  (∀ m1, representation_ok m1 → is_Some (_vertices_zyx m1) →
         is_Some (_faces m1) → is_Some (_normals_zyx m1) →
         _draco_bytes m1 = None → _lz4_items m1 = None →
         representation_ok (update m1) ∧ _draco_bytes (update m1) = None
         ∧ _lz4_items (update m1) = None) →
  representation_ok m →
  auto_uncompress (method_set update) m = Ok (tt, m') →
  ∃ m1, m' = update m1 ∧ representation_ok m'
        ∧ _draco_bytes m' = None ∧ _lz4_items m' = None.
Proof.
  intros Hup Hok H.
  destruct (auto_uncompress_representation _ m m' tt Hok H)
    as (m1 & Hok1 & Hv & Hf & Hn & Hb & Hl & Hs).
  unfold method_set in Hs. simplify_eq. exists m1. split; [done|].
  by apply Hup.
Qed.

Lemma Mesh_init_representation (vs : list (vec3 F)) fs ns bx fsh fo pcm (m0 : Mesh F) :
  Mesh_init vs fs ns bx fsh fo pcm = Ok m0 → representation_ok m0.
Proof.
  unfold Mesh_init. intros H.
  destruct (py_assert _) as [[]|]; [|done]. simpl in H.
  destruct ns as [ns|]; simpl in H.
  - destruct (py_assert _) as [[]|]; [|done]. simpl in H. simplify_eq.
    representation_solve.
  - simplify_eq. representation_solve.
Qed.

(** The compression state machine keeps its invariant: a usable mesh holds
    either its three arrays and no encoding, or no array and exactly one
    encoding.  The constructor establishes it; every call of [compress]
    that returns, every read of an array and every assignment to one leaves
    the mesh in one of these states; an assignment first decodes, so no
    encoding of the old arrays outlives it. *)
Theorem representation_invariant (m m' : Mesh F) :
  (∀ vs fs ns bx fsh fo pcm,
     Mesh_init vs fs ns bx fsh fo pcm = Ok m → representation_ok m)
  ∧ (representation_ok m →
  (∀ method n, compress method m = Ok (n, m') → representation_ok m')
  ∧ (∀ vs, vertices_zyx m = Ok (vs, m') →
       representation_ok m' ∧ _vertices_zyx m' = Some vs
       ∧ _draco_bytes m' = None ∧ _lz4_items m' = None)
  ∧ (∀ fs, faces m = Ok (fs, m') →
       representation_ok m' ∧ _faces m' = Some fs
       ∧ _draco_bytes m' = None ∧ _lz4_items m' = None)
  ∧ (∀ ns, normals_zyx m = Ok (ns, m') →
       representation_ok m' ∧ _normals_zyx m' = Some ns
       ∧ _draco_bytes m' = None ∧ _lz4_items m' = None)
  ∧ (∀ vs, set_vertices_zyx vs m = Ok (tt, m') →
       representation_ok m' ∧ _vertices_zyx m' = Some vs
       ∧ _draco_bytes m' = None ∧ _lz4_items m' = None)
  ∧ (∀ fs, set_faces fs m = Ok (tt, m') →
       representation_ok m' ∧ _faces m' = Some fs
       ∧ _draco_bytes m' = None ∧ _lz4_items m' = None)
  ∧ (∀ ns, set_normals_zyx ns m = Ok (tt, m') →
       representation_ok m' ∧ _normals_zyx m' = Some ns
       ∧ _draco_bytes m' = None ∧ _lz4_items m' = None)).
Proof.
  split; [intros; by eapply Mesh_init_representation|].
  intros Hok.
  assert (∀ update : Mesh F → Mesh F,
            (∀ m1, _destroyed (update m1) = _destroyed m1
                   ∧ _draco_bytes (update m1) = _draco_bytes m1
                   ∧ _lz4_items (update m1) = _lz4_items m1
                   ∧ (is_Some (_vertices_zyx m1) → is_Some (_vertices_zyx (update m1)))
                   ∧ (is_Some (_faces m1) → is_Some (_faces (update m1)))
                   ∧ (is_Some (_normals_zyx m1) → is_Some (_normals_zyx (update m1)))) →
            ∀ m1, representation_ok m1 → is_Some (_vertices_zyx m1) →
                  is_Some (_faces m1) → is_Some (_normals_zyx m1) →
                  _draco_bytes m1 = None → _lz4_items m1 = None →
                  representation_ok (update m1) ∧ _draco_bytes (update m1) = None
                  ∧ _lz4_items (update m1) = None) as Hset.
  { intros update Hup m1 (Hd1 & _) Hv Hf Hn Hb Hl.
    destruct (Hup m1) as (Ed & Eb & El & Iv & If & In).
    split; [|split; congruence].
    split; [congruence|]. left. rewrite Eb, El. auto. }
  split; [|split; [|split; [|split; [|split; [|split]]]]].
  - intros method n H. destruct method as [method|]; simpl in H.
    + destruct (String.eqb method "draco");
        [by eapply compress_as_draco_representation; eauto|].
      destruct (String.eqb method "custom_draco");
        [by eapply compress_as_draco_representation; eauto|].
      destruct (String.eqb method "lz4");
        [by eapply compress_as_lz4_representation; eauto|done].
    + apply method_bind_inv in H as (vs & m1 & Hv & H).
      apply method_bind_inv in H as (fs & m2 & Hf & H).
      apply method_bind_inv in H as (ns & m3 & Hn & H).
      unfold mret, method_mret, method_ret in H. simplify_eq.
      destruct (getter_representation _ _ _ _ Hok Hv) as (Hok1 & _).
      destruct (getter_representation _ _ _ _ Hok1 Hf) as (Hok2 & _).
      by destruct (getter_representation _ _ _ _ Hok2 Hn) as (Hok3 & _).
  - intros vs H. destruct (getter_representation _ _ _ _ Hok H) as (?&?&?&?&?). done.
  - intros fs H. destruct (getter_representation _ _ _ _ Hok H) as (?&?&?&?&?). done.
  - intros ns H. destruct (getter_representation _ _ _ _ Hok H) as (?&?&?&?&?). done.
  - intros vs H.
    assert (∀ m1 : Mesh F,
              _destroyed (set__vertices_zyx (Some vs) m1) = _destroyed m1
              ∧ _draco_bytes (set__vertices_zyx (Some vs) m1) = _draco_bytes m1
              ∧ _lz4_items (set__vertices_zyx (Some vs) m1) = _lz4_items m1
              ∧ (is_Some (_vertices_zyx m1) →
                 is_Some (_vertices_zyx (set__vertices_zyx (Some vs) m1)))
              ∧ (is_Some (_faces m1) → is_Some (_faces (set__vertices_zyx (Some vs) m1)))
              ∧ (is_Some (_normals_zyx m1) →
                 is_Some (_normals_zyx (set__vertices_zyx (Some vs) m1)))) as Hup
      by (intros; simpl; repeat split; eauto).
    destruct (setter_representation (set__vertices_zyx (Some vs)) m m'
                (Hset _ Hup) Hok H)
      as (m1 & -> & ? & ? & ?). done.
  - intros fs H.
    assert (∀ m1 : Mesh F,
              _destroyed (set__faces (Some fs) m1) = _destroyed m1
              ∧ _draco_bytes (set__faces (Some fs) m1) = _draco_bytes m1
              ∧ _lz4_items (set__faces (Some fs) m1) = _lz4_items m1
              ∧ (is_Some (_vertices_zyx m1) →
                 is_Some (_vertices_zyx (set__faces (Some fs) m1)))
              ∧ (is_Some (_faces m1) → is_Some (_faces (set__faces (Some fs) m1)))
              ∧ (is_Some (_normals_zyx m1) →
                 is_Some (_normals_zyx (set__faces (Some fs) m1)))) as Hup
      by (intros; simpl; repeat split; eauto).
    destruct (setter_representation (set__faces (Some fs)) m m'
                (Hset _ Hup) Hok H)
      as (m1 & -> & ? & ? & ?). done.
  - intros ns H.
    assert (∀ m1 : Mesh F,
              _destroyed (set__normals_zyx (Some ns) m1) = _destroyed m1
              ∧ _draco_bytes (set__normals_zyx (Some ns) m1) = _draco_bytes m1
              ∧ _lz4_items (set__normals_zyx (Some ns) m1) = _lz4_items m1
              ∧ (is_Some (_vertices_zyx m1) →
                 is_Some (_vertices_zyx (set__normals_zyx (Some ns) m1)))
              ∧ (is_Some (_faces m1) → is_Some (_faces (set__normals_zyx (Some ns) m1)))
              ∧ (is_Some (_normals_zyx m1) →
                 is_Some (_normals_zyx (set__normals_zyx (Some ns) m1)))) as Hup
      by (intros; simpl; repeat split; eauto).
    destruct (setter_representation (set__normals_zyx (Some ns)) m m'
                (Hset _ Hup) Hok H)
      as (m1 & -> & ? & ? & ?). done.
Qed.

End InvariantFacts.

Section ConcatenateGeometry.
Context {F : Type} {f32 : Float32Ops F} {ext : External F}.

Lemma as_uint32_small z : 0 ≤ z < 2 ^ 32 → as_uint32 z = z.
Proof. intros H. unfold as_uint32. by apply Z.mod_small. Qed.

Lemma np_index_Ok_lookup {A} (a : list A) (i : Z) x :
  0 ≤ i → a !! Z.to_nat i = Some x → np_index a i = Ok x.
Proof.
  intros Hi Hx. unfold np_index.
  destruct (Z.ltb_spec i 0); [lia|].
  apply lookup_lt_Some in Hx as Hlt.
  destruct (Z.leb_spec 0 i); [|lia].
  destruct (Z.ltb_spec i (Z.of_nat (length a))); [|lia]. simpl. by rewrite Hx.
Qed.

Lemma np_index_shift {A} (pre vs rest : list A) (i : Z) :
  0 ≤ i < Z.of_nat (length vs) →
  np_index (pre ++ vs ++ rest) (i + Z.of_nat (length pre)) = np_index vs i.
Proof.
  intros Hi. destruct (np_index_valid vs i Hi) as (x & -> & Hx).
  apply np_index_Ok_lookup; [lia|].
  replace (Z.to_nat (i + Z.of_nat (length pre)))
    with (length pre + Z.to_nat i)%nat by lia.
  rewrite lookup_app_r by lia.
  replace (length pre + Z.to_nat i - length pre)%nat with (Z.to_nat i) by lia.
  by apply lookup_app_l_Some.
Qed.

Lemma face_corners_shift (pre vs rest : list (vec3 F)) (face : vec3 Z) :
  face_valid (length vs) face →
  face_corners (pre ++ vs ++ rest)
    (vmap (fun i => i + Z.of_nat (length pre)) face)
  = face_corners vs face.
Proof.
  destruct face as [[i0 i1] i2]. intros (H0 & H1 & H2). unfold face_corners. simpl.
  by rewrite !np_index_shift.
Qed.

(** The faces of a concatenation whose first mesh starts at vertex
    [length pre]. *)
Lemma shifted_faces_corners (arrs : list (list (vec3 F) * list (vec3 Z) * list (vec3 F)))
    (pre : list (vec3 F)) :
  Forall (fun a => Forall (face_valid (length a.1.1)) a.1.2) arrs →
  Z.of_nat (length pre + length (concat (map (fun a => a.1.1) arrs))) ≤ 2 ^ 32 →
  let fs' :=
    map (vmap as_uint32)
      (concat (zip_with (fun faces vertex_offset =>
                 map (vmap (fun i => as_uint32 (i + Z.of_nat vertex_offset))) faces)
               (map (fun a => a.1.2) arrs)
               (running_offsets (length pre) (map length (map (fun a => a.1.1) arrs))))) in
  map (face_corners (pre ++ concat (map (fun a => a.1.1) arrs))) fs'
  = concat (map (fun a => map (face_corners a.1.1) a.1.2) arrs)
  ∧ Forall (face_valid (length (pre ++ concat (map (fun a => a.1.1) arrs)))) fs'
  ∧ length fs' = length (concat (map (fun a => a.1.2) arrs)).
Proof.
  intros Hv. revert pre. induction Hv as [|a arrs Ha _ IH]; intros pre Hsz; simpl.
  { by repeat split. }
  simpl in Hsz. rewrite length_app in Hsz.
  destruct (IH (pre ++ a.1.1)) as (IH1 & IH2 & IH3).
  { rewrite length_app. lia. }
  rewrite <- !app_assoc in IH1, IH2.
  rewrite (length_app pre a.1.1) in IH1, IH2, IH3.
  rewrite !map_app. rewrite IH1.
  assert (∀ face, face ∈ a.1.2 →
            vmap as_uint32 (vmap (fun i => as_uint32 (i + Z.of_nat (length pre))) face)
            = vmap (fun i => i + Z.of_nat (length pre)) face
            ∧ face_valid (length (pre ++ a.1.1 ++ concat (map (fun a => a.1.1) arrs)))
                (vmap (fun i => i + Z.of_nat (length pre)) face)) as Hface.
  { intros [[i0 i1] i2] Hin. rewrite Forall_forall in Ha.
    destruct (Ha _ Hin) as (H0 & H1 & H2). unfold vmap, face_valid.
    rewrite !length_app.
    rewrite !(as_uint32_small (_ + _)) by lia.
    split; [done|]. lia. }
  split; [|split].
  - f_equal. rewrite !map_map. apply map_ext_in. intros face Hin.
    apply list_elem_of_In in Hin. destruct (Hface face Hin) as [-> _].
    apply face_corners_shift. rewrite Forall_forall in Ha. by apply Ha.
  - apply Forall_app. split; [|done].
    apply Forall_forall. intros face' Hin.
    apply list_elem_of_In, in_map_iff in Hin as (face1 & <- & Hin).
    apply in_map_iff in Hin as (face & <- & Hin).
    apply list_elem_of_In in Hin. by destruct (Hface face Hin) as [-> ?].
  - rewrite !length_app, IH3. by rewrite !length_map.
Qed.

End ConcatenateGeometry.
Section ConcatenateResult.
Context {F : Type} {f32 : Float32Ops F} {ext : External F}.

Lemma normals_consistent_lengths
    (arrs : list (list (vec3 F) * list (vec3 Z) * list (vec3 F))) :
  normals_consistent arrs = true →
  ((length (concat (map (fun a => a.2) arrs))
      =? length (concat (map (fun a => a.1.1) arrs)))%nat
   || (length (concat (map (fun a => a.2) arrs)) =? 0)%nat) = true.
Proof.
  intros Hc. apply orb_true_iff.
  destruct (decide (Exists (fun a => a.2 ≠ []) arrs)) as [Hex|Hno].
  - left. apply Nat.eqb_eq.
    assert (¬ Exists (fun a => length a.2 ≠ length a.1.1) arrs) as Hall.
    { intros Hmis.
      assert (normals_consistent arrs = false)
        by (by apply normals_consistent_false).
      congruence. }
    apply (length_concat_map (fun a => a.2) (fun a => a.1.1) arrs).
    intros a' Ha'. destruct (decide (length a'.2 = length a'.1.1)); [done|].
    destruct Hall. apply Exists_exists. eauto.
  - right. apply Nat.eqb_eq.
    assert (∀ a', a' ∈ arrs → a'.2 = []) as Hnil.
    { intros a' Ha'. destruct (a'.2) eqn:E; [done|].
      destruct Hno. apply Exists_exists. exists a'. split; [done|]. by rewrite E. }
    rewrite (length_concat_map (fun a => a.2) (fun _ => []) arrs).
    + clear. induction arrs; [done|]. done.
    + intros a' Ha'. by rewrite Hnil.
Qed.

(** The mesh that [concatenate_meshes] builds from a non-empty list of
    meshes whose arrays can be read. *)
Lemma concatenate_meshes_explicit (meshes : list (Mesh F)) arrs keep_normals b bs :
  Forall2 mesh_arrays meshes arrs →
  map box meshes = b :: bs →
  (keep_normals = true → normals_consistent arrs = true) →
  concatenate_meshes meshes keep_normals
  = Ok (mkMesh (Some "lz4") false
          (Some (concat (map (fun a => a.1.1) arrs)))
          (Some (map (vmap as_uint32)
                   (concat (zip_with
                      (fun faces vertex_offset =>
                         map (vmap (fun i => as_uint32 (i + Z.of_nat vertex_offset))) faces)
                      (map (fun a => a.1.2) arrs)
                      (running_offsets 0 (map length (map (fun a => a.1.1) arrs)))))))
          (Some (if keep_normals then concat (map (fun a => a.2) arrs) else []))
          None None None None None None
          (union_box b bs)).
Proof.
  intros H Hb Hk. destruct (read_arrays _ _ H) as (Hv & Hf & Hn).
  unfold concatenate_meshes.
  rewrite !result_mapM_fmap, Hv, Hf, Hb. simpl.
  assert (∃ a arrs', arrs = a :: arrs') as (a & arrs' & Earrs).
  { destruct H; [done|eauto]. }
  destruct keep_normals.
  - rewrite (verify_concatenate_inputs_arrays _ _ H), (Hk eq_refl). simpl.
    rewrite Hn. simpl.
    pose proof (normals_consistent_lengths _ (Hk eq_refl)) as Hlen.
    rewrite Earrs in *.
    rewrite ?fmap_cons, ?np_concatenate_cons. simpl.
    simpl in Hlen.
    rewrite (Mesh_init_with_normals _ _ _ _ Hlen). reflexivity.
  - rewrite Earrs. rewrite ?fmap_cons, ?np_concatenate_cons. reflexivity.
Qed.

Lemma fold_min_le (l : list (vec3 Z)) (init : vec3 Z) :
  let '(r0, r1, r2) := fold_left (vzip Z.min) l init in
  (let '(a0, a1, a2) := init in r0 ≤ a0 ∧ r1 ≤ a1 ∧ r2 ≤ a2)
  ∧ (∀ x, x ∈ l → let '(x0, x1, x2) := x in r0 ≤ x0 ∧ r1 ≤ x1 ∧ r2 ≤ x2)
  ∧ (∀ b0 b1 b2,
       (let '(a0, a1, a2) := init in b0 ≤ a0 ∧ b1 ≤ a1 ∧ b2 ≤ a2) →
       (∀ x, x ∈ l → let '(x0, x1, x2) := x in b0 ≤ x0 ∧ b1 ≤ x1 ∧ b2 ≤ x2) →
       b0 ≤ r0 ∧ b1 ≤ r1 ∧ b2 ≤ r2).
Proof.
  revert init. induction l as [|y l IH]; intros [[a0 a1] a2]; simpl.
  { split; [lia|]. split; [by intros x ?%elem_of_nil|]. intros; lia. }
  destruct y as [[y0 y1] y2]. simpl.
  specialize (IH (Z.min a0 y0, Z.min a1 y1, Z.min a2 y2)).
  destruct (fold_left _ l _) as [[r0 r1] r2].
  destruct IH as (IH1 & IH2 & IH3). split; [lia|]. split.
  - intros x [->|Hx]%elem_of_cons; [lia|]. by apply IH2.
  - intros b0 b1 b2 Ha Hx. apply IH3.
    + specialize (Hx (y0, y1, y2) ltac:(left)). simpl in Hx. lia.
    + intros x Hin. apply Hx. by right.
Qed.

Lemma fold_max_ge (l : list (vec3 Z)) (init : vec3 Z) :
  let '(r0, r1, r2) := fold_left (vzip Z.max) l init in
  (let '(a0, a1, a2) := init in a0 ≤ r0 ∧ a1 ≤ r1 ∧ a2 ≤ r2)
  ∧ (∀ x, x ∈ l → let '(x0, x1, x2) := x in x0 ≤ r0 ∧ x1 ≤ r1 ∧ x2 ≤ r2)
  ∧ (∀ b0 b1 b2,
       (let '(a0, a1, a2) := init in a0 ≤ b0 ∧ a1 ≤ b1 ∧ a2 ≤ b2) →
       (∀ x, x ∈ l → let '(x0, x1, x2) := x in x0 ≤ b0 ∧ x1 ≤ b1 ∧ x2 ≤ b2) →
       r0 ≤ b0 ∧ r1 ≤ b1 ∧ r2 ≤ b2).
Proof.
  revert init. induction l as [|y l IH]; intros [[a0 a1] a2]; simpl.
  { split; [lia|]. split; [by intros x ?%elem_of_nil|]. intros; lia. }
  destruct y as [[y0 y1] y2]. simpl.
  specialize (IH (Z.max a0 y0, Z.max a1 y1, Z.max a2 y2)).
  destruct (fold_left _ l _) as [[r0 r1] r2].
  destruct IH as (IH1 & IH2 & IH3). split; [lia|]. split.
  - intros x [->|Hx]%elem_of_cons; [lia|]. by apply IH2.
  - intros b0 b1 b2 Ha Hx. apply IH3.
    + specialize (Hx (y0, y1, y2) ltac:(left)). simpl in Hx. lia.
    + intros x Hin. apply Hx. by right.
Qed.

Lemma union_box_least (first : vec3 Z * vec3 Z) rest :
  (∀ b, b ∈ first :: rest → box_contains (union_box first rest) b)
  ∧ (∀ outer, (∀ b, b ∈ first :: rest → box_contains outer b) →
       box_contains outer (union_box first rest)).
Proof.
  pose proof (fold_min_le (map fst rest) first.1) as Hmin.
  pose proof (fold_max_ge (map snd rest) first.2) as Hmax.
  unfold union_box, box_contains. simpl.
  destruct (fold_left (vzip Z.min) _ _) as [[r0 r1] r2].
  destruct (fold_left (vzip Z.max) _ _) as [[s0 s1] s2].
  destruct Hmin as (Hm1 & Hm2 & Hm3). destruct Hmax as (HM1 & HM2 & HM3).
  split.
  - intros b [->|Hb]%elem_of_cons.
    + destruct first as [[[a0 a1] a2] [[c0 c1] c2]]. simpl in *. lia.
    + specialize (Hm2 b.1 ltac:(by apply list_elem_of_fmap_2)).
      specialize (HM2 b.2 ltac:(by apply list_elem_of_fmap_2)).
      destruct b as [[[a0 a1] a2] [[c0 c1] c2]]. simpl in *. lia.
  - intros [[[o0 o1] o2] [[p0 p1] p2]] Hall. simpl.
    split.
    + apply Hm3.
      * specialize (Hall first ltac:(left)).
        destruct first as [[[a0 a1] a2] [[c0 c1] c2]]. simpl in *. lia.
      * intros x (b & -> & Hb)%list_elem_of_fmap.
        specialize (Hall b ltac:(by right)).
        destruct b as [[[a0 a1] a2] [[c0 c1] c2]]. simpl in *. lia.
    + apply HM3.
      * specialize (Hall first ltac:(left)).
        destruct first as [[[a0 a1] a2] [[c0 c1] c2]]. simpl in *. lia.
      * intros x (b & -> & Hb)%list_elem_of_fmap.
        specialize (Hall b ltac:(by right)).
        destruct b as [[[a0 a1] a2] [[c0 c1] c2]]. simpl in *. lia.
Qed.

(** Concatenating meshes keeps every triangle.  For a non-empty list of
    meshes whose arrays can be read, whose faces index their own vertices
    and which have at most 2^32 vertices together (and, with
    [keep_normals=True], consistent normals), [concatenate_meshes] returns
    a mesh whose vertices are the vertices of the inputs in order, whose
    faces are as many as the inputs' faces, index the combined vertices and
    have, one by one, the corners they had in their own mesh.  The normals
    are the concatenated normals, or none with [keep_normals=False]. *)
Theorem concatenate_meshes_keeps_triangles (meshes : list (Mesh F)) arrs keep_normals :
  meshes ≠ [] → Forall2 mesh_arrays meshes arrs →
  Forall (fun a => Forall (face_valid (length a.1.1)) a.1.2) arrs →
  Z.of_nat (length (concat (map (fun a => a.1.1) arrs))) ≤ 2 ^ 32 →
  (keep_normals = true → normals_consistent arrs = true) →
  ∃ result vs' fs',
    concatenate_meshes meshes keep_normals = Ok result
    ∧ uncompressed result vs' fs'
        (if keep_normals then concat (map (fun a => a.2) arrs) else [])
    ∧ vs' = concat (map (fun a => a.1.1) arrs)
    ∧ length fs' = length (concat (map (fun a => a.1.2) arrs))
    ∧ Forall (face_valid (length vs')) fs'
    ∧ map (face_corners vs') fs'
      = concat (map (fun a => map (face_corners a.1.1) a.1.2) arrs).
Proof.
  intros Hne H Hvalid Hsz Hk.
  destruct meshes as [|m meshes]; [done|].
  rewrite (concatenate_meshes_explicit _ _ _ (box m) (map box meshes) H eq_refl Hk).
  destruct (shifted_faces_corners arrs [] Hvalid Hsz) as (Hc & Hv & Hl).
  eexists _, _, _. split; [reflexivity|].
  split; [repeat split|]. split; [reflexivity|].
  split; [exact Hl|]. split; [exact Hv|exact Hc].
Qed.

(** The bounding box of a concatenation is the smallest box that contains
    the bounding box of every input mesh, whatever the vertices are: on a
    non-empty list of meshes whose arrays can be read, the box of the
    result contains each input's box and is contained in every box that
    does. *)
Theorem concatenate_meshes_box_is_union (meshes : list (Mesh F)) arrs keep_normals :
  meshes ≠ [] → Forall2 mesh_arrays meshes arrs →
  (keep_normals = true → normals_consistent arrs = true) →
  ∃ result,
    concatenate_meshes meshes keep_normals = Ok result
    ∧ (∀ mesh, mesh ∈ meshes → box_contains (box result) (box mesh))
    ∧ (∀ outer, (∀ mesh, mesh ∈ meshes → box_contains outer (box mesh)) →
         box_contains outer (box result)).
Proof.
  intros Hne H Hk.
  destruct meshes as [|m meshes]; [done|].
  rewrite (concatenate_meshes_explicit _ _ _ (box m) (map box meshes) H eq_refl Hk).
  eexists. split; [reflexivity|].
  destruct (union_box_least (box m) (map box meshes)) as [H1 H2].
  split.
  - intros mesh Hin. apply H1.
    change (box m :: map box meshes) with (map box (m :: meshes)).
    by apply list_elem_of_fmap_2.
  - intros outer Hall. apply H2.
    intros b Hb.
    change (box m :: map box meshes) with (map box (m :: meshes)) in Hb.
    apply list_elem_of_fmap in Hb as (mesh & -> & Hin). by apply Hall.
Qed.

End ConcatenateResult.
Lemma omap_cons_eq {A B} (f : A → option B) (x : A) (l : list A) :
  omap f (x :: l) = match f x with Some y => y :: omap f l | None => omap f l end.
Proof. reflexivity. Qed.

Section DeleteRows.
Context {A : Type} (keep_row : nat → Prop) `{!∀ i, Decision (keep_row i)}.

Lemma imap_pair_shift (rows : list A) (k : nat) :
  imap (fun j => pair (k + S j)%nat) rows = imap (fun j => pair (S k + j)%nat) rows.
Proof. apply imap_ext. intros i x _. f_equal. lia. Qed.

Lemma imap_pair_cons (r : A) (rows : list A) (k : nat) :
  imap (fun j => pair (k + j)%nat) (r :: rows)
  = (k, r) :: imap (fun j => pair (S k + j)%nat) rows.
Proof.
  rewrite imap_cons. change ((fun j => pair (k + j)%nat) ∘ S)
    with (fun j => @pair nat A (k + S j)%nat).
  rewrite imap_pair_shift. by replace (k + 0)%nat with k by lia.
Qed.

Lemma keep_rows_filter (rows : list A) (k : nat) :
  omap (fun '(i, r) => if bool_decide (keep_row i) then Some r else None)
    (imap (fun j => pair (k + j)%nat) rows)
  = map snd (filter (fun p => keep_row p.1) (imap (fun j => pair (k + j)%nat) rows)).
Proof.
  revert k. induction rows as [|r rows IH]; intros k; [done|].
  rewrite imap_pair_cons, omap_cons_eq, IH.
  destruct (decide (keep_row k)) as [Hd|Hd].
  - rewrite bool_decide_eq_true_2 by done.
    rewrite filter_cons_True by done. done.
  - rewrite bool_decide_eq_false_2 by done.
    rewrite filter_cons_False by done. done.
Qed.

(** A kept row is found at the number of kept rows before it. *)
Lemma keep_rows_lookup (rows : list A) (k i : nat) :
  keep_row (k + i) →
  map snd (filter (fun p => keep_row p.1) (imap (fun j => pair (k + j)%nat) rows))
    !! length (filter keep_row (seq k i))
  = rows !! i.
Proof.
  revert k i. induction rows as [|r rows IH]; intros k i Hi; [done|].
  rewrite imap_pair_cons.
  destruct i as [|i].
  - replace (k + 0)%nat with k in Hi by lia.
    rewrite filter_cons_True by done. done.
  - replace (k + S i)%nat with (S k + i)%nat in Hi by lia.
    specialize (IH (S k) i Hi).
    change (seq k (S i)) with (k :: seq (S k) i).
    destruct (decide (keep_row k)) as [Hd|Hd].
    + rewrite !filter_cons_True by done. exact IH.
    + rewrite !filter_cons_False by done. exact IH.
Qed.

Lemma keep_rows_length (rows : list A) (k : nat) :
  length (map snd (filter (fun p => keep_row p.1)
                     (imap (fun j => pair (k + j)%nat) rows)))
  = length (filter keep_row (seq k (length rows))).
Proof.
  revert k. induction rows as [|r rows IH]; intros k; [done|].
  rewrite imap_pair_cons. specialize (IH (S k)).
  change (seq k (length (r :: rows))) with (k :: seq (S k) (length rows)).
  destruct (decide (keep_row k)) as [Hd|Hd].
  - rewrite !filter_cons_True by done.
    cbn [map length]. by rewrite IH.
  - rewrite !filter_cons_False by done. exact IH.
Qed.

End DeleteRows.

Section RankFacts.
Context (Q : nat → Prop) `{!∀ i, Decision (Q i)}.

Lemma filter_below_nil (i : nat) (l : list nat) :
  Forall (fun j => i ≤ j)%nat l → filter (fun j => j < i)%nat l = [].
Proof.
  induction 1 as [|j l Hj _ IH]; [done|].
  rewrite filter_cons_False by lia. done.
Qed.

(** Among the first [i] numbers from [k], those that satisfy [Q] and those
    that do not are [i - k] together. *)
Lemma count_below (n k i : nat) :
  (k ≤ i ≤ k + n)%nat →
  (length (filter (fun j => j < i)%nat (filter Q (seq k n)))
   + length (filter (fun j => ¬ Q j) (seq k (i - k))) = i - k)%nat.
Proof.
  revert k. induction n as [|n IH]; intros k Hi.
  { replace (i - k)%nat with 0%nat by lia. done. }
  destruct (decide (i = k)) as [->|Hne].
  { rewrite Nat.sub_diag. rewrite filter_below_nil; [done|].
    apply Forall_forall. intros j [_ Hj%elem_of_seq]%list_elem_of_filter. lia. }
  replace (i - k)%nat with (S (i - S k)) by lia.
  simpl. specialize (IH (S k) ltac:(lia)).
  destruct (decide (Q k)) as [Hq|Hq].
  - rewrite (filter_cons_True Q) by done.
    rewrite (filter_cons_True (fun j => j < i)%nat) by lia.
    rewrite (filter_cons_False (fun j => ¬ Q j)) by tauto. simpl. lia.
  - rewrite (filter_cons_False Q) by done.
    rewrite (filter_cons_True (fun j => ¬ Q j)) by done. simpl. lia.
Qed.

(** The position of [i] among the numbers below [n] that satisfy [Q]. *)
Lemma filter_seq_lookup_rank (k n j i : nat) :
  filter Q (seq k n) !! j = Some i →
  Q i ∧ (k ≤ i < k + n)%nat ∧ length (filter Q (seq k (i - k))) = j.
Proof.
  revert k j. induction n as [|n IH]; intros k j; [done|].
  simpl. destruct (decide (Q k)) as [Hq|Hq].
  - rewrite filter_cons_True by done. destruct j as [|j]; simpl.
    + intros [= <-]. rewrite Nat.sub_diag. split; [done|]. split; [lia|done].
    + intros Hl. destruct (IH _ _ Hl) as (H1 & H2 & H3). split; [done|]. split; [lia|].
      replace (i - k)%nat with (S (i - S k)) by lia. simpl.
      rewrite filter_cons_True by done. simpl. by rewrite H3.
  - rewrite filter_cons_False by done.
    intros Hl. destruct (IH _ _ Hl) as (H1 & H2 & H3). split; [done|]. split; [lia|].
    replace (i - k)%nat with (S (i - S k)) by lia. simpl.
    rewrite filter_cons_False by done. done.
Qed.

End RankFacts.

Section DropUnused.
Context {F : Type} {f32 : Float32Ops F} {ext : External F}.
Context (fs : list (vec3 Z)) (n : nat).


Lemma unused_spec (i : nat) : i ∈ (unused_indices fs n) ↔ (i < n)%nat ∧ ¬ vertex_used fs i.
Proof.
  unfold unused_indices, vertex_used. rewrite list_elem_of_filter, elem_of_seq.
  split; intros [? ?]; split; (done || lia).
Qed.

Lemma shiftmap_lookup (i : nat) :
  (i < n)%nat →
  map (fun i => Z.of_nat i
                - Z.of_nat (length (filter (fun j => (j < i)%nat) (unused_indices fs n))))
      (seq 0 n) !! i
  = Some (Z.of_nat (vertex_rank fs i)).
Proof.
  intros Hi. rewrite list_lookup_fmap, lookup_seq_lt by done. simpl. f_equal.
  pose proof (count_below (fun i => Z.of_nat i ∉ concat (map vlist fs)) n 0 i
                ltac:(lia)) as Hc.
  rewrite Nat.sub_0_r in Hc.
  rewrite (list_filter_iff (fun j => ¬ (Z.of_nat j ∉ concat (map vlist fs)))
             (vertex_used fs)) in Hc.
  - fold (unused_indices fs n) in Hc. unfold vertex_rank. lia.
  - intros j. unfold vertex_used. split; [apply dec_stable|tauto].
Qed.

Lemma used_rows_imap {A} (rows : list A) :
  used_rows fs rows
  = map snd (filter (fun p => vertex_used fs p.1)
               (imap (fun j => pair (0 + j)%nat) rows)).
Proof. reflexivity. Qed.

Lemma np_delete_unused {A} (rows : list A) :
  length rows = n → np_delete rows (unused_indices fs n) = Ok (used_rows fs rows).
Proof.
  intros Hlen. unfold np_delete.
  assert (forallb (fun i => i <? length rows)%nat (unused_indices fs n) = true) as ->.
  { apply forallb_forall. intros i Hin%list_elem_of_In%unused_spec.
    apply Nat.ltb_lt. lia. }
  f_equal. rewrite used_rows_imap, <- keep_rows_filter.
  apply list_omap_ext, Forall2_same_length_lookup. split; [done|].
  intros j p q Hp Hq.
  apply list_lookup_imap_Some in Hp as (r & Hr & ->).
  apply list_lookup_imap_Some in Hq as (r' & Hr' & ->).
  rewrite Hr in Hr'. injection Hr' as <-.
  apply lookup_lt_Some in Hr. simpl.
  destruct (decide (vertex_used fs j)) as [Hu|Hu].
  - rewrite (bool_decide_eq_true_2 (vertex_used fs j)) by done.
    rewrite bool_decide_eq_false_2; [done|]. rewrite unused_spec. tauto.
  - rewrite (bool_decide_eq_false_2 (vertex_used fs j)) by done.
    rewrite bool_decide_eq_true_2; [done|]. rewrite unused_spec. split; [lia|done].
Qed.

Lemma used_rows_lookup {A} (rows : list A) (i : nat) :
  vertex_used fs i → used_rows fs rows !! vertex_rank fs i = rows !! i.
Proof.
  intros Hu. rewrite used_rows_imap.
  by apply (keep_rows_lookup (vertex_used fs) rows 0 i).
Qed.

Lemma used_rows_length {A} (rows : list A) :
  length (used_rows fs rows) = vertex_rank fs (length rows).
Proof. rewrite used_rows_imap. apply keep_rows_length. Qed.

Lemma rank_lt (i m : nat) : (i < m)%nat → vertex_used fs i → (vertex_rank fs i < vertex_rank fs m)%nat.
Proof.
  intros Hi Hu. unfold vertex_rank.
  replace m with (i + S (m - S i))%nat by lia.
  rewrite seq_app, filter_app, length_app. simpl.
  rewrite filter_cons_True by done. simpl. lia.
Qed.

Lemma rank_onto (j m : nat) :
  (j < vertex_rank fs m)%nat → ∃ i, (i < m)%nat ∧ vertex_used fs i ∧ vertex_rank fs i = j.
Proof.
  intros Hj. unfold vertex_rank in Hj.
  destruct (lookup_lt_is_Some_2 _ _ Hj) as [i Hi].
  destruct (filter_seq_lookup_rank _ _ _ _ _ Hi) as (Hu & Hlt & Hr).
  exists i. rewrite Nat.sub_0_r in Hr. split; [lia|]. by split.
Qed.

End DropUnused.
Section DropUnusedVertices.
Context {F : Type} {f32 : Float32Ops F} {ext : External F}.

Lemma vertex_used_of_face (fs : list (vec3 Z)) (face : vec3 Z) (i : Z) :
  face ∈ fs → i ∈ vlist face → 0 ≤ i → vertex_used fs (Z.to_nat i).
Proof.
  intros Hf Hi H0. unfold vertex_used. rewrite Z2Nat.id by done.
  apply list_elem_of_In, in_concat. exists (vlist face).
  split; [|by apply list_elem_of_In].
  apply in_map. by apply list_elem_of_In.
Qed.

Lemma index_faces_shiftmap (fs : list (vec3 Z)) (n : nat) :
  Forall (face_valid n) fs →
  index_faces
    (map (fun i => Z.of_nat i
                   - Z.of_nat (length (filter (fun j => (j < i)%nat)
                                         (unused_indices fs n))))
         (seq 0 n)) fs
  = Ok (map (vmap (fun i => Z.of_nat (vertex_rank fs (Z.to_nat i)))) fs).
Proof.
  intros Hv. unfold index_faces. apply result_mapM_Forall2.
  apply Forall2_fmap_r, Forall_Forall2_diag.
  eapply Forall_impl; [exact Hv|]. intros [[i0 i1] i2] (H0 & H1 & H2).
  assert (∀ i, 0 ≤ i < Z.of_nat n →
            np_index
              (map (fun i => Z.of_nat i
                     - Z.of_nat (length (filter (fun j => (j < i)%nat)
                                           (unused_indices fs n))))
                 (seq 0 n)) i
            = Ok (Z.of_nat (vertex_rank fs (Z.to_nat i)))) as Hidx.
  { intros i Hi. apply np_index_Ok_lookup; [lia|].
    apply shiftmap_lookup. lia. }
  rewrite !Hidx by done. reflexivity.
Qed.

Lemma np_index_used_rows {A} (fs : list (vec3 Z)) (rows : list A) (face : vec3 Z) (i : Z) :
  face ∈ fs → i ∈ vlist face → 0 ≤ i < Z.of_nat (length rows) →
  np_index (used_rows fs rows) (Z.of_nat (vertex_rank fs (Z.to_nat i)))
  = np_index rows i.
Proof.
  intros Hf Hi Hr.
  destruct (np_index_valid rows i Hr) as (x & -> & Hx).
  apply np_index_Ok_lookup; [lia|]. rewrite Nat2Z.id.
  rewrite used_rows_lookup; [done|]. eapply vertex_used_of_face; [done..|lia].
Qed.

Lemma face_corners_used_rows (fs : list (vec3 Z)) (rows : list (vec3 F)) :
  Forall (face_valid (length rows)) fs →
  map (face_corners (used_rows fs rows))
    (map (vmap (fun i => Z.of_nat (vertex_rank fs (Z.to_nat i)))) fs)
  = map (face_corners rows) fs.
Proof.
  intros Hv. rewrite map_map. apply map_ext_in.
  intros face Hin%list_elem_of_In.
  rewrite Forall_forall in Hv. specialize (Hv _ Hin).
  destruct face as [[i0 i1] i2]. destruct Hv as (H0 & H1 & H2).
  unfold vmap, face_corners.
  rewrite !(np_index_used_rows fs rows (i0, i1, i2)); try done;
    apply list_elem_of_In; simpl; tauto.
Qed.

Lemma rank_faces_valid (vs : list (vec3 F)) (fs : list (vec3 Z)) :
  Forall (face_valid (length vs)) fs →
  Forall (face_valid (length (used_rows fs vs)))
    (map (vmap (fun i => Z.of_nat (vertex_rank fs (Z.to_nat i)))) fs).
Proof.
  intros Hv. apply Forall_fmap. rewrite Forall_forall in Hv. apply Forall_forall.
  intros [[i0 i1] i2] Hin. destruct (Hv _ Hin) as (H0 & H1 & H2).
  rewrite used_rows_length. unfold vmap, face_valid. simpl.
  repeat split; try lia; apply inj_lt, rank_lt; try lia;
    (eapply vertex_used_of_face; [exact Hin| |lia]);
    apply list_elem_of_In; simpl; tauto.
Qed.

Lemma drop_unused_vertices_explicit (m : Mesh F) vs fs ns :
  uncompressed m vs fs ns →
  Forall (face_valid (length vs)) fs →
  ns = [] ∨ length ns = length vs →
  drop_unused_vertices m
  = Ok (tt, set__normals_zyx (Some (used_rows fs ns))
              (set__vertices_zyx (Some (used_rows fs vs))
                 (set__faces
                    (Some (map (vmap (fun i => Z.of_nat (vertex_rank fs (Z.to_nat i))))
                             fs)) m))).
Proof.
  intros Hu Hv Hn. unfold drop_unused_vertices.
  rewrite (method_bind_Ok _ _ _ _ _ (faces_uncompressed _ _ _ _ Hu)).
  rewrite (method_bind_Ok _ _ _ _ _ (vertices_zyx_uncompressed _ _ _ _ Hu)).
  rewrite (method_bind_Ok _ _ _ _ _ (faces_uncompressed _ _ _ _ Hu)).
  fold (unused_indices fs (length vs)).
  rewrite (method_bind_Ok _ _ _ _ _
             (method_lift_Ok _ _ _ (index_faces_shiftmap fs (length vs) Hv))).
  set (fs' := map (vmap (fun i => Z.of_nat (vertex_rank fs (Z.to_nat i)))) fs).
  destruct (set_faces_uncompressed m vs fs ns fs' Hu) as (Hs1 & Hu1 & _).
  rewrite (method_bind_Ok _ _ _ _ _ Hs1).
  rewrite (method_bind_Ok _ _ _ _ _ (vertices_zyx_uncompressed _ _ _ _ Hu1)).
  rewrite (method_bind_Ok _ _ _ _ _
             (method_lift_Ok _ _ _ (np_delete_unused fs (length vs) vs eq_refl))).
  destruct (set_vertices_zyx_uncompressed _ vs fs' ns (used_rows fs vs) Hu1)
    as (Hs2 & Hu2 & _).
  rewrite (method_bind_Ok _ _ _ _ _ Hs2).
  rewrite (method_bind_Ok _ _ _ _ _ (normals_zyx_uncompressed _ _ _ _ Hu2)).
  pose proof Hu as (_ & _ & _ & Hnm).
  assert (ns = [] →
          Ok (tt, set__vertices_zyx (Some (used_rows fs vs)) (set__faces (Some fs') m))
          = Ok (tt, set__normals_zyx (Some (used_rows fs ns))
                      (set__vertices_zyx (Some (used_rows fs vs))
                         (set__faces (Some fs') m)))) as Hnil.
  { intros ->. clear -Hnm. destruct m; simpl in *. by rewrite Hnm. }
  destruct Hn as [->|Hn].
  - change (0 <? length []) %nat with false. cbv iota. by apply Hnil.
  - destruct ns as [|nrm ns].
    { by apply Hnil. }
    change (0 <? length (nrm :: ns))%nat with true. cbv iota.
    rewrite (method_bind_Ok _ _ _ _ _ (normals_zyx_uncompressed _ _ _ _ Hu2)).
    rewrite (method_bind_Ok _ _ _ _ _
               (method_lift_Ok _ _ _ (np_delete_unused fs (length vs) _ Hn))).
    destruct (set_normals_zyx_uncompressed _ _ fs' (nrm :: ns)
                (used_rows fs (nrm :: ns)) Hu2) as (Hs3 & _ & _).
    exact Hs3.
Qed.

(** [drop_unused_vertices] keeps every triangle and leaves no vertex
    unreferenced.  On an uncompressed mesh whose faces index its vertices
    and whose normals are absent or one per vertex, it succeeds; the
    vertices (and normals) left are those referenced by a face, in their
    order; there are as many faces as before and each has the corners (and
    corner normals) it had; every vertex left is referenced by a face; the
    other attributes of the mesh, its box included, are unchanged. *)
Theorem drop_unused_vertices_keeps_triangles (m : Mesh F) vs fs ns :
  uncompressed m vs fs ns →
  Forall (face_valid (length vs)) fs →
  ns = [] ∨ length ns = length vs →
  ∃ m' fs',
    drop_unused_vertices m = Ok (tt, m')
    ∧ uncompressed m' (used_rows fs vs) fs' (used_rows fs ns)
    ∧ same_metadata m m'
    ∧ length fs' = length fs
    ∧ Forall (face_valid (length (used_rows fs vs))) fs'
    ∧ map (face_corners (used_rows fs vs)) fs' = map (face_corners vs) fs
    ∧ (length ns = length vs →
       map (face_corners (used_rows fs ns)) fs' = map (face_corners ns) fs)
    ∧ (∀ j, (j < length (used_rows fs vs))%nat → vertex_used fs' j).
Proof.
  intros Hu Hv Hn.
  rewrite (drop_unused_vertices_explicit m vs fs ns Hu Hv Hn).
  destruct Hu as (Hd & _).
  eexists _, _. split; [reflexivity|].
  split; [by repeat split|]. split; [by repeat split|].
  split; [by rewrite length_map|].
  split; [|split; [|split]].
  - by apply rank_faces_valid.
  - by apply face_corners_used_rows.
  - intros Hlen. apply face_corners_used_rows. by rewrite Hlen.
  - intros j Hj. rewrite used_rows_length in Hj.
    destruct (rank_onto fs j (length vs) Hj) as (i & Hi & Hused & <-).
    unfold vertex_used in *.
    apply list_elem_of_In, in_concat in Hused as (l & Hl & Hil).
    apply in_map_iff in Hl as (face & <- & Hface).
    apply list_elem_of_In, in_concat.
    exists (vlist (vmap (fun i => Z.of_nat (vertex_rank fs (Z.to_nat i))) face)).
    split; [apply in_map, in_map, Hface|].
    destruct face as [[i0 i1] i2]. simpl in Hil. simpl.
    destruct Hil as [->|[->|[->|[]]]]; rewrite Nat2Z.id; tauto.
Qed.

End DropUnusedVertices.
Section DropDuplicated.
Context {A K : Type} `{EqDecision K} (key : A → K).

Lemma drop_duplicated_sublist (seen : list K) (rows : list A) :
  sublist (drop_duplicated key seen rows) rows.
Proof.
  revert seen. induction rows as [|r rows IH]; intros seen; simpl; [done|].
  case_bool_decide; [apply sublist_cons|apply sublist_skip]; apply IH.
Qed.

Lemma drop_duplicated_fresh (seen : list K) (rows : list A) (r : A) :
  r ∈ drop_duplicated key seen rows → key r ∉ seen.
Proof.
  revert seen. induction rows as [|x rows IH]; intros seen; simpl.
  { by intros ?%elem_of_nil. }
  case_bool_decide as Hx; [apply IH|].
  intros [->|Hin]%elem_of_cons; [done|].
  apply IH in Hin. intros Hs. apply Hin. by right.
Qed.

Lemma drop_duplicated_NoDup (seen : list K) (rows : list A) :
  NoDup (map key (drop_duplicated key seen rows)).
Proof.
  revert seen. induction rows as [|x rows IH]; intros seen; simpl.
  { constructor. }
  case_bool_decide as Hx; [apply IH|].
  simpl. constructor; [|apply IH].
  intros (r & Hk & Hr)%list_elem_of_fmap.
  apply drop_duplicated_fresh in Hr. apply Hr. rewrite <- Hk. by left.
Qed.

Lemma drop_duplicated_cover (seen : list K) (rows : list A) (r : A) :
  r ∈ rows →
  key r ∈ seen ∨ ∃ g, g ∈ drop_duplicated key seen rows ∧ key g = key r.
Proof.
  revert seen. induction rows as [|x rows IH]; intros seen; simpl.
  { by intros ?%elem_of_nil. }
  intros [->|Hin]%elem_of_cons.
  - case_bool_decide as Hx; [by left|]. right. exists x. split; [by left|done].
  - case_bool_decide as Hx; [by apply IH|].
    destruct (IH (key x :: seen) Hin) as [[E|Hs]%elem_of_cons|(g & Hg & E)].
    + right. exists x. split; [by left|done].
    + by left.
    + right. exists g. split; [by right|done].
Qed.

Lemma drop_duplicated_first (seen : list K) (l1 l2 : list A) (r : A) :
  key r ∉ seen → key r ∉ map key l1 →
  ∃ seen', drop_duplicated key seen (l1 ++ r :: l2)
           = drop_duplicated key seen l1 ++ r :: drop_duplicated key seen' l2.
Proof.
  revert seen. induction l1 as [|x l1 IH]; intros seen Hs Hl; simpl.
  { rewrite bool_decide_eq_false_2 by done. by eexists. }
  simpl in Hl. apply not_elem_of_cons in Hl as [Hne Hl].
  case_bool_decide as Hx.
  - by apply IH.
  - destruct (IH (key x :: seen)) as [seen' ->]; [|done|by eexists].
    apply not_elem_of_cons. by split.
Qed.

End DropDuplicated.

Lemma sort_row_Permutation (face : vec3 Z) : vlist (sort_row face) ≡ₚ vlist face.
Proof.
  unfold sort_row.
  pose proof (sorted_lt_Permutation Z.ltb (vlist face)) as Hp.
  pose proof (Permutation_length Hp) as Hl.
  destruct (sorted_lt Z.ltb (vlist face)) as [|a [|b [|c [|??]]]];
    destruct face as [[i0 i1] i2]; try done.
Qed.

(** Two faces have the same sorted row exactly when they have the same
    three indices in some order. *)
Lemma sort_row_eq_iff (f g : vec3 Z) :
  sort_row f = sort_row g ↔ vlist f ≡ₚ vlist g.
Proof.
  split.
  - intros E. rewrite <- (sort_row_Permutation f), <- (sort_row_Permutation g).
    by rewrite E.
  - intros Hp. unfold sort_row.
    rewrite (sorted_lt_Permutation_eq Z.ltb id Z.lt (fun _ => True)
               Z.lt_irrefl Z.lt_trans ltac:(intros; lia)
               ltac:(intros; apply Z.ltb_lt) ltac:(done)
               (vlist f) (vlist g)); [|by apply Forall_true|done].
    pose proof (sorted_lt_Permutation Z.ltb (vlist g)) as Hg.
    pose proof (Permutation_length Hg) as Hl.
    destruct (sorted_lt Z.ltb (vlist g)) as [|a [|b [|c [|??]]]];
      destruct g as [[i0 i1] i2]; done.
Qed.

Section DropDuplicateFaces.
Context {F : Type} {f32 : Float32Ops F} {ext : External F}.

(** [_drop_duplicate_faces] keeps the first face of every group of faces
    that have the same three vertex indices in some order, whatever their
    winding.  On an uncompressed mesh it succeeds and changes the faces
    only: the remaining faces are a sub-sequence of the old ones; every old
    face has its three indices in a remaining face; no two remaining faces
    have the same three indices; and a face that no earlier face shares its
    indices with stays, between what remains of the faces before it and
    what remains of the faces after it. *)
Theorem drop_duplicate_faces_keeps_first (m : Mesh F) vs fs ns :
  uncompressed m vs fs ns →
  ∃ m' fs',
    _drop_duplicate_faces m = Ok (tt, m')
    ∧ uncompressed m' vs fs' ns ∧ same_metadata m m'
    ∧ sublist fs' fs
    ∧ (∀ f, f ∈ fs → ∃ g, g ∈ fs' ∧ vlist g ≡ₚ vlist f)
    ∧ (∀ i j f g, fs' !! i = Some f → fs' !! j = Some g →
         vlist f ≡ₚ vlist g → i = j)
    ∧ (∀ l1 f l2, fs = l1 ++ f :: l2 →
         (∀ g, g ∈ l1 → ¬ vlist g ≡ₚ vlist f) →
         ∃ k1 k2, fs' = k1 ++ f :: k2 ∧ sublist k1 l1 ∧ sublist k2 l2).
Proof.
  intros Hu. unfold _drop_duplicate_faces.
  rewrite (method_bind_Ok _ _ _ _ _ (faces_uncompressed _ _ _ _ Hu)).
  destruct (set_faces_uncompressed m vs fs ns (drop_duplicated sort_row [] fs) Hu)
    as (Hs & Hu' & Hm).
  eexists _, _. split; [exact Hs|]. split; [exact Hu'|]. split; [exact Hm|].
  split; [apply drop_duplicated_sublist|]. split; [|split].
  - intros f Hf.
    destruct (drop_duplicated_cover sort_row [] fs f Hf) as [Hn|(g & Hg & E)].
    { by apply elem_of_nil in Hn. }
    exists g. split; [done|]. by apply sort_row_eq_iff.
  - intros i j f g Hi Hj Hp.
    apply (NoDup_lookup (map sort_row (drop_duplicated sort_row [] fs)) i j
             (sort_row f)).
    + apply drop_duplicated_NoDup.
    + change (map sort_row ?l) with (sort_row <$> l).
      by rewrite list_lookup_fmap, Hi.
    + change (map sort_row ?l) with (sort_row <$> l).
      rewrite list_lookup_fmap, Hj. simpl. f_equal. symmetry.
      by apply sort_row_eq_iff.
  - intros l1 f l2 -> Hfirst.
    destruct (drop_duplicated_first sort_row [] l1 l2 f) as [seen' ->].
    { apply not_elem_of_nil. }
    { intros (g & E & Hg)%list_elem_of_fmap. apply (Hfirst g Hg).
      by apply sort_row_eq_iff. }
    eexists _, _. split; [reflexivity|].
    split; apply drop_duplicated_sublist.
Qed.

End DropDuplicateFaces.
Section LoadingEdges.
Context {F : Type} {f32 : Float32Ops F} {ext : External F}.

(** [Mesh.from_file] is [Mesh.from_buffer] on the contents of the file,
    with the format named by the extension, for the three extensions it
    knows.  Any other extension, [.custom_drc] included, raises the
    unknown-file-type error when the file is not empty, and gives the empty
    mesh when it is; a path that cannot be read raises OSError. *)
Theorem from_file_is_from_buffer (files : string → option bytes) (path : string) :
  (files path = None → from_file files path = Raise OSError)
  ∧ (∀ contents, files path = Some contents →
       (∀ fmt, fmt ∈ ["obj"; "drc"; "ngmesh"] →
          splitext_ext path = "." +:+ fmt →
          from_file files path = from_buffer contents fmt)
       ∧ (splitext_ext path ∉ [".obj"; ".drc"; ".ngmesh"] →
          from_file files path
          = if (length contents =? 0)%nat then Ok (Some empty_mesh)
            else Raise (RuntimeError UnknownFileType))).
Proof.
  split.
  { intros E. unfold from_file. by rewrite E. }
  intros contents E. unfold from_file. rewrite E. split.
  - intros fmt Hfmt Hext. rewrite Hext.
    unfold from_buffer.
    rewrite (bool_decide_eq_true_2 (fmt ∈ MESH_FORMATS)).
    2:{ unfold MESH_FORMATS.
        repeat (apply elem_of_cons in Hfmt as [->|Hfmt]; [repeat constructor|]).
        by apply elem_of_nil in Hfmt. }
    change (py_assert true) with (Ok tt).
    destruct (length contents =? 0)%nat eqn:El.
    + reflexivity.
    + repeat (apply elem_of_cons in Hfmt as [->|Hfmt]; [by rewrite ?El|]).
      by apply elem_of_nil in Hfmt.
  - intros Hext. destruct (length contents =? 0)%nat; [reflexivity|].
    destruct (String.eqb_spec (splitext_ext path) ".drc") as [E1|_].
    { destruct Hext. rewrite E1. repeat constructor. }
    destruct (String.eqb_spec (splitext_ext path) ".obj") as [E1|_].
    { destruct Hext. rewrite E1. repeat constructor. }
    destruct (String.eqb_spec (splitext_ext path) ".ngmesh") as [E1|_].
    { destruct Hext. rewrite E1. repeat constructor. }
    reflexivity.
Qed.

Lemma from_buffer_custom_drc (contents : bytes) :
  contents ≠ [] → from_buffer contents "custom_drc" = Ok None.
Proof.
  intros Hne. unfold from_buffer.
  destruct contents; [done|]. reflexivity.
Qed.

Lemma member_size_pos (member : TarMember) :
  (0 < member_size member)%nat → member_contents member ≠ [].
Proof. unfold member_size. intros Hsz E. rewrite E in Hsz. simpl in Hsz. lia. Qed.

Lemma dict_set_elem {V} (key : string) (value : V) d :
  (key, value) ∈ dict_set key value d.
Proof.
  induction d as [|[k v] d IH]; simpl; [by left|].
  destruct (String.eqb_spec k key) as [->|]; [by left|by right].
Qed.

Lemma dict_set_other {V} (key : string) (value : V) d k' v' :
  (k', v') ∈ d → k' ≠ key → (k', v') ∈ dict_set key value d.
Proof.
  intros Hin Hne. induction d as [|[k v] d IH]; simpl.
  { by apply elem_of_nil in Hin. }
  apply elem_of_cons in Hin as [[= <- <-]|Hin].
  - destruct (String.eqb_spec k' key); [done|by left].
  - destruct (String.eqb_spec k key); right; [done|by apply IH].
Qed.

Lemma load_member_custom_drc_stays meshes (member : TarMember) (name : string) :
  splitext_ext name = ".custom_drc" →
  (name, None) ∈ meshes → (name, None) ∈ load_member meshes member.
Proof.
  intros Hext Hin. unfold load_member.
  destruct (bool_decide _ && _) eqn:Hc; [|done].
  destruct (from_buffer _ _) as [mesh|e] eqn:Hb; [|done].
  destruct (decide (member_name member = name)) as [Hn|Hn].
  - rewrite Hn, Hext in Hb. rewrite from_buffer_custom_drc in Hb.
    + injection Hb as <-. rewrite Hn. apply dict_set_elem.
    + apply andb_true_iff in Hc as [_ Hsz%Nat.ltb_lt].
      by apply member_size_pos.
  - by apply dict_set_other.
Qed.

Lemma load_member_custom_drc meshes (member : TarMember) :
  splitext_ext (member_name member) = ".custom_drc" →
  (0 < member_size member)%nat →
  (member_name member, None) ∈ load_member meshes member.
Proof.
  intros Hext Hsz. unfold load_member. rewrite Hext.
  assert ((0 <? member_size member)%nat = true) as -> by by apply Nat.ltb_lt.
  rewrite from_buffer_custom_drc.
  - apply dict_set_elem.
  - by apply member_size_pos.
Qed.

Lemma fold_load_member_custom_drc (members : list TarMember) meshes (name : string) :
  splitext_ext name = ".custom_drc" →
  (name, None) ∈ meshes
  ∨ (∃ member, member ∈ members ∧ member_name member = name
               ∧ (0 < member_size member)%nat) →
  (name, None) ∈ fold_left load_member members meshes.
Proof.
  intros Hext. revert meshes.
  induction members as [|member members IH]; intros meshes; simpl.
  { intros [?|(? & ?%elem_of_nil & _)]; done. }
  intros [Hin|(mem & [->|Hmem]%elem_of_cons & Hn & Hsz)]; apply IH.
  - left. by apply load_member_custom_drc_stays.
  - left. rewrite <- Hn. apply load_member_custom_drc; [by rewrite Hn|done].
  - right. eauto.
Qed.

Lemma values_of_None (meshes : list (string * option (Mesh F))) (name : string) :
  (name, None) ∈ meshes →
  result_mapM (fun kv => match snd kv with
                         | Some mesh => Ok mesh
                         | None => Raise AttributeError
                         end) meshes
  = Raise AttributeError.
Proof.
  induction meshes as [|[k [mesh|]] meshes IH]; simpl.
  - by intros ?%elem_of_nil.
  - intros [[=]|Hin]%elem_of_cons. by rewrite IH.
  - done.
Qed.

(** A non-empty [.custom_drc] member makes an archive impossible to
    concatenate: [from_buffer] returns [None] for that format, the
    dictionary maps the member's name to [None], and
    [from_tarfile(..., concatenate=True)] raises AttributeError whatever the
    other members are. *)
Theorem from_tarfile_custom_drc_member (tf_members : list TarMember)
    (member : TarMember) (keep_normals : bool) :
  member ∈ tf_members →
  splitext_ext (member_name member) = ".custom_drc" →
  (0 < member_size member)%nat →
  from_buffer (member_contents member) "custom_drc" = Ok None
  ∧ from_tarfile tf_members keep_normals true = Raise AttributeError
  ∧ ∃ meshes, from_tarfile tf_members keep_normals false = Ok (inr meshes)
              ∧ (member_name member, None) ∈ meshes.
Proof.
  intros Hin Hext Hsz.
  split.
  { by apply from_buffer_custom_drc, member_size_pos. }
  assert ((member_name member, None)
          ∈ fold_left load_member
              (sorted_lt (fun a b => String.ltb (member_name a) (member_name b))
                 tf_members) []) as Hd.
  { apply fold_load_member_custom_drc; [done|]. right.
    exists member. split; [|done].
    by rewrite sorted_lt_Permutation. }
  unfold from_tarfile. split.
  - by rewrite (values_of_None _ _ Hd).
  - eexists. split; [reflexivity|exact Hd].
Qed.

Lemma load_member_skipped meshes (member : TarMember) :
  member_skipped member → load_member meshes member = meshes.
Proof.
  unfold member_skipped, member_format, load_member.
  intros [Hf|[Hz|[e He]]].
  - by rewrite bool_decide_eq_false_2.
  - rewrite Hz. by rewrite andb_false_r.
  - rewrite He. by destruct (_ && _).
Qed.

(** An archive in which no member is loaded (each one has another
    extension, or is empty, or fails to decode) gives the empty dictionary,
    and cannot be concatenated: [from_tarfile(..., concatenate=True)] raises
    ValueError. *)
Theorem from_tarfile_nothing_loaded (tf_members : list TarMember)
    (keep_normals : bool) :
  Forall member_skipped tf_members →
  from_tarfile tf_members keep_normals false = Ok (inr [])
  ∧ from_tarfile tf_members keep_normals true = Raise ValueError.
Proof.
  intros Hall.
  assert (fold_left load_member
            (sorted_lt (fun a b => String.ltb (member_name a) (member_name b))
               tf_members) [] = []) as Hd.
  { assert (Forall member_skipped
              (sorted_lt (fun a b => String.ltb (member_name a) (member_name b))
                 tf_members)) as Hs.
    { by rewrite sorted_lt_Permutation. }
    induction Hs as [|member members Hm _ IH]; simpl; [done|].
    by rewrite load_member_skipped. }
  unfold from_tarfile. rewrite Hd. split; [done|].
  by destruct keep_normals.
Qed.

End LoadingEdges.
Section VertexNormals.
Context {F : Type} {f32 : Float32Ops F}.

Lemma row_add_at_frame (a : list (vec3 F)) i v :
  0 ≤ i < Z.of_nat (length a) →
  ∃ a', row_add_at a i v = Ok a' ∧ length a' = length a
        ∧ ∀ j, j ≠ Z.to_nat i → a' !! j = a !! j.
Proof.
  intros Hi. unfold row_add_at.
  destruct (np_index_valid a i Hi) as (x & -> & _). simpl.
  destruct (Z.ltb_spec i 0); [lia|].
  eexists. split; [done|]. split; [by rewrite length_insert|].
  intros j Hj. by apply list_lookup_insert_ne.
Qed.

Lemma np_add_at_frame (a : list (vec3 F)) indices values :
  Forall (fun i => 0 ≤ i < Z.of_nat (length a)) indices →
  length indices = length values →
  ∃ a', np_add_at a indices values = Ok a' ∧ length a' = length a
        ∧ ∀ j, Z.of_nat j ∉ indices → a' !! j = a !! j.
Proof.
  intros Hi. revert a values Hi.
  induction indices as [|i indices IH]; intros a [|v values] Hi Hlen; simpl in *;
    try done; [by eexists|].
  inv Hi.
  destruct (row_add_at_frame a i v) as (a1 & -> & Hl1 & Hf1); [done|]. simpl.
  destruct (IH a1 values) as (a2 & -> & Hl2 & Hf2); [by rewrite Hl1|lia|].
  eexists. split; [done|]. split; [congruence|].
  intros j [Hne Hj]%not_elem_of_cons.
  rewrite Hf2 by done. apply Hf1. lia.
Qed.

Lemma vertex_normals_numba_loop_frame (vn : list (vec3 F)) fs fns :
  Forall (face_valid (length vn)) fs → length fns = length fs →
  ∃ vn', vertex_normals_numba_loop vn fs fns = Ok vn' ∧ length vn' = length vn
         ∧ ∀ j, ¬ vertex_used fs j → vn' !! j = vn !! j.
Proof.
  intros Hf. revert vn fns Hf.
  induction fs as [|[[i0 i1] i2] fs IH]; intros vn [|fn fns] Hf Hlen; simpl in *;
    try done; [by eexists|].
  apply Forall_cons in Hf as [(H0 & H1 & H2) Hf].
  destruct (row_add_at_frame vn i0 fn) as (a1 & -> & Hl1 & Hf1); [done|]. simpl.
  destruct (row_add_at_frame a1 i1 fn) as (a2 & -> & Hl2 & Hf2); [by rewrite Hl1|].
  simpl.
  destruct (row_add_at_frame a2 i2 fn) as (a3 & -> & Hl3 & Hf3);
    [by rewrite Hl2, Hl1|]. simpl.
  destruct (IH a3 fns) as (a4 & -> & Hl4 & Hf4); [by rewrite Hl3, Hl2, Hl1|lia|].
  eexists. split; [done|]. split; [congruence|].
  intros j Hj. unfold vertex_used in Hj. simpl in Hj.
  rewrite !not_elem_of_cons in Hj. destruct Hj as (Hj0 & Hj1 & Hj2 & Hj).
  rewrite Hf4 by done. rewrite Hf3, Hf2, Hf1 by lia. done.
Qed.

Lemma vertex_used_index (fs : list (vec3 Z)) (k j : nat) :
  Z.of_nat j ∈ map (fun f => vnth f k) fs → vertex_used fs j.
Proof.
  intros (f & E & Hf)%list_elem_of_fmap. unfold vertex_used.
  apply list_elem_of_In, in_concat. exists (vlist f).
  split; [apply in_map; by apply list_elem_of_In|].
  rewrite E. destruct f as [[i0 i1] i2]. destruct k as [|[|k]]; simpl; tauto.
Qed.

(** What both implementations of the vertex normals do with a vertex that
    no face references: its row stays the zero row, and is then normalised. *)
Lemma compute_vertex_normals_frame (numba : bool) (vs : list (vec3 F)) fs fns weight :
  Forall (face_valid (length vs)) fs → length fns = length fs →
  ∃ n, compute_vertex_normals numba vs fs weight (Some fns) = Ok n
       ∧ length n = length vs
       ∧ ∀ j, (j < length vs)%nat → ¬ vertex_used fs j →
           n !! j = Some (normalize_row (f32_zero, f32_zero, f32_zero)).
Proof.
  intros Hf Hlen. unfold compute_vertex_normals. simpl.
  set (z := replicate (length vs) (f32_zero, f32_zero, f32_zero)).
  assert (Hz : length z = length vs) by apply length_replicate.
  assert (Hzj : ∀ j, (j < length vs)%nat → z !! j = Some (f32_zero, f32_zero, f32_zero)).
  { intros j Hj. by apply lookup_replicate_2. }
  destruct numba.
  - unfold compute_vertex_normals_numba. simpl. fold z.
    destruct (vertex_normals_numba_loop_frame z fs fns) as (vn & -> & Hl & Hfr);
      [by rewrite Hz|done|]. simpl.
    eexists. split; [done|].
    unfold normalize_rows. split; [by rewrite length_map, Hl|].
    intros j Hj Hu.
    change (map normalize_row vn) with (normalize_row <$> vn).
    by rewrite list_lookup_fmap, Hfr, Hzj.
  - unfold compute_vertex_normals_numpy. simpl. fold z.
    destruct (np_add_at_frame z (map (fun f => vnth f 0) fs) fns)
      as (a1 & -> & Hl1 & Hf1);
      [rewrite Hz; by apply face_valid_index|by rewrite length_map|]. simpl.
    destruct (np_add_at_frame a1 (map (fun f => vnth f 1) fs) fns)
      as (a2 & -> & Hl2 & Hf2);
      [rewrite Hl1, Hz; by apply face_valid_index|by rewrite length_map|]. simpl.
    destruct (np_add_at_frame a2 (map (fun f => vnth f 2) fs) fns)
      as (a3 & -> & Hl3 & Hf3);
      [rewrite Hl2, Hl1, Hz; by apply face_valid_index|by rewrite length_map|]. simpl.
    eexists. split; [done|].
    unfold normalize_rows. split; [rewrite length_map; congruence|].
    intros j Hj Hu.
    change (map normalize_row a3) with (normalize_row <$> a3).
    rewrite list_lookup_fmap, Hf3, Hf2, Hf1, Hzj; [done..| | |];
      intros Hin; apply Hu; by eapply vertex_used_index.
Qed.

End VertexNormals.

(** A vertex that no face references gets the normal (0,0,0).  In IEEE
    float32 arithmetic, with faces that index the vertices and one face
    normal per face, [compute_vertex_normals] (with or without numba, and
    whatever the face normals are, NaN included) returns one normal per
    vertex, and the normal of every vertex outside all faces is exactly
    (+0,+0,+0): the division by its zero magnitude is skipped. *)
Theorem unreferenced_vertex_normal_is_zero (numba : bool)
    (vs : list (vec3 spec_float)) (fs : list (vec3 Z))
    (fns : list (vec3 spec_float)) (weight : bool) :
  Forall (face_valid (length vs)) fs → length fns = length fs →
  ∃ n, compute_vertex_normals (f32 := IEEE.float32) numba vs fs weight (Some fns)
       = Ok n
       ∧ length n = length vs
       ∧ ∀ j, (j < length vs)%nat → ¬ vertex_used fs j →
           n !! j = Some (S754_zero false, S754_zero false, S754_zero false).
Proof.
  intros Hf Hlen.
  destruct (compute_vertex_normals_frame (f32 := IEEE.float32) numba vs fs fns weight
              Hf Hlen) as (n & Hn & Hl & Hz).
  exists n. split; [exact Hn|]. split; [exact Hl|].
  intros j Hj Hu. rewrite (Hz j Hj Hu). f_equal.
Qed.
Section WithoutFaces.
Context {F : Type} {f32 : Float32Ops F} {f64 : Float64Ops F} {ext : External F}.

Lemma compute_face_normals_no_faces (vs : list (vec3 F)) (normalize : bool) :
  compute_face_normals vs [] normalize = Raise ValueError.
Proof.
  unfold compute_face_normals, compute_face_normals_numpy_chunked.
  pose proof default_chunksize_pos as Hpos.
  destruct (Nat.eqb_spec default_chunksize 0) as [E|_]; [lia|].
  change (length (@nil (vec3 Z))) with 0%nat.
  rewrite (proj2 (py_range_step_nil 0 default_chunksize Hpos)) by done.
  reflexivity.
Qed.

Lemma recompute_normals_no_faces (m : Mesh F) vs ns (remove_degenerate_faces : bool) :
  uncompressed m vs [] ns →
  recompute_normals remove_degenerate_faces m = Raise ValueError.
Proof.
  intros Hu. unfold recompute_normals.
  rewrite (method_bind_Ok _ _ _ _ _ (vertices_zyx_uncompressed _ _ _ _ Hu)).
  rewrite (method_bind_Ok _ _ _ _ _ (faces_uncompressed _ _ _ _ Hu)).
  apply method_bind_Raise. unfold method_lift.
  by rewrite compute_face_normals_no_faces.
Qed.

(** A mesh without faces cannot have its normals recomputed.  On an
    uncompressed mesh whose face array is empty (the empty mesh is one),
    [recompute_normals] raises ValueError, because there is no chunk of
    faces to concatenate; so does [laplacian_smooth(N)] for every N other
    than 0, and for N = 0 when the mesh has no normals.  With N = 0 and
    normals present nothing is done. *)
Theorem mesh_without_faces_raises (m : Mesh F) vs ns :
  uncompressed m vs [] ns →
  (∀ remove_degenerate_faces,
     recompute_normals remove_degenerate_faces m = Raise ValueError)
  ∧ (∀ iterations, iterations ≠ 0 ∨ ns = [] →
       laplacian_smooth iterations m = Raise ValueError)
  ∧ (ns ≠ [] → laplacian_smooth 0 m = Ok (tt, m)).
Proof.
  intros Hu. split; [|split].
  - intros b. by eapply recompute_normals_no_faces.
  - intros iterations Hcase. unfold laplacian_smooth.
    destruct (Z.eqb_spec iterations 0) as [->|Hit].
    + destruct Hcase as [Hc| ->]; [done|].
      rewrite (method_bind_Ok _ _ _ _ _ (normals_zyx_uncompressed _ _ _ _ Hu)).
      change (length (@nil (vec3 F)) =? 0)%nat with true. cbv iota.
      by eapply recompute_normals_no_faces.
    + destruct (set_normals_zyx_uncompressed m vs [] ns [] Hu) as (Hs & Hu0 & Hm0).
      rewrite (method_bind_Ok _ _ _ _ _ Hs).
      rewrite (method_bind_Ok _ _ _ _ _ (faces_uncompressed _ _ _ _ Hu0)).
      rewrite (method_bind_Ok _ _ _ _ _ (vertices_zyx_uncompressed _ _ _ _ Hu0)).
      assert (Forall (edge_valid (length vs)) (unique_edges [])) as He.
      { by apply unique_edges_valid. }
      destruct (np_bincount_valid
                  (concat (map (fun e => [fst e; snd e]) (unique_edges []))) (length vs))
        as (counts & Hb & Hlc).
      { apply Forall_concat, Forall_fmap. eapply Forall_impl; [exact He|].
        intros e [??]. constructor; [done|]. constructor; [done|]. constructor. }
      rewrite (method_bind_Ok _ _ _ _ _ (method_lift_Ok _ _ _ Hb)).
      destruct (smooth_loop_valid (Z.to_nat iterations) (unique_edges []) counts
                  _ vs [] [] Hu0 He Hlc) as (m1 & vs1 & Hloop & Hu1 & Hm1 & Hl1).
      rewrite (method_bind_Ok _ _ _ _ _ Hloop).
      apply method_bind_Raise. by eapply recompute_normals_no_faces.
  - intros Hns. unfold laplacian_smooth. simpl.
    rewrite (method_bind_Ok _ _ _ _ _ (normals_zyx_uncompressed _ _ _ _ Hu)).
    destruct ns; [done|reflexivity].
Qed.

End WithoutFaces.
Section FirstIndex.
Context {F : Type} {f32 : Float32Ops F}.

Lemma first_index_spec (vs : list (vec3 F)) (i : nat) v :
  vs !! i = Some v →
  vs !! first_index vs i = Some v
  ∧ (first_index vs i ≤ i)%nat
  ∧ ∀ k, (k < first_index vs i)%nat → vs !! k ≠ Some v.
Proof.
  intros Hi. unfold first_index. rewrite Hi.
  destruct (list_find (fun u => u = v) vs) as [[j u]|] eqn:E.
  - apply list_find_Some in E as (Hj & -> & Hmin).
    split; [done|]. split.
    + destruct (decide (j ≤ i)%nat); [done|].
      exfalso. apply (Hmin i v Hi); [lia|done].
    + intros k Hk Hv. by apply (Hmin k v Hv).
  - apply list_find_None in E. rewrite Forall_forall in E.
    exfalso. apply (E v); [|done]. by eapply list_elem_of_lookup_2.
Qed.

Lemma first_index_unique (vs : list (vec3 F)) (i j : nat) v :
  vs !! i = Some v → vs !! j = Some v →
  (∀ k, (k < j)%nat → vs !! k ≠ Some v) →
  first_index vs i = j.
Proof.
  intros Hi Hj Hmin.
  destruct (first_index_spec vs i v Hi) as (H1 & _ & H3).
  destruct (lt_eq_lt_dec (first_index vs i) j) as [[Hlt|Heq]|Hgt]; [|done|].
  - exfalso. by apply (Hmin _ Hlt).
  - exfalso. by apply (H3 _ Hgt).
Qed.

Lemma first_index_same (vs : list (vec3 F)) (i j : nat) v :
  vs !! i = Some v → vs !! j = Some v → first_index vs i = first_index vs j.
Proof.
  intros Hi Hj. destruct (first_index_spec vs j v Hj) as (H1 & _ & H3).
  by eapply first_index_unique.
Qed.

Lemma first_index_idemp (vs : list (vec3 F)) (i : nat) :
  first_index vs (first_index vs i) = first_index vs i.
Proof.
  destruct (vs !! i) as [v|] eqn:Hi.
  - destruct (first_index_spec vs i v Hi) as (H1 & _ & _).
    by eapply first_index_same.
  - unfold first_index. by rewrite !Hi.
Qed.

Lemma first_index_lt (vs : list (vec3 F)) (i : nat) :
  (i < length vs)%nat → (first_index vs i < length vs)%nat.
Proof.
  intros Hi. destruct (lookup_lt_is_Some_2 vs i Hi) as [v Hv].
  destruct (first_index_spec vs i v Hv) as (_ & Hle & _). lia.
Qed.

(** What the search in the vertices seen so far finds. *)
Lemma list_find_seen (seen rest : list (vec3 F)) v :
  match list_find (fun u => u = v) seen with
  | Some (j, _) =>
      j = first_index (seen ++ v :: rest) (length seen) ∧ (j < length seen)%nat
  | None => first_index (seen ++ v :: rest) (length seen) = length seen
  end.
Proof.
  assert ((seen ++ v :: rest) !! length seen = Some v) as Hk.
  { by rewrite list_lookup_middle. }
  destruct (list_find (fun u => u = v) seen) as [[j u]|] eqn:E.
  - apply list_find_Some in E as (Hj & -> & Hmin).
    split; [|by eapply lookup_lt_Some].
    symmetry. apply (first_index_unique _ _ _ v Hk).
    + by apply lookup_app_l_Some.
    + intros k Hlt Hv. apply (Hmin k v); [|done..].
      rewrite lookup_app_l in Hv; [done|]. apply lookup_lt_Some in Hj. lia.
  - apply list_find_None in E. rewrite Forall_forall in E.
    apply (first_index_unique _ _ _ v Hk Hk).
    intros k Hlt Hv. rewrite lookup_app_l in Hv by done.
    apply (E v); [|done]. by eapply list_elem_of_lookup_2.
Qed.

(** The mapping pairs: one pair [(i, first_index i)] for every vertex [i]
    that repeats an earlier one. *)
Lemma first_occurrences_from_spec (seen rest : list (vec3 F)) (d o : Z) :
  (d, o) ∈ first_occurrences_from seen rest ↔
  ∃ k, d = Z.of_nat k ∧ (length seen ≤ k < length (seen ++ rest))%nat
       ∧ o = Z.of_nat (first_index (seen ++ rest) k)
       ∧ (first_index (seen ++ rest) k < k)%nat.
Proof.
  revert seen. induction rest as [|v rest IH]; intros seen; simpl.
  { rewrite app_nil_r. split; [by intros ?%elem_of_nil|].
    intros (k & _ & Hk & _). lia. }
  pose proof (list_find_seen seen rest v) as Hfind.
  specialize (IH (seen ++ [v])).
  rewrite <- app_assoc in IH. simpl in IH. rewrite length_app in IH. simpl in IH.
  destruct (list_find (fun u => u = v) seen) as [[j u]|].
  - destruct Hfind as [-> Hlt]. rewrite elem_of_cons, IH. split.
    + intros [[= -> ->]|(k & -> & Hk & -> & Hf)].
      * exists (length seen). rewrite length_app. simpl.
        split; [done|]. split; [lia|]. split; [done|lia].
      * exists k. split; [done|]. split; [lia|done].
    + intros (k & -> & Hk & -> & Hf).
      destruct (decide (k = length seen)) as [->|Hne]; [by left|].
      right. exists k. split; [done|]. split; [lia|done].
  - rewrite IH. split.
    + intros (k & -> & Hk & -> & Hf). exists k. split; [done|]. split; [lia|done].
    + intros (k & -> & Hk & -> & Hf).
      destruct (decide (k = length seen)) as [->|Hne]; [lia|].
      exists k. split; [done|]. split; [lia|done].
Qed.

Lemma first_occurrences_spec (vs : list (vec3 F)) (d o : Z) :
  (d, o) ∈ first_occurrences vs ↔
  ∃ k, d = Z.of_nat k ∧ (k < length vs)%nat
       ∧ o = Z.of_nat (first_index vs k) ∧ (first_index vs k < k)%nat.
Proof.
  unfold first_occurrences. rewrite first_occurrences_from_spec. simpl.
  split; intros (k & ? & ? & ? & ?); exists k; repeat split; (done || lia).
Qed.

End FirstIndex.
Section Remap.
Context {F : Type} {f32 : Float32Ops F}.

Lemma first_occurrences_nil_NoDup (vs : list (vec3 F)) :
  first_occurrences vs = [] → NoDup vs.
Proof.
  intros E. apply NoDup_alt. intros i j v Hi Hj.
  assert (∀ k, vs !! k = Some v → first_index vs k = k) as Hfix.
  { intros k Hk. destruct (first_index_spec vs k v Hk) as (_ & Hle & _).
    destruct (decide (first_index vs k = k)) as [|Hne]; [done|].
    assert ((Z.of_nat k, Z.of_nat (first_index vs k)) ∈ first_occurrences vs) as Hin.
    { apply first_occurrences_spec. exists k. split; [done|].
      split; [by eapply lookup_lt_Some|]. split; [done|lia]. }
    rewrite E in Hin. by apply elem_of_nil in Hin. }
  rewrite <- (Hfix i Hi), <- (Hfix j Hj). by eapply first_index_same.
Qed.

Lemma label_map_first_occurrences (vs : list (vec3 F)) (i : Z) :
  0 ≤ i < Z.of_nat (length vs) →
  label_map (first_occurrences vs) i = Z.of_nat (first_index vs (Z.to_nat i)).
Proof.
  intros Hi. unfold label_map.
  destruct (list_find _ _) as [[j [d o]]|] eqn:E.
  - apply list_find_Some in E as (Hj & Hd & _). simpl in Hd. subst d.
    apply list_elem_of_lookup_2, first_occurrences_spec in Hj
      as (k & -> & _ & -> & _).
    by rewrite Nat2Z.id.
  - apply list_find_None in E. rewrite Forall_forall in E.
    destruct (lookup_lt_is_Some_2 vs (Z.to_nat i) ltac:(lia)) as [v Hv].
    destruct (first_index_spec vs _ v Hv) as (_ & Hle & _).
    destruct (decide (first_index vs (Z.to_nat i) = Z.to_nat i)) as [->|Hne]; [lia|].
    exfalso. apply (E (i, Z.of_nat (first_index vs (Z.to_nat i)))); [|done].
    apply first_occurrences_spec. exists (Z.to_nat i).
    split; [lia|]. split; [lia|]. split; [done|lia].
Qed.

Lemma fold_insert_lookup (g : nat → Z) (pairs : list (Z * Z)) (t : list Z) (k : nat) :
  (∀ p, p ∈ pairs → ∃ j, fst p = Z.of_nat j ∧ snd p = g j) →
  (k < length t)%nat →
  t !! k = Some (g k) ∨ Z.of_nat k ∈ map fst pairs →
  fold_left (fun mapping p => <[Z.to_nat (fst p) := snd p]> mapping) pairs t !! k
  = Some (g k).
Proof.
  revert t. induction pairs as [|p pairs IH]; intros t Hp Hk Hcase; simpl.
  { destruct Hcase as [?|?%elem_of_nil]; done. }
  destruct (Hp p ltac:(left)) as (j & Hj1 & Hj2).
  apply IH.
  - intros q Hq. apply Hp. by right.
  - by rewrite length_insert.
  - destruct (decide (Z.of_nat k ∈ map fst pairs)) as [|Hnot]; [by right|left].
    rewrite Hj1, Hj2, Nat2Z.id.
    destruct (decide (j = k)) as [->|Hne].
    + by rewrite list_lookup_insert_eq.
    + rewrite list_lookup_insert_ne by done.
      destruct Hcase as [|[E|Hin]%elem_of_cons]; [done| |done]. lia.
Qed.

Lemma remap_table_first_occurrences (vs : list (vec3 F)) (k : nat) :
  (k < length vs)%nat →
  remap_table (length vs) (first_occurrences vs) !! k
  = Some (Z.of_nat (first_index vs k)).
Proof.
  intros Hk. unfold remap_table.
  apply (fold_insert_lookup (fun k => Z.of_nat (first_index vs k))).
  - intros [d o] (j & -> & _ & -> & _)%first_occurrences_spec. by exists j.
  - by rewrite length_map, length_seq.
  - destruct (decide (first_index vs k = k)) as [E|Hne].
    + left. rewrite E.
      change (map Z.of_nat ?l) with (Z.of_nat <$> l).
      by rewrite list_lookup_fmap, lookup_seq_lt.
    + right. apply list_elem_of_fmap.
      exists (Z.of_nat k, Z.of_nat (first_index vs k)). split; [done|].
      apply first_occurrences_spec. exists k. split; [done|]. split; [done|].
      split; [done|].
      destruct (lookup_lt_is_Some_2 vs k Hk) as [v Hv].
      destruct (first_index_spec vs k v Hv) as (_ & Hle & _). lia.
Qed.

Lemma index_faces_lookup (table : list Z) (g : Z → Z) (n : nat) (fs : list (vec3 Z)) :
  (∀ i, 0 ≤ i < Z.of_nat n → table !! Z.to_nat i = Some (g i)) →
  Forall (face_valid n) fs →
  index_faces table fs = Ok (map (vmap g) fs).
Proof.
  intros Ht Hv. unfold index_faces. apply result_mapM_Forall2.
  apply Forall2_fmap_r, Forall_Forall2_diag.
  eapply Forall_impl; [exact Hv|]. intros [[i0 i1] i2] (H0 & H1 & H2).
  rewrite !(np_index_Ok_lookup table _ (g _)) by (lia || by apply Ht).
  reflexivity.
Qed.

Lemma canonical_face_valid (vs : list (vec3 F)) (face : vec3 Z) :
  face_valid (length vs) face → face_valid (length vs) (canonical_face vs face).
Proof.
  destruct face as [[i0 i1] i2]. intros (H0 & H1 & H2).
  unfold canonical_face, vmap, face_valid.
  pose proof (first_index_lt vs (Z.to_nat i0) ltac:(lia)).
  pose proof (first_index_lt vs (Z.to_nat i1) ltac:(lia)).
  pose proof (first_index_lt vs (Z.to_nat i2) ltac:(lia)). lia.
Qed.

Lemma np_index_first_index (vs : list (vec3 F)) (i : Z) :
  0 ≤ i < Z.of_nat (length vs) →
  np_index vs (Z.of_nat (first_index vs (Z.to_nat i))) = np_index vs i.
Proof.
  intros Hi. destruct (np_index_valid vs i Hi) as (v & -> & Hv).
  apply np_index_Ok_lookup; [lia|]. rewrite Nat2Z.id.
  by destruct (first_index_spec vs _ v Hv) as (H1 & _).
Qed.

(** A face and its canonical form have the same corner positions. *)
Lemma face_corners_canonical (vs : list (vec3 F)) (face : vec3 Z) :
  face_valid (length vs) face →
  face_corners vs (canonical_face vs face) = face_corners vs face.
Proof.
  destruct face as [[i0 i1] i2]. intros (H0 & H1 & H2).
  unfold canonical_face, vmap, face_corners.
  by rewrite !np_index_first_index.
Qed.

End Remap.
Lemma sublist_map {A B} (f : A → B) (l1 l2 : list A) :
  sublist l1 l2 → sublist (map f l1) (map f l2).
Proof.
  induction 1; simpl; [constructor|by apply sublist_skip|by apply sublist_cons].
Qed.

Lemma sublist_Forall {A} (P : A → Prop) (l1 l2 : list A) :
  sublist l1 l2 → Forall P l2 → Forall P l1.
Proof.
  induction 1 as [|x l1 l2 _ IH|x l1 l2 _ IH]; intros Hl; [done|..];
    apply Forall_cons in Hl as [Hx Hl]; [constructor|]; auto.
Qed.

Lemma sublist_List_filter {A} (f : A → bool) (l : list A) :
  sublist (List.filter f l) l.
Proof.
  induction l as [|x l IH]; simpl; [constructor|].
  destruct (f x); [by apply sublist_skip|by apply sublist_cons].
Qed.

Section StitchDuplicates.
Context {F : Type} {f32 : Float32Ops F} {ext : External F}.

Lemma used_rows_canonical_NoDup (vs : list (vec3 F)) (fs : list (vec3 Z)) :
  Forall (face_valid (length vs)) fs →
  NoDup (used_rows (map (canonical_face vs) fs) vs).
Proof.
  intros Hv. set (fs1 := map (canonical_face vs) fs).
  assert (∀ i, vertex_used fs1 i → first_index vs i = i) as Hfix.
  { intros i Hu. unfold vertex_used, fs1 in Hu.
    apply list_elem_of_In, in_concat in Hu as (l & Hl & Hil).
    apply in_map_iff in Hl as (face1 & <- & Hface1).
    apply in_map_iff in Hface1 as (face & <- & Hface).
    destruct face as [[i0 i1] i2]. unfold canonical_face in Hil. simpl in Hil.
    destruct Hil as [E|[E|[E|[]]]]; apply Nat2Z.inj in E; rewrite <- E;
      apply first_index_idemp. }
  apply NoDup_alt. intros p q x Hp Hq.
  assert (∀ p, used_rows fs1 vs !! p = Some x →
               ∃ i, vertex_rank fs1 i = p ∧ vs !! i = Some x ∧ first_index vs i = i)
    as Hback.
  { intros r Hr. pose proof (lookup_lt_Some _ _ _ Hr) as Hlt.
    rewrite used_rows_length in Hlt.
    destruct (rank_onto fs1 r (length vs) Hlt) as (i & Hi & Hu & <-).
    exists i. split; [done|]. rewrite used_rows_lookup in Hr by done.
    split; [done|by apply Hfix]. }
  destruct (Hback p Hp) as (i & <- & Hi & Hfi).
  destruct (Hback q Hq) as (j & <- & Hj & Hfj).
  f_equal. rewrite <- Hfi, <- Hfj. by eapply first_index_same.
Qed.

(** The renumbering of the faces by either branch of [stitch_adjacent_faces]. *)
Lemma stitch_remap_faces (m : Mesh F) vs fs :
  uncompressed m vs fs [] →
  Forall (face_valid (length vs)) fs → Z.of_nat (length vs) ≤ 2 ^ 32 →
  (if _dvidutils_available then
     f ← faces;
     set_faces (map (vmap (label_map (first_occurrences vs))) f)
   else
     v ← vertices_zyx;
     let mapping := remap_table (length v) (first_occurrences vs) in
     f ← faces;
     f' ← method_lift (index_faces mapping f);
     set_faces (map (vmap as_uint32) f')) m
  = Ok (tt, set__faces (Some (map (canonical_face vs) fs)) m).
Proof.
  intros Hu Hv Hsz.
  destruct (set_faces_uncompressed m vs fs [] (map (canonical_face vs) fs) Hu)
    as (Hs & _ & _).
  destruct _dvidutils_available.
  - rewrite (method_bind_Ok _ _ _ _ _ (faces_uncompressed _ _ _ _ Hu)).
    rewrite <- Hs. f_equal. apply map_ext_in.
    intros [[i0 i1] i2] Hin%list_elem_of_In.
    rewrite Forall_forall in Hv. destruct (Hv _ Hin) as (H0 & H1 & H2).
    unfold canonical_face, vmap.
    by rewrite !label_map_first_occurrences.
  - rewrite (method_bind_Ok _ _ _ _ _ (vertices_zyx_uncompressed _ _ _ _ Hu)).
    cbv zeta.
    rewrite (method_bind_Ok _ _ _ _ _ (faces_uncompressed _ _ _ _ Hu)).
    assert (index_faces (remap_table (length vs) (first_occurrences vs)) fs
            = Ok (map (vmap (fun i => Z.of_nat (first_index vs (Z.to_nat i)))) fs))
      as Hidx.
    { apply (index_faces_lookup _ _ (length vs)); [|done].
      intros i Hi. by rewrite remap_table_first_occurrences by lia. }
    rewrite (method_bind_Ok _ _ _ _ _ (method_lift_Ok _ _ _ Hidx)).
    rewrite <- Hs. f_equal. rewrite map_map. apply map_ext_in.
    intros [[i0 i1] i2] Hin%list_elem_of_In.
    rewrite Forall_forall in Hv. destruct (Hv _ Hin) as (H0 & H1 & H2).
    unfold canonical_face, vmap.
    pose proof (first_index_lt vs (Z.to_nat i0) ltac:(lia)).
    pose proof (first_index_lt vs (Z.to_nat i1) ltac:(lia)).
    pose proof (first_index_lt vs (Z.to_nat i2) ltac:(lia)).
    by rewrite !as_uint32_small by lia.
Qed.

Lemma stitch_drop_unused_step (m : Mesh F) vs fs1 (drop_unused : bool) :
  uncompressed m vs fs1 [] → Forall (face_valid (length vs)) fs1 →
  ∃ m' vs' fs',
    (if drop_unused then drop_unused_vertices else mret tt) m = Ok (tt, m')
    ∧ uncompressed m' vs' fs' [] ∧ same_metadata m m'
    ∧ Forall (face_valid (length vs')) fs'
    ∧ map (face_corners vs') fs' = map (face_corners vs) fs1
    ∧ vs' = (if drop_unused then used_rows fs1 vs else vs).
Proof.
  intros Hu Hv. destruct drop_unused.
  - rewrite (drop_unused_vertices_explicit m vs fs1 [] Hu Hv (or_introl eq_refl)).
    destruct Hu as (Hd & _).
    eexists _, _, _. split; [reflexivity|].
    split; [by repeat split|]. split; [by repeat split|].
    split; [by apply rank_faces_valid|].
    split; [by apply face_corners_used_rows|done].
  - exists m, vs, fs1. split; [done|]. split; [done|].
    split; [apply same_metadata_refl|done].
Qed.

Lemma stitch_drop_duplicates_step (m : Mesh F) vs fs (drop_duplicate_faces : bool) :
  uncompressed m vs fs [] →
  ∃ m' fs',
    (if drop_duplicate_faces then _drop_duplicate_faces else mret tt) m = Ok (tt, m')
    ∧ uncompressed m' vs fs' [] ∧ same_metadata m m'
    ∧ sublist fs' fs ∧ (fs ≠ [] → fs' ≠ [])
    ∧ (drop_duplicate_faces = false → fs' = fs).
Proof.
  intros Hu. destruct drop_duplicate_faces.
  - unfold _drop_duplicate_faces.
    rewrite (method_bind_Ok _ _ _ _ _ (faces_uncompressed _ _ _ _ Hu)).
    destruct (set_faces_uncompressed m vs fs [] (drop_duplicated sort_row [] fs) Hu)
      as (Hs & Hu' & Hm).
    eexists _, _. split; [exact Hs|]. split; [exact Hu'|]. split; [exact Hm|].
    split; [apply drop_duplicated_sublist|]. split; [|done].
    by destruct fs.
  - exists m, fs. split; [done|]. split; [done|].
    split; [apply same_metadata_refl|done].
Qed.

(** [stitch_adjacent_faces] on a mesh that has bit-identical vertices.  On
    an uncompressed mesh with valid face indices and at most 2^32 vertices
    (and at least one face if it carries normals) it returns True.  Every
    face that remains has the corner positions of a face of the input, in
    the input's order; with [drop_unused_vertices] no two remaining vertices
    are bit-identical.  On a mesh without normals the result has no normals;
    the vertex array is untouched unless [drop_unused_vertices] is set, and
    no face is removed unless [drop_duplicate_faces] is set.  On a mesh with
    normals they are recomputed, one per vertex.  The other attributes are
    unchanged. *)
Theorem stitch_merges_duplicate_vertices (m : Mesh F) vs fs ns
    (drop_unused drop_duplicate_faces : bool) :
  uncompressed m vs fs ns → ¬ no_duplicate_vertices vs →
  Forall (face_valid (length vs)) fs → Z.of_nat (length vs) ≤ 2 ^ 32 →
  ns = [] ∨ fs ≠ [] →
  ∃ m' vs' fs' ns',
    stitch_adjacent_faces drop_unused drop_duplicate_faces m = Ok (true, m')
    ∧ uncompressed m' vs' fs' ns' ∧ same_metadata m m'
    ∧ Forall (face_valid (length vs')) fs'
    ∧ sublist (map (face_corners vs') fs') (map (face_corners vs) fs)
    ∧ (drop_unused = true → NoDup vs')
    ∧ (ns = [] →
       ns' = [] ∧ (drop_unused = false → vs' = vs)
       ∧ (drop_duplicate_faces = false → length fs' = length fs))
    ∧ (ns ≠ [] → length ns' = length vs').
Proof.
  intros Hu Hdup Hv Hsz Hcase. unfold stitch_adjacent_faces.
  rewrite (method_bind_Ok _ _ _ _ _ (normals_zyx_uncompressed _ _ _ _ Hu)).
  rewrite (method_bind_Ok _ _ _ _ _ (vertices_zyx_uncompressed _ _ _ _ Hu)).
  destruct (length (first_occurrences vs) =? 0)%nat eqn:Hpairs.
  { exfalso. apply Hdup, first_occurrences_nil_NoDup.
    apply Nat.eqb_eq in Hpairs. by destruct (first_occurrences vs). }
  (* the old normals are dropped *)
  destruct (set_normals_zyx_uncompressed m vs fs ns [] Hu) as (Hs0 & Hu0 & Hm0).
  unfold drop_normals. rewrite (method_bind_Ok _ _ _ _ _ Hs0).
  (* the faces are renumbered *)
  pose proof (stitch_remap_faces _ vs fs Hu0 Hv Hsz) as Hs1.
  destruct (set_faces_uncompressed _ vs fs [] (map (canonical_face vs) fs) Hu0)
    as (_ & Hu1 & Hm1).
  rewrite (method_bind_Ok _ _ _ _ _ Hs1).
  assert (Forall (face_valid (length vs)) (map (canonical_face vs) fs)) as Hv1.
  { apply Forall_fmap. eapply Forall_impl; [exact Hv|]. apply canonical_face_valid. }
  assert (map (face_corners vs) (map (canonical_face vs) fs)
          = map (face_corners vs) fs) as Hc1.
  { rewrite map_map. apply map_ext_in. intros face Hin%list_elem_of_In.
    apply face_corners_canonical. rewrite Forall_forall in Hv. by apply Hv. }
  (* unused vertices *)
  destruct (stitch_drop_unused_step _ vs _ drop_unused Hu1 Hv1)
    as (m2 & vs2 & fs2 & Hs2 & Hu2 & Hm2 & Hv2 & Hc2 & Hvs2).
  rewrite (method_bind_Ok _ _ _ _ _ Hs2).
  (* duplicate faces *)
  destruct (stitch_drop_duplicates_step m2 vs2 fs2 drop_duplicate_faces Hu2)
    as (m3 & fs3 & Hs3 & Hu3 & Hm3 & Hsub3 & Hne3 & Hsame3).
  rewrite (method_bind_Ok _ _ _ _ _ Hs3).
  assert (Forall (face_valid (length vs2)) fs3) as Hv3.
  { by eapply sublist_Forall. }
  assert (sublist (map (face_corners vs2) fs3) (map (face_corners vs) fs)) as Hc3.
  { rewrite <- Hc1, <- Hc2. by apply sublist_map. }
  assert (drop_unused = true → NoDup vs2) as Hnd2.
  { intros ->. rewrite Hvs2. by apply used_rows_canonical_NoDup. }
  assert (same_metadata m m3) as Hm03.
  { eauto using same_metadata_trans. }
  destruct ns as [|nrm ns].
  - (* no normals to recompute *)
    change (0 <? length (@nil (vec3 F)))%nat with false. cbv iota.
    exists m3, vs2, fs3, []. split; [reflexivity|].
    split; [done|]. split; [done|]. split; [done|]. split; [done|].
    split; [done|]. split; [|done]. intros _. split; [done|]. split.
    + intros ->. exact Hvs2.
    + intros Hb. rewrite (Hsame3 Hb).
      apply (f_equal length) in Hc2. rewrite !length_map in Hc2. done.
  - change (0 <? length (nrm :: ns))%nat with true. cbv iota.
    destruct Hcase as [|Hfs]; [done|].
    assert (fs3 ≠ []) as Hfs3.
    { apply Hne3. intros ->. apply (f_equal length) in Hc2.
      rewrite !length_map in Hc2. by destruct fs. }
    destruct (recompute_normals_true_spec m3 vs2 fs3 [] Hu3 Hfs3 Hv3)
      as (m4 & vs4 & fs4 & ns4 & Hs4 & Hu4 & Hm4 & Hl4 & _ & _ & Hfs4 & Hvs4).
    rewrite (method_bind_Ok _ _ _ _ _ Hs4).
    exists m4, vs4, fs4, ns4. split; [reflexivity|].
    split; [done|]. split; [eauto using same_metadata_trans|].
    assert (sublist fs4 fs3) as Hsub4.
    { rewrite Hfs4. apply sublist_List_filter. }
    assert (fs4 = [] ∨ vs4 = vs2) as [E4 | E4].
    { rewrite Hvs4. unfold vertices_kept. rewrite <- Hfs4.
      destruct fs4; [by left|by right]. }
    + rewrite E4. split; [constructor|]. split; [apply sublist_nil_l|].
      split; [|split; [done|done]].
      intros Hb. rewrite Hvs4. unfold vertices_kept. rewrite <- Hfs4, E4. constructor.
    + rewrite E4. split; [by eapply sublist_Forall|].
      split.
      { etrans; [|exact Hc3]. by apply sublist_map. }
      split; [done|]. split; [done|]. intros _. congruence.
Qed.

End StitchDuplicates.
Section SerializeFacts.
Context {F : Type} {f32 : Float32Ops F} {ext : External F} {wr : Writers F}.

Lemma assert_format (fmt : string) (m : Mesh F) :
  fmt ∈ MESH_FORMATS →
  method_lift (py_assert (bool_decide (fmt ∈ MESH_FORMATS))) m = Ok (tt, m).
Proof. intros Hf. unfold method_lift. by rewrite bool_decide_eq_true_2. Qed.

(** Serializing a mesh without vertices gives zero bytes in every format
    and leaves the mesh as it is, and loading zero bytes gives the empty
    mesh: an empty mesh survives a round trip through any format, except
    for its box and fragment metadata, which are not stored. *)
Theorem serialize_empty_mesh (m : Mesh F) fs ns (fmt : string) :
  uncompressed m [] fs ns → _draco_bytes m = None → fmt ∈ MESH_FORMATS →
  serialize None (Some fmt) m = Ok (Returned [], m)
  ∧ (∀ path, splitext_ext path = "." +:+ fmt →
       serialize (Some path) None m = Ok (Written path [], m))
  ∧ from_buffer [] fmt = Ok (Some empty_mesh).
Proof.
  intros Hu Hd Hf. split; [|split].
  - unfold serialize.
    rewrite (method_bind_Ok _ _ _ _ _ (assert_format fmt m Hf)).
    rewrite (method_bind_Ok _ _ m (_draco_bytes m) m) by done.
    rewrite Hd.
    rewrite (method_bind_Ok _ _ m true m); [done|].
    by rewrite (method_bind_Ok _ _ _ _ _ (vertices_zyx_uncompressed _ _ _ _ Hu)).
  - intros path Hext. unfold serialize. rewrite Hext.
    assert (String.substring 1 (String.length ("." +:+ fmt)) ("." +:+ fmt) = fmt) as ->.
    { unfold MESH_FORMATS in Hf.
      repeat (apply elem_of_cons in Hf as [->|Hf]; [reflexivity|]).
      by apply elem_of_nil in Hf. }
    rewrite (method_bind_Ok _ _ _ _ _ (assert_format fmt m Hf)).
    rewrite (method_bind_Ok _ _ m (_draco_bytes m) m) by done.
    rewrite Hd.
    rewrite (method_bind_Ok _ _ m true m); [done|].
    by rewrite (method_bind_Ok _ _ _ _ _ (vertices_zyx_uncompressed _ _ _ _ Hu)).
  - unfold from_buffer. rewrite bool_decide_eq_true_2 by done.
    change (length (@nil Byte.byte) =? 0)%nat with true.
    change (py_assert true) with (Ok tt). cbv beta iota delta [mbind result_bind].
    by rewrite Mesh_init_empty.
Qed.

Lemma serialize_draco_bytes_fresh
    (encode : list (vec3 F) → list (vec3 F) → list (vec3 Z) → Method F bytes)
    (m : Mesh F) vs fs ns :
  _dvidutils_available = true →
  uncompressed m vs fs ns → ns ≠ [] → _draco_bytes m = None →
  serialize_draco_bytes encode m = encode (map vrev vs) (map vrev ns) fs m.
Proof.
  intros Ha Hu Hns Hd. unfold serialize_draco_bytes. rewrite Ha.
  rewrite (method_bind_Ok _ _ m tt m) by done.
  rewrite (method_bind_Ok _ _ m (_draco_bytes m) m) by done.
  rewrite Hd.
  rewrite (method_bind_Ok _ _ _ _ _ (normals_zyx_uncompressed _ _ _ _ Hu)).
  destruct ns as [|nrm ns]; [done|].
  change (length (nrm :: ns) =? 0)%nat with false. cbv iota.
  rewrite (method_bind_Ok _ _ m tt m) by done.
  rewrite (method_bind_Ok _ _ _ _ _ (vertices_zyx_uncompressed _ _ _ _ Hu)).
  rewrite (method_bind_Ok _ _ _ _ _ (normals_zyx_uncompressed _ _ _ _ Hu)).
  by rewrite (method_bind_Ok _ _ _ _ _ (faces_uncompressed _ _ _ _ Hu)).
Qed.

Lemma serialize_draco_bytes_recompute
    (encode : list (vec3 F) → list (vec3 F) → list (vec3 Z) → Method F bytes)
    (m m' : Mesh F) vs fs vs' fs' ns' :
  _dvidutils_available = true →
  uncompressed m vs fs [] → _draco_bytes m = None →
  recompute_normals true m = Ok (tt, m') → uncompressed m' vs' fs' ns' →
  serialize_draco_bytes encode m = encode (map vrev vs') (map vrev ns') fs' m'.
Proof.
  intros Ha Hu Hd Hr Hu'. unfold serialize_draco_bytes. rewrite Ha.
  rewrite (method_bind_Ok _ _ m tt m) by done.
  rewrite (method_bind_Ok _ _ m (_draco_bytes m) m) by done.
  rewrite Hd.
  rewrite (method_bind_Ok _ _ _ _ _ (normals_zyx_uncompressed _ _ _ _ Hu)).
  change (length (@nil (vec3 F)) =? 0)%nat with true. cbv iota.
  rewrite (method_bind_Ok _ _ _ _ _ Hr).
  rewrite (method_bind_Ok _ _ _ _ _ (vertices_zyx_uncompressed _ _ _ _ Hu')).
  rewrite (method_bind_Ok _ _ _ _ _ (normals_zyx_uncompressed _ _ _ _ Hu')).
  by rewrite (method_bind_Ok _ _ _ _ _ (faces_uncompressed _ _ _ _ Hu')).
Qed.

(** [serialize] never reuses the Draco bytes of a compressed mesh.  On a
    mesh that holds non-empty Draco bytes which decode to at least one
    vertex with normals, [serialize(fmt='drc')] first reads the vertex
    count, which decodes the bytes and discards them; it then encodes the
    decoded arrays again and returns that encoding, and the mesh is left
    uncompressed. *)
Theorem serialize_reencodes_draco_bytes (m : Mesh F) (b b' : bytes) vs fs ns :
  _dvidutils_available = true →
  _destroyed m = false → _vertices_zyx m = None → _faces m = None →
  _normals_zyx m = None → _draco_bytes m = Some b → _lz4_items m = None →
  b ≠ [] →
  decode_drc_bytes_to_faces b = Ok (map vrev vs, map vrev ns, fs) →
  vs ≠ [] → ns ≠ [] →
  encode_faces_to_drc_bytes (map vrev vs) (map vrev ns) fs = Ok b' →
  ∃ m', serialize None (Some "drc") m = Ok (Returned b', m')
        ∧ uncompressed m' vs fs ns
        ∧ _draco_bytes m' = None ∧ _lz4_items m' = None
        ∧ vertices_zyx m = Ok (vs, m').
Proof.
  intros Ha Hd Hv Hf Hn Hb Hl Hne Hdec Hvs Hns Henc.
  destruct m as [pcm dst v f n db lz a1 a2 a3 a4 bx]. simpl in *. subst.
  set (m := mkMesh pcm false None None None (Some b) None a1 a2 a3 a4 bx).
  set (m1 := mkMesh pcm false (Some vs) (Some fs) (Some ns) None None a1 a2 a3 a4 bx).
  assert (vertices_zyx m = Ok (vs, m1)) as Hread.
  { unfold vertices_zyx.
    erewrite auto_uncompress_compressed;
      [|reflexivity|reflexivity|by apply uncompress_draco_explicit].
    reflexivity. }
  assert (uncompressed m1 vs fs ns) as Hu by (by repeat split).
  exists m1. split; [|by repeat split].
  unfold serialize.
  rewrite (method_bind_Ok _ _ m tt m) by done.
  rewrite (method_bind_Ok _ _ m (Some b) m) by done.
  destruct b as [|b0 b]; [done|].
  rewrite (method_bind_Ok _ _ m false m1).
  2:{ rewrite (method_bind_Ok _ _ _ _ _ Hread). by destruct vs. }
  cbv iota. change (String.eqb "drc" "obj") with false.
  change (String.eqb "drc" "drc") with true. cbv iota.
  rewrite (method_bind_Ok _ _ m1 b' m1); [done|].
  rewrite (serialize_draco_bytes_fresh _ m1 vs fs ns Ha Hu Hns eq_refl).
  unfold method_lift. by rewrite Henc.
Qed.

(** [serialize(fmt='drc')] changes a mesh that has no normals.  On an
    uncompressed mesh without normals, with at least one vertex, at least
    one face and valid face indices, it recomputes the normals with
    degenerate-face removal before encoding: afterwards the mesh has one
    normal per vertex and only the faces whose normal is not zero, and the
    bytes returned encode those arrays.  With normals present the mesh is
    left as it is. *)
Theorem serialize_drc_recomputes_normals (m : Mesh F) vs fs ns :
  _dvidutils_available = true →
  uncompressed m vs fs ns → _draco_bytes m = None →
  vs ≠ [] → fs ≠ [] → Forall (face_valid (length vs)) fs →
  (ns = [] →
     ∃ m' vs' fs' ns',
       recompute_normals true m = Ok (tt, m')
       ∧ uncompressed m' vs' fs' ns' ∧ same_metadata m m'
       ∧ length ns' = length vs'
       ∧ fs' = faces_kept vs fs ∧ vs' = vertices_kept vs fs
       ∧ serialize None (Some "drc") m
         = match encode_faces_to_drc_bytes (map vrev vs') (map vrev ns') fs' with
           | Ok data => Ok (Returned data, m')
           | Raise e => Raise e
           end)
  ∧ (ns ≠ [] →
     serialize None (Some "drc") m
     = match encode_faces_to_drc_bytes (map vrev vs) (map vrev ns) fs with
       | Ok data => Ok (Returned data, m)
       | Raise e => Raise e
       end).
Proof.
  intros Ha Hu Hd Hvs Hfs Hv.
  assert (serialize None (Some "drc") m
          = (data ← serialize_draco_bytes
                           (fun v n f => method_lift (encode_faces_to_drc_bytes v n f));
                  mret (Returned data)) m) as Hser.
  { unfold serialize.
    rewrite (method_bind_Ok _ _ m tt m) by done.
    rewrite (method_bind_Ok _ _ m (_draco_bytes m) m) by done.
    rewrite Hd.
    rewrite (method_bind_Ok _ _ m false m); [done|].
    rewrite (method_bind_Ok _ _ _ _ _ (vertices_zyx_uncompressed _ _ _ _ Hu)).
    by destruct vs. }
  split.
  - intros ->.
    destruct (recompute_normals_true_spec m vs fs [] Hu Hfs Hv)
      as (m' & vs' & fs' & ns' & Hr & Hu' & Hm' & Hl & _ & _ & Hfs' & Hvs').
    exists m', vs', fs', ns'. split; [done|]. split; [done|]. split; [done|].
    split; [done|]. split; [done|]. split; [done|].
    rewrite Hser.
    unfold mbind, method_mbind, method_bind.
    rewrite (serialize_draco_bytes_recompute _ m m' vs fs vs' fs' ns' Ha Hu Hd Hr Hu').
    unfold method_lift. by destruct (encode_faces_to_drc_bytes _ _ _).
  - intros Hns. rewrite Hser.
    unfold mbind, method_mbind, method_bind.
    rewrite (serialize_draco_bytes_fresh _ m vs fs ns Ha Hu Hns Hd).
    unfold method_lift. by destruct (encode_faces_to_drc_bytes _ _ _).
Qed.

End SerializeFacts.
Lemma Permutation_concat_map {A B} (f : A → list B) (l1 l2 : list A) :
  l1 ≡ₚ l2 → concat (map f l1) ≡ₚ concat (map f l2).
Proof.
  induction 1 as [|x l1 l2 _ IH|x y l|l1 l2 l3 _ IH1 _ IH2]; simpl.
  - done.
  - by rewrite IH.
  - rewrite !app_assoc. f_equiv. apply Permutation_app_comm.
  - by rewrite IH1.
Qed.

Lemma concat_map_concat {A B} (f : A → list B) (ls : list (list A)) :
  concat (map (fun l => concat (map f l)) ls) = concat (map f (concat ls)).
Proof.
  induction ls as [|l ls IH]; simpl; [done|].
  by rewrite map_app, concat_app, IH.
Qed.

Lemma result_mapM_cons {A B} (f : A → Result B) (x : A) (l : list A) :
  result_mapM f (x :: l) = (y ← f x; ys ← result_mapM f l; Ok (y :: ys)).
Proof. reflexivity. Qed.

Section BrickFacts.
Context {F : Type} {f32 : Float32Ops F} {ext : External F}.

Lemma kept_meshes_filter (pre vertex_count : list Z) (meshes : list (Mesh F)) :
  length vertex_count = length meshes →
  result_mapM (fun '(idx, mesh) =>
      c ← np_index (pre ++ vertex_count) (Z.of_nat idx);
      Ok (if 0 <? c then [mesh] else []))
    (imap (fun j => pair (length pre + j)%nat) meshes)
  = Ok (zip_with (fun c mesh => if 0 <? c then [mesh] else []) vertex_count meshes).
Proof.
  revert pre vertex_count.
  induction meshes as [|mesh meshes IH]; intros pre [|c vc] Hlen; try done.
  rewrite imap_pair_cons, result_mapM_cons.
  specialize (IH (pre ++ [c]) vc ltac:(simpl in Hlen; lia)).
  rewrite <- app_assoc in IH. simpl in IH.
  rewrite length_app in IH. simpl in IH.
  replace (length pre + 1)%nat with (S (length pre)) in IH by lia.
  rewrite IH.
  rewrite (np_index_Ok_lookup _ _ c); [done|lia|].
  rewrite Nat2Z.id. by rewrite list_lookup_middle.
Qed.

Lemma dict_append_Permutation (key : vec3 Z) (mesh : Mesh F) d :
  concat (map snd (dict_append key mesh d)) ≡ₚ mesh :: concat (map snd d).
Proof.
  induction d as [|[k ms] d IH]; simpl; [done|].
  case_bool_decide; simpl.
  - rewrite <- app_assoc. simpl. by rewrite <- Permutation_middle.
  - rewrite IH. by rewrite <- Permutation_middle.
Qed.

Lemma dict_append_keys (key : vec3 Z) (mesh : Mesh F) d k :
  k ∈ map fst (dict_append key mesh d) ↔ k = key ∨ k ∈ map fst d.
Proof.
  induction d as [|[k' ms] d IH]; simpl.
  - rewrite elem_of_cons. split; [intros [?|?]; [by left|by right]|].
    intros [?|?%elem_of_nil]; [by left|done].
  - case_bool_decide as Hk; simpl.
    + subst. rewrite elem_of_cons. tauto.
    + rewrite !elem_of_cons, IH. tauto.
Qed.

Lemma dict_append_NoDup (key : vec3 Z) (mesh : Mesh F) d :
  NoDup (map fst d) → NoDup (map fst (dict_append key mesh d)).
Proof.
  induction d as [|[k ms] d IH]; simpl; intros Hd.
  - repeat constructor. by intros ?%elem_of_nil.
  - apply NoDup_cons in Hd as [Hk Hd].
    case_bool_decide as Hkey; simpl.
    + by constructor.
    + constructor; [|by apply IH].
      rewrite dict_append_keys. intros [->|?]; done.
Qed.

Lemma dict_append_groups (f : Mesh F → vec3 Z) (mesh : Mesh F) d :
  Forall (fun e => e.2 ≠ [] ∧ Forall (fun x => f x = e.1) e.2) d →
  Forall (fun e => e.2 ≠ [] ∧ Forall (fun x => f x = e.1) e.2)
    (dict_append (f mesh) mesh d).
Proof.
  induction 1 as [|[k ms] d [Hne Hms] Hd IH]; simpl.
  - constructor; [|constructor]. simpl. split; [done|]. by constructor.
  - case_bool_decide as Hkey; simpl.
    + constructor; [|done]. simpl in *. split.
      * by destruct ms.
      * apply Forall_app. split; [done|]. by repeat constructor.
    + by constructor.
Qed.

(** The dictionary of [group_meshes_into_larger_bricks]. *)
Lemma group_dictionary (shape : vec3 Z) (meshes : list (Mesh F))
    (d : list (vec3 Z * list (Mesh F))) :
  Forall (fun mesh => is_Some (_fragment_origin mesh)) meshes →
  NoDup (map fst d) →
  Forall (fun e => e.2 ≠ [] ∧ Forall (fun x => brick_origin shape x = e.1) e.2) d →
  ∃ d', foldl (fun acc mesh =>
                 d ← acc;
                 fragment_origin ← match _fragment_origin mesh with
                                   | Some o => Ok o
                                   | None => Raise TypeError
                                   end;
                 let combined_fragment_origin :=
                   vzip (fun s o => s * (o / s)) shape fragment_origin in
                 Ok (dict_append combined_fragment_origin mesh d))
          (Ok d) meshes = Ok d'
        ∧ NoDup (map fst d')
        ∧ Forall (fun e => e.2 ≠ [] ∧ Forall (fun x => brick_origin shape x = e.1) e.2) d'
        ∧ concat (map snd d') ≡ₚ concat (map snd d) ++ meshes.
Proof.
  intros Hall. revert d.
  induction Hall as [|mesh meshes [o Ho] _ IH]; intros d Hnd Hg; simpl.
  { exists d. rewrite app_nil_r. by repeat split. }
  rewrite Ho. simpl.
  assert (vzip (fun s o => s * (o / s)) shape o = brick_origin shape mesh) as ->.
  { unfold brick_origin. by rewrite Ho. }
  destruct (IH (dict_append (brick_origin shape mesh) mesh d)) as (d' & Hf & H1 & H2 & H3).
  - by apply dict_append_NoDup.
  - by apply dict_append_groups.
  - exists d'. split; [done|]. split; [done|]. split; [done|].
    rewrite H3, dict_append_Permutation. by rewrite <- Permutation_middle.
Qed.

Lemma mesh_arrays_uncompressed (mesh : Mesh F) vs fs ns :
  uncompressed mesh vs fs ns → mesh_arrays mesh (vs, fs, ns).
Proof.
  intros Hu. unfold mesh_arrays, read. simpl.
  rewrite (vertices_zyx_uncompressed _ _ _ _ Hu), (faces_uncompressed _ _ _ _ Hu),
    (normals_zyx_uncompressed _ _ _ _ Hu). done.
Qed.

Lemma mesh_arrays_exist (ms : list (Mesh F)) :
  Forall (fun mesh => ∃ vs fs ns, uncompressed mesh vs fs ns) ms →
  ∃ arrs, Forall2 mesh_arrays ms arrs
          ∧ map (fun a => a.1.1) arrs = map mesh_vertices ms.
Proof.
  induction 1 as [|mesh ms (vs & fs & ns & Hu) _ (arrs & IH1 & IH2)].
  - exists []. split; [constructor|done].
  - exists ((vs, fs, ns) :: arrs). split.
    + constructor; [by apply mesh_arrays_uncompressed|done].
    + simpl. rewrite IH2. f_equal. unfold mesh_vertices.
      destruct Hu as (_ & -> & _). done.
Qed.

(** One brick per entry of the dictionary. *)
Lemma combine_bricks (shape : vec3 Z) (d : list (vec3 Z * list (Mesh F))) :
  Forall (fun e => e.2 ≠ []
                   ∧ Forall (fun mesh => ∃ vs fs ns, uncompressed mesh vs fs ns) e.2) d →
  ∃ bricks,
    result_mapM (fun '(fragment_origin, meshes_to_combine) =>
        combined_mesh ← concatenate_meshes meshes_to_combine false;
        Ok (set__fragment_shape (Some shape)
             (set__fragment_origin (Some fragment_origin)
               (set_fullscale_fragment_shape (Some shape)
                 (set_fullscale_fragment_origin (Some fragment_origin)
                    combined_mesh))))) d
    = Ok bricks
    ∧ Forall2 (fun e brick =>
                 _destroyed brick = false
                 ∧ _vertices_zyx brick = Some (concat (map mesh_vertices e.2))
                 ∧ _normals_zyx brick = Some []
                 ∧ _fragment_origin brick = Some e.1
                 ∧ _fragment_shape brick = Some shape) d bricks.
Proof.
  induction 1 as [|[k ms] d [Hne Hms] _ (bricks & IH1 & IH2)]; simpl.
  { exists []. split; [done|constructor]. }
  simpl in Hne, Hms.
  destruct (mesh_arrays_exist ms Hms) as (arrs & Harrs & Hvs).
  destruct ms as [|mesh ms]; [done|].
  rewrite (concatenate_meshes_explicit _ arrs false (box mesh) (map box ms) Harrs
             eq_refl ltac:(discriminate)).
  simpl. rewrite IH1. simpl.
  eexists. split; [reflexivity|].
  constructor; [|done]. simpl. rewrite Hvs. by repeat split.
Qed.

End BrickFacts.
Lemma Sorted_map_impl {A B} (f : A → B) (R : A → A → Prop) (R' : B → B → Prop)
    (l : list A) :
  (∀ x y, R x y → R' (f x) (f y)) → Sorted R l → Sorted R' (map f l).
Proof.
  intros HR. induction 1 as [|x l _ IH Hhd]; simpl; constructor; [done|].
  destruct Hhd; simpl; constructor. by apply HR.
Qed.

Lemma result_bind_Ok {A B} (a : A) (k : A → Result B) : (x ← Ok a; k x) = k a.
Proof. reflexivity. Qed.

Section BrickTheorem.
Context {F : Type} {f32 : Float32Ops F} {ext : External F}.

(** [concatenate_mesh_bytes] regroups the meshes without losing a vertex.
    Let the kept meshes be those with a positive vertex count; they are
    uncompressed and carry a fragment origin, the first one carries a
    fragment shape, and [highest_res_lod <= current_lod].  Then the
    function returns one list of bricks: their vertices together are the
    vertices of the kept meshes (a permutation), no two bricks have the same
    origin, every brick has the shape of the level of detail, no normals,
    and the origin of the brick of one of the kept meshes, and the bricks
    are in Z-curve (Morton) order of their grid positions whenever those
    are non-negative.  If no mesh is kept, IndexError is raised. *)
Theorem concatenate_mesh_bytes_regroups (meshes : list (Mesh F))
    (vertex_count : list Z) (current_lod highest_res_lod : Z)
    (first : Mesh F) (rest : list (Mesh F)) (brick_shape : vec3 Z) :
  length vertex_count = length meshes →
  (kept_meshes vertex_count meshes = [] →
     concatenate_mesh_bytes meshes vertex_count current_lod highest_res_lod
     = Raise IndexError)
  ∧ (highest_res_lod ≤ current_lod →
     kept_meshes vertex_count meshes = first :: rest →
     _fragment_shape first = Some brick_shape →
     Forall (fun mesh => is_Some (_fragment_origin mesh)
                         ∧ ∃ vs fs ns, uncompressed mesh vs fs ns)
       (first :: rest) →
     let shape := vmap (Z.mul (2 ^ (current_lod - highest_res_lod))) brick_shape in
     ∃ bricks,
       concatenate_mesh_bytes meshes vertex_count current_lod highest_res_lod
       = Ok [bricks]
       ∧ concat (map mesh_vertices bricks) ≡ₚ concat (map mesh_vertices (first :: rest))
       ∧ NoDup (map _fragment_origin bricks)
       ∧ Forall (fun brick =>
                   _fragment_shape brick = Some shape
                   ∧ _normals_zyx brick = Some []
                   ∧ ∃ mesh, mesh ∈ first :: rest
                             ∧ _fragment_origin brick = Some (brick_origin shape mesh))
           bricks
       ∧ ∀ n, Forall (fun brick => bounded_coord n (brick_coordinate shape brick))
                bricks →
              Sorted (fun a b => morton n (brick_coordinate shape a)
                                 ≤ morton n (brick_coordinate shape b)) bricks).
Proof.
  intros Hlen.
  pose proof (kept_meshes_filter [] vertex_count meshes Hlen) as Hkept.
  change (imap (fun j => pair (length (@nil Z) + j)%nat) meshes)
    with (imap pair meshes) in Hkept.
  change ([] ++ vertex_count) with vertex_count in Hkept.
  fold (kept_meshes vertex_count meshes) in Hkept.
  assert (concatenate_mesh_bytes meshes vertex_count current_lod highest_res_lod
          = (meshes ← group_meshes_into_larger_bricks
                        (kept_meshes vertex_count meshes) current_lod highest_res_lod;
             match meshes with
             | [] => Raise ValueError
             | first :: _ =>
                 keyed ← result_mapM (fun mesh =>
                            match _fragment_origin mesh, _fragment_shape first with
                            | Some o, Some s => Ok (mesh, vzip Z.div o s)
                            | _, _ => Raise TypeError
                            end) meshes;
                 let ordered :=
                   sorted_cmp (fun x y => _cmp_zorder (snd x) (snd y)) keyed in
                 Ok [map fst ordered]
             end)) as ->.
  { unfold concatenate_mesh_bytes. rewrite Hkept. reflexivity. }
  split.
  { intros ->. reflexivity. }
  intros _ -> Hshape Hall shape.
  unfold group_meshes_into_larger_bricks. rewrite Hshape.
  rewrite result_bind_Ok. cbv beta zeta. fold shape.
  destruct (group_dictionary shape (first :: rest) [])
    as (d & Hd & Hnd & Hgroups & Hperm).
  { eapply Forall_impl; [exact Hall|]. by intros mesh [? _]. }
  { constructor. }
  { constructor. }
  simpl in Hperm.
  cbv beta zeta in Hd. rewrite Hd, result_bind_Ok.
  assert (Forall (fun mesh => ∃ vs fs ns, uncompressed mesh vs fs ns)
            (concat (map snd d))) as Hun.
  { rewrite Hperm. eapply Forall_impl; [exact Hall|]. by intros mesh [_ ?]. }
  apply Forall_concat in Hun.
  destruct (combine_bricks shape d) as (bricks & Hb & Hbricks).
  { apply Forall_forall. intros e He. rewrite Forall_forall in Hgroups.
    split; [by apply Hgroups|].
    rewrite Forall_forall in Hun. apply Hun. by apply list_elem_of_fmap_2. }
  rewrite Hb, result_bind_Ok.
  (* facts about the bricks *)
  assert (map mesh_vertices bricks
          = map (fun l => concat (map mesh_vertices l)) (map snd d)) as Hverts.
  { clear -Hbricks. induction Hbricks as [|e brick d bricks (_ & Hv & _) _ IH];
      simpl; [done|]. rewrite IH. f_equal. unfold mesh_vertices at 1. by rewrite Hv. }
  assert (map _fragment_origin bricks = map (fun e => Some e.1) d) as Horigins.
  { clear -Hbricks. induction Hbricks as [|e brick d bricks (_ & _ & _ & Ho & _) _ IH];
      simpl; [done|]. by rewrite IH, Ho. }
  assert (Forall (fun brick => _fragment_shape brick = Some shape) bricks) as Hshapes.
  { clear -Hbricks. induction Hbricks as [|e brick d bricks (_ & _ & _ & _ & Hs) _ IH];
      constructor; done. }
  assert (bricks ≠ []) as Hne.
  { intros ->. apply Forall2_nil_inv_r in Hbricks as ->.
    simpl in Hperm. by apply Permutation_nil_cons in Hperm. }
  destruct bricks as [|brick0 bricks0]; [done|]. cbv iota.
  remember (brick0 :: bricks0) as bricks eqn:Ebricks.
  assert (_fragment_shape brick0 = Some shape) as Hs0.
  { rewrite Ebricks in Hshapes. by apply Forall_cons in Hshapes as [? _]. }
  (* the sort keys *)
  assert (result_mapM (fun mesh =>
              match _fragment_origin mesh, _fragment_shape brick0 with
              | Some o, Some s => Ok (mesh, vzip Z.div o s)
              | _, _ => Raise TypeError
              end) bricks
          = Ok (map (fun brick => (brick, brick_coordinate shape brick)) bricks))
    as Hkeyed.
  { rewrite Hs0. apply result_mapM_Forall2, Forall2_fmap_r, Forall_Forall2_diag.
    apply Forall_forall. intros brick Hin.
    assert (is_Some (_fragment_origin brick)) as [o Ho].
    { apply (list_elem_of_fmap_2 _fragment_origin) in Hin.
      change (_fragment_origin <$> bricks) with (map _fragment_origin bricks) in Hin.
      rewrite Horigins in Hin.
      apply list_elem_of_fmap in Hin as (e & -> & _). by eexists. }
    unfold brick_coordinate, compose. cbv beta. by rewrite Ho. }
  rewrite Hkeyed, result_bind_Ok. cbv beta zeta. clear Hkeyed.
  set (keyed := map (fun brick => (brick, brick_coordinate shape brick)) bricks).
  set (ordered := sorted_cmp (fun x y => _cmp_zorder x.2 y.2) keyed).
  assert (ordered ≡ₚ keyed) as Hord by apply sorted_lt_Permutation.
  assert (map fst ordered ≡ₚ bricks) as Hfst.
  { rewrite Hord. unfold keyed. rewrite map_map. simpl. by rewrite map_id. }
  exists (map fst ordered). split; [reflexivity|].
  split; [|split; [|split]].
  - rewrite (Permutation_concat_map mesh_vertices _ _ Hfst).
    rewrite Hverts, concat_map_concat.
    by apply Permutation_concat_map.
  - rewrite Hfst. rewrite Horigins.
    apply (NoDup_fmap_2 (fun k => Some k)) in Hnd.
    by rewrite <- list_fmap_compose in Hnd.
  - rewrite Hfst. apply Forall_forall. intros brick Hin.
    rewrite Forall_forall in Hshapes. split; [by apply Hshapes|].
    apply list_elem_of_lookup in Hin as [i Hi].
    destruct (Forall2_lookup_r _ _ _ _ _ Hbricks Hi)
      as ([k ms] & He & (_ & _ & Hn & Ho & _)).
    split; [done|]. simpl in Ho.
    apply list_elem_of_lookup_2 in He.
    rewrite Forall_forall in Hgroups. destruct (Hgroups _ He) as [Hms Hkey].
    simpl in Hms, Hkey. destruct ms as [|mesh ms]; [done|].
    apply Forall_cons in Hkey as [Hkey _].
    exists mesh. split; [|by rewrite Ho, Hkey].
    rewrite <- Hperm. apply list_elem_of_In, in_concat. exists (mesh :: ms).
    split; [|by left].
    apply in_map_iff. exists (k, mesh :: ms). split; [done|by apply list_elem_of_In].
  - intros n Hbound.
    apply (Sorted_map_impl fst
             (fun x y => ¬ morton n (brick_coordinate shape y.1)
                           < morton n (brick_coordinate shape x.1))).
    { intros x y. lia. }
    apply (sorted_lt_Sorted _ (fun x => morton n (brick_coordinate shape x.1)) Z.lt
             (fun x => bounded_coord n x.2 ∧ x.2 = brick_coordinate shape x.1)).
    + intros k. lia.
    + intros k1 k2 k3. lia.
    + intros x y [Hx Ex] [Hy Ey]. rewrite Z.ltb_lt.
      rewrite (cmp_zorder_morton n) by done. by rewrite Ex, Ey.
    + unfold keyed. apply Forall_fmap.
      apply Forall_forall. intros brick Hin. simpl. split; [|done].
      rewrite Forall_forall in Hbound. apply Hbound. by rewrite Hfst.
Qed.

End BrickTheorem.
Section SmoothingTopology.
Context {F : Type} {f32 : Float32Ops F} {f64 : Float64Ops F} {ext : External F}.

Lemma faces_kept_sublist (vs : list (vec3 F)) (fs : list (vec3 Z)) :
  sublist (faces_kept vs fs) fs.
Proof. apply sublist_List_filter. Qed.

Lemma vertices_kept_length (vs : list (vec3 F)) (fs : list (vec3 Z)) :
  faces_kept vs fs ≠ [] → vertices_kept vs fs = vs.
Proof. unfold vertices_kept. by destruct (faces_kept vs fs). Qed.

(** Smoothing keeps the topology.  On an uncompressed mesh with at least
    one face and valid face indices, [laplacian_smooth(N)] with N other
    than 0 moves vertices but never adds, removes or renumbers one: the
    faces afterwards are a sub-sequence of the old faces (those that did
    not become degenerate), there are as many vertices as before unless no
    face is left, in which case there is none, and the box and the fragment
    metadata are those of the input, although the vertices have moved. *)
Theorem laplacian_smooth_keeps_topology (m : Mesh F) vs fs ns (iterations : Z) :
  uncompressed m vs fs ns → fs ≠ [] → Forall (face_valid (length vs)) fs →
  iterations ≠ 0 →
  ∃ m' vs' fs' ns',
    laplacian_smooth iterations m = Ok (tt, m')
    ∧ uncompressed m' vs' fs' ns' ∧ same_metadata m m'
    ∧ sublist fs' fs
    ∧ Forall (face_valid (length vs')) fs'
    ∧ (fs' ≠ [] → length vs' = length vs)
    ∧ (fs' = [] → vs' = [])
    ∧ length ns' = length vs'.
Proof.
  intros Hu Hfs Hv Hit. unfold laplacian_smooth.
  destruct (Z.eqb_spec iterations 0) as [|_]; [done|].
  destruct (set_normals_zyx_uncompressed m vs fs ns [] Hu) as (Hs & Hu0 & Hm0).
  rewrite (method_bind_Ok _ _ _ _ _ Hs).
  rewrite (method_bind_Ok _ _ _ _ _ (faces_uncompressed _ _ _ _ Hu0)).
  rewrite (method_bind_Ok _ _ _ _ _ (vertices_zyx_uncompressed _ _ _ _ Hu0)).
  pose proof (unique_edges_valid (length vs) fs Hv) as He.
  destruct (np_bincount_valid
              (concat (map (fun e => [fst e; snd e]) (unique_edges fs))) (length vs))
    as (counts & Hb & Hlc).
  { apply Forall_concat, Forall_fmap. eapply Forall_impl; [exact He|].
    intros e [??]. constructor; [done|]. constructor; [done|]. constructor. }
  rewrite (method_bind_Ok _ _ _ _ _ (method_lift_Ok _ _ _ Hb)).
  destruct (smooth_loop_valid (Z.to_nat iterations) (unique_edges fs) counts
              _ vs fs [] Hu0 He Hlc) as (m1 & vs1 & Hloop & Hu1 & Hm1 & Hl1).
  rewrite (method_bind_Ok _ _ _ _ _ Hloop).
  assert (Forall (face_valid (length vs1)) fs) as Hv1 by (by rewrite Hl1).
  destruct (recompute_normals_true_spec m1 vs1 fs [] Hu1 Hfs Hv1)
    as (m' & vs' & fs' & ns' & Hr & Hu' & Hm' & Hl & _ & _ & Hfs' & Hvs').
  rewrite (method_bind_Ok _ _ _ _ _ Hr).
  rewrite (method_bind_Ok _ _ _ _ _ (normals_zyx_uncompressed _ _ _ _ Hu')).
  rewrite (method_bind_Ok _ _ _ _ _ (vertices_zyx_uncompressed _ _ _ _ Hu')).
  exists m', vs', fs', ns'.
  split; [by rewrite Hl, Nat.eqb_refl|].
  split; [done|]. split; [eauto using same_metadata_trans|].
  assert (sublist fs' fs) as Hsub by (rewrite Hfs'; apply faces_kept_sublist).
  split; [done|].
  assert (fs' ≠ [] → vs' = vs1) as Hkeep.
  { intros Hne. rewrite Hvs'. apply vertices_kept_length. by rewrite <- Hfs'. }
  assert (fs' = [] → vs' = []) as Hempty.
  { intros E. rewrite Hvs'. unfold vertices_kept. by rewrite <- Hfs', E. }
  split; [|split; [|split; [done|done]]].
  - destruct (decide (fs' = [])) as [E|Hne].
    + rewrite E. constructor.
    + rewrite (Hkeep Hne). by eapply sublist_Forall.
  - intros Hne. by rewrite Hkeep.
Qed.

(** [recompute_normals(False)] only sets the normals.  On an uncompressed
    mesh with at least one face and valid face indices it leaves the
    vertices and the faces, degenerate ones included, as they are and
    stores one normal per vertex. *)
Theorem recompute_normals_keeps_degenerate_faces (m : Mesh F) vs fs ns :
  uncompressed m vs fs ns → fs ≠ [] → Forall (face_valid (length vs)) fs →
  ∃ m' ns',
    recompute_normals false m = Ok (tt, m')
    ∧ uncompressed m' vs fs ns' ∧ same_metadata m m'
    ∧ length ns' = length vs.
Proof.
  intros Hu Hfs Hv.
  destruct (compute_face_normals_cross vs fs Hfs Hv) as (fns & Hfns & H2).
  assert (Hlen : length fns = length fs) by (symmetry; exact (Forall2_length _ _ _ H2)).
  clear H2.
  unfold recompute_normals.
  rewrite (method_bind_Ok _ _ _ _ _ (vertices_zyx_uncompressed _ _ _ _ Hu)).
  rewrite (method_bind_Ok _ _ _ _ _ (faces_uncompressed _ _ _ _ Hu)).
  rewrite (method_bind_Ok _ _ _ _ _ (method_lift_Ok _ _ _ Hfns)).
  clear Hfns.
  rewrite (method_bind_Ok _ _ m fns m) by reflexivity.
  rewrite (method_bind_Ok _ _ _ _ _ (faces_uncompressed _ _ _ _ Hu)).
  assert ((length fs =? 0)%nat = false) as ->.
  { apply Nat.eqb_neq. intros E. apply Hfs. by apply length_zero_iff_nil. }
  rewrite (method_bind_Ok _ _ _ _ _ (vertices_zyx_uncompressed _ _ _ _ Hu)).
  rewrite (method_bind_Ok _ _ _ _ _ (faces_uncompressed _ _ _ _ Hu)).
  destruct (compute_vertex_normals_valid _numba_available vs fs fns Hv Hlen)
    as (n & Hn & Hln).
  rewrite (method_bind_Ok _ _ _ _ _ (method_lift_Ok _ _ _ Hn)).
  destruct (set_normals_zyx_uncompressed m vs fs ns n Hu) as (Hs & Hu' & Hm').
  exists (set__normals_zyx (Some n) m), n.
  split; [exact Hs|]. split; [exact Hu'|]. split; [exact Hm'|exact Hln].
Qed.

End SmoothingTopology.

Section MoreExamples.
Import Examples.
Existing Instance IEEE.float32.
Existing Instance IEEE.float64.
Existing Instance Demo.external.
Existing Instance demo_writers.

Lemma destroy_keeps_lz4_items_witness :
  ∃ m', destroy lz4_mesh = Ok (tt, m')
    ∧ _destroyed m' = true
    ∧ compress (Some "lz4") m' = Ok (48%nat, m').
Proof.
  destruct (destroy_keeps_lz4_items lz4_mesh _ eq_refl) as (m' & Hd & Hx & _ & Hc).
  exists m'. split; [exact Hd|]. split; [exact Hx|]. exact Hc.
Defined.

Lemma lz4_round_trip_witness :
  ∃ n m1, compress (Some "lz4") triangle_mesh = Ok (n, m1)
    ∧ vertices_zyx m1 = Ok ([row 0 0 0; row 1 0 0; row 0 1 0], triangle_mesh).
Proof.
  destruct (lz4_round_trip triangle_mesh
              [row 0 0 0; row 1 0 0; row 0 1 0] [(0, 1, 2)]
              [row 0 0 1; row 0 0 1; row 0 0 1])
    as (n & m1 & Hc & _ & _ & _ & Hv & _).
  - intros b. reflexivity.
  - vm_compute. reflexivity.
  - vm_compute. reflexivity.
  - vm_compute. reflexivity.
  - repeat split; reflexivity.
  - reflexivity.
  - reflexivity.
  - exists n, m1. split; [exact Hc|exact Hv].
Defined.

Lemma draco_round_trip_witness :
  ∃ n m1, compress (Some "draco") triangle_mesh = Ok (n, m1)
    ∧ faces m1 = Ok ([(0, 1, 2)], triangle_mesh).
Proof.
  destruct (draco_round_trip triangle_mesh
              [row 0 0 0; row 1 0 0; row 0 1 0] [(0, 1, 2)]
              [row 0 0 1; row 0 0 1; row 0 0 1]
              (Demo.encode_drc (map vrev [row 0 0 0; row 1 0 0; row 0 1 0])
                 (map vrev [row 0 0 1; row 0 0 1; row 0 0 1]) [(0, 1, 2)]))
    as (m1 & Hc & _ & _ & _ & _ & Hf & _).
  - reflexivity.
  - reflexivity.
  - vm_compute. reflexivity.
  - repeat split; reflexivity.
  - reflexivity.
  - reflexivity.
  - eexists _, m1. split; [exact Hc|exact Hf].
Defined.

Lemma representation_invariant_witness :
  representation_ok lz4_mesh
  ∧ ∀ m' vs, vertices_zyx lz4_mesh = Ok (vs, m') →
      representation_ok m' ∧ _lz4_items m' = None.
Proof.
  assert (representation_ok lz4_mesh) as Hok.
  { split; [reflexivity|]. right. right. repeat split. eexists. reflexivity. }
  split; [exact Hok|]. intros m' vs H.
  destruct (representation_invariant lz4_mesh m') as [_ Hinv].
  destruct (Hinv Hok) as (_ & Hv & _).
  destruct (Hv vs H) as (H1 & _ & _ & H2). exact (conj H1 H2).
Defined.

Lemma concatenate_meshes_keeps_triangles_witness :
  ∃ result fs',
    concatenate_meshes [triangle_mesh; triangle_mesh] false = Ok result
    ∧ _faces result = Some fs'
    ∧ length fs' = 2%nat.
Proof.
  set (a := ([row 0 0 0; row 1 0 0; row 0 1 0], [(0, 1, 2)],
             [row 0 0 1; row 0 0 1; row 0 0 1])
            : list (vec3 spec_float) * list (vec3 Z) * list (vec3 spec_float)).
  assert (Forall2 mesh_arrays [triangle_mesh; triangle_mesh] [a; a]) as H.
  { repeat constructor. }
  assert (Forall (fun a => Forall (face_valid (length a.1.1)) a.1.2) [a; a]) as Hv.
  { repeat constructor; simpl; lia. }
  assert (Z.of_nat (length (concat (map (fun a => a.1.1) [a; a]))) ≤ 2 ^ 32) as Hsz.
  { simpl. lia. }
  assert ([triangle_mesh; triangle_mesh] ≠ []) as Hne by discriminate.
  pose proof (concatenate_meshes_keeps_triangles _ [a; a] false Hne H Hv Hsz
                ltac:(discriminate)) as (result & vs' & fs' & Hr & Hu & _ & Hl & _).
  exists result, fs'. split; [exact Hr|].
  destruct Hu as (_ & _ & Hf & _). split; [exact Hf|exact Hl].
Defined.

Lemma concatenate_meshes_box_is_union_witness :
  ∃ result,
    concatenate_meshes [triangle_mesh; corner_mesh] false = Ok result
    ∧ box_contains (box result) (box corner_mesh).
Proof.
  assert (∃ arrs, Forall2 mesh_arrays [triangle_mesh; corner_mesh] arrs) as (arrs & H).
  { eexists [(_, _, _); (_, _, _)]. repeat constructor. }
  assert ([triangle_mesh; corner_mesh] ≠ []) as Hne by discriminate.
  pose proof (concatenate_meshes_box_is_union _ arrs false Hne H
                ltac:(discriminate)) as (result & Hr & Hin & _).
  exists result. split; [exact Hr|]. apply Hin. right. left.
Defined.

Lemma drop_unused_vertices_keeps_triangles_witness :
  ∃ m', drop_unused_vertices
          (mesh_of [row 9 9 9; row 0 0 0; row 1 0 0; row 0 1 0] [(1, 2, 3)] [])
        = Ok (tt, m')
    ∧ _vertices_zyx m' = Some [row 0 0 0; row 1 0 0; row 0 1 0].
Proof.
  set (vs := [row 9 9 9; row 0 0 0; row 1 0 0; row 0 1 0]).
  assert (uncompressed (mesh_of vs [(1, 2, 3)] []) vs [(1, 2, 3)] []) as Hu.
  { repeat split. }
  assert (Forall (face_valid (length vs)) [(1, 2, 3)]) as Hv.
  { repeat constructor; simpl; lia. }
  pose proof (drop_unused_vertices_keeps_triangles _ vs [(1, 2, 3)] [] Hu Hv
                (or_introl eq_refl)) as (m' & fs' & Hr & Hu' & _).
  exists m'. split; [exact Hr|].
  destruct Hu' as (_ & Hvs & _). exact Hvs.
Defined.

Lemma drop_duplicate_faces_keeps_first_witness :
  ∃ m' fs',
    _drop_duplicate_faces
      (mesh_of [row 0 0 0; row 1 0 0; row 0 1 0] [(0, 1, 2); (2, 1, 0)] [])
    = Ok (tt, m')
    ∧ _faces m' = Some fs'
    ∧ sublist fs' [(0, 1, 2); (2, 1, 0)].
Proof.
  set (vs := [row 0 0 0; row 1 0 0; row 0 1 0]).
  assert (uncompressed (mesh_of vs [(0, 1, 2); (2, 1, 0)] [])
            vs [(0, 1, 2); (2, 1, 0)] []) as Hu.
  { repeat split. }
  pose proof (drop_duplicate_faces_keeps_first _ vs _ [] Hu)
    as (m' & fs' & Hr & Hu' & _ & Hsub & _).
  exists m', fs'. split; [exact Hr|].
  destruct Hu' as (_ & _ & Hf & _). exact (conj Hf Hsub).
Defined.

Lemma from_file_is_from_buffer_witness :
  from_file (fun _ => Some (ngmesh_point 1 2 3)) "m.ngmesh"
  = from_buffer (ngmesh_point 1 2 3) "ngmesh".
Proof.
  destruct (from_file_is_from_buffer (fun _ => Some (ngmesh_point 1 2 3)) "m.ngmesh")
    as [_ H].
  destruct (H _ eq_refl) as [H1 _].
  apply (H1 "ngmesh"); [repeat constructor|reflexivity].
Defined.

Lemma from_tarfile_custom_drc_member_witness :
  from_tarfile [mkTarMember "a.custom_drc" (Demo.le32 1)] true true
  = Raise AttributeError.
Proof.
  assert (mkTarMember "a.custom_drc" (Demo.le32 1)
          ∈ [mkTarMember "a.custom_drc" (Demo.le32 1)]) as Hin by constructor.
  assert (0 < member_size (mkTarMember "a.custom_drc" (Demo.le32 1)))%nat as Hsz.
  { vm_compute. lia. }
  pose proof (from_tarfile_custom_drc_member _ _ true Hin eq_refl Hsz) as (_ & H & _).
  exact H.
Defined.

Lemma from_tarfile_nothing_loaded_witness :
  from_tarfile [mkTarMember "readme.txt" (Demo.le32 1); mkTarMember "a.obj" []]
    true true
  = Raise ValueError.
Proof.
  assert (Forall member_skipped
            [mkTarMember "readme.txt" (Demo.le32 1); mkTarMember "a.obj" []]) as Hall.
  { constructor; [|constructor; [|constructor]].
    - left. intros H.
      repeat (apply elem_of_cons in H as [H|H]; [discriminate|]).
      by apply elem_of_nil in H.
    - right. left. reflexivity. }
  pose proof (from_tarfile_nothing_loaded _ true Hall) as [_ H]. exact H.
Defined.

Lemma unreferenced_vertex_normal_is_zero_witness :
  ∃ n, compute_vertex_normals false
         [row 9 9 9; row 0 0 0; row 1 0 0; row 0 1 0] [(1, 2, 3)] false
         (Some [row 0 0 1])
       = Ok n
    ∧ n !! 0%nat = Some (S754_zero false, S754_zero false, S754_zero false).
Proof.
  set (vs := [row 9 9 9; row 0 0 0; row 1 0 0; row 0 1 0]).
  assert (Forall (face_valid (length vs)) [(1, 2, 3)]) as Hv.
  { repeat constructor; simpl; lia. }
  assert (¬ vertex_used [(1, 2, 3)] 0) as Hu.
  { intros H. unfold vertex_used in H. simpl in H.
    repeat (apply elem_of_cons in H as [H|H]; [discriminate|]).
    by apply elem_of_nil in H. }
  assert (0 < length vs)%nat as H0 by (simpl; lia).
  pose proof (unreferenced_vertex_normal_is_zero false vs [(1, 2, 3)] [row 0 0 1]
                false Hv eq_refl) as (n & Hn & _ & Hz).
  exists n. split; [exact Hn|]. exact (Hz 0%nat H0 Hu).
Defined.

Lemma mesh_without_faces_raises_witness :
  recompute_normals true (empty_mesh (F := spec_float)) = Raise ValueError
  ∧ laplacian_smooth 1 (empty_mesh (F := spec_float)) = Raise ValueError.
Proof.
  assert (uncompressed (empty_mesh (F := spec_float)) [] [] []) as Hu.
  { repeat split. }
  assert (1 ≠ 0 ∨ @nil (vec3 spec_float) = []) as Hcase by (left; lia).
  pose proof (mesh_without_faces_raises _ [] [] Hu) as (H1 & H2 & _).
  exact (conj (H1 true) (H2 1 Hcase)).
Defined.

Lemma stitch_merges_duplicate_vertices_witness :
  ∃ m' vs',
    stitch_adjacent_faces true true
      (mesh_of [row 0 0 0; row 1 0 0; row 0 1 0; row 1 0 0; row 0 1 0; row 1 1 0]
         [(0, 1, 2); (3, 5, 4)] [])
    = Ok (true, m')
    ∧ _vertices_zyx m' = Some vs' ∧ NoDup vs'.
Proof.
  set (vs := [row 0 0 0; row 1 0 0; row 0 1 0; row 1 0 0; row 0 1 0; row 1 1 0]).
  set (fs := [(0, 1, 2); (3, 5, 4)]).
  assert (uncompressed (mesh_of vs fs []) vs fs []) as Hu.
  { repeat split. }
  assert (¬ no_duplicate_vertices vs) as Hdup.
  { intros H.
    pose proof (proj1 (NoDup_alt vs) H 1%nat 3%nat _ eq_refl eq_refl). discriminate. }
  assert (Forall (face_valid (length vs)) fs) as Hv.
  { repeat constructor; simpl; lia. }
  assert (Z.of_nat (length vs) ≤ 2 ^ 32) as Hsz by (simpl; lia).
  pose proof (stitch_merges_duplicate_vertices _ vs fs [] true true Hu Hdup Hv Hsz
                (or_introl eq_refl))
    as (m' & vs' & fs' & ns' & Hr & Hu' & _ & _ & _ & Hnd & _).
  exists m', vs'. split; [exact Hr|].
  destruct Hu' as (_ & Hvs & _). exact (conj Hvs (Hnd eq_refl)).
Defined.

Lemma serialize_empty_mesh_witness :
  serialize None (Some "ngmesh") (empty_mesh (F := spec_float))
  = Ok (Returned [], empty_mesh).
Proof.
  assert (uncompressed (empty_mesh (F := spec_float)) [] [] []) as Hu.
  { repeat split. }
  assert ("ngmesh" ∈ MESH_FORMATS) as Hf by repeat constructor.
  pose proof (serialize_empty_mesh _ [] [] "ngmesh" Hu eq_refl Hf) as (H & _).
  exact H.
Defined.

Lemma serialize_reencodes_draco_bytes_witness :
  ∃ data m',
    serialize None (Some "drc")
      (mkMesh (Some "draco") false None None None
         (Some (Demo.encode_drc (map vrev [row 0 0 0; row 1 0 0; row 0 1 0])
                  (map vrev [row 0 0 1; row 0 0 1; row 0 0 1]) [(0, 1, 2)]))
         None None None None None ((0, 0, 0), (1, 1, 0)))
    = Ok (Returned data, m')
    ∧ _draco_bytes m' = None.
Proof.
  set (vs := [row 0 0 0; row 1 0 0; row 0 1 0]).
  set (ns := [row 0 0 1; row 0 0 1; row 0 0 1]).
  set (b := Demo.encode_drc (map vrev vs) (map vrev ns) [(0, 1, 2)]).
  assert (b ≠ []) as Hne by (vm_compute; discriminate).
  assert (decode_drc_bytes_to_faces b = Ok (map vrev vs, map vrev ns, [(0, 1, 2)]))
    as Hdec by (vm_compute; reflexivity).
  assert (vs ≠ []) as Hvs by discriminate.
  assert (ns ≠ []) as Hns by discriminate.
  pose proof (serialize_reencodes_draco_bytes
                (mkMesh (Some "draco") false None None None (Some b) None
                   None None None None ((0, 0, 0), (1, 1, 0)))
                b b vs [(0, 1, 2)] ns
                eq_refl eq_refl eq_refl eq_refl eq_refl eq_refl eq_refl
                Hne Hdec Hvs Hns eq_refl) as (m' & Hs & _ & Hd & _).
  exists b, m'. exact (conj Hs Hd).
Defined.

Lemma serialize_drc_recomputes_normals_witness :
  ∃ m' ns', recompute_normals true corner_mesh = Ok (tt, m')
            ∧ _normals_zyx m' = Some ns'
            ∧ length ns' = 3%nat.
Proof.
  set (vs := [row 0 0 0; row 8 8 8; row 4 2 1]).
  assert (uncompressed corner_mesh vs [(0, 1, 2)] []) as Hu.
  { repeat split. }
  assert (vs ≠ []) as Hvs by discriminate.
  assert ([(0, 1, 2)] ≠ @nil (vec3 Z)) as Hfs by discriminate.
  assert (Forall (face_valid (length vs)) [(0, 1, 2)]) as Hv.
  { repeat constructor; simpl; lia. }
  pose proof (serialize_drc_recomputes_normals corner_mesh vs [(0, 1, 2)] []
                eq_refl Hu eq_refl Hvs Hfs Hv) as [H _].
  pose proof (H eq_refl) as (m' & vs' & fs' & ns' & Hr & Hu' & _ & Hl & _ & Hvs' & _).
  exists m', ns'. split; [exact Hr|].
  destruct Hu' as (_ & _ & _ & Hn). split; [exact Hn|].
  rewrite Hl, Hvs'. reflexivity.
Defined.

Lemma concatenate_mesh_bytes_regroups_witness :
  ∃ bricks,
    concatenate_mesh_bytes [corner_mesh; triangle_mesh] [3; 3] 0 0 = Ok [bricks]
    ∧ NoDup (map _fragment_origin bricks).
Proof.
  assert (Forall (fun mesh => is_Some (_fragment_origin mesh)
                              ∧ ∃ vs fs ns, uncompressed mesh vs fs ns)
            [corner_mesh; triangle_mesh]) as Hall.
  { constructor; [|constructor; [|constructor]];
      (split; [by eexists|]); eexists _, _, _; repeat split. }
  assert (0 ≤ 0) as Hlod by lia.
  pose proof (concatenate_mesh_bytes_regroups [corner_mesh; triangle_mesh] [3; 3] 0 0
                corner_mesh [triangle_mesh] (8, 8, 8) eq_refl) as [_ H].
  pose proof (H Hlod eq_refl eq_refl Hall) as (bricks & Hr & _ & Hnd & _).
  exists bricks. exact (conj Hr Hnd).
Defined.

Lemma laplacian_smooth_keeps_topology_witness :
  ∃ m' fs', laplacian_smooth 1 fan_mesh = Ok (tt, m')
            ∧ _faces m' = Some fs'
            ∧ sublist fs' [(0, 1, 2); (0, 2, 3); (0, 3, 4); (0, 4, 1)]
            ∧ fs' ≠ [].
Proof.
  set (vs := [row 0 0 0; row 0 2 0; row 0 0 2; row 0 (-2) 0; row 0 0 (-2)]).
  set (fs := [(0, 1, 2); (0, 2, 3); (0, 3, 4); (0, 4, 1)]).
  assert (uncompressed fan_mesh vs fs []) as Hu.
  { repeat split. }
  assert (fs ≠ @nil (vec3 Z)) as Hfs by discriminate.
  assert (Forall (face_valid (length vs)) fs) as Hv.
  { repeat constructor; simpl; lia. }
  assert (1 ≠ 0) as Hit by lia.
  pose proof (laplacian_smooth_keeps_topology fan_mesh vs fs [] 1
                Hu Hfs Hv Hit) as (m' & vs' & fs' & ns' & Hr & Hu' & _ & Hsub & _).
  exists m', fs'. split; [exact Hr|].
  destruct Hu' as (_ & _ & Hf & _). split; [exact Hf|]. split; [exact Hsub|].
  assert (∃ m'', laplacian_smooth 1 fan_mesh = Ok (tt, m'') ∧ _faces m'' = Some fs)
    as (m'' & Hs' & Hf').
  { eexists. vm_compute. split; reflexivity. }
  rewrite Hr in Hs'. injection Hs' as <-. rewrite Hf in Hf'.
  injection Hf' as ->. discriminate.
Defined.

Lemma recompute_normals_keeps_degenerate_faces_witness :
  ∃ m', recompute_normals false sliver_mesh = Ok (tt, m')
        ∧ _faces m' = Some [(0, 1, 2)].
Proof.
  set (vs := [row 0 0 0; row 1 0 0; row 2 0 0]).
  set (ns := [row 0 0 1; row 0 0 1; row 0 0 1]).
  assert (uncompressed sliver_mesh vs [(0, 1, 2)] ns) as Hu.
  { repeat split. }
  assert ([(0, 1, 2)] ≠ @nil (vec3 Z)) as Hfs by discriminate.
  assert (Forall (face_valid (length vs)) [(0, 1, 2)]) as Hv.
  { repeat constructor; simpl; lia. }
  pose proof (recompute_normals_keeps_degenerate_faces sliver_mesh vs [(0, 1, 2)] ns
                Hu Hfs Hv) as (m' & ns' & Hr & Hu' & _).
  exists m'. split; [exact Hr|].
  destruct Hu' as (_ & _ & Hf & _). exact Hf.
Defined.

End MoreExamples.
